(** * tiny-json: an in-place JSON parser over a caller supplied node pool.

    Shallow embedding of [tiny-json.c].  The text buffer is a list of
    character codes addressed by index (a [CHAR_T*] is an index into the
    buffer), the node array [mem] is a list of [json_t] records addressed by
    index (a [json_t*] is an index into [mem], the null pointer is [None]).
    Reading the buffer past its last cell yields the NUL character: the list
    is the C string together with whatever the caller stored behind it, and
    its end acts as the final terminator. *)

From Stdlib Require Import ZArith List String Ascii Lia Bool Arith.
Import ListNotations.

(** ** Characters and buffers *)

(** Modelled from the spec: the character type [CHAR_T] and the literal
    macro [T] are declared in the header [tiny-json.h], which is not among
    the sources; a character is its code. *)
Definition CHAR_T := Z.

(** [T_ c] is the character constant [T('c')], [T s] the string literal
    [T("s")] without its terminating NUL (the end of the list stands for it). *)
Definition T_ (c : ascii) : CHAR_T := Z.of_N (N_of_ascii c).
Definition T (s : string) : list CHAR_T := map T_ (list_ascii_of_string s).

Definition NUL : CHAR_T := 0%Z.
Definition QUOTE : CHAR_T := 34%Z.
Definition BACKSLASH : CHAR_T := 92%Z.

Definition buffer := list CHAR_T.

(** [*p] *)
Definition rd (b : buffer) (p : nat) : CHAR_T := nth p b NUL.

(** [*p = c] *)
Fixpoint wr (b : buffer) (p : nat) (c : CHAR_T) : buffer :=
  match b, p with
  | [], _ => []
  | _ :: t, O => c :: t
  | x :: t, S p' => x :: wr t p' c
  end.

(** [<ctype.h>] in the C locale. *)
Definition isdigit (c : CHAR_T) : bool := ((48 <=? c) && (c <=? 57))%Z.
Definition isxdigit (c : CHAR_T) : bool :=
  (isdigit c || ((65 <=? c) && (c <=? 70)) || ((97 <=? c) && (c <=? 102)))%Z.

(** [strcmp] of [<string.h>]: the first difference, the end of a list being
    NUL; only its sign is used. *)
Fixpoint strcmp (a b : list CHAR_T) : Z :=
  match a, b with
  | [], [] => 0
  | [], y :: _ => (0 - y)
  | x :: _, [] => x
  | x :: a', y :: b' => if (x =? y)%Z then strcmp a' b' else (x - y)
  end%Z.

(** The C string that starts at [p]: the characters up to the first NUL. *)
Fixpoint cstr_from (l : list CHAR_T) : list CHAR_T :=
  match l with
  | [] => []
  | c :: l' => if (c =? 0)%Z then [] else c :: cstr_from l'
  end.
Definition cstr (b : buffer) (p : nat) : list CHAR_T := cstr_from (skipn p b).

(** ** Character classifiers *)

Fixpoint isOneOfThem (ch : CHAR_T) (set : list CHAR_T) : bool :=
  match set with
  | [] => false
  | s :: set' => if (ch =? s)%Z then true else isOneOfThem ch set'
  end.

Fixpoint goWhile_from (l : list CHAR_T) (str : nat) (set : list CHAR_T)
  : option nat :=
  match l with
  | [] => None
  | c :: l' =>
      if (c =? NUL)%Z then None
      else if isOneOfThem c set then goWhile_from l' (S str) set
      else Some str
  end.

Definition goWhile (b : buffer) (str : nat) (set : list CHAR_T) : option nat :=
  goWhile_from (skipn str b) str set.

Definition blank : list CHAR_T :=
  [T_ " "; 10; 13; 9; 12]%Z.

Definition goBlank (b : buffer) (str : nat) : option nat := goWhile b str blank.

Fixpoint goNum_from (l : list CHAR_T) (str : nat) : option nat :=
  match l with
  | [] => None
  | c :: l' =>
      if (c =? NUL)%Z then None
      else if isdigit c then goNum_from l' (S str)
      else Some str
  end.

Definition goNum (b : buffer) (str : nat) : option nat :=
  goNum_from (skipn str b) str.

Definition endofblock : list CHAR_T := T "}]".

Definition setToNull (b : buffer) (ch : nat) : buffer * nat :=
  if negb (isOneOfThem (rd b ch) endofblock) then (wr b ch NUL, S ch)
  else (b, ch).

Definition isEndOfPrimitive (ch : CHAR_T) : bool :=
  (ch =? T_ ",")%Z || isOneOfThem ch blank || isOneOfThem ch endofblock.

(** ** String unescaper *)

Definition escape_pairs : list (CHAR_T * CHAR_T) :=
  [ (QUOTE, QUOTE); (BACKSLASH, BACKSLASH);
    (T_ "/", T_ "/");   (T_ "b", 8);
    (T_ "f", 12);       (T_ "n", 10);
    (T_ "r", 13);       (T_ "t", 9) ]%Z.

Fixpoint getEscape_in (pair : list (CHAR_T * CHAR_T)) (ch : CHAR_T) : CHAR_T :=
  match pair with
  | [] => NUL
  | (c, code) :: pair' => if (c =? ch)%Z then code else getEscape_in pair' ch
  end.

Definition getEscape (ch : CHAR_T) : CHAR_T := getEscape_in escape_pairs ch.

Definition getCharFromUnicode (b : buffer) (str : nat) : CHAR_T :=
  if forallb (fun i => isxdigit (rd b (str + i))) [0; 1; 2; 3]
  then T_ "?" else NUL.

(** Outcome of a loop run with a bound on its number of iterations: [Ret r]
    is what the C function returns, [OutOfFuel] says the bound was too small. *)
Inductive outcome (A : Type) : Type :=
| Ret (r : A)
| OutOfFuel.
Arguments Ret {A} r.
Arguments OutOfFuel {A}.

(** The [for] loop of [parseString]; a null result is [Ret None]. *)
Fixpoint parseString_loop (fuel : nat) (b : buffer) (head tail : nat)
  : outcome (option (nat * buffer)) :=
  match fuel with
  | O => OutOfFuel
  | S fuel' =>
      if (rd b head =? NUL)%Z then Ret None
      else if (rd b head =? QUOTE)%Z then Ret (Some (S head, wr b tail NUL))
      else if (rd b head =? BACKSLASH)%Z then
        let head := S head in
        if (rd b head =? T_ "u")%Z then
          let head := S head in
          let ch := getCharFromUnicode b head in
          if (ch =? NUL)%Z then Ret None
          else parseString_loop fuel' (wr b tail ch) (S (head + 3)) (S tail)
        else
          let esc := getEscape (rd b head) in
          if (esc =? NUL)%Z then Ret None
          else parseString_loop fuel' (wr b tail esc) (S head) (S tail)
      else parseString_loop fuel' (wr b tail (rd b head)) (S head) (S tail)
  end.

(** Every iteration moves [head] at least one cell towards the end of the
    buffer, so [length b] iterations and one more for the exit suffice
    (lemma [parseString_loop_fuel]). *)
Definition parseString (b : buffer) (str : nat) : outcome (option (nat * buffer)) :=
  parseString_loop (S (List.length b)) b str str.

(** Sequencing of loop outcomes. *)
Definition obind {A B : Type} (m : outcome A) (k : A -> outcome B) : outcome B :=
  match m with
  | Ret r => k r
  | OutOfFuel => OutOfFuel
  end.

(** ** Nodes *)

(** Modelled from the spec: the header [tiny-json.h] is not part of the
    sources at hand.  The type tag is the enumeration listed in the data
    model, Object and Array first, so that [JSON_ARRAY >= type] holds of the
    two container tags only. *)
Inductive jsonType_t : Type :=
| JSON_OBJ | JSON_ARRAY | JSON_TEXT | JSON_INTEGER
| JSON_REAL | JSON_BOOLEAN | JSON_NULL.

(** The value of each enumerator. *)
Definition jsonType_code (t : jsonType_t) : Z :=
  match t with
  | JSON_OBJ => 0 | JSON_ARRAY => 1 | JSON_TEXT => 2 | JSON_INTEGER => 3
  | JSON_REAL => 4 | JSON_BOOLEAN => 5 | JSON_NULL => 6
  end%Z.

Definition jsonType_eqb (a b : jsonType_t) : bool :=
  (jsonType_code a =? jsonType_code b)%Z.

(** Modelled from the spec: the node record of [tiny-json.h].  [sibling] and
    [name] are pointers; the union [u] overlays the scalar's [value] pointer
    and the container's [c.child] in one cell ([u_value]), [c.last_child]
    being the second cell of the union. *)
Record json_t : Type := mk_json {
  sibling : option nat;
  name : option nat;
  u_value : option nat;
  u_c_last_child : option nat;
  type : jsonType_t
}.

Definition u_c_child (n : json_t) : option nat := u_value n.

Definition node0 : json_t := mk_json None None None None JSON_OBJ.

Definition memory := list json_t.

(** [mem[i]] and the field assignments [mem[i].f = v]. *)
Definition node (mem : memory) (i : nat) : json_t := nth i mem node0.

Fixpoint upd (mem : memory) (i : nat) (f : json_t -> json_t) : memory :=
  match mem, i with
  | [], _ => []
  | n :: t, O => f n :: t
  | n :: t, S i' => n :: upd t i' f
  end.

Definition set_sibling (v : option nat) (n : json_t) : json_t :=
  mk_json v (name n) (u_value n) (u_c_last_child n) (type n).
Definition set_name (v : option nat) (n : json_t) : json_t :=
  mk_json (sibling n) v (u_value n) (u_c_last_child n) (type n).
Definition set_u_value (v : option nat) (n : json_t) : json_t :=
  mk_json (sibling n) (name n) v (u_c_last_child n) (type n).
Definition set_u_c_child := set_u_value.
Definition set_u_c_last_child (v : option nat) (n : json_t) : json_t :=
  mk_json (sibling n) (name n) (u_value n) v (type n).
Definition set_type (v : jsonType_t) (n : json_t) : json_t :=
  mk_json (sibling n) (name n) (u_value n) (u_c_last_child n) v.

(** Modelled from the spec: the inline getters of [tiny-json.h]. *)
Definition json_getType (n : json_t) : jsonType_t := type n.
Definition json_getValue (n : json_t) : option nat := u_value n.

(** ** Pool allocator *)

(** Modelled from the spec: the pool capability [jsonPool_t] of the header,
    two operations over some pool state, each handing out a node pointer. *)
Class jsonPool_t (P : Type) : Type := {
  init : P -> nat * P;
  alloc : P -> option nat * P
}.

(** The fixed array pool; the array itself is the parser's [memory].  The
    cursor stays below the capacity, so the two [unsigned int] fields never
    wrap. *)
Record jsonStaticPool_t : Type := mk_spool {
  qty : nat;
  nextFree : nat
}.

Definition poolInit (spool : jsonStaticPool_t) : nat * jsonStaticPool_t :=
  (0, mk_spool (qty spool) 1).

Definition poolAlloc (spool : jsonStaticPool_t) : option nat * jsonStaticPool_t :=
  if qty spool <=? nextFree spool then (None, spool)
  else (Some (nextFree spool), mk_spool (qty spool) (S (nextFree spool))).

#[export] Instance staticPool : jsonPool_t jsonStaticPool_t :=
  {| init := poolInit; alloc := poolAlloc |}.

(** ** Scalar scanners *)

(** [propertyName]: the result is the position of the value, with the
    rewritten buffer and the node array. *)
Definition propertyName (b : buffer) (mem : memory) (ptr property : nat)
  : outcome (option (nat * buffer * memory)) :=
  let ptr := S ptr in
  let mem := upd mem property (set_name (Some ptr)) in
  obind (parseString b ptr) (fun r =>
  match r with
  | None => Ret None
  | Some (ptr, b) =>
      match goBlank b ptr with
      | None => Ret None
      | Some ptr =>
          if negb (rd b ptr =? T_ ":")%Z then Ret None
          else match goBlank b (S ptr) with
               | None => Ret None
               | Some ptr => Ret (Some (ptr, b, mem))
               end
      end
  end).

Definition textValue (b : buffer) (mem : memory) (ptr property : nat)
  : outcome (option (nat * buffer * memory)) :=
  let mem := upd mem property
                 (fun n => set_u_value (option_map S (u_value n)) n) in
  obind (parseString b (S ptr)) (fun r =>
  match r with
  | None => Ret None
  | Some (ptr, b) => Ret (Some (ptr, b, upd mem property (set_type JSON_TEXT)))
  end).

Fixpoint checkStr (b : buffer) (ptr : nat) (str : list CHAR_T) : option nat :=
  match str with
  | [] => Some ptr
  | s :: str' => if (rd b ptr =? s)%Z then checkStr b (S ptr) str' else None
  end.

Definition primitiveValue (b : buffer) (mem : memory) (ptr property : nat)
    (value : list CHAR_T) (ty : jsonType_t) : option (nat * buffer * memory) :=
  match checkStr b ptr value with
  | None => None
  | Some ptr =>
      if negb (isEndOfPrimitive (rd b ptr)) then None
      else let '(b, ptr) := setToNull b ptr in
           Some (ptr, b, upd mem property (set_type ty))
  end.

Definition trueValue b mem ptr property :=
  primitiveValue b mem ptr property (T "true") JSON_BOOLEAN.
Definition falseValue b mem ptr property :=
  primitiveValue b mem ptr property (T "false") JSON_BOOLEAN.
Definition nullValue b mem ptr property :=
  primitiveValue b mem ptr property (T "null") JSON_NULL.

Definition expValue (b : buffer) (ptr : nat) : option nat :=
  let ptr := if ((rd b ptr =? T_ "-") || (rd b ptr =? T_ "+"))%Z
             then S ptr else ptr in
  if negb (isdigit (rd b ptr)) then None
  else goNum b (S ptr).

Definition fraqValue (b : buffer) (ptr : nat) : option nat :=
  if negb (isdigit (rd b ptr)) then None
  else goNum b (S ptr).

(** The grammar part of [numValue], up to the end-of-primitive test: the
    position reached and the type tag stored in the node. *)
Definition numValue_scan (b : buffer) (ptr : nat) : option (nat * jsonType_t) :=
  let ptr := if (rd b ptr =? T_ "-")%Z then S ptr else ptr in
  if negb (isdigit (rd b ptr)) then None
  else
    let int_end :=
      if negb (rd b ptr =? T_ "0")%Z then goNum b ptr
      else if isdigit (rd b (S ptr)) then None else Some (S ptr) in
    match int_end with
    | None => None
    | Some ptr =>
        let ty := JSON_INTEGER in
        let after_fraq :=
          if (rd b ptr =? T_ ".")%Z then
            match fraqValue b (S ptr) with
            | None => None
            | Some ptr => Some (ptr, JSON_REAL)
            end
          else Some (ptr, ty) in
        match after_fraq with
        | None => None
        | Some (ptr, ty) =>
            let after_exp :=
              if ((rd b ptr =? T_ "e") || (rd b ptr =? T_ "E"))%Z then
                match expValue b (S ptr) with
                | None => None
                | Some ptr => Some (ptr, JSON_REAL)
                end
              else Some (ptr, ty) in
            match after_exp with
            | None => None
            | Some (ptr, ty) =>
                if negb (isEndOfPrimitive (rd b ptr)) then None
                else Some (ptr, ty)
            end
        end
    end.

Definition min_literal : list CHAR_T := T "-9223372036854775808".
Definition max_literal : list CHAR_T := T "9223372036854775807".

(** Conversion to [unsigned int], 32 bits wide. *)
Definition to_uint (z : Z) : Z := (z mod 2 ^ 32)%Z.

(** The 64-bit range test of [numValue] on an Integer lexeme that starts at
    [value] and stops before [ptr]: [true] when the function goes on. *)
Definition int64_check (b : buffer) (value ptr : nat) : bool :=
  let negative := (rd b value =? T_ "-")%Z in
  let maxdigits :=
    Z.of_nat (if negative then List.length min_literal
              else List.length max_literal) in
  let len := to_uint (Z.of_nat ptr - Z.of_nat value) in
  if (maxdigits <? len)%Z then false
  else if (len =? maxdigits)%Z then
    let threshold := if negative then min_literal else max_literal in
    negb (strcmp threshold (cstr (wr b ptr NUL) value) <? 0)%Z
  else true.

(** [numValue]; the node's [u.value] was stored by the caller and is not
    null here. *)
Definition numValue (b : buffer) (mem : memory) (ptr property : nat)
  : option (nat * buffer * memory) :=
  match numValue_scan b ptr with
  | None => None
  | Some (ptr, ty) =>
      let mem := upd mem property (set_type ty) in
      let ok :=
        if jsonType_eqb JSON_INTEGER ty then
          match u_value (node mem property) with
          | Some value => int64_check b value ptr
          | None => false
          end
        else true in
      if ok then
        let '(b, ptr) := setToNull b ptr in Some (ptr, b, mem)
      else None
  end.

(** ** Tree builder *)

Definition add (mem : memory) (obj property : nat) : memory :=
  let mem := upd mem property (set_sibling None) in
  match u_c_child (node mem obj) with
  | None =>
      let mem := upd mem obj (set_u_c_child (Some property)) in
      upd mem obj (set_u_c_last_child (Some property))
  | Some _ =>
      let mem :=
        match u_c_last_child (node mem obj) with
        | Some last => upd mem last (set_sibling (Some property))
        | None => mem
        end in
      upd mem obj (set_u_c_last_child (Some property))
  end.

(** The variables of [objValue]'s loop. *)
Record pstate (P : Type) : Type := mk_pstate {
  st_ptr : nat;
  st_obj : nat;
  st_buf : buffer;
  st_mem : memory;
  st_pool : P
}.
Arguments mk_pstate {P}.
Arguments st_ptr {P}.
Arguments st_obj {P}.
Arguments st_buf {P}.
Arguments st_mem {P}.
Arguments st_pool {P}.

(** What one turn of the loop does: go round again, or return. *)
Inductive turn (P : Type) : Type :=
| Continue (s : pstate P)
| Return (r : option (pstate P)).
Arguments Continue {P}.
Arguments Return {P}.

Section TreeBuilder.
Context {P : Type} `{jsonPool_t P}.

(** The [switch] on the first character of a value. *)
Definition objValue_dispatch (b : buffer) (mem : memory) (pool : P)
    (ptr obj property : nat) : outcome (turn P) :=
  let c := rd b ptr in
  if (c =? T_ "{")%Z then
    let mem := upd mem property (set_type JSON_OBJ) in
    let mem := upd mem property (set_u_c_child None) in
    let mem := upd mem property (set_sibling (Some obj)) in
    Ret (Continue (mk_pstate (S ptr) property b mem pool))
  else if (c =? T_ "[")%Z then
    let mem := upd mem property (set_type JSON_ARRAY) in
    let mem := upd mem property (set_u_c_child None) in
    let mem := upd mem property (set_sibling (Some obj)) in
    Ret (Continue (mk_pstate (S ptr) property b mem pool))
  else
    let scalar (r : option (nat * buffer * memory)) : turn P :=
      match r with
      | None => Return None
      | Some (ptr, b, mem) => Continue (mk_pstate ptr obj b mem pool)
      end in
    if (c =? QUOTE)%Z then
      obind (textValue b mem ptr property) (fun r => Ret (scalar r))
    else if (c =? T_ "t")%Z then Ret (scalar (trueValue b mem ptr property))
    else if (c =? T_ "f")%Z then Ret (scalar (falseValue b mem ptr property))
    else if (c =? T_ "n")%Z then Ret (scalar (nullValue b mem ptr property))
    else Ret (scalar (numValue b mem ptr property)).

(** One turn of the [for(;;)] loop of [objValue]. *)
Definition objValue_turn (s : pstate P) : outcome (turn P) :=
  let b := st_buf s in
  let mem := st_mem s in
  let obj := st_obj s in
  match goBlank b (st_ptr s) with
  | None => Ret (Return None)
  | Some ptr =>
      if (rd b ptr =? T_ ",")%Z then
        Ret (Continue (mk_pstate (S ptr) obj b mem (st_pool s)))
      else
        let endchar :=
          if jsonType_eqb (type (node mem obj)) JSON_OBJ
          then T_ "}" else T_ "]" in
        if (rd b ptr =? endchar)%Z then
          let b := wr b ptr NUL in
          match sibling (node mem obj) with
          | None =>
              Ret (Return (Some (mk_pstate (S ptr) obj b mem (st_pool s))))
          | Some parentObj =>
              let mem := upd mem obj (set_sibling None) in
              Ret (Continue (mk_pstate (S ptr) parentObj b mem (st_pool s)))
          end
        else
          match alloc (st_pool s) with
          | (None, _) => Ret (Return None)
          | (Some property, pool) =>
              let named : outcome (option (nat * buffer * memory)) :=
                if negb (jsonType_eqb (type (node mem obj)) JSON_ARRAY) then
                  if negb (rd b ptr =? QUOTE)%Z then Ret None
                  else propertyName b mem ptr property
                else Ret (Some (ptr, b, upd mem property (set_name None))) in
              obind named (fun r =>
              match r with
              | None => Ret (Return None)
              | Some (ptr, b, mem) =>
                  let mem := add mem obj property in
                  let mem := upd mem property (set_u_value (Some ptr)) in
                  objValue_dispatch b mem pool ptr obj property
              end)
          end
  end.

Fixpoint objValue_loop (fuel : nat) (s : pstate P) : outcome (option (pstate P)) :=
  match fuel with
  | O => OutOfFuel
  | S fuel' =>
      obind (objValue_turn s) (fun t =>
      match t with
      | Return r => Ret r
      | Continue s' => objValue_loop fuel' s'
      end)
  end.

(** [objValue]: the head of the function, then the loop.  The state
    returned holds the position after the root's close character. *)
Definition objValue (fuel : nat) (b : buffer) (mem : memory) (pool : P)
    (ptr obj : nat) : outcome (option (pstate P)) :=
  let mem := upd mem obj
    (set_type (if (rd b ptr =? T_ "{")%Z then JSON_OBJ else JSON_ARRAY)) in
  let mem := upd mem obj (set_u_c_child None) in
  let mem := upd mem obj (set_sibling None) in
  objValue_loop fuel (mk_pstate (S ptr) obj b mem pool).

(** What [json_createWithPool] leaves behind on success: the root pointer
    with the buffer, the node array and the pool as the parse left them. *)
Record parsed : Type := mk_parsed {
  p_root : nat;
  p_buf : buffer;
  p_mem : memory;
  p_pool : P
}.

Definition json_createWithPool_fuel (fuel : nat) (str : buffer)
    (mem : memory) (pool : P) : outcome (option parsed) :=
  match goBlank str 0 with
  | None => Ret None
  | Some ptr =>
      if (negb (rd str ptr =? T_ "{") && negb (rd str ptr =? T_ "["))%Z
      then Ret None
      else
        let '(obj, pool) := init pool in
        let mem := upd mem obj (set_name None) in
        let mem := upd mem obj (set_sibling None) in
        let mem := upd mem obj (set_u_c_child None) in
        obind (objValue fuel str mem pool ptr obj) (fun r =>
        match r with
        | None => Ret None
        | Some s => Ret (Some (mk_parsed obj (st_buf s) (st_mem s) (st_pool s)))
        end)
  end.

(** Each turn of the loop moves the position forward, so the length of the
    buffer bounds the number of turns (lemma [objValue_loop_fuel]). *)
Definition json_createWithPool (str : buffer) (mem : memory) (pool : P)
  : outcome (option parsed) :=
  json_createWithPool_fuel (S (List.length str)) str mem pool.

End TreeBuilder.

Definition json_create (str : buffer) (mem : memory) (qty : nat)
  : outcome (option (@parsed jsonStaticPool_t)) :=
  json_createWithPool str mem (mk_spool qty 0).

(** ** Tree accessors *)

(** [json_getProperty]: the walk along the sibling chain, [fuel] bounding the
    number of children visited. *)
Fixpoint json_getProperty_from (fuel : nat) (b : buffer) (mem : memory)
    (sib : option nat) (property : list CHAR_T) : outcome (option nat) :=
  match sib with
  | None => Ret None
  | Some i =>
      match fuel with
      | O => OutOfFuel
      | S fuel' =>
          let found :=
            match name (node mem i) with
            | Some nm => (strcmp (cstr b nm) (cstr_from property) =? 0)%Z
            | None => false
            end in
          if found then Ret (Some i)
          else json_getProperty_from fuel' b mem (sibling (node mem i)) property
      end
  end.

Definition json_getProperty (fuel : nat) (b : buffer) (mem : memory)
    (obj : nat) (property : list CHAR_T) : outcome (option nat) :=
  json_getProperty_from fuel b mem (u_c_child (node mem obj)) property.

Definition json_getPropertyValue (fuel : nat) (b : buffer) (mem : memory)
    (obj : nat) (property : list CHAR_T) : outcome (option nat) :=
  obind (json_getProperty fuel b mem obj property) (fun field =>
  match field with
  | None => Ret None
  | Some field =>
      let ty := json_getType (node mem field) in
      if (jsonType_code ty <=? jsonType_code JSON_ARRAY)%Z then Ret None
      else Ret (json_getValue (node mem field))
  end).

(** ** The tree a node array and a buffer denote *)

#[warnings="-register-all"]
Inductive jtree : Type :=
| JScalar (ty : jsonType_t) (nm : option (list CHAR_T)) (value : list CHAR_T)
| JContainer (ty : jsonType_t) (nm : option (list CHAR_T)) (children : list jtree).

Definition is_container (ty : jsonType_t) : bool :=
  (jsonType_code ty <=? jsonType_code JSON_ARRAY)%Z.

(** The trees of the sibling chain that starts at [p]. *)
Fixpoint forest_of (fuel : nat) (b : buffer) (mem : memory) (p : option nat)
  : list jtree :=
  match fuel, p with
  | S fuel', Some i =>
      let n := node mem i in
      let nm := option_map (cstr b) (name n) in
      let t :=
        if is_container (type n)
        then JContainer (type n) nm (forest_of fuel' b mem (u_c_child n))
        else JScalar (type n) nm
               (match u_value n with Some v => cstr b v | None => [] end) in
      t :: forest_of fuel' b mem (sibling n)
  | _, _ => []
  end.

Definition tree_of {P : Type} (r : @parsed P) : list jtree :=
  forest_of (S (List.length (p_mem r))) (p_buf r) (p_mem r) (Some (p_root r)).

(** A document given as text, every apostrophe standing for a double quote;
    the list ends with the terminating NUL. *)
Definition doc (s : string) : buffer :=
  map (fun c => if Ascii.eqb c "'" then QUOTE else T_ c) (list_ascii_of_string s)
  ++ [NUL].

Definition fresh (n : nat) : memory := repeat node0 n.

Definition parse_tree (s : string) (n : nat) : outcome (option (list jtree)) :=
  obind (json_create (doc s) (fresh n) n) (fun r => Ret (option_map tree_of r)).

(** ** Notions used in the statements *)

(** The content [a\tb\n\"c\"] of a quoted string (escapes still in place). *)
Definition escaped_sample : list CHAR_T :=
  [97; 92; 116; 98; 92; 110; 92; 34; 99; 92; 34]%Z.

(** The characters that may follow a primitive. *)
Definition ends_primitive (c : CHAR_T) : Prop :=
  (c = T_ "," \/ c = T_ " " \/ c = 10 \/ c = 13 \/ c = 9 \/ c = 12
   \/ c = T_ "}" \/ c = T_ "]")%Z.

(** The children of a container, in order: the nodes met along the sibling
    links from its first child to the null link. *)
Inductive sibling_chain (mem : memory) : option nat -> list nat -> Prop :=
| chain_end : sibling_chain mem None []
| chain_next (i : nat) (l : list nat) :
    sibling_chain mem (sibling (node mem i)) l ->
    sibling_chain mem (Some i) (i :: l).

(** Node [i] carries the name [property]. *)
Definition has_name (b : buffer) (mem : memory) (property : list CHAR_T)
    (i : nat) : Prop :=
  exists nm, name (node mem i) = Some nm /\ cstr b nm = cstr_from property.

(** The buffer and the node array that parsing [{"a":1,"b":[1,2,3]}] leaves. *)
Definition sample_parsed : option (@parsed jsonStaticPool_t) :=
  Eval vm_compute in
    match json_create (doc "{'a':1,'b':[1,2,3]}") (fresh 6) 6 with
    | Ret r => r
    | OutOfFuel => None
    end.
Definition sample_buf : buffer :=
  match sample_parsed with Some r => p_buf r | None => [] end.
Definition sample_mem : memory :=
  match sample_parsed with Some r => p_mem r | None => [] end.


(** The JSON number production, on the characters of a literal. *)
Definition digits (ds : list CHAR_T) : Prop :=
  Forall (fun c => 48 <= c <= 57)%Z ds.

Inductive int_part : list CHAR_T -> Prop :=
| int_zero : int_part [48%Z]
| int_nonzero (d : CHAR_T) (ds : list CHAR_T) :
    (49 <= d <= 57)%Z -> digits ds -> int_part (d :: ds).

Inductive frac_part : list CHAR_T -> Prop :=
| frac_none : frac_part []
| frac_some (d : CHAR_T) (ds : list CHAR_T) :
    digits (d :: ds) -> frac_part (T_ "." :: d :: ds).

Inductive exp_part : list CHAR_T -> Prop :=
| exp_none : exp_part []
| exp_some (e : CHAR_T) (sg : list CHAR_T) (d : CHAR_T) (ds : list CHAR_T) :
    e = T_ "e" \/ e = T_ "E" ->
    sg = [] \/ sg = [T_ "+"] \/ sg = [T_ "-"] ->
    digits (d :: ds) -> exp_part (e :: sg ++ d :: ds).

Inductive number_production : list CHAR_T -> jsonType_t -> Prop :=
| number_lit (sg ip f e : list CHAR_T) (ty : jsonType_t) :
    sg = [] \/ sg = [T_ "-"] ->
    int_part ip -> frac_part f -> exp_part e ->
    (f = [] /\ e = [] /\ ty = JSON_INTEGER
     \/ (f <> [] \/ e <> []) /\ ty = JSON_REAL) ->
    number_production (sg ++ ip ++ f ++ e) ty.

(** The cells from [p] up to [q] hold the characters [seg]. *)
Definition consumes (b : buffer) (p q : nat) (seg : list CHAR_T) : Prop :=
  q = p + List.length seg /\ skipn p b = seg ++ skipn q b.

(** The integer a digit string denotes, and the value of an integer literal
    with sign [sg] (empty or ['-']) and digits [ip]. *)
Fixpoint digits_value (ds : list CHAR_T) : Z :=
  match ds with
  | [] => 0
  | d :: t => (d - 48) * 10 ^ Z.of_nat (List.length t) + digits_value t
  end%Z.

Definition literal_value (sg ip : list CHAR_T) : Z :=
  match sg with
  | [] => digits_value ip
  | _ => (- digits_value ip)%Z
  end.

Definition INT64_MIN : Z := (-9223372036854775808)%Z.
Definition INT64_MAX : Z := 9223372036854775807%Z.

(** The bound literal an integer literal with sign [sg] is compared with. *)
Definition bound_literal (sg : list CHAR_T) : list CHAR_T :=
  match sg with
  | [] => max_literal
  | _ => min_literal
  end.

(** Two buffers hold the same characters in the cells from [lo] up to [hi]. *)
Definition agree (lo hi : nat) (b1 b2 : buffer) : Prop :=
  forall i, lo <= i < hi -> rd b1 i = rd b2 i.

(** A scan from [p] to [q] that turns [b] into [b']: it moves forward, only
    over cells that hold no NUL, and writes only to the cells it moved over. *)
Definition footprint (b : buffer) (p q : nat) (b' : buffer) : Prop :=
  p <= q
  /\ List.length b' = List.length b
  /\ (forall i, i < p \/ q <= i -> rd b' i = rd b i)
  /\ (forall i, p <= i < q -> rd b i <> NUL).

(** What one turn of the loop of [parseString] finds at [head]: the closing
    quote, a malformed escape or the end of the buffer, or a character [c]
    to store, the next turn reading at [head']. *)
Inductive string_turn : Type :=
| Closed
| Malformed
| Store (c : CHAR_T) (head' : nat).

Definition parseString_turn (b : buffer) (head : nat) : string_turn :=
  if (rd b head =? NUL)%Z then Malformed
  else if (rd b head =? QUOTE)%Z then Closed
  else if (rd b head =? BACKSLASH)%Z then
    if (rd b (S head) =? T_ "u")%Z then
      if (getCharFromUnicode b (S (S head)) =? NUL)%Z then Malformed
      else Store (getCharFromUnicode b (S (S head))) (S (S (S head) + 3))
    else if (getEscape (rd b (S head)) =? NUL)%Z then Malformed
         else Store (getEscape (rd b (S head))) (S (S head))
  else Store (rd b head) (S head).

(** A scanner [f] that succeeds from [p] in buffer [b1] moves forward with a
    footprint, and does the same, with the same result, in every buffer
    that agrees with [b1] on the cells up to the one it stops at. *)
Definition local_scan (f : buffer -> outcome (option (nat * buffer * memory)))
    (b1 : buffer) (p : nat) : Prop :=
  forall q b1' mem',
    f b1 = Ret (Some (q, b1', mem')) ->
    p < q
    /\ footprint b1 p q b1'
    /\ (forall b2, agree p (S q) b1 b2 ->
                   exists b2', f b2 = Ret (Some (q, b2', mem'))
                               /\ agree p (S q) b1' b2').

(** The loop state [s] with the buffer [b] in place of its own. *)
Definition with_buf {P : Type} (s : pstate P) (b : buffer) : pstate P :=
  mk_pstate (st_ptr s) (st_obj s) b (st_mem s) (st_pool s).

(** A loop state moved to the position [p]. *)
Definition with_ptr {P : Type} (s : pstate P) (p : nat) : pstate P :=
  mk_pstate p (st_obj s) (st_buf s) (st_mem s) (st_pool s).

(** What [objValue_dispatch] makes of a scalar scanner's result. *)
Definition scalar_turn {P : Type} (obj : nat) (pool : P)
    (r : option (nat * buffer * memory)) : turn P :=
  match r with
  | None => Return None
  | Some (ptr, b, mem) => Continue (mk_pstate ptr obj b mem pool)
  end.

(** A step from position [p] in buffer [b1] to the state [s'] that is local:
    forward, with a footprint, and repeated in every buffer that agrees with
    [b1] up to the cell where it stops. *)
Definition local_turn {P : Type} (f : buffer -> outcome (turn P))
    (b1 : buffer) (p : nat) (s' : pstate P) : Prop :=
  p < st_ptr s'
  /\ footprint b1 p (st_ptr s') (st_buf s')
  /\ (forall b2, agree p (S (st_ptr s')) b1 b2 ->
                 exists b2', f b2 = Ret (Continue (with_buf s' b2'))
                             /\ agree p (S (st_ptr s')) (st_buf s') b2').

(** A loop state and a parse result of the fixed array pool, with the pool's
    capacity set to [K]. *)
Definition with_qty (s : pstate jsonStaticPool_t) (K : nat)
  : pstate jsonStaticPool_t :=
  mk_pstate (st_ptr s) (st_obj s) (st_buf s) (st_mem s)
            (mk_spool K (nextFree (st_pool s))).

Definition with_pool {P : Type} (s : pstate P) (pool : P) : pstate P :=
  mk_pstate (st_ptr s) (st_obj s) (st_buf s) (st_mem s) pool.

(** The number of nodes a finished parse took from the pool, root included. *)
Definition nodes_used (r : @parsed jsonStaticPool_t) : nat :=
  nextFree (p_pool r).

(** The close character of the container a loop state is in. *)
Definition endchar_of {P : Type} (s : pstate P) : CHAR_T :=
  if jsonType_eqb (type (node (st_mem s) (st_obj s))) JSON_OBJ
  then T_ "}" else T_ "]".

(** What the loop does with the current container's close character found
    at [e]: terminate there and return the root, or go back to the parent. *)
Definition close_turn {P : Type} (s : pstate P) (e : nat) : turn P :=
  match sibling (node (st_mem s) (st_obj s)) with
  | None =>
      Return (Some (mk_pstate (S e) (st_obj s) (wr (st_buf s) e NUL)
                      (st_mem s) (st_pool s)))
  | Some parentObj =>
      Continue (mk_pstate (S e) parentObj (wr (st_buf s) e NUL)
                  (upd (st_mem s) (st_obj s) (set_sibling None)) (st_pool s))
  end.

From Stdlib Require Import Sorted.

(** ** Further notions *)

(** The characters a value can begin with: the cases of the [switch] of
    [objValue], and the sign and the digits [numValue] takes. *)
Definition starts_value (c : CHAR_T) : bool :=
  ((c =? T_ "{") || (c =? T_ "[") || (c =? QUOTE) || (c =? T_ "t")
   || (c =? T_ "f") || (c =? T_ "n") || (c =? T_ "-") || isdigit c)%Z.

(** The characters an escaped string content denotes, read off the loop of
    [parseString]: a backslash with a character of the escape table stands
    for the table's code, a backslash with [u] and four hexadecimal digits
    for a question mark, any other character but NUL and the double quote
    for itself.  There is no result when an escape is malformed or cut off,
    or when the content holds a bare double quote or a NUL. *)
Fixpoint unescape (s : list CHAR_T) : option (list CHAR_T) :=
  match s with
  | [] => Some []
  | c :: t =>
      if (c =? NUL)%Z then None
      else if (c =? QUOTE)%Z then None
      else if (c =? BACKSLASH)%Z then
        match t with
        | [] => None
        | e :: t' =>
            if (e =? T_ "u")%Z then
              match t' with
              | h1 :: h2 :: h3 :: h4 :: t'' =>
                  if isxdigit h1 && isxdigit h2 && isxdigit h3 && isxdigit h4
                  then option_map (cons (T_ "?")) (unescape t'')
                  else None
              | _ => None
              end
            else if (getEscape e =? NUL)%Z then None
                 else option_map (cons (getEscape e)) (unescape t')
        end
      else option_map (cons c) (unescape t)
  end.

(** The child that [add] links the new node to: the last child of [obj],
    when [obj] has a first child. *)
Definition last_linked (mem : memory) (obj : nat) : option nat :=
  match u_c_child (node mem obj) with
  | Some _ => u_c_last_child (node mem obj)
  | None => None
  end.

(** The containers that are open at a moment of the parse, from the current
    one down to the root, as their back-links tell: [open_path mem c l]
    says that following the [sibling] of [c] leads through the nodes [l],
    each lower in the array than the one before and each having the one
    before as its last child, to the root in cell 0, whose link is null;
    all of them are containers. *)
Inductive open_path (mem : memory) : nat -> list nat -> Prop :=
| open_root :
    sibling (node mem 0) = None ->
    type (node mem 0) = JSON_OBJ \/ type (node mem 0) = JSON_ARRAY ->
    open_path mem 0 []
| open_child (c p : nat) (l : list nat) :
    sibling (node mem c) = Some p -> p < c ->
    type (node mem c) = JSON_OBJ \/ type (node mem c) = JSON_ARRAY ->
    u_c_child (node mem p) <> None ->
    u_c_last_child (node mem p) = Some c ->
    open_path mem p l -> open_path mem c (p :: l).

(** A link of node [i] that is null or leads to a node further up in the
    part of the array that is in use. *)
Definition forward_link (i nf : nat) (l : option nat) : Prop :=
  match l with
  | None => True
  | Some j => i < j < nf
  end.

(** The shape of the node array between two turns of the loop of
    [objValue], with the fixed array pool: [path] holds the open containers
    below the current one. *)
Definition tree_inv (s : pstate jsonStaticPool_t) (path : list nat) : Prop :=
  let mem := st_mem s in
  let nf := nextFree (st_pool s) in
  nf <= qty (st_pool s) /\ qty (st_pool s) <= List.length mem
  /\ st_obj s < nf
  /\ open_path mem (st_obj s) path
  /\ (forall l, last_linked mem (st_obj s) = Some l -> st_obj s < l < nf)
  /\ (forall i, i < nf -> i <> st_obj s -> ~ In i path ->
                forward_link i nf (sibling (node mem i)))
  /\ (forall i, i < nf ->
                type (node mem i) = JSON_OBJ \/ type (node mem i) = JSON_ARRAY ->
                forward_link i nf (u_c_child (node mem i))).

(** The node array while [k] arrays nested one inside the other have been
    opened, in the cells 0 to [k - 1], and those above level [c] have been
    closed again: each array is the only child of the one before, the open
    ones hold their back-link to the one before, the closed ones a null
    sibling. *)
Definition nest_inv (k c : nat) (M : memory) : Prop :=
  k <= List.length M
  /\ (forall j, j < k -> type (node M j) = JSON_ARRAY)
  /\ (forall j, j <= c ->
                sibling (node M j)
                = match j with O => None | S j' => Some j' end)
  /\ (forall j, c < j < k -> sibling (node M j) = None)
  /\ (forall j, S j < k -> u_c_child (node M j) = Some (S j))
  /\ u_c_child (node M (k - 1)) = None.

(** A loop state with the node array [M] in place of its own. *)
Definition with_mem {P : Type} (s : pstate P) (M : memory) : pstate P :=
  mk_pstate (st_ptr s) (st_obj s) (st_buf s) M (st_pool s).

(** What the [switch] of [objValue] stores in the new node, as the first
    character of the value at [ptr] decides; [obj] is the current
    container. *)
Definition dispatch_update (b : buffer) (ptr obj : nat) (n : json_t) : json_t :=
  let c := rd b ptr in
  if (c =? T_ "{")%Z then
    set_sibling (Some obj) (set_u_c_child None (set_type JSON_OBJ n))
  else if (c =? T_ "[")%Z then
    set_sibling (Some obj) (set_u_c_child None (set_type JSON_ARRAY n))
  else if (c =? QUOTE)%Z then
    set_type JSON_TEXT (set_u_value (option_map S (u_value n)) n)
  else if (c =? T_ "t")%Z then set_type JSON_BOOLEAN n
  else if (c =? T_ "f")%Z then set_type JSON_BOOLEAN n
  else if (c =? T_ "n")%Z then set_type JSON_NULL n
  else set_type (match numValue_scan b ptr with
                 | Some (_, ty) => ty
                 | None => JSON_INTEGER
                 end) n.

(** The node array after a turn of the loop has taken the node [property]
    for a member of [obj]: [nm] is the name pointer stored, [b] and [q] the
    buffer and the position the value is read from. *)
Definition member_update (M : memory) (obj property : nat) (nm : option nat)
    (b : buffer) (q : nat) : memory :=
  upd (add (upd M property (set_name nm)) obj property) property
      (fun n => dispatch_update b q obj (set_u_value (Some q) n)).

(** Two node arrays that hold the same tree in their first [nf] cells: the
    links, the name, the value and the type of every node agree, and so
    does the last child of every container that has a child.  The other
    cells, and the second word of the union in the other nodes, are not
    compared. *)
Definition same_tree (nf : nat) (M M' : memory) : Prop :=
  List.length M = List.length M'
  /\ forall i, i < nf ->
       sibling (node M i) = sibling (node M' i)
       /\ name (node M i) = name (node M' i)
       /\ u_value (node M i) = u_value (node M' i)
       /\ type (node M i) = type (node M' i)
       /\ (type (node M i) = JSON_OBJ \/ type (node M i) = JSON_ARRAY ->
           u_c_child (node M i) <> None ->
           u_c_last_child (node M i) = u_c_last_child (node M' i)).

(** * Properties *)

(** ** The string unescaper on a sample *)

(** C7, as the claim words it, does not hold: the unescaped content is not
    [a<TAB>b"c"] with a NUL in the cell of the closing quote (index 11). *)
Lemma unescaped_sample_not_as_claimed :
  ~ (exists b',
        parseString (escaped_sample ++ [QUOTE; NUL]) 0 = Ret (Some (12, b'))
        /\ cstr b' 0 = [97; 9; 98; 34; 99; 34]%Z
        /\ rd b' 11 = NUL).
Proof.
  intros [b' [Hrun [Hstr Hnul]]].
  vm_compute in Hrun. inversion Hrun; subst b'.
  vm_compute in Hnul. discriminate Hnul.
Qed.

(** C7 (amended): unescaping [a\tb\n\"c\"] followed by a closing quote yields
    the content [a<TAB>b<LF>"c"] at the start of the buffer, terminated by a
    NUL written right behind it (index 7); the closing quote itself (index
    11) stays in place, and the position returned is the one just past it,
    whatever follows in the buffer. *)
Theorem parseString_sample (rest : list CHAR_T) :
  exists b',
    parseString (escaped_sample ++ QUOTE :: rest) 0 = Ret (Some (12, b'))
    /\ cstr b' 0 = [97; 9; 98; 10; 34; 99; 34]%Z
    /\ rd b' 7 = NUL
    /\ rd b' 11 = QUOTE
    /\ skipn 12 b' = rest.
Proof.
  eexists. split; [reflexivity|]. repeat split.
Qed.

(** ** Malformed documents *)

(** C2, as the claim words it, does not hold: [[1,2,]] is parsed. *)
Lemma trailing_comma_document_parses :
  json_create (doc "[1,2,]") (fresh 3) 3 <> Ret None
  /\ parse_tree "[1,2,]" 3
     = Ret (Some [JContainer JSON_ARRAY None
                    [JScalar JSON_INTEGER None (T "1");
                     JScalar JSON_INTEGER None (T "2")]]).
Proof.
  split; [|vm_compute; reflexivity].
  intros Hfail. vm_compute in Hfail. discriminate Hfail.
Qed.

(** C2 (amended): a missing value and an unquoted key make the parse fail,
    with every node array and every pool size; the array with a trailing
    comma is the array without it. *)
Theorem malformed_documents (mem : memory) (qty : nat) :
  json_create (doc "{'a':}") mem qty = Ret None
  /\ json_create (doc "{a:1}") mem qty = Ret None
  /\ parse_tree "[1,2,]" 3 = parse_tree "[1,2]" 3
  /\ (exists t, parse_tree "[1,2,]" 3 = Ret (Some t)).
Proof.
  split; [|split; [|split]].
  - destruct qty as [|[|q]]; destruct mem as [|n0 [|n1 mem]]; reflexivity.
  - destruct qty as [|[|q]]; destruct mem as [|n0 [|n1 mem]]; reflexivity.
  - vm_compute. reflexivity.
  - eexists. vm_compute. reflexivity.
Qed.

(** ** End of a primitive *)

Lemma isEndOfPrimitive_spec (c : CHAR_T) :
  isEndOfPrimitive c = true <-> ends_primitive c.
Proof.
  unfold isEndOfPrimitive, ends_primitive, blank, endofblock.
  cbn [T map list_ascii_of_string isOneOfThem].
  change (T_ ",") with 44%Z. change (T_ " ") with 32%Z.
  change (T_ "}") with 125%Z. change (T_ "]") with 93%Z.
  repeat match goal with
         | |- context [(c =? ?k)%Z] => destruct (Z.eqb_spec c k)
         end; cbn; split; intros Hc; try discriminate; try lia; auto.
Qed.

Lemma checkStr_end (b : buffer) (str : list CHAR_T) :
  forall ptr ptr', checkStr b ptr str = Some ptr' -> ptr' = ptr + List.length str.
Proof.
  induction str as [|s str IH]; intros ptr ptr' Hc; cbn in Hc.
  - inversion Hc. cbn. lia.
  - destruct (rd b ptr =? s)%Z; [|discriminate].
    apply IH in Hc. cbn. lia.
Qed.

Lemma primitiveValue_end (b : buffer) (mem : memory) (ptr property : nat)
    (value : list CHAR_T) (ty : jsonType_t) (r : nat * buffer * memory) :
  primitiveValue b mem ptr property value ty = Some r ->
  checkStr b ptr value = Some (ptr + List.length value)
  /\ isEndOfPrimitive (rd b (ptr + List.length value)) = true.
Proof.
  unfold primitiveValue. intros Hp.
  destruct (checkStr b ptr value) as [p|] eqn:Hc; [|discriminate].
  pose proof (checkStr_end _ _ _ _ Hc) as ->.
  destruct (isEndOfPrimitive (rd b (ptr + List.length value))); [|discriminate].
  auto.
Qed.

Lemma numValue_scan_end (b : buffer) (ptr pe : nat) (ty : jsonType_t) :
  numValue_scan b ptr = Some (pe, ty) -> isEndOfPrimitive (rd b pe) = true.
Proof.
  unfold numValue_scan. intros Hs.
  repeat match type of Hs with
         | (if ?c then _ else _) = _ => destruct c eqn:?
         | match ?c with _ => _ end = _ => destruct c eqn:?
         | _ => discriminate
         end; try discriminate;
    inversion Hs; subst; apply negb_false_iff; assumption.
Qed.

Lemma numValue_scanned (b : buffer) (mem : memory) (ptr property : nat)
    (r : nat * buffer * memory) :
  numValue b mem ptr property = Some r ->
  exists pe ty, numValue_scan b ptr = Some (pe, ty)
                /\ r = (snd (setToNull b pe), fst (setToNull b pe),
                        upd mem property (set_type ty)).
Proof.
  unfold numValue. intros Hn.
  destruct (numValue_scan b ptr) as [[pe ty]|]; [|discriminate].
  exists pe, ty. split; [reflexivity|].
  match type of Hn with (if ?c then _ else _) = _ => destruct c end;
    [|discriminate].
  destruct (setToNull b pe) as [b' p']. inversion Hn. reflexivity.
Qed.

(** C6: a keyword literal ([true], [false], [null]: any [value] handed to
    [primitiveValue]) or a number is accepted only when the character right
    after it is a comma, a blank, or a closing bracket; any other character
    there, such as the [x] of [truex] or the NUL that ends the buffer, makes
    the scanner return null, and with it the whole parse. *)
Theorem primitive_needs_end (b : buffer) (mem : memory) (ptr property : nat) :
  (forall value ty r,
      primitiveValue b mem ptr property value ty = Some r ->
      checkStr b ptr value = Some (ptr + List.length value)
      /\ ends_primitive (rd b (ptr + List.length value)))
  /\ (forall value ty,
         ~ ends_primitive (rd b (ptr + List.length value)) ->
         primitiveValue b mem ptr property value ty = None)
  /\ (forall r,
         numValue b mem ptr property = Some r ->
         exists pe ty, numValue_scan b ptr = Some (pe, ty)
                       /\ ends_primitive (rd b pe))
  /\ (forall pe ty,
         numValue_scan b ptr = Some (pe, ty) -> ends_primitive (rd b pe))
  /\ ~ ends_primitive (T_ "x") /\ ~ ends_primitive NUL
  /\ parse_tree "[truex]" 2 = Ret None
  /\ parse_tree "[true" 2 = Ret None
  /\ parse_tree "[12x]" 2 = Ret None
  /\ parse_tree "[12" 2 = Ret None.
Proof.
  split; [|split; [|split; [|split]]].
  - intros value ty r Hp. apply primitiveValue_end in Hp as [Hc He].
    split; [exact Hc|]. apply isEndOfPrimitive_spec, He.
  - intros value ty Hne.
    destruct (primitiveValue b mem ptr property value ty) as [r|] eqn:Hp;
      [|reflexivity].
    apply primitiveValue_end in Hp as [_ He].
    apply isEndOfPrimitive_spec in He. contradiction.
  - intros r Hn. apply numValue_scanned in Hn as (pe & ty & Hs & _).
    exists pe, ty. split; [exact Hs|].
    apply isEndOfPrimitive_spec. eapply numValue_scan_end, Hs.
  - intros pe ty Hs. apply isEndOfPrimitive_spec. eapply numValue_scan_end, Hs.
  - repeat split; try (vm_compute; reflexivity);
      intros Hx; apply isEndOfPrimitive_spec in Hx; vm_compute in Hx;
      discriminate Hx.
Qed.

(** The theorem at [[true]]: the keyword at index 1 is followed by [']']. *)
Lemma primitive_needs_end_witness :
  ends_primitive (rd (doc "[true]") (1 + List.length (T "true"))).
Proof.
  refine (proj2 (proj1 (primitive_needs_end (doc "[true]") (fresh 2) 1 1)
                   (T "true") JSON_BOOLEAN _ _)).
  vm_compute. reflexivity.
Defined.

(** ** Lookup by name *)

Lemma cstr_from_no_NUL (l : list CHAR_T) : ~ In NUL (cstr_from l).
Proof.
  induction l as [|c l IH]; cbn; [tauto|].
  destruct (Z.eqb_spec c 0); cbn; [tauto|].
  intros [Hc|Hin]; [unfold NUL in Hc; lia|tauto].
Qed.

Lemma strcmp_eq (a : list CHAR_T) :
  forall b, ~ In NUL a -> ~ In NUL b -> (strcmp a b = 0%Z <-> a = b).
Proof.
  unfold NUL.
  induction a as [|x a IH]; intros [|y b] Ha Hb; cbn in *.
  - tauto.
  - split; [|discriminate]. intros Hy. exfalso. apply Hb. left. lia.
  - split; [|discriminate]. intros Hx. exfalso. apply Ha. left. lia.
  - destruct (Z.eqb_spec x y) as [->|Hxy].
    + rewrite IH by tauto. split; [intros ->; reflexivity|].
      intros Heq. inversion Heq. reflexivity.
    + split; [lia|]. intros Heq. inversion Heq. contradiction.
Qed.

Lemma json_getProperty_from_miss (b : buffer) (mem : memory)
    (property : list CHAR_T) (l : list nat) :
  forall sib fuel,
    sibling_chain mem sib l ->
    List.length l <= fuel ->
    (forall i, In i l -> ~ has_name b mem property i) ->
    json_getProperty_from fuel b mem sib property = Ret None.
Proof.
  induction l as [|i l IH]; intros sib fuel Hch Hfuel Hno;
    inversion Hch; subst.
  - destruct fuel; reflexivity.
  - destruct fuel as [|fuel]; [cbn in Hfuel; lia|]. cbn.
    destruct (name (node mem i)) as [nm|] eqn:Hnm.
    + destruct (Z.eqb_spec (strcmp (cstr b nm) (cstr_from property)) 0)
        as [Heq|Hne].
      * exfalso. apply (Hno i); [left; reflexivity|].
        exists nm. split; [exact Hnm|].
        apply strcmp_eq in Heq; auto using cstr_from_no_NUL.
        apply cstr_from_no_NUL.
      * apply IH; [assumption|cbn in Hfuel; lia|].
        intros j Hj. apply Hno. right. exact Hj.
    + apply IH; [assumption|cbn in Hfuel; lia|].
      intros j Hj. apply Hno. right. exact Hj.
Qed.

Lemma json_getProperty_from_hit (b : buffer) (mem : memory)
    (property : list CHAR_T) (f : nat) (l2 : list nat) (l1 : list nat) :
  forall sib fuel,
    sibling_chain mem sib (l1 ++ f :: l2) ->
    List.length l1 < fuel ->
    (forall i, In i l1 -> ~ has_name b mem property i) ->
    has_name b mem property f ->
    json_getProperty_from fuel b mem sib property = Ret (Some f).
Proof.
  induction l1 as [|i l1 IH]; intros sib fuel Hch Hfuel Hno Hf;
    inversion Hch; subst; (destruct fuel as [|fuel]; [cbn in Hfuel; lia|]); cbn.
  - destruct Hf as (nm & -> & Hs). rewrite Hs.
    replace (strcmp (cstr_from property) (cstr_from property) =? 0)%Z with true;
      [reflexivity|].
    symmetry. apply Z.eqb_eq. apply strcmp_eq; auto using cstr_from_no_NUL.
  - assert (Hi : ~ has_name b mem property i) by (apply Hno; left; reflexivity).
    assert (Hrec : json_getProperty_from fuel b mem (sibling (node mem i)) property
                   = Ret (Some f)).
    { apply IH; [assumption|cbn in Hfuel; lia| |exact Hf].
      intros j Hj. apply Hno. right. exact Hj. }
    destruct (name (node mem i)) as [nm|] eqn:Hnm; [|exact Hrec].
    destruct (Z.eqb_spec (strcmp (cstr b nm) (cstr_from property)) 0)
      as [Heq|Hne]; [|exact Hrec].
    exfalso. apply Hi. exists nm. split; [exact Hnm|].
    apply strcmp_eq in Heq; auto using cstr_from_no_NUL.
    apply cstr_from_no_NUL.
Qed.

(** C8: on a node whose children are the finite chain [l],
    [json_getPropertyValue] returns null when no child carries the name,
    and null again when the first child that carries it is an Object or an
    Array; otherwise it returns that child's value pointer, the start of its
    value string. *)
Theorem json_getPropertyValue_spec (b : buffer) (mem : memory) (obj : nat)
    (property : list CHAR_T) (l : list nat) (fuel : nat) :
  sibling_chain mem (u_c_child (node mem obj)) l ->
  List.length l <= fuel ->
  ((forall i, In i l -> ~ has_name b mem property i) ->
   json_getPropertyValue fuel b mem obj property = Ret None)
  /\ (forall l1 f l2,
         l = l1 ++ f :: l2 ->
         (forall i, In i l1 -> ~ has_name b mem property i) ->
         has_name b mem property f ->
         json_getProperty fuel b mem obj property = Ret (Some f)
         /\ (type (node mem f) = JSON_OBJ \/ type (node mem f) = JSON_ARRAY ->
             json_getPropertyValue fuel b mem obj property = Ret None)
         /\ (type (node mem f) <> JSON_OBJ -> type (node mem f) <> JSON_ARRAY ->
             json_getPropertyValue fuel b mem obj property
             = Ret (u_value (node mem f)))).
Proof.
  intros Hch Hfuel. split.
  - intros Hno. unfold json_getPropertyValue, json_getProperty.
    rewrite (json_getProperty_from_miss b mem property l); auto.
  - intros l1 f l2 -> Hno Hf.
    assert (Hget : json_getProperty fuel b mem obj property = Ret (Some f)).
    { unfold json_getProperty.
      apply (json_getProperty_from_hit b mem property f l2 l1); auto.
      rewrite length_app in Hfuel. cbn in Hfuel. lia. }
    split; [exact Hget|].
    unfold json_getPropertyValue. rewrite Hget. cbn.
    unfold json_getType, json_getValue.
    split.
    + intros [-> | ->]; reflexivity.
    + intros Ho Ha. destruct (type (node mem f)); try reflexivity; congruence.
Qed.

(** The theorem on that tree: ["a"] is the scalar at node 1, ["b"] an Array,
    ["c"] is missing. *)
Lemma json_getPropertyValue_spec_witness :
  json_getPropertyValue 2 sample_buf sample_mem 0 (T "a") = Ret (Some 5)
  /\ json_getPropertyValue 2 sample_buf sample_mem 0 (T "b") = Ret None
  /\ json_getPropertyValue 2 sample_buf sample_mem 0 (T "c") = Ret None.
Proof.
  assert (Hch : sibling_chain sample_mem (u_c_child (node sample_mem 0)) [1; 2]).
  { repeat constructor. }
  split; [|split].
  - refine (proj2 (proj2 (proj2 (json_getPropertyValue_spec sample_buf sample_mem
              0 (T "a") [1; 2] 2 Hch (le_n 2)) [] 1 [2] eq_refl _ _)) _ _).
    + intros i [].
    + exists 2. split; reflexivity.
    + discriminate.
    + discriminate.
  - refine (proj1 (proj2 (proj2 (json_getPropertyValue_spec sample_buf sample_mem
              0 (T "b") [1; 2] 2 Hch (le_n 2)) [1] 2 [] eq_refl _ _)) _).
    + intros i [<-|[]] (nm & Hnm & Hs). vm_compute in Hnm.
      inversion Hnm; subst nm. vm_compute in Hs. discriminate Hs.
    + exists 8. split; reflexivity.
    + right. reflexivity.
  - refine (proj1 (json_getPropertyValue_spec sample_buf sample_mem
              0 (T "c") [1; 2] 2 Hch (le_n 2)) _).
    intros i [<-|[<-|[]]] (nm & Hnm & Hs); vm_compute in Hnm;
      inversion Hnm; subst nm; vm_compute in Hs; discriminate Hs.
Defined.

(** ** Buffers as lists *)

Lemma rd_skipn (b : buffer) (p : nat) : rd b p = hd NUL (skipn p b).
Proof.
  unfold rd. revert b. induction p as [|p IH]; intros [|x b]; cbn; auto.
Qed.

Lemma skipn_S_tl (b : buffer) (p : nat) : skipn (S p) b = tl (skipn p b).
Proof.
  revert b. induction p as [|p IH]; intros [|x b]; try reflexivity.
  change (skipn (S (S p)) (x :: b)) with (skipn (S p) b).
  change (skipn (S p) (x :: b)) with (skipn p b). apply IH.
Qed.

Lemma rd_nonzero_skipn (b : buffer) (p : nat) :
  rd b p <> NUL -> skipn p b = rd b p :: skipn (S p) b.
Proof.
  rewrite rd_skipn, skipn_S_tl. destruct (skipn p b); cbn; congruence.
Qed.

Lemma consumes_nil (b : buffer) (p : nat) : consumes b p p [].
Proof. split; cbn; [lia|reflexivity]. Qed.

Lemma consumes_one (b : buffer) (p : nat) :
  rd b p <> NUL -> consumes b p (S p) [rd b p].
Proof.
  intros Hn. split; cbn; [lia|]. apply rd_nonzero_skipn, Hn.
Qed.

Lemma consumes_app (b : buffer) (p q r : nat) (s1 s2 : list CHAR_T) :
  consumes b p q s1 -> consumes b q r s2 -> consumes b p r (s1 ++ s2).
Proof.
  intros [Hq H1] [Hr H2]. split.
  - rewrite length_app. lia.
  - rewrite H1, H2, app_assoc. reflexivity.
Qed.

Lemma skipn_add (b : buffer) (p k : nat) :
  skipn (p + k) b = skipn k (skipn p b).
Proof. rewrite Nat.add_comm. symmetry. apply skipn_skipn. Qed.

Lemma skipn_app_exact (s l : list CHAR_T) : skipn (List.length s) (s ++ l) = l.
Proof. induction s as [|x s IH]; cbn; auto. Qed.

Lemma consumes_split (b : buffer) (p r : nat) (s1 s2 : list CHAR_T) :
  consumes b p r (s1 ++ s2) ->
  consumes b p (p + List.length s1) s1
  /\ consumes b (p + List.length s1) r s2.
Proof.
  intros [Hr H]. rewrite length_app in Hr.
  assert (Hmid : skipn (p + List.length s1) b = s2 ++ skipn r b).
  { rewrite skipn_add, H, <- app_assoc. apply skipn_app_exact. }
  repeat split; try lia.
  - rewrite Hmid, H, app_assoc. reflexivity.
  - exact Hmid.
Qed.

Lemma consumes_head (b : buffer) (p q : nat) (c : CHAR_T) (s : list CHAR_T) :
  consumes b p q (c :: s) -> rd b p = c /\ consumes b (S p) q s.
Proof.
  intros [Hq H]. split.
  - rewrite rd_skipn, H. reflexivity.
  - split; [cbn in Hq; lia|]. rewrite skipn_S_tl, H. reflexivity.
Qed.

Lemma consumes_empty (b : buffer) (p q : nat) : consumes b p q [] -> q = p.
Proof. intros [Hq _]. cbn in Hq. lia. Qed.

(** ** Digit runs *)

Lemma isdigit_spec (c : CHAR_T) : isdigit c = true <-> (48 <= c <= 57)%Z.
Proof. unfold isdigit. lia. Qed.

Lemma goNum_from_inv (l : list CHAR_T) :
  forall p q,
    goNum_from l p = Some q ->
    exists ds c l', l = ds ++ c :: l' /\ q = p + List.length ds
                    /\ digits ds /\ isdigit c = false /\ c <> NUL.
Proof.
  induction l as [|x l IH]; intros p q Hg; cbn in Hg; [discriminate|].
  destruct (Z.eqb_spec x NUL) as [|Hx]; [discriminate|].
  destruct (isdigit x) eqn:Hd.
  - apply IH in Hg as (ds & c & l' & -> & -> & Hds & Hc & Hn).
    exists (x :: ds), c, l'. cbn. repeat split; auto; try lia.
    constructor; [apply isdigit_spec, Hd|exact Hds].
  - inversion Hg; subst. exists [], x, l. cbn. repeat split; auto.
    constructor.
Qed.

Lemma goNum_from_run (ds : list CHAR_T) (c : CHAR_T) (l' : list CHAR_T) :
  digits ds -> isdigit c = false -> c <> NUL ->
  forall p, goNum_from (ds ++ c :: l') p = Some (p + List.length ds).
Proof.
  intros Hds Hc Hn. induction Hds as [|x ds Hx Hds IH]; intros p; cbn.
  - destruct (Z.eqb_spec c NUL); [contradiction|]. rewrite Hc. f_equal. lia.
  - destruct (Z.eqb_spec x NUL) as [Hx0|_]; [unfold NUL in Hx0; lia|].
    replace (isdigit x) with true by (symmetry; apply isdigit_spec, Hx).
    rewrite IH. f_equal. lia.
Qed.

Lemma goNum_inv (b : buffer) (p q : nat) :
  goNum b p = Some q ->
  exists ds, consumes b p q ds /\ digits ds
             /\ isdigit (rd b q) = false /\ rd b q <> NUL.
Proof.
  unfold goNum. intros Hg.
  apply goNum_from_inv in Hg as (ds & c & l' & Hl & -> & Hds & Hc & Hn).
  assert (Hq : skipn (p + List.length ds) b = c :: l').
  { rewrite skipn_add, Hl. apply skipn_app_exact. }
  exists ds. repeat split; auto.
  - rewrite Hq. exact Hl.
  - rewrite rd_skipn, Hq. exact Hc.
  - rewrite rd_skipn, Hq. exact Hn.
Qed.

Lemma goNum_run (b : buffer) (p q : nat) (ds : list CHAR_T) :
  consumes b p q ds -> digits ds ->
  isdigit (rd b q) = false -> rd b q <> NUL ->
  goNum b p = Some q.
Proof.
  intros [-> Hs] Hds Hc Hn. unfold goNum.
  rewrite Hs, (rd_nonzero_skipn _ _ Hn).
  apply goNum_from_run; auto.
Qed.

(** ** The number grammar *)

Lemma fraqValue_inv (b : buffer) (p q : nat) :
  fraqValue b p = Some q ->
  exists d ds, consumes b p q (d :: ds) /\ digits (d :: ds)
               /\ isdigit (rd b q) = false /\ rd b q <> NUL.
Proof.
  unfold fraqValue. destruct (isdigit (rd b p)) eqn:Hd; [|discriminate].
  cbn [negb]. intros Hg. apply goNum_inv in Hg as (ds & Hc & Hds & Hq & Hn).
  apply isdigit_spec in Hd.
  exists (rd b p), ds. refine (conj _ (conj _ (conj Hq Hn))).
  - apply (consumes_app b p (S p) q [rd b p] ds); [|exact Hc].
    apply consumes_one. unfold NUL. lia.
  - constructor; assumption.
Qed.

Lemma fraqValue_run (b : buffer) (p q : nat) (d : CHAR_T) (ds : list CHAR_T) :
  consumes b p q (d :: ds) -> digits (d :: ds) ->
  isdigit (rd b q) = false -> rd b q <> NUL ->
  fraqValue b p = Some q.
Proof.
  intros Hc Hds Hq Hn. apply consumes_head in Hc as [Hd Hc].
  inversion Hds; subst. unfold fraqValue.
  replace (isdigit (rd b p)) with true by (symmetry; apply isdigit_spec; auto).
  cbn [negb]. eapply goNum_run; eauto.
Qed.

Lemma expValue_inv (b : buffer) (p q : nat) :
  expValue b p = Some q ->
  exists sg d ds,
    (sg = [] \/ sg = [T_ "+"] \/ sg = [T_ "-"])
    /\ consumes b p q (sg ++ d :: ds) /\ digits (d :: ds)
    /\ isdigit (rd b q) = false /\ rd b q <> NUL.
Proof.
  unfold expValue.
  set (p1 := if ((rd b p =? T_ "-") || (rd b p =? T_ "+"))%Z then S p else p).
  assert (Hsg : exists sg, (sg = [] \/ sg = [T_ "+"] \/ sg = [T_ "-"])
                           /\ consumes b p p1 sg).
  { subst p1. change (T_ "-") with 45%Z. change (T_ "+") with 43%Z.
    destruct (Z.eqb_spec (rd b p) 45) as [Hm|Hm]; cbn.
    - exists [45%Z]. split; [auto|]. rewrite <- Hm. apply consumes_one.
      unfold NUL. lia.
    - destruct (Z.eqb_spec (rd b p) 43) as [Hp|Hp].
      + exists [43%Z]. split; [auto|]. rewrite <- Hp. apply consumes_one.
        unfold NUL. lia.
      + exists []. split; [auto|]. apply consumes_nil. }
  destruct Hsg as (sg & Hsg & Hc1).
  intros Hf. apply fraqValue_inv in Hf as (d & ds & Hc2 & Hds & Hq & Hn).
  exists sg, d, ds. refine (conj Hsg (conj _ (conj Hds (conj Hq Hn)))).
  eapply consumes_app; eauto.
Qed.

Lemma expValue_run (b : buffer) (p q : nat) (sg : list CHAR_T) (d : CHAR_T)
    (ds : list CHAR_T) :
  sg = [] \/ sg = [T_ "+"] \/ sg = [T_ "-"] ->
  consumes b p q (sg ++ d :: ds) -> digits (d :: ds) ->
  isdigit (rd b q) = false -> rd b q <> NUL ->
  expValue b p = Some q.
Proof.
  intros Hsg Hc Hds Hq Hn.
  apply consumes_split in Hc as [Hc1 Hc2].
  assert (Hf : fraqValue b (p + List.length sg) = Some q)
    by (eapply fraqValue_run; eauto).
  unfold expValue. change (T_ "-") with 45%Z. change (T_ "+") with 43%Z.
  destruct Hsg as [->|[->| ->]].
  - cbn in Hf. rewrite Nat.add_0_r in *.
    pose proof (consumes_head _ _ _ _ _ Hc2) as [Hd _].
    inversion Hds; subst.
    destruct (Z.eqb_spec (rd b p) 45); [lia|].
    destruct (Z.eqb_spec (rd b p) 43); [lia|]. exact Hf.
  - apply consumes_head in Hc1 as [Hs _]. change (T_ "+") with 43%Z in Hs.
    rewrite Hs. cbn. cbn in Hf. rewrite Nat.add_1_r in Hf. exact Hf.
  - apply consumes_head in Hc1 as [Hs _]. change (T_ "-") with 45%Z in Hs.
    rewrite Hs. cbn. cbn in Hf. rewrite Nat.add_1_r in Hf. exact Hf.
Qed.

Lemma numValue_scan_sound (b : buffer) (ptr pe : nat) (ty : jsonType_t) :
  numValue_scan b ptr = Some (pe, ty) ->
  exists lit, number_production lit ty /\ consumes b ptr pe lit
              /\ ends_primitive (rd b pe).
Proof.
  unfold numValue_scan.
  set (p1 := if (rd b ptr =? T_ "-")%Z then S ptr else ptr).
  assert (Hsg : exists sg, (sg = [] \/ sg = [T_ "-"]) /\ consumes b ptr p1 sg).
  { subst p1. change (T_ "-") with 45%Z.
    destruct (Z.eqb_spec (rd b ptr) 45) as [Hm|Hm].
    - exists [45%Z]. split; [auto|]. rewrite <- Hm. apply consumes_one.
      unfold NUL. lia.
    - exists []. split; [auto|]. apply consumes_nil. }
  destruct Hsg as (sg & Hsg & Hc0). clearbody p1.
  destruct (isdigit (rd b p1)) eqn:Hd1; cbn [negb]; [|discriminate].
  apply isdigit_spec in Hd1.
  match goal with
  | |- match ?e with _ => _ end = _ -> _ => destruct e as [p2|] eqn:Hint
  end; [|discriminate].
  assert (Hip : exists ip, int_part ip /\ consumes b p1 p2 ip).
  { change (T_ "0") with 48%Z in Hint.
    destruct (Z.eqb_spec (rd b p1) 48) as [Hz|Hz]; cbn [negb] in Hint.
    - destruct (isdigit (rd b (S p1))); [discriminate|].
      inversion Hint; subst p2. exists [48%Z]. split; [constructor|].
      rewrite <- Hz. apply consumes_one. unfold NUL. lia.
    - apply goNum_inv in Hint as (ds & Hc & Hds & Hq & Hn).
      destruct ds as [|d ds].
      + apply consumes_empty in Hc. subst p2.
        apply isdigit_spec in Hd1. congruence.
      + exists (d :: ds). split; [|exact Hc].
        apply consumes_head in Hc as [Hd _]. inversion Hds; subst.
        constructor; [lia|assumption]. }
  destruct Hip as (ip & Hip & Hc1). clear Hint.
  match goal with
  | |- match ?e with _ => _ end = _ -> _ => destruct e as [[p3 ty3]|] eqn:Hfr
  end; [|discriminate].
  assert (Hf : exists f, frac_part f /\ consumes b p2 p3 f
                         /\ (f = [] /\ ty3 = JSON_INTEGER
                             \/ f <> [] /\ ty3 = JSON_REAL)).
  { destruct (Z.eqb_spec (rd b p2) (T_ ".")) as [Hdot|Hdot].
    - destruct (fraqValue b (S p2)) as [p|] eqn:Hfq; [|discriminate].
      inversion Hfr; subst p ty3.
      apply fraqValue_inv in Hfq as (d & ds & Hc & Hds & _ & _).
      exists (T_ "." :: d :: ds). split; [constructor; exact Hds|]. split.
      + apply (consumes_app b p2 (S p2) p3 [T_ "."] (d :: ds)); [|exact Hc].
        rewrite <- Hdot. apply consumes_one. rewrite Hdot. discriminate.
      + right. split; [discriminate|reflexivity].
    - inversion Hfr; subst p3 ty3. exists []. split; [constructor|].
      split; [apply consumes_nil|]. left. auto. }
  destruct Hf as (f & Hf & Hc2 & Hty3). clear Hfr.
  match goal with
  | |- match ?e with _ => _ end = _ -> _ => destruct e as [[p4 ty4]|] eqn:Hex
  end; [|discriminate].
  assert (He : exists e, exp_part e /\ consumes b p3 p4 e
                         /\ (e = [] /\ ty4 = ty3 \/ e <> [] /\ ty4 = JSON_REAL)).
  { destruct ((rd b p3 =? T_ "e") || (rd b p3 =? T_ "E"))%Z eqn:Hch.
    - destruct (expValue b (S p3)) as [p|] eqn:Hev; [|discriminate].
      inversion Hex; subst p ty4.
      apply expValue_inv in Hev as (s & d & ds & Hs & Hc & Hds & _ & _).
      exists (rd b p3 :: s ++ d :: ds). split; [|split].
      + constructor; auto.
        apply orb_true_iff in Hch as [Hch|Hch]; apply Z.eqb_eq in Hch; auto.
      + apply (consumes_app b p3 (S p3) p4 [rd b p3] (s ++ d :: ds));
          [|exact Hc].
        apply consumes_one.
        apply orb_true_iff in Hch as [Hch|Hch]; apply Z.eqb_eq in Hch;
          rewrite Hch; discriminate.
      + right. split; [discriminate|reflexivity].
    - inversion Hex; subst p4 ty4. exists []. split; [constructor|].
      split; [apply consumes_nil|]. left. auto. }
  destruct He as (e & He & Hc3 & Hty4). clear Hex.
  destruct (isEndOfPrimitive (rd b p4)) eqn:Hend; cbn [negb]; [|discriminate].
  intros Hr. inversion Hr; subst p4 ty4.
  exists (sg ++ ip ++ f ++ e). split; [|split].
  - constructor; auto.
    destruct Hty3 as [[-> ->]|[Hfn ->]], Hty4 as [[-> ->]|[Hen ->]]; auto.
  - eauto using consumes_app.
  - apply isEndOfPrimitive_spec, Hend.
Qed.

Lemma ends_primitive_facts (c : CHAR_T) :
  ends_primitive c ->
  isdigit c = false /\ c <> NUL /\ c <> T_ "." /\ c <> T_ "e" /\ c <> T_ "E"
  /\ isEndOfPrimitive c = true.
Proof.
  intros Hc. pose proof (proj2 (isEndOfPrimitive_spec c) Hc) as He.
  unfold ends_primitive in Hc. unfold NUL, isdigit.
  change (T_ ",") with 44%Z in Hc. change (T_ " ") with 32%Z in Hc.
  change (T_ "}") with 125%Z in Hc. change (T_ "]") with 93%Z in Hc.
  change (T_ ".") with 46%Z. change (T_ "e") with 101%Z.
  change (T_ "E") with 69%Z.
  repeat split; try lia; exact He.
Qed.

Lemma numValue_scan_complete (b : buffer) (ptr pe : nat) (lit : list CHAR_T)
    (ty : jsonType_t) :
  number_production lit ty -> consumes b ptr pe lit ->
  ends_primitive (rd b pe) ->
  numValue_scan b ptr = Some (pe, ty).
Proof.
  intros Hprod Hc Hend.
  destruct Hprod as [sg ip f e ty Hsg Hip Hf He Hty].
  apply ends_primitive_facts in Hend
    as (Hend_d & Hend_n & Hend_dot & Hend_e & Hend_E & Hend).
  apply consumes_split in Hc as [Hc0 Hc].
  apply consumes_split in Hc as [Hc1 Hc].
  apply consumes_split in Hc as [Hc2 Hc3].
  set (p1 := ptr + List.length sg) in *.
  set (p2 := p1 + List.length ip) in *.
  set (p3 := p2 + List.length f) in *.
  clearbody p1 p2 p3.
  (* the character at the start of the exponent *)
  assert (H3 : isdigit (rd b p3) = false /\ rd b p3 <> NUL
               /\ rd b p3 <> T_ ".").
  { destruct He as [|e0 s d ds He0 Hs Hds].
    - apply consumes_empty in Hc3. subst pe. auto.
    - apply consumes_head in Hc3 as [-> _].
      destruct He0 as [-> | ->]; repeat split; try reflexivity;
        intros Hx; vm_compute in Hx; discriminate Hx. }
  destruct H3 as (H3d & H3n & H3dot).
  (* the character at the start of the fraction *)
  assert (H2 : isdigit (rd b p2) = false /\ rd b p2 <> NUL).
  { destruct Hf as [|d ds Hds].
    - apply consumes_empty in Hc2. subst p3. auto.
    - apply consumes_head in Hc2 as [-> _].
      split; [reflexivity|intros Hx; vm_compute in Hx; discriminate Hx]. }
  destruct H2 as (H2d & H2n).
  (* the first digit *)
  assert (H1 : (48 <= rd b p1 <= 57)%Z).
  { destruct Hip as [|d ds Hd Hds];
      apply consumes_head in Hc1 as [-> _]; lia. }
  assert (Esg : (if (rd b ptr =? T_ "-")%Z then S ptr else ptr) = p1).
  { change (T_ "-") with 45%Z in *. destruct Hsg as [-> | ->].
    - apply consumes_empty in Hc0. subst p1.
      destruct (Z.eqb_spec (rd b ptr) 45); [lia|reflexivity].
    - pose proof Hc0 as [Hp _]. apply consumes_head in Hc0 as [-> _].
      cbn in Hp. cbn. lia. }
  assert (Eint : (if negb (rd b p1 =? T_ "0")%Z then goNum b p1
                  else if isdigit (rd b (S p1)) then None else Some (S p1))
                 = Some p2).
  { change (T_ "0") with 48%Z. destruct Hip as [|d ds Hd Hds].
    - pose proof Hc1 as [Hp _]. apply consumes_head in Hc1 as [-> _].
      cbn in Hp. replace (S p1) with p2 by lia. cbn. rewrite H2d. reflexivity.
    - pose proof (consumes_head _ _ _ _ _ Hc1) as [Hr _].
      destruct (Z.eqb_spec (rd b p1) 48); [lia|]. cbn [negb].
      eapply goNum_run; eauto. constructor; [lia|exact Hds]. }
  assert (Efr : (if (rd b p2 =? T_ ".")%Z
                 then match fraqValue b (S p2) with
                      | None => None
                      | Some p => Some (p, JSON_REAL)
                      end
                 else Some (p2, JSON_INTEGER))
                = Some (p3, match f with [] => JSON_INTEGER | _ => JSON_REAL end)).
  { destruct Hf as [|d ds Hds].
    - apply consumes_empty in Hc2. subst p3.
      destruct (Z.eqb_spec (rd b p2) (T_ ".")); [contradiction|reflexivity].
    - apply consumes_head in Hc2 as [-> Hc2]. rewrite Z.eqb_refl.
      erewrite fraqValue_run; eauto. }
  assert (Eex : forall ty3,
             (if ((rd b p3 =? T_ "e") || (rd b p3 =? T_ "E"))%Z
              then match expValue b (S p3) with
                   | None => None
                   | Some p => Some (p, JSON_REAL)
                   end
              else Some (p3, ty3))
             = Some (pe, match e with [] => ty3 | _ => JSON_REAL end)).
  { intros ty3. destruct He as [|e0 s d ds He0 Hs Hds].
    - apply consumes_empty in Hc3. subst pe.
      destruct (Z.eqb_spec (rd b p3) (T_ "e")); [contradiction|].
      destruct (Z.eqb_spec (rd b p3) (T_ "E")); [contradiction|]. reflexivity.
    - apply consumes_head in Hc3 as [Hr Hc3].
      replace ((rd b p3 =? T_ "e") || (rd b p3 =? T_ "E"))%Z with true
        by (destruct He0; subst e0; rewrite Hr; reflexivity).
      erewrite expValue_run; eauto. }
  cbv beta zeta delta [numValue_scan].
  rewrite Esg.
  replace (isdigit (rd b p1)) with true by (symmetry; apply isdigit_spec, H1).
  cbn [negb]. rewrite Eint, Efr, Eex, Hend. cbn [negb].
  f_equal. f_equal.
  destruct Hty as [(-> & -> & ->)|[Hne ->]]; [reflexivity|].
  destruct f, e; try reflexivity. destruct Hne; congruence.
Qed.

(** C4: the scanner of [numValue] accepts exactly the JSON number
    production.  It returns [pe] with the tag [ty] if and only if the cells
    from [ptr] up to [pe] hold a literal made of an optional ['-'], a lone
    ['0'] or a nonzero digit with more digits, an optional ['.'] with at
    least one digit, an optional ['e']/['E'] with an optional sign and at
    least one digit, and the character at [pe] may end a primitive; [ty] is
    Integer when the literal has neither fraction nor exponent and Real
    otherwise, and it is the tag [numValue] stores in the node. *)
Theorem numValue_scan_production (b : buffer) (ptr : nat) :
  (forall pe ty,
      numValue_scan b ptr = Some (pe, ty) <->
      exists lit, number_production lit ty /\ consumes b ptr pe lit
                  /\ ends_primitive (rd b pe))
  /\ (forall mem property r,
         numValue b mem ptr property = Some r ->
         exists pe ty, numValue_scan b ptr = Some (pe, ty)
                       /\ snd r = upd mem property (set_type ty)).
Proof.
  split.
  - intros pe ty. split.
    + apply numValue_scan_sound.
    + intros (lit & Hprod & Hc & Hend).
      eapply numValue_scan_complete; eauto.
  - intros mem property r Hn.
    apply numValue_scanned in Hn as (pe & ty & Hs & ->).
    exists pe, ty. split; [exact Hs|reflexivity].
Qed.

(** The theorem at [-12.5e+3,]: a Real literal of eight characters; and at
    [01,]: not a literal. *)
Lemma numValue_scan_production_witness :
  numValue_scan (doc "-12.5e+3,") 0 = Some (8, JSON_REAL)
  /\ ~ (exists lit, number_production lit JSON_INTEGER
                    /\ consumes (doc "01,") 0 2 lit
                    /\ ends_primitive (rd (doc "01,") 2)).
Proof.
  split.
  - apply (proj2 (proj1 (numValue_scan_production (doc "-12.5e+3,") 0)
                    8 JSON_REAL)).
    exists (T "-12.5e+3"). split; [|split].
    + apply (number_lit [T_ "-"] (T "12") (T ".5") (T "e+3")).
      * right. reflexivity.
      * apply int_nonzero; [vm_compute; split; discriminate|].
        repeat constructor; vm_compute; discriminate.
      * apply frac_some. repeat constructor; vm_compute; discriminate.
      * apply (exp_some (T_ "e") [T_ "+"] (T_ "3") []); auto.
        repeat constructor; vm_compute; discriminate.
      * right. split; [left; discriminate|reflexivity].
    + split; reflexivity.
    + vm_compute. auto.
  - intros Hex.
    apply (proj2 (proj1 (numValue_scan_production (doc "01,") 0)
                    2 JSON_INTEGER)) in Hex.
    vm_compute in Hex. discriminate Hex.
Defined.

(** ** Writes and C strings *)

Lemma wr_length (b : buffer) (c : CHAR_T) :
  forall p, List.length (wr b p c) = List.length b.
Proof.
  induction b as [|x b IH]; intros [|p]; cbn; auto.
Qed.

Lemma wr_app (s r : list CHAR_T) (k : nat) (c : CHAR_T) :
  wr (s ++ r) (List.length s + k) c = s ++ wr r k c.
Proof.
  induction s as [|x s IH]; cbn; [reflexivity|]. rewrite IH. reflexivity.
Qed.

Lemma skipn_wr_le (c : CHAR_T) :
  forall p b q, p <= q -> skipn p (wr b q c) = wr (skipn p b) (q - p) c.
Proof.
  induction p as [|p IH]; intros b q Hpq.
  - rewrite Nat.sub_0_r. reflexivity.
  - destruct q as [|q]; [lia|]. destruct b as [|x b]; [reflexivity|].
    cbn. apply IH. lia.
Qed.

Lemma consumes_le (b : buffer) (p q : nat) (s : list CHAR_T) :
  consumes b p q s -> p <= q.
Proof. intros [-> _]. lia. Qed.

Lemma skipn_wr_consumes (b : buffer) (p q : nat) (s : list CHAR_T) (c : CHAR_T) :
  consumes b p q s -> rd b q <> NUL ->
  skipn p (wr b q c) = s ++ c :: skipn (S q) b.
Proof.
  intros Hc Hn. pose proof (consumes_le _ _ _ _ Hc) as Hle.
  destruct Hc as [Hq Hs].
  rewrite skipn_wr_le by exact Hle. rewrite Hs.
  replace (q - p) with (List.length s + 0) by lia.
  rewrite wr_app, (rd_nonzero_skipn _ _ Hn). reflexivity.
Qed.

Lemma cstr_from_app_NUL (s rest : list CHAR_T) :
  ~ In NUL s -> cstr_from (s ++ NUL :: rest) = s.
Proof.
  induction s as [|x s IH]; intros Hs; cbn; [reflexivity|].
  destruct (Z.eqb_spec x 0) as [Hx|Hx].
  - exfalso. apply Hs. left. exact Hx.
  - rewrite IH; [reflexivity|]. intros Hin. apply Hs. right. exact Hin.
Qed.

Lemma cstr_terminated (b : buffer) (p q : nat) (s : list CHAR_T) :
  consumes b p q s -> ~ In NUL s -> rd b q <> NUL ->
  cstr (wr b q NUL) p = s.
Proof.
  intros Hc Hs Hn. unfold cstr.
  rewrite (skipn_wr_consumes b p q s NUL Hc Hn).
  apply cstr_from_app_NUL, Hs.
Qed.

Lemma digits_no_NUL (ds : list CHAR_T) : digits ds -> ~ In NUL ds.
Proof.
  intros Hds Hin. unfold digits in Hds. rewrite Forall_forall in Hds.
  apply Hds in Hin. unfold NUL in Hin. lia.
Qed.

(** ** Digit strings as numbers *)

Lemma digits_value_bound (ds : list CHAR_T) :
  digits ds -> (0 <= digits_value ds < 10 ^ Z.of_nat (List.length ds))%Z.
Proof.
  intros Hds. induction Hds as [|d ds Hd Hds IH].
  - cbn. lia.
  - cbn [digits_value List.length].
    rewrite Nat2Z.inj_succ, Z.pow_succ_r by lia.
    set (P := (10 ^ Z.of_nat (List.length ds))%Z) in *. nia.
Qed.

Lemma strcmp_digits (a : list CHAR_T) :
  forall b, digits a -> digits b -> List.length a = List.length b ->
            ((strcmp a b < 0)%Z <-> (digits_value a < digits_value b)%Z).
Proof.
  induction a as [|x a IH]; intros [|y b] Ha Hb Hlen; try discriminate.
  - cbn. lia.
  - inversion Ha as [|? ? Hx Ha']; inversion Hb as [|? ? Hy Hb']; subst.
    cbn in Hlen. injection Hlen as Hlen.
    pose proof (digits_value_bound a Ha') as Hva.
    pose proof (digits_value_bound b Hb') as Hvb.
    cbn [strcmp digits_value]. rewrite <- Hlen in *.
    set (P := (10 ^ Z.of_nat (List.length a))%Z) in *.
    destruct (Z.eqb_spec x y) as [->|Hxy].
    + rewrite IH by assumption. lia.
    + split; intros Hlt; nia.
Qed.

Lemma int_part_digits (ip : list CHAR_T) : int_part ip -> digits ip.
Proof.
  intros [|d ds Hd Hds]; [repeat constructor; lia|].
  constructor; [lia|assumption].
Qed.

Lemma int_part_lower (ip : list CHAR_T) :
  int_part ip -> 2 <= List.length ip ->
  (10 ^ Z.of_nat (List.length ip - 1) <= digits_value ip)%Z.
Proof.
  intros [|d ds Hd Hds] Hlen; [cbn in Hlen; lia|].
  pose proof (digits_value_bound ds Hds) as Hv.
  cbn [digits_value List.length].
  replace (S (List.length ds) - 1) with (List.length ds) by lia.
  set (P := (10 ^ Z.of_nat (List.length ds))%Z) in *. nia.
Qed.

(** ** The 64-bit range test *)

Lemma to_uint_small (z : Z) : (0 <= z < 2 ^ 32)%Z -> to_uint z = z.
Proof. intros Hz. unfold to_uint. apply Z.mod_small, Hz. Qed.

Lemma pow10_ge (n : nat) (k : Z) :
  (0 <= k <= Z.of_nat n)%Z -> (10 ^ k <= 10 ^ Z.of_nat n)%Z.
Proof. intros Hk. apply Z.pow_le_mono_r; lia. Qed.

Lemma pow10_le (n : nat) (k : Z) :
  (Z.of_nat n <= k)%Z -> (10 ^ Z.of_nat n <= 10 ^ k)%Z.
Proof. intros Hk. apply Z.pow_le_mono_r; lia. Qed.

(** The test on the digits alone: [thr] is the digit string of the bound,
    nineteen digits long. *)
Lemma range_by_digits (thr ip : list CHAR_T) (bound : Z) :
  digits thr -> List.length thr = 19 -> digits_value thr = bound ->
  (10 ^ 18 <= bound < 10 ^ 19)%Z ->
  int_part ip ->
  (List.length ip < 19 -> (digits_value ip <= bound)%Z)
  /\ (List.length ip = 19 ->
      ((strcmp thr ip <? 0)%Z = false <-> (digits_value ip <= bound)%Z))
  /\ (19 < List.length ip -> (bound < digits_value ip)%Z).
Proof.
  intros Hthr Hlen Hval Hb Hip.
  pose proof (int_part_digits ip Hip) as Hds.
  pose proof (digits_value_bound ip Hds) as Hv.
  split; [|split].
  - intros Hl.
    assert (10 ^ Z.of_nat (List.length ip) <= 10 ^ 18)%Z
      by (apply pow10_le; lia). lia.
  - intros Hl. rewrite Z.ltb_ge.
    pose proof (strcmp_digits thr ip Hthr Hds) as Hcmp.
    rewrite Hval in Hcmp. rewrite Hl, Hlen in Hcmp.
    specialize (Hcmp eq_refl). lia.
  - intros Hl. pose proof (int_part_lower ip Hip) as Hlow.
    assert (10 ^ 19 <= 10 ^ Z.of_nat (List.length ip - 1))%Z
      by (apply pow10_ge; lia). lia.
Qed.

Lemma int64_check_literal (b : buffer) (ptr pe : nat) (sg ip : list CHAR_T) :
  sg = [] \/ sg = [T_ "-"] -> int_part ip ->
  consumes b ptr pe (sg ++ ip) -> rd b pe <> NUL ->
  (Z.of_nat (List.length (sg ++ ip)) < 2 ^ 32)%Z ->
  (int64_check b ptr pe = true <->
   (INT64_MIN <= literal_value sg ip <= INT64_MAX)%Z).
Proof.
  intros Hsg Hip Hc Hn Hsmall.
  pose proof (int_part_digits ip Hip) as Hds.
  pose proof (digits_value_bound ip Hds) as Hv.
  assert (Hstr : cstr (wr b pe NUL) ptr = sg ++ ip).
  { apply cstr_terminated; auto. intros Hin. apply in_app_or in Hin as [Hin|Hin].
    - destruct Hsg as [-> | ->]; [destruct Hin|].
      destruct Hin as [Hin|[]]. vm_compute in Hin. discriminate Hin.
    - exact (digits_no_NUL ip Hds Hin). }
  assert (Hlen : to_uint (Z.of_nat pe - Z.of_nat ptr)
                 = Z.of_nat (List.length (sg ++ ip))).
  { destruct Hc as [-> _]. rewrite <- to_uint_small by lia. f_equal. lia. }
  unfold int64_check. rewrite Hlen, Hstr. clear Hlen Hstr.
  change (T_ "-") with 45%Z in *.
  destruct Hsg as [-> | ->]; cbn [app] in *.
  - (* non-negative *)
    assert (Hhd : (rd b ptr =? 45)%Z = false).
    { destruct Hip as [|d ds Hd _]; apply consumes_head in Hc as [-> _];
        [reflexivity|]. apply Z.eqb_neq. lia. }
    rewrite Hhd. change (List.length max_literal) with 19.
    destruct (range_by_digits max_literal ip INT64_MAX) as (Hlt & Heq & Hgt);
      try reflexivity; auto.
    { repeat constructor; vm_compute; discriminate. }
    { vm_compute. split; [discriminate|reflexivity]. }
    unfold literal_value, INT64_MIN, INT64_MAX in *.
    destruct (Z.ltb_spec (Z.of_nat 19) (Z.of_nat (List.length ip))) as [Hl|Hl].
    + split; [discriminate|]. specialize (Hgt ltac:(lia)). lia.
    + destruct (Z.eqb_spec (Z.of_nat (List.length ip)) (Z.of_nat 19)) as [He|He].
      * rewrite negb_true_iff. rewrite (Heq ltac:(lia)). lia.
      * specialize (Hlt ltac:(lia)). split; [lia|reflexivity].
  - (* negative *)
    apply consumes_head in Hc as [Hhd Hc]. rewrite Hhd, Z.eqb_refl.
    change (List.length min_literal) with 20.
    change min_literal with (45%Z :: T "9223372036854775808").
    cbn [strcmp]. rewrite Z.eqb_refl.
    destruct (range_by_digits (T "9223372036854775808") ip (- INT64_MIN))
      as (Hlt & Heq & Hgt); try reflexivity; auto.
    { repeat constructor; vm_compute; discriminate. }
    { vm_compute. split; [discriminate|reflexivity]. }
    unfold literal_value, INT64_MIN, INT64_MAX in *. cbn [List.length].
    destruct (Z.ltb_spec (Z.of_nat 20) (Z.of_nat (S (List.length ip))))
      as [Hl|Hl].
    + split; [discriminate|]. specialize (Hgt ltac:(lia)). lia.
    + destruct (Z.eqb_spec (Z.of_nat (S (List.length ip))) (Z.of_nat 20))
        as [He|He].
      * rewrite negb_true_iff. rewrite (Heq ltac:(lia)). lia.
      * specialize (Hlt ltac:(lia)). split; [lia|reflexivity].
Qed.

Lemma u_value_upd_set_type (mem : memory) (ty : jsonType_t) :
  forall i, u_value (node (upd mem i (set_type ty)) i) = u_value (node mem i).
Proof.
  unfold node. induction mem as [|n mem IH]; intros [|i]; cbn; auto.
Qed.

Lemma in_range_short (sg ip : list CHAR_T) :
  sg = [] \/ sg = [T_ "-"] -> int_part ip ->
  (INT64_MIN <= literal_value sg ip <= INT64_MAX)%Z ->
  List.length (sg ++ ip) <= 20.
Proof.
  intros Hsg Hip Hr.
  destruct (le_lt_dec (List.length ip) 19) as [Hl|Hl].
  - destruct Hsg as [-> | ->]; cbn; lia.
  - exfalso. pose proof (int_part_lower ip Hip ltac:(lia)) as Hlow.
    assert (10 ^ 19 <= 10 ^ Z.of_nat (List.length ip - 1))%Z
      by (apply pow10_ge; lia).
    unfold literal_value, INT64_MIN, INT64_MAX in Hr.
    destruct Hsg as [-> | ->]; lia.
Qed.

Lemma numValue_integer (b : buffer) (mem : memory) (ptr property pe : nat)
    (sg ip : list CHAR_T) :
  u_value (node mem property) = Some ptr ->
  sg = [] \/ sg = [T_ "-"] -> int_part ip ->
  consumes b ptr pe (sg ++ ip) -> ends_primitive (rd b pe) ->
  numValue b mem ptr property
  = if int64_check b ptr pe
    then Some (snd (setToNull b pe), fst (setToNull b pe),
               upd mem property (set_type JSON_INTEGER))
    else None.
Proof.
  intros Hval Hsg Hip Hc Hend.
  assert (Hscan : numValue_scan b ptr = Some (pe, JSON_INTEGER)).
  { apply (numValue_scan_complete b ptr pe (sg ++ ip ++ [] ++ [])); auto.
    - apply number_lit; auto using frac_none, exp_none.
    - cbn [app]. rewrite app_nil_r. exact Hc. }
  unfold numValue. rewrite Hscan.
  change (jsonType_eqb JSON_INTEGER JSON_INTEGER) with true. cbv iota.
  rewrite u_value_upd_set_type, Hval.
  destruct (int64_check b ptr pe); [|reflexivity].
  destruct (setToNull b pe); reflexivity.
Qed.

Lemma setToNull_keeps (b : buffer) (ptr pe : nat) (s : list CHAR_T) :
  consumes b ptr pe s -> rd b pe <> NUL ->
  consumes (fst (setToNull b pe)) ptr pe s
  /\ (rd (fst (setToNull b pe)) pe = NUL
      /\ snd (setToNull b pe) = S pe
      \/ fst (setToNull b pe) = b /\ snd (setToNull b pe) = pe
         /\ (rd b pe = T_ "}" \/ rd b pe = T_ "]")).
Proof.
  intros Hc Hn. unfold setToNull, endofblock.
  cbn [T map list_ascii_of_string isOneOfThem].
  destruct (Z.eqb_spec (rd b pe) (T_ "}")) as [Hb|Hb]; cbn [negb fst snd].
  { split; [exact Hc|]. right. auto. }
  destruct (Z.eqb_spec (rd b pe) (T_ "]")) as [Hk|Hk]; cbn [negb fst snd].
  { split; [exact Hc|]. right. auto. }
  pose proof (skipn_wr_consumes b ptr pe s NUL Hc Hn) as H1.
  pose proof (skipn_wr_consumes b pe pe [] NUL (consumes_nil b pe) Hn) as H2.
  cbn [app] in H2. split.
  - split; [apply Hc|]. rewrite H1, H2. reflexivity.
  - left. split; [|reflexivity]. rewrite rd_skipn, H2. reflexivity.
Qed.

Lemma cstr_consumed (b : buffer) (p q : nat) (s : list CHAR_T) :
  consumes b p q s -> ~ In NUL s -> rd b q = NUL -> cstr b p = s.
Proof.
  intros [_ Hs] Hno Hq. unfold cstr. rewrite Hs.
  rewrite rd_skipn in Hq. destruct (skipn q b) as [|x r].
  - rewrite app_nil_r. clear Hs. induction s as [|y s IH]; cbn; [reflexivity|].
    destruct (Z.eqb_spec y 0) as [Hy|Hy].
    + exfalso. apply Hno. left. exact Hy.
    + rewrite IH; [reflexivity|]. intros Hin. apply Hno. right. exact Hin.
  - cbn in Hq. subst x. apply cstr_from_app_NUL, Hno.
Qed.

Lemma literal_no_NUL (sg ip : list CHAR_T) :
  sg = [] \/ sg = [T_ "-"] -> int_part ip -> ~ In NUL (sg ++ ip).
Proof.
  intros Hsg Hip Hin. apply in_app_or in Hin as [Hin|Hin].
  - destruct Hsg as [-> | ->]; [destruct Hin|].
    destruct Hin as [Hin|[]]. vm_compute in Hin. discriminate Hin.
  - exact (digits_no_NUL ip (int_part_digits ip Hip) Hin).
Qed.

Lemma int64_check_mechanism (b : buffer) (ptr pe : nat) (sg ip : list CHAR_T) :
  sg = [] \/ sg = [T_ "-"] -> int_part ip ->
  consumes b ptr pe (sg ++ ip) -> rd b pe <> NUL ->
  (Z.of_nat (List.length (sg ++ ip)) < 2 ^ 32)%Z ->
  int64_check b ptr pe
  = if List.length (bound_literal sg) <? List.length (sg ++ ip) then false
    else if List.length (sg ++ ip) =? List.length (bound_literal sg)
         then negb (strcmp (bound_literal sg) (sg ++ ip) <? 0)%Z
         else true.
Proof.
  intros Hsg Hip Hc Hn Hsmall.
  assert (Hstr : cstr (wr b pe NUL) ptr = sg ++ ip)
    by (apply cstr_terminated; auto using literal_no_NUL).
  assert (Hlen : to_uint (Z.of_nat pe - Z.of_nat ptr)
                 = Z.of_nat (List.length (sg ++ ip))).
  { destruct Hc as [-> _]. rewrite <- to_uint_small by lia. f_equal. lia. }
  assert (Hneg : (rd b ptr =? T_ "-")%Z = match sg with [] => false | _ => true end).
  { change (T_ "-") with 45%Z in *. destruct Hsg as [-> | ->].
    - destruct Hip as [|d ds Hd _]; apply consumes_head in Hc as [-> _];
        [reflexivity|]. apply Z.eqb_neq. lia.
    - apply consumes_head in Hc as [-> _]. reflexivity. }
  unfold int64_check. rewrite Hlen, Hstr, Hneg.
  set (n := List.length (sg ++ ip)).
  assert (Hmax : (if match sg with [] => false | _ => true end
                  then List.length min_literal else List.length max_literal)
                 = List.length (bound_literal sg))
    by (destruct sg; reflexivity).
  assert (Hthr : (if match sg with [] => false | _ => true end
                  then min_literal else max_literal) = bound_literal sg)
    by (destruct sg; reflexivity).
  rewrite Hmax, Hthr.
  destruct (Nat.ltb_spec (List.length (bound_literal sg)) n) as [H1|H1];
    destruct (Z.ltb_spec (Z.of_nat (List.length (bound_literal sg))) (Z.of_nat n))
      as [H2|H2]; try reflexivity; try lia.
  destruct (Nat.eqb_spec n (List.length (bound_literal sg))) as [H3|H3];
    destruct (Z.eqb_spec (Z.of_nat n) (Z.of_nat (List.length (bound_literal sg))))
      as [H4|H4]; try lia; reflexivity.
Qed.

(** ** Cells, windows and footprints *)

Lemma rd_nonzero_lt (b : buffer) (p : nat) : rd b p <> NUL -> p < List.length b.
Proof.
  intros Hn. destruct (le_lt_dec (List.length b) p) as [Hle|Hlt]; [|exact Hlt].
  exfalso. apply Hn. unfold rd. apply nth_overflow, Hle.
Qed.

Lemma rd_wr_same (b : buffer) (c : CHAR_T) :
  forall p, p < List.length b -> rd (wr b p c) p = c.
Proof.
  unfold rd. induction b as [|x b IH]; intros [|p] Hp; cbn in *;
    try lia; try reflexivity.
  apply IH. lia.
Qed.

Lemma rd_wr_other (b : buffer) (c : CHAR_T) :
  forall p i, i <> p -> rd (wr b p c) i = rd b i.
Proof.
  unfold rd. induction b as [|x b IH]; intros [|p] [|i] Hne; cbn;
    try reflexivity; try lia.
  apply IH. lia.
Qed.

Lemma agree_sub (lo hi lo' hi' : nat) (b1 b2 : buffer) :
  agree lo hi b1 b2 -> lo <= lo' -> hi' <= hi -> agree lo' hi' b1 b2.
Proof. intros Ha Hlo Hhi i Hi. apply Ha. lia. Qed.

Lemma agree_wr (lo hi p : nat) (c : CHAR_T) (b1 b2 : buffer) :
  p < List.length b1 -> p < List.length b2 ->
  agree lo hi b1 b2 -> agree lo hi (wr b1 p c) (wr b2 p c).
Proof.
  intros H1 H2 Ha i Hi. destruct (Nat.eq_dec i p) as [->|Hne].
  - rewrite !rd_wr_same by assumption. reflexivity.
  - rewrite !rd_wr_other by assumption. apply Ha, Hi.
Qed.

Lemma consumes_rd (b : buffer) (s : list CHAR_T) :
  forall p q, consumes b p q s ->
              forall i, i < List.length s -> rd b (p + i) = nth i s NUL.
Proof.
  induction s as [|x s IH]; intros p q Hc i Hi; cbn in Hi; [lia|].
  apply consumes_head in Hc as [Hx Hc]. destruct i as [|i].
  - rewrite Nat.add_0_r. exact Hx.
  - replace (p + S i) with (S p + i) by lia. cbn. apply (IH _ _ Hc). lia.
Qed.

Lemma consumes_nonzero (b : buffer) (p q : nat) (s : list CHAR_T) :
  consumes b p q s -> ~ In NUL s -> forall i, p <= i < q -> rd b i <> NUL.
Proof.
  intros Hc Hs i Hi. pose proof Hc as [Hq _].
  replace i with (p + (i - p)) by lia.
  rewrite (consumes_rd b s p q Hc) by lia.
  intros Hn. apply Hs. rewrite <- Hn. apply nth_In. lia.
Qed.

Lemma consumes_agree (s : list CHAR_T) :
  forall b1 b2 p q,
    consumes b1 p q s -> ~ In NUL s -> agree p q b1 b2 -> consumes b2 p q s.
Proof.
  induction s as [|x s IH]; intros b1 b2 p q Hc Hs Ha.
  - apply consumes_empty in Hc. subst q. apply consumes_nil.
  - pose proof Hc as [Hq _]. cbn in Hq.
    apply consumes_head in Hc as [Hx Hc].
    assert (Hx2 : rd b2 p = x) by (rewrite <- Ha; [exact Hx|lia]).
    assert (Hxn : x <> NUL) by (intros ->; apply Hs; left; reflexivity).
    apply (consumes_app b2 p (S p) q [x] s).
    + rewrite <- Hx2. apply consumes_one. rewrite Hx2. exact Hxn.
    + apply (IH b1); auto.
      * intros Hin. apply Hs. right. exact Hin.
      * eapply agree_sub; eauto.
Qed.

Lemma footprint_refl (b : buffer) (p : nat) : footprint b p p b.
Proof. repeat split; auto; intros; lia. Qed.

Lemma footprint_read (b : buffer) (p q : nat) :
  p <= q -> (forall i, p <= i < q -> rd b i <> NUL) -> footprint b p q b.
Proof. intros Hle Hn. repeat split; auto. Qed.

Lemma footprint_trans (b b' b'' : buffer) (p q r : nat) :
  footprint b p q b' -> footprint b' q r b'' -> footprint b p r b''.
Proof.
  intros (H1 & L1 & U1 & N1) (H2 & L2 & U2 & N2).
  split; [lia|]. split; [congruence|]. split.
  - intros i Hi. rewrite U2 by lia. apply U1. lia.
  - intros i Hi. destruct (le_lt_dec q i) as [Hqi|Hqi].
    + rewrite <- U1 by lia. apply N2. lia.
    + apply N1. lia.
Qed.

Lemma footprint_wr (b : buffer) (p : nat) (c : CHAR_T) :
  rd b p <> NUL -> footprint b p (S p) (wr b p c).
Proof.
  intros Hn. split; [lia|]. split; [apply wr_length|]. split.
  - intros i Hi. apply rd_wr_other. lia.
  - intros i Hi. replace i with p by lia. exact Hn.
Qed.

(** ** Scanners read a window of the buffer *)

Lemma goWhile_from_inv (set l : list CHAR_T) :
  forall p q,
    goWhile_from l p set = Some q ->
    exists seg c l',
      l = seg ++ c :: l' /\ q = p + List.length seg
      /\ Forall (fun x => isOneOfThem x set = true) seg /\ ~ In NUL seg
      /\ isOneOfThem c set = false /\ c <> NUL.
Proof.
  induction l as [|x l IH]; intros p q Hg; cbn in Hg; [discriminate|].
  destruct (Z.eqb_spec x NUL) as [|Hx]; [discriminate|].
  destruct (isOneOfThem x set) eqn:Hd.
  - apply IH in Hg as (seg & c & l' & -> & -> & Hseg & Hno & Hc & Hn).
    exists (x :: seg), c, l'. cbn. repeat split; auto; try lia.
    intros [Hx0|Hin]; [congruence|contradiction].
  - inversion Hg; subst. exists [], x, l. cbn. repeat split; auto.
Qed.

Lemma goWhile_from_run (set seg : list CHAR_T) (c : CHAR_T) (l' : list CHAR_T) :
  Forall (fun x => isOneOfThem x set = true) seg -> ~ In NUL seg ->
  isOneOfThem c set = false -> c <> NUL ->
  forall p, goWhile_from (seg ++ c :: l') p set = Some (p + List.length seg).
Proof.
  intros Hseg Hno Hc Hn. induction Hseg as [|x seg Hx Hseg IH]; intros p; cbn.
  - destruct (Z.eqb_spec c NUL); [contradiction|]. rewrite Hc. f_equal. lia.
  - destruct (Z.eqb_spec x NUL) as [Hx0|_];
      [exfalso; apply Hno; left; exact Hx0|].
    rewrite Hx, IH; [f_equal; lia|].
    intros Hin. apply Hno. right. exact Hin.
Qed.

Lemma goWhile_inv (b : buffer) (set : list CHAR_T) (p q : nat) :
  goWhile b p set = Some q ->
  exists seg, consumes b p q seg
              /\ Forall (fun x => isOneOfThem x set = true) seg /\ ~ In NUL seg
              /\ isOneOfThem (rd b q) set = false /\ rd b q <> NUL.
Proof.
  unfold goWhile. intros Hg.
  apply goWhile_from_inv in Hg as (seg & c & l' & Hl & -> & Hseg & Hno & Hc & Hn).
  assert (Hq : skipn (p + List.length seg) b = c :: l').
  { rewrite skipn_add, Hl. apply skipn_app_exact. }
  exists seg. split; [|split; [exact Hseg|split; [exact Hno|]]].
  - split; [reflexivity|]. rewrite Hq. exact Hl.
  - rewrite rd_skipn, Hq. split; assumption.
Qed.

Lemma goWhile_run (b : buffer) (set : list CHAR_T) (p q : nat)
    (seg : list CHAR_T) :
  consumes b p q seg ->
  Forall (fun x => isOneOfThem x set = true) seg -> ~ In NUL seg ->
  isOneOfThem (rd b q) set = false -> rd b q <> NUL ->
  goWhile b p set = Some q.
Proof.
  intros [-> Hs] Hseg Hno Hc Hn. unfold goWhile.
  rewrite Hs, (rd_nonzero_skipn _ _ Hn).
  apply goWhile_from_run; auto.
Qed.

Lemma goWhile_footprint (b : buffer) (set : list CHAR_T) (p q : nat) :
  goWhile b p set = Some q -> footprint b p q b /\ rd b q <> NUL.
Proof.
  intros Hg. apply goWhile_inv in Hg as (seg & Hc & _ & Hno & _ & Hn).
  split; [|exact Hn]. apply footprint_read.
  - eapply consumes_le, Hc.
  - eapply consumes_nonzero; eauto.
Qed.

Lemma goWhile_transfer (b1 b2 : buffer) (set : list CHAR_T) (p q : nat) :
  goWhile b1 p set = Some q -> agree p (S q) b1 b2 ->
  goWhile b2 p set = Some q.
Proof.
  intros Hg Ha. apply goWhile_inv in Hg as (seg & Hc & Hseg & Hno & Hq & Hn).
  pose proof (consumes_le _ _ _ _ Hc) as Hle.
  apply (goWhile_run b2 set p q seg); auto.
  - eapply consumes_agree; eauto. eapply agree_sub; eauto.
  - rewrite <- Ha by lia. exact Hq.
  - rewrite <- Ha by lia. exact Hn.
Qed.

Lemma checkStr_consumes (b : buffer) (str : list CHAR_T) :
  ~ In NUL str ->
  forall p q, checkStr b p str = Some q <-> consumes b p q str.
Proof.
  induction str as [|s str IH]; intros Hno p q; cbn.
  - split.
    + intros Hq. inversion Hq. apply consumes_nil.
    + intros Hc. apply consumes_empty in Hc. congruence.
  - assert (Hs : s <> NUL) by (intros ->; apply Hno; left; reflexivity).
    assert (Hno' : ~ In NUL str) by (intros Hin; apply Hno; right; exact Hin).
    destruct (Z.eqb_spec (rd b p) s) as [Hr|Hr].
    + rewrite (IH Hno'). split.
      * intros Hc. apply (consumes_app b p (S p) q [s] str); [|exact Hc].
        rewrite <- Hr. apply consumes_one. rewrite Hr. exact Hs.
      * intros Hc. apply consumes_head in Hc as [_ Hc]. exact Hc.
    + split; [discriminate|]. intros Hc.
      apply consumes_head in Hc as [Hx _]. contradiction.
Qed.

Lemma setToNull_footprint (b : buffer) (p : nat) :
  rd b p <> NUL ->
  footprint b p (snd (setToNull b p)) (fst (setToNull b p)).
Proof.
  intros Hn. unfold setToNull.
  destruct (isOneOfThem (rd b p) endofblock); cbn [negb fst snd].
  - apply footprint_refl.
  - apply footprint_wr, Hn.
Qed.

Lemma setToNull_snd_le (b : buffer) (p : nat) : snd (setToNull b p) <= S p.
Proof.
  unfold setToNull. destruct (isOneOfThem (rd b p) endofblock); cbn; lia.
Qed.

Lemma setToNull_transfer (b1 b2 : buffer) (p : nat) :
  rd b1 p <> NUL -> agree p (S p) b1 b2 ->
  snd (setToNull b2 p) = snd (setToNull b1 p)
  /\ agree p (S p) (fst (setToNull b1 p)) (fst (setToNull b2 p)).
Proof.
  intros Hn Ha. unfold setToNull.
  assert (Hp : rd b2 p = rd b1 p) by (symmetry; apply Ha; lia).
  rewrite Hp.
  destruct (isOneOfThem (rd b1 p) endofblock); cbn [negb fst snd].
  - auto.
  - split; [reflexivity|].
    apply agree_wr; auto; apply rd_nonzero_lt; congruence.
Qed.

(** ** The loop of the unescaper *)

Lemma parseString_loop_unfold (fuel : nat) (b : buffer) (head tail : nat) :
  parseString_loop (S fuel) b head tail
  = match parseString_turn b head with
    | Closed => Ret (Some (S head, wr b tail NUL))
    | Malformed => Ret None
    | Store c head' => parseString_loop fuel (wr b tail c) head' (S tail)
    end.
Proof.
  unfold parseString_turn. cbn [parseString_loop].
  destruct (rd b head =? NUL)%Z; [reflexivity|].
  destruct (rd b head =? QUOTE)%Z; [reflexivity|].
  destruct (rd b head =? BACKSLASH)%Z; [|reflexivity].
  destruct (rd b (S head) =? T_ "u")%Z.
  - destruct (getCharFromUnicode b (S (S head)) =? NUL)%Z; reflexivity.
  - destruct (getEscape (rd b (S head)) =? NUL)%Z; reflexivity.
Qed.

Lemma isxdigit_nonzero (c : CHAR_T) : isxdigit c = true -> c <> NUL.
Proof. unfold isxdigit, isdigit, NUL. lia. Qed.

Lemma getEscape_nonzero (c : CHAR_T) : getEscape c <> NUL -> c <> NUL.
Proof. intros Hg ->. apply Hg. reflexivity. Qed.

Lemma getCharFromUnicode_hex (b : buffer) (p : nat) :
  getCharFromUnicode b p <> NUL ->
  forall i, p <= i < p + 4 -> isxdigit (rd b i) = true.
Proof.
  unfold getCharFromUnicode. cbn [forallb].
  rewrite Nat.add_0_r.
  destruct (isxdigit (rd b p)) eqn:H0; [|intros Hn; contradiction Hn; reflexivity].
  destruct (isxdigit (rd b (p + 1))) eqn:H1;
    [|intros Hn; contradiction Hn; reflexivity].
  destruct (isxdigit (rd b (p + 2))) eqn:H2;
    [|intros Hn; contradiction Hn; reflexivity].
  destruct (isxdigit (rd b (p + 3))) eqn:H3;
    [|intros Hn; contradiction Hn; reflexivity].
  intros _ i Hi.
  assert (Hcase : i = p \/ i = p + 1 \/ i = p + 2 \/ i = p + 3) by lia.
  destruct Hcase as [->|[->|[->| ->]]]; assumption.
Qed.

Lemma getCharFromUnicode_agree (b1 b2 : buffer) (p : nat) :
  agree p (p + 4) b1 b2 -> getCharFromUnicode b2 p = getCharFromUnicode b1 p.
Proof.
  intros Ha. unfold getCharFromUnicode. cbn [forallb].
  rewrite !(Ha (p + 0)), !(Ha (p + 1)), !(Ha (p + 2)), !(Ha (p + 3)) by lia.
  reflexivity.
Qed.

(** A turn that stores a character moves [head] forward over cells without
    NUL, and sees the same in every buffer that agrees on those cells. *)
Lemma parseString_turn_store (b : buffer) (head : nat) (c : CHAR_T) (head' : nat) :
  parseString_turn b head = Store c head' ->
  head < head'
  /\ (forall i, head <= i < head' -> rd b i <> NUL)
  /\ (forall b2, agree head head' b b2 -> parseString_turn b2 head = Store c head').
Proof.
  unfold parseString_turn.
  destruct (Z.eqb_spec (rd b head) NUL) as [|H0]; [discriminate|].
  destruct (Z.eqb_spec (rd b head) QUOTE) as [|Hq]; [discriminate|].
  destruct (Z.eqb_spec (rd b head) BACKSLASH) as [Hb|Hb].
  - destruct (Z.eqb_spec (rd b (S head)) (T_ "u")) as [Hu|Hu].
    + destruct (Z.eqb_spec (getCharFromUnicode b (S (S head))) NUL) as [|Hx];
        [discriminate|].
      intros Hs. inversion Hs; subst c head'. clear Hs.
      pose proof (getCharFromUnicode_hex b _ Hx) as Hhex.
      split; [lia|]. split.
      * intros i Hi.
        assert (Hcase : i = head \/ i = S head \/ S (S head) <= i < S (S head) + 4)
          by lia.
        destruct Hcase as [->|[->|Hr]]; [exact H0|rewrite Hu; discriminate|].
        apply isxdigit_nonzero, Hhex, Hr.
      * intros b2 Ha.
        rewrite <- (Ha head), <- (Ha (S head)) by lia.
        rewrite (getCharFromUnicode_agree b b2)
          by (eapply agree_sub; eauto; lia).
        destruct (Z.eqb_spec (rd b head) NUL); [contradiction|].
        destruct (Z.eqb_spec (rd b head) QUOTE); [contradiction|].
        destruct (Z.eqb_spec (rd b head) BACKSLASH); [|contradiction].
        destruct (Z.eqb_spec (rd b (S head)) (T_ "u")); [|contradiction].
        destruct (Z.eqb_spec (getCharFromUnicode b (S (S head))) NUL);
          [contradiction|reflexivity].
    + destruct (Z.eqb_spec (getEscape (rd b (S head))) NUL) as [|Hx];
        [discriminate|].
      intros Hs. inversion Hs; subst c head'. clear Hs.
      split; [lia|]. split.
      * intros i Hi. assert (Hcase : i = head \/ i = S head) by lia.
        destruct Hcase as [-> | ->]; [exact H0|].
        apply getEscape_nonzero, Hx.
      * intros b2 Ha.
        rewrite <- (Ha head), <- (Ha (S head)) by lia.
        destruct (Z.eqb_spec (rd b head) NUL); [contradiction|].
        destruct (Z.eqb_spec (rd b head) QUOTE); [contradiction|].
        destruct (Z.eqb_spec (rd b head) BACKSLASH); [|contradiction].
        destruct (Z.eqb_spec (rd b (S head)) (T_ "u")); [contradiction|].
        destruct (Z.eqb_spec (getEscape (rd b (S head))) NUL);
          [contradiction|reflexivity].
  - intros Hs. inversion Hs; subst c head'. clear Hs.
    split; [lia|]. split.
    + intros i Hi. replace i with head by lia. exact H0.
    + intros b2 Ha. rewrite <- (Ha head) by lia.
      destruct (Z.eqb_spec (rd b head) NUL); [contradiction|].
      destruct (Z.eqb_spec (rd b head) QUOTE); [contradiction|].
      destruct (Z.eqb_spec (rd b head) BACKSLASH); [contradiction|reflexivity].
Qed.

Lemma parseString_turn_closed (b : buffer) (head : nat) :
  parseString_turn b head = Closed ->
  rd b head = QUOTE
  /\ (forall b2, rd b2 head = rd b head -> parseString_turn b2 head = Closed).
Proof.
  unfold parseString_turn.
  destruct (Z.eqb_spec (rd b head) NUL) as [|H0]; [discriminate|].
  destruct (Z.eqb_spec (rd b head) QUOTE) as [Hq|Hq].
  - intros _. split; [exact Hq|]. intros b2 ->. rewrite Hq. reflexivity.
  - destruct (rd b head =? BACKSLASH)%Z; [|discriminate].
    destruct (rd b (S head) =? T_ "u")%Z.
    + destruct (getCharFromUnicode b (S (S head)) =? NUL)%Z; discriminate.
    + destruct (getEscape (rd b (S head)) =? NUL)%Z; discriminate.
Qed.

Lemma parseString_loop_fuel (fuel : nat) :
  forall b head tail,
    List.length b - head < fuel ->
    parseString_loop fuel b head tail <> OutOfFuel.
Proof.
  induction fuel as [|fuel IH]; intros b head tail Hf; [lia|].
  rewrite parseString_loop_unfold.
  destruct (parseString_turn b head) as [| |c head'] eqn:Ht; try discriminate.
  apply parseString_turn_store in Ht as (Hlt & Hn & _).
  pose proof (rd_nonzero_lt b (head' - 1) (Hn (head' - 1) ltac:(lia))) as Hin.
  apply IH. rewrite wr_length. lia.
Qed.

Lemma parseString_loop_local (fuel : nat) :
  forall b1 head tail q b1',
    parseString_loop fuel b1 head tail = Ret (Some (q, b1')) ->
    tail <= head ->
    head < q
    /\ List.length b1' = List.length b1
    /\ (forall i, i < tail \/ q <= i -> rd b1' i = rd b1 i)
    /\ (forall i, head <= i < q -> rd b1 i <> NUL)
    /\ (forall b2, agree tail q b1 b2 ->
                   exists b2', parseString_loop fuel b2 head tail
                               = Ret (Some (q, b2'))
                               /\ agree tail q b1' b2').
Proof.
  induction fuel as [|fuel IH]; intros b1 head tail q b1' Hrun Hle;
    [discriminate|].
  rewrite parseString_loop_unfold in Hrun.
  destruct (parseString_turn b1 head) as [| |c head'] eqn:Ht; [|discriminate|].
  - (* the closing quote *)
    inversion Hrun; subst q b1'. clear Hrun.
    apply parseString_turn_closed in Ht as [Hq Hsame].
    assert (Hn : rd b1 head <> NUL) by (rewrite Hq; discriminate).
    pose proof (rd_nonzero_lt _ _ Hn) as Hin.
    split; [lia|]. split; [apply wr_length|]. split; [|split].
    + intros i Hi. apply rd_wr_other. lia.
    + intros i Hi. replace i with head by lia. exact Hn.
    + intros b2 Ha. exists (wr b2 tail NUL).
      assert (H2 : rd b2 head = rd b1 head) by (symmetry; apply Ha; lia).
      rewrite parseString_loop_unfold, (Hsame b2 H2). split; [reflexivity|].
      apply agree_wr; auto; [lia|].
      assert (head < List.length b2) by (apply rd_nonzero_lt; congruence). lia.
  - (* a character is stored *)
    apply parseString_turn_store in Ht as (Hlt & Hn & Hsame).
    pose proof (rd_nonzero_lt _ _ (Hn head ltac:(lia))) as Hin.
    destruct (IH _ _ _ _ _ Hrun ltac:(lia)) as (Hq & Hlen & Hout & Hnz & Htr).
    split; [lia|]. split; [rewrite Hlen; apply wr_length|]. split; [|split].
    + intros i Hi. rewrite Hout by lia. apply rd_wr_other. lia.
    + intros i Hi. destruct (le_lt_dec head' i) as [Hge|Hlt'].
      * rewrite <- (rd_wr_other b1 c tail i) by lia. apply Hnz. lia.
      * apply Hn. lia.
    + intros b2 Ha.
      assert (Ht2 : parseString_turn b2 head = Store c head')
        by (apply Hsame; eapply agree_sub; eauto; lia).
      assert (Hin2 : head < List.length b2).
      { apply rd_nonzero_lt. rewrite <- (Ha head) by lia. apply Hn. lia. }
      destruct (Htr (wr b2 tail c)) as (b2' & Hrun2 & Ha2).
      { apply agree_wr; [lia|lia|]. eapply agree_sub; eauto. }
      exists b2'. rewrite parseString_loop_unfold, Ht2.
      split; [exact Hrun2|].
      destruct (IH _ _ _ _ _ Hrun2 ltac:(lia)) as (_ & _ & Hout2 & _ & _).
      intros i Hi. destruct (Nat.eq_dec i tail) as [->|Hne].
      * rewrite Hout, Hout2 by lia. rewrite !rd_wr_same by lia. reflexivity.
      * apply Ha2. lia.
Qed.

Lemma parseString_returns (b : buffer) (str : nat) : parseString b str <> OutOfFuel.
Proof. apply parseString_loop_fuel. lia. Qed.

Lemma parseString_footprint (b : buffer) (str q : nat) (b' : buffer) :
  parseString b str = Ret (Some (q, b')) -> str < q /\ footprint b str q b'.
Proof.
  intros Hrun.
  destruct (parseString_loop_local _ _ _ _ _ _ Hrun (le_n str))
    as (Hq & Hlen & Hout & Hnz & _).
  split; [exact Hq|]. repeat split; auto. lia.
Qed.

Lemma parseString_loop_more_fuel (fuel : nat) :
  forall fuel' b head tail r,
    parseString_loop fuel b head tail = Ret r -> fuel <= fuel' ->
    parseString_loop fuel' b head tail = Ret r.
Proof.
  induction fuel as [|fuel IH]; intros fuel' b head tail r Hrun Hle;
    [discriminate|].
  destruct fuel' as [|fuel']; [lia|].
  rewrite parseString_loop_unfold in *.
  destruct (parseString_turn b head); auto. apply IH; [exact Hrun|lia].
Qed.

Lemma parseString_transfer (b1 b2 : buffer) (str q : nat) (b1' : buffer) :
  parseString b1 str = Ret (Some (q, b1')) -> agree str q b1 b2 ->
  exists b2', parseString b2 str = Ret (Some (q, b2')) /\ agree str q b1' b2'.
Proof.
  intros Hrun Ha.
  destruct (parseString_loop_local _ _ _ _ _ _ Hrun (le_n str))
    as (_ & _ & _ & _ & Htr).
  destruct (Htr b2 Ha) as (b2' & Hrun2 & Ha2).
  exists b2'. split; [|exact Ha2].
  unfold parseString.
  destruct (parseString_loop (S (List.length b2)) b2 str str) as [r|] eqn:Hr.
  - destruct (Nat.le_ge_cases (S (List.length b1)) (S (List.length b2)))
      as [Hle|Hle].
    + apply (parseString_loop_more_fuel _ _ _ _ _ _ Hrun2) in Hle. congruence.
    + apply (parseString_loop_more_fuel _ _ _ _ _ _ Hr) in Hle. congruence.
  - exfalso. eapply parseString_loop_fuel; [|exact Hr]. lia.
Qed.

Lemma agree_footprint (b1 b2 b1' b2' : buffer) (p q lo hi : nat) :
  footprint b1 p q b1' -> footprint b2 p q b2' ->
  agree p q b1' b2' -> agree lo hi b1 b2 -> agree lo hi b1' b2'.
Proof.
  intros (_ & _ & U1 & _) (_ & _ & U2 & _) Hin Ha i Hi.
  destruct (le_lt_dec p i) as [Hpi|Hpi].
  - destruct (le_lt_dec q i) as [Hqi|Hqi].
    + rewrite U1, U2 by lia. apply Ha, Hi.
    + apply Hin. lia.
  - rewrite U1, U2 by lia. apply Ha, Hi.
Qed.

(** ** Scalar scanners are local *)

Lemma propertyName_local (b1 : buffer) (mem : memory) (ptr property : nat) :
  rd b1 ptr <> NUL ->
  local_scan (fun b => propertyName b mem ptr property) b1 ptr.
Proof.
  intros Hn0 q b1' mem' Hrun. unfold propertyName in Hrun.
  destruct (parseString b1 (S ptr)) as [[[q1 bs]|]|] eqn:Hps;
    cbn [obind] in Hrun; try discriminate.
  destruct (goBlank bs q1) as [q2|] eqn:Hg1; [|discriminate].
  destruct (Z.eqb_spec (rd bs q2) (T_ ":")) as [Hcol|]; [|discriminate].
  cbn [negb] in Hrun.
  destruct (goBlank bs (S q2)) as [q3|] eqn:Hg2; [|discriminate].
  inversion Hrun; subst q b1' mem'. clear Hrun.
  pose proof (parseString_footprint _ _ _ _ Hps) as [Hlt1 F1].
  pose proof (goWhile_footprint _ _ _ _ Hg1) as [F2 _].
  pose proof (goWhile_footprint _ _ _ _ Hg2) as [F3 Hn3].
  assert (Hcn : rd bs q2 <> NUL) by (rewrite Hcol; discriminate).
  assert (F : footprint b1 ptr q3 bs).
  { apply (footprint_trans b1 b1 bs ptr (S ptr) q3).
    - apply footprint_read; [lia|]. intros i Hi. replace i with ptr by lia.
      exact Hn0.
    - apply (footprint_trans b1 bs bs (S ptr) q1 q3); [exact F1|].
      apply (footprint_trans bs bs bs q1 q2 q3); [exact F2|].
      apply (footprint_trans bs bs bs q2 (S q2) q3); [|exact F3].
      apply footprint_read; [lia|]. intros i Hi. replace i with q2 by lia.
      exact Hcn. }
  destruct F2 as (Hle2 & _). destruct F3 as (Hle3 & _).
  split; [lia|]. split; [exact F|].
  intros b2 Ha.
  destruct (parseString_transfer b1 b2 (S ptr) q1 bs Hps) as (b2' & Hps2 & Ha2).
  { eapply agree_sub; eauto; lia. }
  pose proof (parseString_footprint _ _ _ _ Hps2) as [_ F1'].
  assert (Hall : agree ptr (S q3) bs b2').
  { eapply (agree_footprint b1 b2 bs b2' (S ptr) q1); eauto. }
  exists b2'. unfold propertyName. rewrite Hps2. cbn [obind].
  unfold goBlank in *.
  rewrite (goWhile_transfer bs b2' blank q1 q2 Hg1)
    by (eapply agree_sub; eauto; lia).
  rewrite <- (Hall q2) by lia. rewrite Hcol, Z.eqb_refl. cbn [negb].
  rewrite (goWhile_transfer bs b2' blank (S q2) q3 Hg2)
    by (eapply agree_sub; eauto; lia).
  split; [reflexivity|exact Hall].
Qed.

Lemma textValue_local (b1 : buffer) (mem : memory) (ptr property : nat) :
  rd b1 ptr <> NUL ->
  local_scan (fun b => textValue b mem ptr property) b1 ptr.
Proof.
  intros Hn0 q b1' mem' Hrun. unfold textValue in Hrun.
  destruct (parseString b1 (S ptr)) as [[[q1 bs]|]|] eqn:Hps;
    cbn [obind] in Hrun; try discriminate.
  inversion Hrun; subst q b1' mem'. clear Hrun.
  pose proof (parseString_footprint _ _ _ _ Hps) as [Hlt1 F1].
  assert (F : footprint b1 ptr q1 bs).
  { apply (footprint_trans b1 b1 bs ptr (S ptr) q1); [|exact F1].
    apply footprint_read; [lia|]. intros i Hi. replace i with ptr by lia.
    exact Hn0. }
  split; [lia|]. split; [exact F|].
  intros b2 Ha.
  destruct (parseString_transfer b1 b2 (S ptr) q1 bs Hps) as (b2' & Hps2 & Ha2).
  { eapply agree_sub; eauto; lia. }
  pose proof (parseString_footprint _ _ _ _ Hps2) as [_ F1'].
  exists b2'. unfold textValue. rewrite Hps2. cbn [obind].
  split; [reflexivity|].
  eapply (agree_footprint b1 b2 bs b2' (S ptr) q1); eauto.
Qed.

Lemma primitiveValue_explicit (b : buffer) (mem : memory) (ptr property : nat)
    (value : list CHAR_T) (ty : jsonType_t) (r : nat * buffer * memory) :
  ~ In NUL value ->
  (primitiveValue b mem ptr property value ty = Some r <->
   exists pe, consumes b ptr pe value /\ ends_primitive (rd b pe)
              /\ r = (snd (setToNull b pe), fst (setToNull b pe),
                      upd mem property (set_type ty))).
Proof.
  intros Hno. unfold primitiveValue. split.
  - destruct (checkStr b ptr value) as [pe|] eqn:Hc; [|discriminate].
    apply (checkStr_consumes b value Hno) in Hc.
    destruct (isEndOfPrimitive (rd b pe)) eqn:He; cbn [negb]; [|discriminate].
    intros Hr. exists pe. split; [exact Hc|].
    split; [apply isEndOfPrimitive_spec, He|].
    destruct (setToNull b pe). inversion Hr. reflexivity.
  - intros (pe & Hc & He & ->).
    apply (checkStr_consumes b value Hno) in Hc. rewrite Hc.
    apply isEndOfPrimitive_spec in He. rewrite He. cbn [negb].
    destruct (setToNull b pe). reflexivity.
Qed.

Lemma primitiveValue_local (b1 : buffer) (mem : memory) (ptr property : nat)
    (value : list CHAR_T) (ty : jsonType_t) :
  ~ In NUL value -> value <> [] ->
  local_scan (fun b => Ret (primitiveValue b mem ptr property value ty)) b1 ptr.
Proof.
  intros Hno Hne q b1' mem' Hrun. inversion Hrun as [Hrun']. clear Hrun.
  apply (primitiveValue_explicit b1 mem ptr property value ty _ Hno) in Hrun'
    as (pe & Hc & He & Hr).
  inversion Hr; subst q b1' mem'. clear Hr.
  pose proof (ends_primitive_facts _ He) as (_ & Hn & _).
  pose proof (setToNull_footprint b1 pe Hn) as F2.
  pose proof (consumes_le _ _ _ _ Hc) as Hle.
  assert (Hlt : ptr < pe).
  { destruct Hc as [-> _]. destruct value; [contradiction|cbn; lia]. }
  assert (F : footprint b1 ptr (snd (setToNull b1 pe)) (fst (setToNull b1 pe))).
  { eapply footprint_trans; [|exact F2]. apply footprint_read; [exact Hle|].
    eapply consumes_nonzero; eauto. }
  destruct F2 as (Hle2 & _).
  split; [lia|]. split; [exact F|].
  intros b2 Ha.
  destruct (setToNull_transfer b1 b2 pe Hn) as [Hq Ha2].
  { eapply agree_sub; eauto; lia. }
  exists (fst (setToNull b2 pe)). split.
  - f_equal. apply (primitiveValue_explicit b2 mem ptr property value ty _ Hno).
    exists pe. split; [|split].
    + eapply consumes_agree; eauto. eapply agree_sub; eauto; lia.
    + rewrite <- (Ha pe) by lia. exact He.
    + rewrite Hq. reflexivity.
  - assert (Hn2 : rd b2 pe <> NUL) by (rewrite <- (Ha pe) by lia; exact Hn).
    pose proof (setToNull_footprint b2 pe Hn2) as F2'. rewrite Hq in F2'.
    pose proof (setToNull_snd_le b1 pe) as Hq2.
    eapply (agree_footprint b1 b2 _ _ pe (snd (setToNull b1 pe))); eauto.
    + apply setToNull_footprint, Hn.
    + eapply agree_sub; eauto; lia.
Qed.

Lemma number_production_no_NUL (lit : list CHAR_T) (ty : jsonType_t) :
  number_production lit ty -> ~ In NUL lit /\ lit <> [].
Proof.
  intros [sg ip f e ty' Hsg Hip Hf He _]. split.
  - intros Hin. repeat (apply in_app_or in Hin as [Hin|Hin]).
    + destruct Hsg as [-> | ->]; [destruct Hin|].
      destruct Hin as [Hin|[]]. vm_compute in Hin. discriminate Hin.
    + exact (digits_no_NUL ip (int_part_digits ip Hip) Hin).
    + destruct Hf as [|d ds Hds]; [destruct Hin|].
      destruct Hin as [Hin|Hin]; [vm_compute in Hin; discriminate Hin|].
      exact (digits_no_NUL _ Hds Hin).
    + destruct He as [|e0 s d ds He0 Hs Hds]; [destruct Hin|].
      destruct Hin as [Hin|Hin].
      * destruct He0; subst e0; vm_compute in Hin; discriminate Hin.
      * apply in_app_or in Hin as [Hin|Hin].
        -- destruct Hs as [->|[->| ->]]; [destruct Hin| |];
             (destruct Hin as [Hin|[]]; vm_compute in Hin; discriminate Hin).
        -- exact (digits_no_NUL _ Hds Hin).
  - destruct Hip; destruct sg; discriminate.
Qed.

Lemma int64_check_agree (b1 b2 : buffer) (ptr pe : nat) (lit : list CHAR_T) :
  consumes b1 ptr pe lit -> consumes b2 ptr pe lit ->
  ~ In NUL lit -> lit <> [] ->
  rd b1 pe <> NUL -> rd b2 pe <> NUL ->
  int64_check b2 ptr pe = int64_check b1 ptr pe.
Proof.
  intros H1 H2 Hno Hne Hn1 Hn2. unfold int64_check.
  rewrite (cstr_terminated b1 ptr pe lit H1 Hno Hn1).
  rewrite (cstr_terminated b2 ptr pe lit H2 Hno Hn2).
  destruct lit as [|x lit]; [contradiction|].
  apply consumes_head in H1 as [-> _]. apply consumes_head in H2 as [-> _].
  reflexivity.
Qed.

Lemma numValue_explicit (b : buffer) (mem : memory) (ptr property pe : nat)
    (ty : jsonType_t) :
  numValue_scan b ptr = Some (pe, ty) ->
  numValue b mem ptr property
  = if (if jsonType_eqb JSON_INTEGER ty
        then match u_value (node mem property) with
             | Some value => int64_check b value pe
             | None => false
             end
        else true)
    then Some (snd (setToNull b pe), fst (setToNull b pe),
               upd mem property (set_type ty))
    else None.
Proof.
  intros Hscan. unfold numValue. rewrite Hscan.
  rewrite u_value_upd_set_type.
  match goal with |- (if ?c then _ else _) = _ => destruct c end;
    [|reflexivity].
  destruct (setToNull b pe). reflexivity.
Qed.

Lemma numValue_local (b1 : buffer) (mem : memory) (ptr property : nat) :
  (forall v, u_value (node mem property) = Some v -> v = ptr) ->
  local_scan (fun b => Ret (numValue b mem ptr property)) b1 ptr.
Proof.
  intros Hval q b1' mem' Hrun. inversion Hrun as [Hrun']. clear Hrun.
  pose proof (numValue_scanned _ _ _ _ _ Hrun') as (pe & ty & Hscan & Hr).
  inversion Hr; subst q b1' mem'. clear Hr.
  rewrite (numValue_explicit b1 mem ptr property pe ty Hscan) in Hrun'.
  match type of Hrun' with
  | (if ?c then _ else _) = _ => destruct c eqn:Hok
  end; [|discriminate]. clear Hrun'.
  pose proof (numValue_scan_sound _ _ _ _ Hscan) as (lit & Hprod & Hc & He).
  pose proof (number_production_no_NUL _ _ Hprod) as [Hno Hne].
  pose proof (ends_primitive_facts _ He) as (_ & Hn & _).
  pose proof (setToNull_footprint b1 pe Hn) as F2.
  pose proof (consumes_le _ _ _ _ Hc) as Hle.
  assert (Hlt : ptr < pe).
  { destruct Hc as [-> _]. destruct lit; [contradiction|cbn; lia]. }
  assert (F : footprint b1 ptr (snd (setToNull b1 pe)) (fst (setToNull b1 pe))).
  { eapply footprint_trans; [|exact F2]. apply footprint_read; [exact Hle|].
    eapply consumes_nonzero; eauto. }
  destruct F2 as (Hle2 & _).
  split; [lia|]. split; [exact F|].
  intros b2 Ha.
  destruct (setToNull_transfer b1 b2 pe Hn) as [Hq Ha2].
  { eapply agree_sub; eauto; lia. }
  assert (Hc2 : consumes b2 ptr pe lit).
  { eapply consumes_agree; eauto. eapply agree_sub; eauto; lia. }
  assert (Hpe : rd b2 pe = rd b1 pe) by (symmetry; apply Ha; lia).
  assert (Hscan2 : numValue_scan b2 ptr = Some (pe, ty)).
  { eapply numValue_scan_complete; eauto. rewrite Hpe. exact He. }
  exists (fst (setToNull b2 pe)). split.
  - f_equal. rewrite (numValue_explicit b2 mem ptr property pe ty Hscan2).
    destruct (u_value (node mem property)) as [v|] eqn:Hv.
    + rewrite (Hval v eq_refl) in *.
      rewrite (int64_check_agree b1 b2 ptr pe lit) by (auto; congruence).
      rewrite Hok, Hq. reflexivity.
    + rewrite Hok, Hq. reflexivity.
  - assert (Hn2 : rd b2 pe <> NUL) by congruence.
    pose proof (setToNull_footprint b2 pe Hn2) as F2'. rewrite Hq in F2'.
    pose proof (setToNull_snd_le b1 pe) as Hq2.
    eapply (agree_footprint b1 b2 _ _ pe (snd (setToNull b1 pe))); eauto.
    + apply setToNull_footprint, Hn.
    + eapply agree_sub; eauto; lia.
Qed.

(** ** One turn of the tree builder is local *)

Lemma node_upd_same (mem : memory) (f : json_t -> json_t) :
  forall i, node (upd mem i f) i
            = if i <? List.length mem then f (node mem i) else node0.
Proof.
  unfold node. induction mem as [|n mem IH]; intros [|i]; cbn; auto.
Qed.

Lemma u_value_stored (mem : memory) (property ptr : nat) :
  forall v, u_value (node (upd mem property (set_u_value (Some ptr))) property)
            = Some v -> v = ptr.
Proof.
  intros v. rewrite node_upd_same.
  destruct (property <? List.length mem); cbn; congruence.
Qed.

Lemma propertyName_next (b : buffer) (mem : memory) (ptr property q : nat)
    (b' : buffer) (mem' : memory) :
  propertyName b mem ptr property = Ret (Some (q, b', mem')) -> rd b' q <> NUL.
Proof.
  unfold propertyName.
  destruct (parseString b (S ptr)) as [[[q1 bs]|]|]; cbn [obind];
    try discriminate.
  destruct (goBlank bs q1) as [q2|]; [|discriminate].
  destruct (negb (rd bs q2 =? T_ ":")%Z); [discriminate|].
  destruct (goBlank bs (S q2)) as [q3|] eqn:Hg; [|discriminate].
  intros Hr. inversion Hr; subst. eapply goWhile_footprint, Hg.
Qed.

Lemma propertyName_returns (b : buffer) (mem : memory) (ptr property : nat) :
  propertyName b mem ptr property <> OutOfFuel.
Proof.
  unfold propertyName.
  destruct (parseString b (S ptr)) as [[[q1 bs]|]|] eqn:Hps; cbn [obind].
  - destruct (goBlank bs q1) as [q2|]; [|discriminate].
    destruct (negb (rd bs q2 =? T_ ":")%Z); [discriminate|].
    destruct (goBlank bs (S q2)); discriminate.
  - discriminate.
  - exfalso. eapply parseString_returns, Hps.
Qed.

Section TurnLocal.
Context {P : Type} `{jsonPool_t P}.

Lemma objValue_dispatch_eq (b : buffer) (mem : memory) (pool : P)
    (ptr obj property : nat) :
  objValue_dispatch b mem pool ptr obj property
  = if (rd b ptr =? T_ "{")%Z then
      Ret (Continue (mk_pstate (S ptr) property b
             (upd (upd (upd mem property (set_type JSON_OBJ)) property
                       (set_u_c_child None)) property (set_sibling (Some obj)))
             pool))
    else if (rd b ptr =? T_ "[")%Z then
      Ret (Continue (mk_pstate (S ptr) property b
             (upd (upd (upd mem property (set_type JSON_ARRAY)) property
                       (set_u_c_child None)) property (set_sibling (Some obj)))
             pool))
    else if (rd b ptr =? QUOTE)%Z then
      obind (textValue b mem ptr property)
            (fun r => Ret (scalar_turn obj pool r))
    else if (rd b ptr =? T_ "t")%Z then
      obind (Ret (trueValue b mem ptr property))
            (fun r => Ret (scalar_turn obj pool r))
    else if (rd b ptr =? T_ "f")%Z then
      obind (Ret (falseValue b mem ptr property))
            (fun r => Ret (scalar_turn obj pool r))
    else if (rd b ptr =? T_ "n")%Z then
      obind (Ret (nullValue b mem ptr property))
            (fun r => Ret (scalar_turn obj pool r))
    else
      obind (Ret (numValue b mem ptr property))
            (fun r => Ret (scalar_turn obj pool r)).
Proof. reflexivity. Qed.

Lemma scalar_local_turn (f : buffer -> outcome (option (nat * buffer * memory)))
    (b1 : buffer) (ptr obj : nat) (pool : P) (s' : pstate P) :
  local_scan f b1 ptr ->
  obind (f b1) (fun r => Ret (scalar_turn obj pool r)) = Ret (Continue s') ->
  local_turn (fun b => obind (f b) (fun r => Ret (scalar_turn obj pool r)))
             b1 ptr s'.
Proof.
  intros Hloc Hrun.
  destruct (f b1) as [[[[q b1'] m']|]|] eqn:Hf; cbn in Hrun; try discriminate.
  inversion Hrun; subst s'. clear Hrun.
  destruct (Hloc _ _ _ Hf) as (Hlt & F & Htr).
  split; [exact Hlt|]. split; [exact F|].
  intros b2 Ha. destruct (Htr b2 Ha) as (b2' & Hf2 & Ha2).
  exists b2'. cbn [st_ptr st_buf] in *. rewrite Hf2. split; [reflexivity|exact Ha2].
Qed.

Lemma keyword_no_NUL (s : string) :
  forallb (fun c => negb (c =? NUL)%Z) (T s) = true -> ~ In NUL (T s).
Proof.
  intros Hall Hin. rewrite forallb_forall in Hall.
  apply Hall in Hin. rewrite Z.eqb_refl in Hin. discriminate Hin.
Qed.

Lemma objValue_dispatch_local (b1 : buffer) (mem : memory) (pool : P)
    (ptr obj property : nat) (s' : pstate P) :
  rd b1 ptr <> NUL ->
  (forall v, u_value (node mem property) = Some v -> v = ptr) ->
  objValue_dispatch b1 mem pool ptr obj property = Ret (Continue s') ->
  local_turn (fun b => objValue_dispatch b mem pool ptr obj property) b1 ptr s'.
Proof.
  intros Hn Hval Hrun.
  assert (Hbracket : forall mem',
             s' = mk_pstate (S ptr) property b1 mem' pool ->
             forall c, rd b1 ptr = c ->
             (forall b2, rd b2 ptr = c ->
                         objValue_dispatch b2 mem pool ptr obj property
                         = Ret (Continue (mk_pstate (S ptr) property b2 mem' pool))) ->
             local_turn (fun b => objValue_dispatch b mem pool ptr obj property)
                        b1 ptr s').
  { intros mem' -> c Hc Hsame. split; [cbn; lia|]. split.
    - cbn. apply footprint_read; [lia|]. intros i Hi.
      replace i with ptr by lia. exact Hn.
    - intros b2 Ha. exists b2. cbn [st_ptr st_buf] in *. split; [|exact Ha].
      apply Hsame. rewrite <- (Ha ptr) by lia. exact Hc. }
  assert (Hscalar : forall f : buffer -> outcome (option (nat * buffer * memory)),
             local_scan f b1 ptr ->
             obind (f b1) (fun r => Ret (scalar_turn obj pool r))
             = Ret (Continue s') ->
             (forall b2, rd b2 ptr = rd b1 ptr ->
                         objValue_dispatch b2 mem pool ptr obj property
                         = obind (f b2) (fun r => Ret (scalar_turn obj pool r))) ->
             local_turn (fun b => objValue_dispatch b mem pool ptr obj property)
                        b1 ptr s').
  { intros f Hloc Hf Hsame.
    destruct (scalar_local_turn f b1 ptr obj pool s' Hloc Hf) as (Hlt & F & Htr).
    split; [exact Hlt|]. split; [exact F|].
    intros b2 Ha. destruct (Htr b2 Ha) as (b2' & Hf2 & Ha2).
    exists b2'. split; [|exact Ha2].
    rewrite Hsame; [exact Hf2|]. symmetry. apply Ha. lia. }
  rewrite objValue_dispatch_eq in Hrun.
  destruct (Z.eqb_spec (rd b1 ptr) (T_ "{")) as [Ho|Ho].
  { injection Hrun as <-. apply (Hbracket _ eq_refl _ Ho).
    intros b2 H2. rewrite objValue_dispatch_eq, H2, Z.eqb_refl. reflexivity. }
  destruct (Z.eqb_spec (rd b1 ptr) (T_ "[")) as [Ha|Ha].
  { injection Hrun as <-. apply (Hbracket _ eq_refl _ Ha).
    intros b2 H2. rewrite objValue_dispatch_eq, H2. reflexivity. }
  destruct (Z.eqb_spec (rd b1 ptr) QUOTE) as [Hq|Hq].
  { apply (Hscalar (fun b => textValue b mem ptr property)); auto.
    - apply textValue_local, Hn.
    - intros b2 H2. rewrite objValue_dispatch_eq, H2, Hq. reflexivity. }
  destruct (Z.eqb_spec (rd b1 ptr) (T_ "t")) as [Ht|Ht].
  { apply (Hscalar (fun b => Ret (trueValue b mem ptr property))); auto.
    - apply primitiveValue_local; [apply keyword_no_NUL; reflexivity|discriminate].
    - intros b2 H2. rewrite objValue_dispatch_eq, H2, Ht. reflexivity. }
  destruct (Z.eqb_spec (rd b1 ptr) (T_ "f")) as [Hf|Hf].
  { apply (Hscalar (fun b => Ret (falseValue b mem ptr property))); auto.
    - apply primitiveValue_local; [apply keyword_no_NUL; reflexivity|discriminate].
    - intros b2 H2. rewrite objValue_dispatch_eq, H2, Hf. reflexivity. }
  destruct (Z.eqb_spec (rd b1 ptr) (T_ "n")) as [Hnl|Hnl].
  { apply (Hscalar (fun b => Ret (nullValue b mem ptr property))); auto.
    - apply primitiveValue_local; [apply keyword_no_NUL; reflexivity|discriminate].
    - intros b2 H2. rewrite objValue_dispatch_eq, H2, Hnl. reflexivity. }
  apply (Hscalar (fun b => Ret (numValue b mem ptr property))); auto.
  - apply numValue_local, Hval.
  - intros b2 H2. rewrite objValue_dispatch_eq, H2.
    destruct (Z.eqb_spec (rd b1 ptr) (T_ "{")); [contradiction|].
    destruct (Z.eqb_spec (rd b1 ptr) (T_ "[")); [contradiction|].
    destruct (Z.eqb_spec (rd b1 ptr) QUOTE); [contradiction|].
    destruct (Z.eqb_spec (rd b1 ptr) (T_ "t")); [contradiction|].
    destruct (Z.eqb_spec (rd b1 ptr) (T_ "f")); [contradiction|].
    destruct (Z.eqb_spec (rd b1 ptr) (T_ "n")); [contradiction|].
    reflexivity.
Qed.

Lemma objValue_dispatch_outcome (b : buffer) (mem : memory) (pool : P)
    (ptr obj property : nat) :
  objValue_dispatch b mem pool ptr obj property <> OutOfFuel
  /\ forall s', objValue_dispatch b mem pool ptr obj property
                <> Ret (Return (Some s')).
Proof.
  rewrite objValue_dispatch_eq.
  assert (Hgen : forall m : outcome (option (nat * buffer * memory)),
             m <> OutOfFuel ->
             obind m (fun r => Ret (scalar_turn obj pool r)) <> OutOfFuel
             /\ forall s', obind m (fun r => Ret (scalar_turn obj pool r))
                           <> Ret (Return (Some s'))).
  { intros [[[[q b'] m']|]|] Hm; cbn; split; try discriminate; congruence. }
  repeat match goal with
         | |- context [if ?c then _ else _] => destruct c
         end;
    try (split; [discriminate|intros s'; discriminate]);
    try (apply Hgen; discriminate).
  apply Hgen. unfold textValue.
  destruct (parseString b (S ptr)) as [[[q bs]|]|] eqn:Hps; cbn; try discriminate.
  exfalso. eapply parseString_returns, Hps.
Qed.

Lemma objValue_turn_local (s1 : pstate P) (t : turn P) :
  objValue_turn s1 = Ret t ->
  match t with
  | Continue s1' =>
      local_turn (fun b => objValue_turn (with_buf s1 b))
                 (st_buf s1) (st_ptr s1) s1'
  | Return (Some s1') =>
      st_ptr s1 < st_ptr s1'
      /\ footprint (st_buf s1) (st_ptr s1) (st_ptr s1') (st_buf s1')
      /\ (forall b2,
             agree (st_ptr s1) (st_ptr s1') (st_buf s1) b2 ->
             exists b2',
               objValue_turn (with_buf s1 b2) = Ret (Return (Some (with_buf s1' b2')))
               /\ agree (st_ptr s1) (st_ptr s1') (st_buf s1') b2')
  | Return None => True
  end.
Proof.
  destruct s1 as [p obj b1 mem pool]. intros Hrun.
  unfold objValue_turn in Hrun.
  cbn [st_ptr st_obj st_buf st_mem st_pool] in Hrun.
  unfold with_buf. cbn [st_ptr st_obj st_buf st_mem st_pool]. revert Hrun.
  destruct (goBlank b1 p) as [e|] eqn:Hg;
    [|intros Hr; inversion Hr; exact I].
  pose proof (goWhile_footprint _ _ _ _ Hg) as [F0 He].
  pose proof F0 as (Hpe & _).
  assert (Hg2 : forall b2, agree p (S e) b1 b2 -> goBlank b2 p = Some e)
    by (intros b2 Ha; exact (goWhile_transfer b1 b2 blank p e Hg Ha)).
  assert (Fe : footprint b1 p (S e) b1).
  { apply (footprint_trans b1 b1 b1 p e (S e) F0).
    apply footprint_read; [lia|]. intros i Hi. replace i with e by lia. exact He. }
  destruct (Z.eqb_spec (rd b1 e) (T_ ",")) as [Hcomma|Hcomma].
  { (* the comma *)
    intros Hr. inversion Hr; subst t. clear Hr.
    split; [cbn; lia|]. split; [exact Fe|].
    intros b2 Ha. cbn [st_ptr st_buf] in *. exists b2.
    unfold objValue_turn. cbn [st_ptr st_obj st_buf st_mem st_pool].
    rewrite (Hg2 b2) by (eapply agree_sub; eauto; lia).
    rewrite <- (Ha e) by lia. rewrite Hcomma, Z.eqb_refl.
    split; [reflexivity|exact Ha]. }
  set (endchar := if jsonType_eqb (type (node mem obj)) JSON_OBJ
                  then T_ "}" else T_ "]").
  destruct (Z.eqb_spec (rd b1 e) endchar) as [Hend|Hend].
  { (* the close character *)
    assert (Fc : footprint b1 p (S e) (wr b1 e NUL)).
    { apply (footprint_trans b1 b1 _ p e (S e) F0). apply footprint_wr, He. }
    assert (Htr : forall b2 (k : buffer -> turn P),
               agree p (S e) b1 b2 ->
               agree p (S e) (wr b1 e NUL) (wr b2 e NUL)
               /\ forall hi, agree p hi b1 b2 ->
                             agree p hi (wr b1 e NUL) (wr b2 e NUL)).
    { intros b2 _ Ha.
      assert (Hin1 : e < List.length b1) by (apply rd_nonzero_lt, He).
      assert (Hin2 : e < List.length b2).
      { apply rd_nonzero_lt. rewrite <- (Ha e) by lia. exact He. }
      split; [apply agree_wr; auto|]. intros hi Hhi. apply agree_wr; auto. }
    assert (Hclose2 : forall b2, agree p (S e) b1 b2 ->
               objValue_turn (mk_pstate p obj b2 mem pool)
               = match sibling (node mem obj) with
                 | None =>
                     Ret (Return (Some (mk_pstate (S e) obj (wr b2 e NUL) mem pool)))
                 | Some parentObj =>
                     Ret (Continue (mk_pstate (S e) parentObj (wr b2 e NUL)
                                      (upd mem obj (set_sibling None)) pool))
                 end).
    { intros b2 Ha. unfold objValue_turn.
      cbn [st_ptr st_obj st_buf st_mem st_pool].
      rewrite (Hg2 b2 Ha). rewrite <- (Ha e) by lia.
      destruct (Z.eqb_spec (rd b1 e) (T_ ",")); [contradiction|].
      fold endchar.
      destruct (Z.eqb_spec (rd b1 e) endchar); [reflexivity|contradiction]. }
    destruct (sibling (node mem obj)) as [parentObj|] eqn:Hsib;
      intros Hr; injection Hr as <-.
    - split; [cbn; lia|]. split; [exact Fc|].
      intros b2 Ha. cbn [st_ptr st_buf] in *. exists (wr b2 e NUL).
      rewrite Hclose2 by (eapply agree_sub; eauto; lia).
      split; [reflexivity|].
      apply (Htr b2 (fun _ => Return None)); [|exact Ha].
      eapply agree_sub; eauto; lia.
    - split; [cbn; lia|]. split; [exact Fc|].
      intros b2 Ha. cbn [st_ptr st_buf] in *. exists (wr b2 e NUL).
      rewrite Hclose2 by exact Ha.
      split; [reflexivity|].
      apply (Htr b2 (fun _ => Return None)); exact Ha. }
  (* a new node *)
  destruct (alloc pool) as [[property|] pool'] eqn:Halloc;
    [|intros Hr; inversion Hr; exact I].
  set (isobj := negb (jsonType_eqb (type (node mem obj)) JSON_ARRAY)).
  set (rest := fun r : option (nat * buffer * memory) =>
         match r with
         | None => Ret (Return None)
         | Some (ptr, b, mem0) =>
             objValue_dispatch b
               (upd (add mem0 obj property) property (set_u_value (Some ptr)))
               pool' ptr obj property
         end).
  assert (Hhead : forall b2, agree p (S e) b1 b2 ->
             objValue_turn (mk_pstate p obj b2 mem pool)
             = obind (if isobj
                      then if negb (rd b2 e =? QUOTE)%Z then Ret None
                           else propertyName b2 mem e property
                      else Ret (Some (e, b2, upd mem property (set_name None))))
                     rest).
  { intros b2 Ha. unfold objValue_turn.
    cbn [st_ptr st_obj st_buf st_mem st_pool].
    rewrite (Hg2 b2 Ha). rewrite <- (Ha e) by lia.
    destruct (Z.eqb_spec (rd b1 e) (T_ ",")); [contradiction|].
    fold endchar.
    destruct (Z.eqb_spec (rd b1 e) endchar); [contradiction|].
    rewrite Halloc. reflexivity. }
  (* the name, then the value *)
  assert (Hnamed : forall q bs mem0 s1',
             (if isobj
              then if negb (rd b1 e =? QUOTE)%Z then Ret None
                   else propertyName b1 mem e property
              else Ret (Some (e, b1, upd mem property (set_name None))))
             = Ret (Some (q, bs, mem0)) ->
             rest (Some (q, bs, mem0)) = Ret (Continue s1') ->
             local_turn (fun b => objValue_turn (mk_pstate p obj b mem pool))
                        b1 p s1').
  { intros q bs mem0 s1' Hname Hdisp. unfold rest in Hdisp.
    assert (Hfacts : e <= q /\ footprint b1 e q bs /\ rd bs q <> NUL
                     /\ forall b2, agree e (S q) b1 b2 ->
                          exists b2',
                            (if isobj
                             then if negb (rd b2 e =? QUOTE)%Z then Ret None
                                  else propertyName b2 mem e property
                             else Ret (Some (e, b2, upd mem property (set_name None))))
                            = Ret (Some (q, b2', mem0))
                            /\ agree e (S q) bs b2' /\ footprint b2 e q b2').
    { destruct isobj.
      - destruct (Z.eqb_spec (rd b1 e) QUOTE) as [Hq|Hq]; [|discriminate].
        cbn [negb] in Hname.
        destruct (propertyName_local b1 mem e property He _ _ _ Hname)
          as (Hlt & F & Htr).
        split; [lia|]. split; [exact F|].
        split; [eapply propertyName_next; eauto|].
        intros b2 Ha. destruct (Htr b2 Ha) as (b2' & Hrun2 & Ha2).
        exists b2'. rewrite <- (Ha e) by lia. rewrite Hq, Z.eqb_refl.
        cbn [negb]. split; [exact Hrun2|]. split; [exact Ha2|].
        assert (He2 : rd b2 e <> NUL) by (rewrite <- (Ha e) by lia; exact He).
        apply (propertyName_local b2 mem e property He2 _ _ _ Hrun2).
      - inversion Hname; subst q bs mem0.
        split; [lia|]. split; [apply footprint_refl|]. split; [exact He|].
        intros b2 Ha. exists b2. split; [reflexivity|].
        split; [exact Ha|apply footprint_refl]. }
    destruct Hfacts as (Heq & Fn & Hnq & Htrn).
    destruct (objValue_dispatch_local bs _ pool' q obj property s1' Hnq
                (u_value_stored _ _ _) Hdisp) as (Hlt & Fd & Htrd).
    split; [lia|]. split.
    - apply (footprint_trans b1 b1 _ p e _ F0).
      apply (footprint_trans b1 bs _ e q _ Fn Fd).
    - intros b2 Ha.
      destruct (Htrn b2) as (b2' & Hname2 & Ha2 & Fn2).
      { eapply agree_sub; eauto; lia. }
      assert (Hall : agree p (S (st_ptr s1')) bs b2').
      { eapply (agree_footprint b1 b2 bs b2' e q); eauto.
        eapply agree_sub; eauto; lia. }
      destruct (Htrd b2') as (b2'' & Hdisp2 & Ha3).
      { eapply agree_sub; eauto; lia. }
      exists b2''. rewrite Hhead by (eapply agree_sub; eauto; lia).
      rewrite Hname2. cbn [obind]. unfold rest. split; [exact Hdisp2|].
      assert (Hn2q : rd b2' q <> NUL) by (rewrite <- (Ha2 q) by lia; exact Hnq).
      destruct (objValue_dispatch_local b2' _ pool' q obj property _ Hn2q
                  (u_value_stored _ _ _) Hdisp2) as (_ & Fd2 & _).
      cbn [with_buf st_ptr st_buf] in Fd2.
      eapply (agree_footprint bs b2' _ _ q (st_ptr s1')); eauto.
      eapply agree_sub; eauto; lia. }
  intros Hrun.
  match type of Hrun with
  | obind ?m _ = _ => destruct m as [[[[q bs] mem0]|]|] eqn:Hname
  end; cbn [obind] in Hrun; try discriminate;
    [|inversion Hrun; exact I].
  fold rest in Hrun.
  destruct t as [s1'|[s1'|]]; [| |exact I].
  - eapply Hnamed; eauto.
  - exfalso. unfold rest in Hrun.
    eapply (proj2 (objValue_dispatch_outcome _ _ _ _ _ _)), Hrun.
Qed.

Lemma objValue_turn_returns (s : pstate P) : objValue_turn s <> OutOfFuel.
Proof.
  unfold objValue_turn.
  destruct (goBlank (st_buf s) (st_ptr s)) as [e|]; [|discriminate].
  destruct (rd (st_buf s) e =? T_ ",")%Z; [discriminate|].
  match goal with
  | |- (if ?c then _ else _) <> _ => destruct c
  end.
  { destruct (sibling (node (st_mem s) (st_obj s))); discriminate. }
  destruct (alloc (st_pool s)) as [[property|] pool']; [|discriminate].
  match goal with
  | |- obind ?m _ <> _ => destruct m as [[[[q bs] mem0]|]|] eqn:Hname
  end; cbn [obind]; try discriminate.
  - apply objValue_dispatch_outcome.
  - exfalso. revert Hname.
    destruct (negb (jsonType_eqb (type (node (st_mem s) (st_obj s))) JSON_ARRAY));
      [|discriminate].
    destruct (negb (rd (st_buf s) e =? QUOTE)%Z); [discriminate|].
    apply propertyName_returns.
Qed.

Lemma objValue_loop_fuel (fuel : nat) :
  forall s : pstate P,
    List.length (st_buf s) - st_ptr s < fuel ->
    objValue_loop fuel s <> OutOfFuel.
Proof.
  induction fuel as [|fuel IH]; intros s Hf; [lia|].
  cbn [objValue_loop].
  destruct (objValue_turn s) as [t|] eqn:Ht;
    [|exfalso; eapply objValue_turn_returns, Ht].
  cbn [obind]. destruct t as [s'|r]; [|discriminate].
  pose proof (objValue_turn_local s _ Ht) as (Hlt & F & _).
  destruct F as (_ & Hlen & _ & Hnz).
  pose proof (rd_nonzero_lt _ _ (Hnz (st_ptr s' - 1) ltac:(lia))) as Hin.
  apply IH. lia.
Qed.

Lemma objValue_loop_more_fuel (fuel : nat) :
  forall fuel' (s : pstate P) r,
    objValue_loop fuel s = Ret r -> fuel <= fuel' ->
    objValue_loop fuel' s = Ret r.
Proof.
  induction fuel as [|fuel IH]; intros fuel' s r Hrun Hle; [discriminate|].
  destruct fuel' as [|fuel']; [lia|]. cbn [objValue_loop] in *.
  destruct (objValue_turn s) as [[s'|r']|]; cbn [obind] in *; auto.
  apply IH; [exact Hrun|lia].
Qed.

Lemma objValue_loop_local (fuel : nat) :
  forall (s1 f1 : pstate P),
    objValue_loop fuel s1 = Ret (Some f1) ->
    st_ptr s1 < st_ptr f1
    /\ footprint (st_buf s1) (st_ptr s1) (st_ptr f1) (st_buf f1)
    /\ (forall b2 lo hi,
           lo <= st_ptr s1 -> st_ptr f1 <= hi ->
           agree lo hi (st_buf s1) b2 ->
           exists b2',
             objValue_loop fuel (with_buf s1 b2) = Ret (Some (with_buf f1 b2'))
             /\ agree lo hi (st_buf f1) b2').
Proof.
  induction fuel as [|fuel IH]; intros s1 f1 Hrun; [discriminate|].
  cbn [objValue_loop] in Hrun.
  destruct (objValue_turn s1) as [t|] eqn:Ht; [|discriminate].
  cbn [obind] in Hrun.
  pose proof (objValue_turn_local s1 _ Ht) as Hloc.
  destruct t as [s1'|[s1'|]]; [| |discriminate].
  - (* the loop goes on *)
    destruct Hloc as (Hlt & F & Htr).
    destruct (IH _ _ Hrun) as (Hlt' & F' & Htr').
    split; [lia|]. split; [eapply footprint_trans; eauto|].
    intros b2 lo hi Hlo Hhi Ha.
    destruct (Htr b2) as (b2' & Ht2 & Ha2).
    { eapply agree_sub; eauto; lia. }
    pose proof (objValue_turn_local _ _ Ht2) as (_ & F2 & _).
    cbn [with_buf st_ptr st_buf] in F2.
    assert (Hall : agree lo hi (st_buf s1') b2').
    { eapply (agree_footprint _ _ _ _ (st_ptr s1) (st_ptr s1')); eauto.
      eapply agree_sub; eauto; lia. }
    destruct (Htr' b2' lo hi ltac:(lia) Hhi Hall) as (b2'' & Hrun2 & Ha3).
    exists b2''. cbn [objValue_loop]. rewrite Ht2. cbn [obind].
    split; [exact Hrun2|exact Ha3].
  - (* the root is closed *)
    injection Hrun as <-.
    destruct Hloc as (Hlt & F & Htr).
    split; [exact Hlt|]. split; [exact F|].
    intros b2 lo hi Hlo Hhi Ha.
    destruct (Htr b2) as (b2' & Ht2 & Ha2).
    { eapply agree_sub; eauto; lia. }
    pose proof (objValue_turn_local _ _ Ht2) as (_ & F2 & _).
    cbn [with_buf st_ptr st_buf] in F2.
    exists b2'. cbn [objValue_loop]. rewrite Ht2. cbn [obind].
    split; [reflexivity|].
    eapply (agree_footprint _ _ _ _ (st_ptr s1) (st_ptr s1')); eauto.
Qed.

End TurnLocal.

(** ** Termination *)

Section Termination.
Context {P : Type} `{jsonPool_t P}.

Lemma objValue_returns (b : buffer) (mem : memory) (pool : P) (ptr obj : nat) :
  forall fuel, List.length b < fuel ->
               objValue fuel b mem pool ptr obj <> OutOfFuel.
Proof.
  intros fuel Hf. unfold objValue. apply objValue_loop_fuel.
  cbn [st_buf st_ptr]. lia.
Qed.

Lemma json_createWithPool_returns (str : buffer) (mem : memory) (pool : P) :
  json_createWithPool str mem pool <> OutOfFuel.
Proof.
  unfold json_createWithPool, json_createWithPool_fuel.
  destruct (goBlank str 0) as [ptr|] eqn:Hg; [|discriminate].
  destruct (negb (rd str ptr =? T_ "{")%Z && negb (rd str ptr =? T_ "[")%Z);
    [discriminate|].
  destruct (init pool) as [obj pool'].
  match goal with
  | |- obind ?m _ <> _ => destruct m as [[r|]|] eqn:Hrun
  end; cbn [obind]; try discriminate.
  exfalso. pose proof (goWhile_footprint _ _ _ _ Hg) as [_ Hn].
  pose proof (rd_nonzero_lt _ _ Hn) as Hin.
  revert Hrun. unfold objValue. apply objValue_loop_fuel.
  cbn [st_buf st_ptr]. lia.
Qed.

(** C10: parsing terminates, for every buffer and every pool.  A turn of
    the tree builder's loop always returns; when it goes on, or returns the
    finished root, the scan position has moved strictly forward, inside the
    buffer, only over cells that hold no NUL, and the cells from the new
    position on are untouched, so the position never passes the terminating
    NUL; otherwise the turn returns failure.  With one turn per cell of the
    buffer, [objValue] and [json_createWithPool] return. *)
Theorem parsing_terminates :
  (forall s : pstate P, objValue_turn s <> OutOfFuel)
  /\ (forall s s' : pstate P,
         objValue_turn s = Ret (Continue s')
         \/ objValue_turn s = Ret (Return (Some s')) ->
         st_ptr s < st_ptr s' <= List.length (st_buf s)
         /\ List.length (st_buf s') = List.length (st_buf s)
         /\ (forall i, st_ptr s <= i < st_ptr s' -> rd (st_buf s) i <> NUL)
         /\ (forall i, st_ptr s' <= i -> rd (st_buf s') i = rd (st_buf s) i))
  /\ (forall (s f : pstate P) fuel,
         objValue_loop fuel s = Ret (Some f) ->
         st_ptr s < st_ptr f <= List.length (st_buf s)
         /\ (forall i, st_ptr s <= i < st_ptr f -> rd (st_buf s) i <> NUL))
  /\ (forall (s : pstate P) fuel,
         List.length (st_buf s) - st_ptr s < fuel ->
         objValue_loop fuel s <> OutOfFuel)
  /\ (forall b str, parseString b str <> OutOfFuel)
  /\ (forall b mem (pool : P) ptr obj fuel,
         List.length b < fuel -> objValue fuel b mem pool ptr obj <> OutOfFuel)
  /\ (forall str mem (pool : P), json_createWithPool str mem pool <> OutOfFuel).
Proof.
  assert (Hfp : forall (b b' : buffer) p q,
             p < q -> footprint b p q b' ->
             p < q <= List.length b
             /\ List.length b' = List.length b
             /\ (forall i, p <= i < q -> rd b i <> NUL)
             /\ (forall i, q <= i -> rd b' i = rd b i)).
  { intros b b' p q Hlt (_ & Hlen & Hout & Hnz).
    pose proof (rd_nonzero_lt _ _ (Hnz (q - 1) ltac:(lia))) as Hin.
    repeat split; auto; try lia; intros i Hi; apply Hout; lia. }
  split; [apply objValue_turn_returns|].
  split; [|split; [|split; [|split; [|split]]]].
  - intros s s' [Ht|Ht]; pose proof (objValue_turn_local s _ Ht) as (Hlt & F & _);
      apply Hfp; assumption.
  - intros s f fuel Hrun.
    destruct (objValue_loop_local fuel s f Hrun) as (Hlt & F & _).
    destruct (Hfp _ _ _ _ Hlt F) as (Hq & _ & Hnz & _). split; assumption.
  - intros s fuel. apply objValue_loop_fuel.
  - apply parseString_returns.
  - intros b mem pool ptr obj fuel. apply objValue_returns.
  - apply json_createWithPool_returns.
Qed.

End Termination.

(** The theorem on the first turn over [[1,2]] with a pool of three nodes. *)
Lemma parsing_terminates_witness :
  1 < 3 <= List.length (doc "[1,2]").
Proof.
  refine (proj1 (proj1 (proj2 (@parsing_terminates jsonStaticPool_t staticPool))
                   (mk_pstate 1 0 (doc "[1,2]")
                      (upd (fresh 3) 0 (set_type JSON_ARRAY)) (mk_spool 3 1))
                   (mk_pstate 3 0 (wr (doc "[1,2]") 2 NUL)
                      (upd (upd (upd (upd (add (upd (upd (fresh 3) 0
                         (set_type JSON_ARRAY)) 1 (set_name None)) 0 1) 1
                         (set_u_value (Some 1))) 1 (set_type JSON_INTEGER))
                         1 (set_type JSON_INTEGER)) 1 (set_type JSON_INTEGER))
                      (mk_spool 3 2)) _)).
  left. vm_compute. reflexivity.
Defined.

(** ** Content after the root *)

Lemma rd_app_l (a b : list CHAR_T) (i : nat) :
  i < List.length a -> rd (a ++ b) i = rd a i.
Proof. intros Hi. unfold rd. apply app_nth1, Hi. Qed.

Lemma rd_app_r (a b : list CHAR_T) (i : nat) :
  List.length a <= i -> rd (a ++ b) i = rd b (i - List.length a).
Proof. intros Hi. unfold rd. apply app_nth2, Hi. Qed.

Lemma buffer_ext (a b : buffer) :
  List.length a = List.length b -> (forall i, rd a i = rd b i) -> a = b.
Proof.
  intros Hlen Hrd. apply (nth_ext a b NUL NUL Hlen). intros i _. apply Hrd.
Qed.

Lemma cstr_from_app (l rest : list CHAR_T) :
  In NUL l -> cstr_from (l ++ rest) = cstr_from l.
Proof.
  induction l as [|x l IH]; intros Hin; [destruct Hin|]. cbn.
  destruct (Z.eqb_spec x 0) as [|Hx]; [reflexivity|].
  destruct Hin as [Hin|Hin]; [contradiction|]. rewrite IH; auto.
Qed.

Lemma cstr_app (b rest : buffer) (p k : nat) :
  p <= k < List.length b -> rd b k = NUL ->
  cstr (b ++ rest) p = cstr b p.
Proof.
  intros Hk Hz. unfold cstr. rewrite skipn_app.
  replace (p - List.length b) with 0 by lia. cbn [skipn].
  apply cstr_from_app.
  assert (Hin : In (rd b k) (skipn p b)).
  { unfold rd. replace k with (p + (k - p)) by lia.
    rewrite <- nth_skipn. apply nth_In. rewrite length_skipn. lia. }
  rewrite Hz in Hin. exact Hin.
Qed.

Section AfterRoot.
Context {P : Type} `{jsonPool_t P}.

Lemma objValue_turn_closed (s s' : pstate P) :
  objValue_turn s = Ret (Return (Some s')) ->
  rd (st_buf s') (st_ptr s' - 1) = NUL.
Proof.
  unfold objValue_turn.
  destruct (goBlank (st_buf s) (st_ptr s)) as [e|] eqn:Hg; [|discriminate].
  pose proof (goWhile_footprint _ _ _ _ Hg) as [_ He].
  destruct (rd (st_buf s) e =? T_ ",")%Z; [discriminate|].
  match goal with
  | |- (if ?c then _ else _) = _ -> _ => destruct c
  end.
  - destruct (sibling (node (st_mem s) (st_obj s))); [discriminate|].
    intros Hr. injection Hr as <-. cbn [st_buf st_ptr].
    replace (S e - 1) with e by lia.
    apply rd_wr_same, rd_nonzero_lt, He.
  - destruct (alloc (st_pool s)) as [[property|] pool']; [|discriminate].
    match goal with
    | |- obind ?m _ = _ -> _ => destruct m as [[[[q bs] mem0]|]|]
    end; cbn [obind]; try discriminate.
    intros Hr. exfalso.
    eapply (proj2 (objValue_dispatch_outcome _ _ _ _ _ _)), Hr.
Qed.

Lemma objValue_loop_closed (fuel : nat) :
  forall s f : pstate P,
    objValue_loop fuel s = Ret (Some f) ->
    rd (st_buf f) (st_ptr f - 1) = NUL.
Proof.
  induction fuel as [|fuel IH]; intros s f Hrun; [discriminate|].
  cbn [objValue_loop] in Hrun.
  destruct (objValue_turn s) as [[s'|[s'|]]|] eqn:Ht; cbn [obind] in Hrun;
    try discriminate.
  - eapply IH, Hrun.
  - injection Hrun as <-. eapply objValue_turn_closed, Ht.
Qed.

(** C9: what follows the root's close character is never examined.  When a
    buffer [pre] is parsed, the same buffer with any content [rest] appended
    is parsed too, to the same root, node array and pool state; the buffer
    left behind is the one left for [pre] with [rest] untouched behind it,
    the cell of the root's close character holds a NUL, and every string
    that starts before it reads the same with and without [rest]. *)
Theorem trailing_content_ignored (pre : buffer) (mem : memory) (pool : P)
    (r : parsed) :
  json_createWithPool pre mem pool = Ret (Some r) ->
  forall rest,
    json_createWithPool (pre ++ rest) mem pool
    = Ret (Some (mk_parsed (p_root r) (p_buf r ++ rest) (p_mem r) (p_pool r)))
    /\ List.length (p_buf r) = List.length pre
    /\ exists close,
        close < List.length pre
        /\ rd (p_buf r) close = NUL
        /\ forall p, p <= close -> cstr (p_buf r ++ rest) p = cstr (p_buf r) p.
Proof.
  unfold json_createWithPool, json_createWithPool_fuel. intros Hrun rest.
  destruct (goBlank pre 0) as [ptr|] eqn:Hg; [|discriminate].
  pose proof (goWhile_footprint _ _ _ _ Hg) as [_ Hn].
  pose proof (rd_nonzero_lt _ _ Hn) as Hin.
  assert (Hagree : forall hi, hi <= List.length pre -> agree 0 hi pre (pre ++ rest)).
  { intros hi Hhi i Hi. symmetry. apply rd_app_l. lia. }
  unfold goBlank in *.
  rewrite (goWhile_transfer pre (pre ++ rest) blank 0 ptr Hg)
    by (apply Hagree; lia).
  rewrite rd_app_l by exact Hin.
  destruct (negb (rd pre ptr =? T_ "{")%Z && negb (rd pre ptr =? T_ "[")%Z);
    [discriminate|].
  destruct (init pool) as [obj pool'].
  unfold objValue in *. rewrite rd_app_l by exact Hin.
  match type of Hrun with
  | obind (objValue_loop _ ?s0) _ = _ => set (s := s0) in *
  end.
  destruct (objValue_loop (S (List.length pre)) s) as [[f|]|] eqn:Hloop;
    cbn [obind] in Hrun; try discriminate.
  injection Hrun as <-. cbn [p_root p_buf p_mem p_pool].
  destruct (objValue_loop_local _ _ _ Hloop) as (Hlt & F & Htr).
  pose proof F as (_ & Hlen & Hout & Hnz).
  cbn [st_ptr st_buf] in *. subst s. cbn [st_ptr st_buf] in *.
  pose proof (rd_nonzero_lt _ _ (Hnz (st_ptr f - 1) ltac:(lia))) as Hq.
  destruct (Htr (pre ++ rest) 0 (st_ptr f) ltac:(lia) (le_n _)
              (Hagree (st_ptr f) ltac:(lia))) as (b2' & Hloop2 & Ha2).
  pose proof (objValue_loop_local _ _ _ Hloop2) as (_ & F2 & _).
  destruct F2 as (_ & Hlen2 & Hout2 & _).
  cbn [with_buf st_ptr st_buf] in *.
  assert (Hb2 : b2' = st_buf f ++ rest).
  { apply buffer_ext.
    - rewrite Hlen2, !length_app, Hlen. reflexivity.
    - intros i. destruct (le_lt_dec (st_ptr f) i) as [Hge|Hlt'].
      + rewrite Hout2 by lia.
        destruct (le_lt_dec (List.length pre) i) as [Hpi|Hpi].
        * rewrite !rd_app_r by lia. rewrite Hlen. reflexivity.
        * rewrite !rd_app_l by lia. symmetry. apply Hout. lia.
      + rewrite <- Ha2 by lia. symmetry. apply rd_app_l. lia. }
  subst b2'. split; [|split].
  - assert (Hfuel : S (List.length pre) <= S (List.length (pre ++ rest)))
      by (rewrite length_app; lia).
    pose proof (objValue_loop_more_fuel _ _ _ _ Hloop2 Hfuel) as Hloop3.
    unfold with_buf in Hloop3.
    cbn [st_ptr st_obj st_buf st_mem st_pool] in Hloop3.
    rewrite Hloop3. reflexivity.
  - exact Hlen.
  - exists (st_ptr f - 1). split; [lia|]. split.
    + eapply objValue_loop_closed, Hloop.
    + intros p Hp. apply (cstr_app _ _ p (st_ptr f - 1)); [lia|].
      eapply objValue_loop_closed, Hloop.
Qed.

End AfterRoot.

(** The theorem at [{}], followed by [garbage]. *)
Lemma trailing_content_ignored_witness :
  parse_tree "{}garbage" 1 = Ret (Some [JContainer JSON_OBJ None []]).
Proof.
  pose proof (@trailing_content_ignored jsonStaticPool_t staticPool
                (T "{}") (fresh 1) (mk_spool 1 0)
                (mk_parsed 0 [T_ "{"; NUL]
                   [mk_json None None None None JSON_OBJ] (mk_spool 1 1))
                eq_refl (T "garbage" ++ [NUL])) as [Hrun _].
  unfold parse_tree, json_create.
  change (doc "{}garbage") with (T "{}" ++ T "garbage" ++ [NUL]).
  change (fresh 1) with [node0] in *.
  rewrite Hrun. vm_compute. reflexivity.
Defined.

(** ** Pool capacity *)

Section AnyPool.
Context {P : Type} `{jsonPool_t P}.

Lemma objValue_dispatch_pool (b : buffer) (mem : memory) (pool pool2 : P)
    (ptr obj property : nat) :
  objValue_dispatch b mem pool2 ptr obj property
  = match objValue_dispatch b mem pool ptr obj property with
    | Ret (Continue s') => Ret (Continue (with_pool s' pool2))
    | Ret (Return (Some s')) => Ret (Return (Some (with_pool s' pool2)))
    | Ret (Return None) => Ret (Return None)
    | OutOfFuel => OutOfFuel
    end.
Proof.
  rewrite !objValue_dispatch_eq.
  repeat match goal with
         | |- context [if ?c then _ else _] => destruct c
         end; try reflexivity;
    match goal with
    | |- context [obind ?m _] => destruct m as [[[[q bs] m0]|]|]
    end; reflexivity.
Qed.

End AnyPool.

Lemma objValue_turn_qty (s : pstate jsonStaticPool_t) (t : turn jsonStaticPool_t) :
  objValue_turn s = Ret t ->
  forall s', t = Continue s' \/ t = Return (Some s') ->
    (nextFree (st_pool s') = nextFree (st_pool s)
     /\ forall K, objValue_turn (with_qty s K)
                  = Ret (match t with
                         | Continue _ => Continue (with_qty s' K)
                         | Return _ => Return (Some (with_qty s' K))
                         end))
    \/ (nextFree (st_pool s') = S (nextFree (st_pool s))
        /\ forall K,
            (nextFree (st_pool s) < K ->
             objValue_turn (with_qty s K)
             = Ret (match t with
                    | Continue _ => Continue (with_qty s' K)
                    | Return _ => Return (Some (with_qty s' K))
                    end))
            /\ (K <= nextFree (st_pool s) ->
                objValue_turn (with_qty s K) = Ret (Return None))).
Proof.
  destruct s as [p obj b mem [q nf]]. unfold objValue_turn, with_qty.
  cbn [st_ptr st_obj st_buf st_mem st_pool nextFree qty].
  destruct (goBlank b p) as [e|];
    [|intros Hr; injection Hr as <-; intros s' [Hs|Hs]; discriminate].
  destruct (rd b e =? T_ ",")%Z.
  { intros Hr. injection Hr as <-. intros s' [Hs|Hs]; [|discriminate].
    injection Hs as <-. left. split; reflexivity. }
  match goal with
  | |- (if ?c then _ else _) = _ -> _ => destruct c
  end.
  { destruct (sibling (node mem obj)); intros Hr; injection Hr as <-;
      intros s' [Hs|Hs]; try discriminate; injection Hs as <-;
      left; split; reflexivity. }
  cbn [alloc staticPool]. unfold poolAlloc. cbn [qty nextFree].
  destruct (Nat.leb_spec q nf) as [Hfull|Hfree];
    [intros Hr; injection Hr as <-; intros s' [Hs|Hs]; discriminate|].
  match goal with
  | |- obind ?m _ = _ -> _ => destruct m as [[[[q1 bs] mem0]|]|] eqn:Hname
  end; cbn [obind];
    try (intros Hr; try discriminate Hr; injection Hr as <-;
         intros s' [Hs|Hs]; discriminate).
  intros Hdisp s' Hs. right.
  assert (Hp : st_pool s' = mk_spool q (S nf)).
  { revert Hdisp. rewrite objValue_dispatch_eq.
    repeat match goal with
           | |- context [if ?c then _ else _] => destruct c
           end;
      try match goal with
          | |- context [obind ?m _] => destruct m as [[[[q2 b2] m2]|]|]
          end; cbn [obind scalar_turn]; intros Hr; try discriminate Hr;
      injection Hr as <-; destruct Hs as [Hs|Hs]; try discriminate Hs;
      injection Hs as <-; reflexivity. }
  assert (Hk : forall K,
             objValue_dispatch bs
               (upd (add mem0 obj nf) nf (set_u_value (Some q1)))
               (mk_spool K (S nf)) q1 obj nf
             = Ret (match t with
                    | Continue _ => Continue (with_qty s' K)
                    | Return _ => Return (Some (with_qty s' K))
                    end)).
  { intros K.
    rewrite (objValue_dispatch_pool _ _ (mk_spool q (S nf)) (mk_spool K (S nf))).
    rewrite Hdisp. unfold with_qty, with_pool. rewrite Hp. cbn [nextFree].
    destruct Hs as [-> | ->]; reflexivity. }
  split; [rewrite Hp; reflexivity|].
  intros K. split.
  - intros HK. destruct (Nat.leb_spec K nf) as [|_]; [lia|].
    rewrite Hname. cbn [obind]. apply Hk.
  - intros HK. destruct (Nat.leb_spec K nf) as [_|]; [reflexivity|lia].
Qed.

Lemma objValue_loop_qty (fuel : nat) :
  forall s f : pstate jsonStaticPool_t,
    objValue_loop fuel s = Ret (Some f) ->
    nextFree (st_pool s) <= nextFree (st_pool f)
    /\ (forall K, nextFree (st_pool f) <= K ->
                  objValue_loop fuel (with_qty s K) = Ret (Some (with_qty f K)))
    /\ (forall K, nextFree (st_pool s) <= K < nextFree (st_pool f) ->
                  objValue_loop fuel (with_qty s K) = Ret None).
Proof.
  induction fuel as [|fuel IH]; intros s f Hrun; [discriminate|].
  cbn [objValue_loop] in *.
  destruct (objValue_turn s) as [t|] eqn:Ht; [|discriminate].
  cbn [obind] in Hrun.
  destruct t as [s'|[s'|]]; [| |discriminate].
  - destruct (IH _ _ Hrun) as (Hle & HA & HB).
    destruct (objValue_turn_qty s _ Ht s' (or_introl eq_refl))
      as [[Hnf Hsame]|[Hnf Hcase]].
    + split; [lia|]. split.
      * intros K HK. rewrite Hsame. cbn [obind]. apply HA, HK.
      * intros K HK. rewrite Hsame. cbn [obind]. apply HB. lia.
    + split; [lia|]. split.
      * intros K HK. rewrite (proj1 (Hcase K)) by lia. cbn [obind].
        apply HA, HK.
      * intros K HK. destruct (le_lt_dec K (nextFree (st_pool s))) as [Hk|Hk].
        -- rewrite (proj2 (Hcase K)) by lia. reflexivity.
        -- rewrite (proj1 (Hcase K)) by lia. cbn [obind]. apply HB. lia.
  - injection Hrun as <-.
    destruct (objValue_turn_qty s _ Ht s' (or_intror eq_refl))
      as [[Hnf Hsame]|[Hnf Hcase]].
    + split; [lia|]. split.
      * intros K HK. rewrite Hsame. reflexivity.
      * intros K HK. lia.
    + split; [lia|]. split.
      * intros K HK. rewrite (proj1 (Hcase K)) by lia. reflexivity.
      * intros K HK. rewrite (proj2 (Hcase K)) by lia. reflexivity.
Qed.

Lemma poolAlloc_spec (spool : jsonStaticPool_t) :
  (qty spool <= nextFree spool -> poolAlloc spool = (None, spool))
  /\ (forall i spool', poolAlloc spool = (Some i, spool') ->
        i = nextFree spool /\ i < qty spool
        /\ spool' = mk_spool (qty spool) (S i)).
Proof.
  unfold poolAlloc. destruct (Nat.leb_spec (qty spool) (nextFree spool)).
  - split; [reflexivity|]. intros i spool' Hr. discriminate Hr.
  - split; [lia|]. intros i spool' Hr. injection Hr as <- <-. auto.
Qed.

Lemma objValue_loop_qty_low (fuel : nat) :
  forall s f : pstate jsonStaticPool_t,
    objValue_loop fuel s = Ret (Some f) ->
    forall K, K <= nextFree (st_pool s) ->
      (nextFree (st_pool f) = nextFree (st_pool s) ->
       objValue_loop fuel (with_qty s K) = Ret (Some (with_qty f K)))
      /\ (nextFree (st_pool s) < nextFree (st_pool f) ->
          objValue_loop fuel (with_qty s K) = Ret None).
Proof.
  induction fuel as [|fuel IH]; intros s f Hrun K HK; [discriminate|].
  cbn [objValue_loop] in *.
  destruct (objValue_turn s) as [t|] eqn:Ht; [|discriminate].
  cbn [obind] in Hrun.
  destruct t as [s'|[s'|]]; [| |discriminate].
  - destruct (objValue_loop_qty _ _ _ Hrun) as (Hle & _).
    destruct (objValue_turn_qty s _ Ht s' (or_introl eq_refl))
      as [[Hnf Hsame]|[Hnf Hcase]].
    + destruct (IH _ _ Hrun K ltac:(lia)) as [HA HB]. rewrite Hsame.
      cbn [obind]. split.
      * intros E. apply HA. lia.
      * intros E. apply HB. lia.
    + rewrite (proj2 (Hcase K)) by lia. split; [intros E; lia|reflexivity].
  - injection Hrun as <-.
    destruct (objValue_turn_qty s _ Ht s' (or_intror eq_refl))
      as [[Hnf Hsame]|[Hnf Hcase]].
    + rewrite Hsame. split; [reflexivity|intros E; lia].
    + rewrite (proj2 (Hcase K)) by lia. split; [intros E; lia|reflexivity].
Qed.

(** C5, as the claim words it, does not hold: with a pool of no capacity a
    document that takes one node, which is one more than the capacity, is
    parsed all the same.  The root is handed out by [poolInit], which does
    not look at the capacity. *)
Lemma capacity_zero_not_as_claimed :
  ~ (forall (str : buffer) (mem : memory) (K0 K : nat)
            (r : @parsed jsonStaticPool_t),
        json_create str mem K0 = Ret (Some r) -> nodes_used r = S K ->
        json_create str mem K = Ret None).
Proof.
  intros Hclaim.
  assert (Hrun : exists r, json_create (doc "[]") (fresh 1) 1 = Ret (Some r)
                           /\ nodes_used r = 1).
  { eexists. split; vm_compute; reflexivity. }
  destruct Hrun as (r & Hrun & Hn).
  specialize (Hclaim (doc "[]") (fresh 1) 1 0 r Hrun Hn).
  vm_compute in Hclaim. discriminate Hclaim.
Qed.

(** C5 (amended): a document whose parse takes [n] nodes from the fixed
    array pool, root included, is parsed with every capacity [K] of at
    least [n], to the same root, buffer and node array, and is refused, by
    a null result, with every capacity from 1 up to [n - 1]: the allocator
    then returns null when the cursor has reached [K].  With the capacity 0
    the document is refused when it takes two nodes or more, and parsed,
    to the same result, when it takes the root only.  The allocator hands
    out the node at the cursor only while the cursor is below the
    capacity. *)
Theorem pool_capacity (str : buffer) (mem : memory) (K0 : nat)
    (r : @parsed jsonStaticPool_t) :
  json_create str mem K0 = Ret (Some r) ->
  1 <= nodes_used r
  /\ (forall K, nodes_used r <= K ->
                json_create str mem K
                = Ret (Some (mk_parsed (p_root r) (p_buf r) (p_mem r)
                               (mk_spool K (nodes_used r)))))
  /\ (forall K, 1 <= K < nodes_used r -> json_create str mem K = Ret None)
  /\ (2 <= nodes_used r -> json_create str mem 0 = Ret None)
  /\ (nodes_used r = 1 ->
      json_create str mem 0
      = Ret (Some (mk_parsed (p_root r) (p_buf r) (p_mem r) (mk_spool 0 1))))
  /\ (forall spool : jsonStaticPool_t,
         (qty spool <= nextFree spool -> poolAlloc spool = (None, spool))
         /\ (forall i spool', poolAlloc spool = (Some i, spool') ->
               i = nextFree spool /\ i < qty spool
               /\ spool' = mk_spool (qty spool) (S i))).
Proof.
  unfold json_create, json_createWithPool, json_createWithPool_fuel, nodes_used.
  intros Hrun.
  destruct (goBlank str 0) as [ptr|]; [|discriminate].
  destruct (negb (rd str ptr =? T_ "{")%Z && negb (rd str ptr =? T_ "[")%Z);
    [discriminate|].
  cbn [init staticPool poolInit qty] in *. unfold objValue in *.
  match type of Hrun with
  | obind (objValue_loop _ ?s0) _ = _ => set (s := s0) in *
  end.
  destruct (objValue_loop (S (List.length str)) s) as [[f|]|] eqn:Hloop;
    cbn [obind] in Hrun; try discriminate.
  injection Hrun as <-. cbn [p_root p_buf p_mem p_pool].
  destruct (objValue_loop_qty _ _ _ Hloop) as (Hle & HA & HB).
  assert (HK0 : 0 <= nextFree (st_pool s)) by apply Nat.le_0_l.
  destruct (objValue_loop_qty_low _ _ _ Hloop 0 HK0) as (HC & HD).
  subst s. cbn [st_pool nextFree] in Hle, HC, HD.
  split; [exact Hle|]. split; [|split; [|split; [|split]]].
  - intros K HK. specialize (HA K HK). unfold with_qty in HA.
    cbn [st_ptr st_obj st_buf st_mem st_pool nextFree] in HA.
    rewrite HA. reflexivity.
  - intros K HK. specialize (HB K). unfold with_qty in HB.
    cbn [st_ptr st_obj st_buf st_mem st_pool nextFree] in HB.
    rewrite HB by lia. reflexivity.
  - intros Hn. unfold with_qty in HD.
    cbn [st_ptr st_obj st_buf st_mem st_pool nextFree] in HD.
    rewrite HD by lia. reflexivity.
  - intros Hn. unfold with_qty in HC.
    cbn [st_ptr st_obj st_buf st_mem st_pool nextFree] in HC.
    rewrite (HC Hn). cbn [obind st_buf st_mem st_pool nextFree].
    rewrite Hn. reflexivity.
  - apply poolAlloc_spec.
Qed.

(** The theorem at [[1,2]], which takes three nodes. *)
Lemma pool_capacity_witness :
  (exists r, json_create (doc "[1,2]") (fresh 3) 3 = Ret (Some r))
  /\ json_create (doc "[1,2]") (fresh 3) 2 = Ret None
  /\ json_create (doc "[1,2]") (fresh 3) 0 = Ret None.
Proof.
  assert (Hrun : exists r, json_create (doc "[1,2]") (fresh 3) 5 = Ret (Some r)
                           /\ nodes_used r = 3).
  { eexists. split; vm_compute; reflexivity. }
  destruct Hrun as (r & Hrun & Hn).
  pose proof (pool_capacity _ _ _ _ Hrun) as (_ & HA & HB & HC & _).
  rewrite Hn in *. split; [|split].
  - eexists. apply HA. apply le_n.
  - apply HB. split; [apply le_S, le_n|apply le_n].
  - apply HC. apply le_S, le_n.
Defined.

(** ** Trailing commas *)

Lemma wr_wr_same (b : buffer) (x y : CHAR_T) :
  forall c, wr (wr b c x) c y = wr b c y.
Proof.
  induction b as [|z b IH]; intros [|c]; cbn; try reflexivity.
  rewrite IH. reflexivity.
Qed.

Lemma wr_rd_id (b : buffer) : forall c, wr b c (rd b c) = b.
Proof.
  unfold rd. induction b as [|z b IH]; intros [|c]; cbn; try reflexivity.
  rewrite IH. reflexivity.
Qed.

Lemma wr_comm (b : buffer) (x y : CHAR_T) :
  forall c e, c <> e -> wr (wr b c x) e y = wr (wr b e y) c x.
Proof.
  induction b as [|z b IH]; intros [|c] [|e] Hne; cbn; try reflexivity;
    try lia.
  rewrite IH by lia. reflexivity.
Qed.

Lemma goBlank_over_blank (b : buffer) (p c e : nat) :
  goBlank b p = Some c -> goBlank b (S c) = Some e ->
  goBlank (wr b c (T_ " ")) p = Some e.
Proof.
  unfold goBlank. intros H1 H2.
  apply goWhile_inv in H1 as (seg1 & Hc1 & Hs1 & Hno1 & _ & Hn1).
  apply goWhile_inv in H2 as (seg2 & Hc2 & Hs2 & Hno2 & Hq & Hn).
  pose proof (consumes_le _ _ _ _ Hc1) as Hle1.
  pose proof (consumes_le _ _ _ _ Hc2) as Hle2.
  pose proof (rd_nonzero_lt _ _ Hn1) as Hin.
  set (b' := wr b c (T_ " ")).
  assert (Hother : forall i, i <> c -> rd b' i = rd b i)
    by (intros i Hi; apply rd_wr_other, Hi).
  assert (Hsame : rd b' c = T_ " ") by (apply rd_wr_same, Hin).
  apply (goWhile_run b' blank p e (seg1 ++ [T_ " "] ++ seg2)).
  - apply (consumes_app b' p c e); [|apply (consumes_app b' c (S c) e)].
    + apply (consumes_agree seg1 b b'); auto.
      intros i Hi. symmetry. apply Hother. lia.
    + rewrite <- Hsame. apply consumes_one. rewrite Hsame. discriminate.
    + apply (consumes_agree seg2 b b'); auto.
      intros i Hi. symmetry. apply Hother. lia.
  - apply Forall_app. split; [exact Hs1|]. constructor; [reflexivity|exact Hs2].
  - intros Hin'. apply in_app_or in Hin' as [Hi|[Hi|Hi]]; auto.
    vm_compute in Hi. discriminate Hi.
  - rewrite Hother by lia. exact Hq.
  - rewrite Hother by lia. exact Hn.
Qed.

Lemma rd_wr_len (a b : buffer) (c : nat) (x : CHAR_T) :
  List.length a = List.length b -> rd (wr a c x) c = rd (wr b c x) c.
Proof.
  intros Hlen. destruct (le_lt_dec (List.length a) c) as [Hout|Hin].
  - unfold rd. rewrite !nth_overflow; [reflexivity| |];
      rewrite wr_length; lia.
  - rewrite !rd_wr_same by lia. reflexivity.
Qed.

Section TrailingComma.
Context {P : Type} `{jsonPool_t P}.

Lemma objValue_turn_close (s : pstate P) (e : nat) :
  goBlank (st_buf s) (st_ptr s) = Some e ->
  rd (st_buf s) e = endchar_of s ->
  objValue_turn s = Ret (close_turn s e).
Proof.
  intros Hg He. unfold objValue_turn, close_turn. rewrite Hg.
  fold (endchar_of s).
  assert (Hc : (rd (st_buf s) e =? T_ ",")%Z = false).
  { rewrite He. unfold endchar_of.
    destruct (jsonType_eqb _ _); reflexivity. }
  rewrite Hc, He, Z.eqb_refl.
  destruct (sibling (node (st_mem s) (st_obj s))); reflexivity.
Qed.

(** A cell behind the scan position does not matter to the rest of the
    parse. *)
Lemma objValue_loop_behind (fuel : nat) (s f : pstate P) (c : nat) (x : CHAR_T) :
  objValue_loop fuel s = Ret (Some f) -> c < st_ptr s ->
  objValue_loop fuel (with_buf s (wr (st_buf s) c x))
  = Ret (Some (with_buf f (wr (st_buf f) c x))).
Proof.
  intros Hrun Hc.
  destruct (objValue_loop_local _ _ _ Hrun) as (Hlt & F & Htr).
  destruct F as (_ & Hlen & Hout & Hnz).
  pose proof (rd_nonzero_lt _ _ (Hnz (st_ptr f - 1) ltac:(lia))) as Hin.
  destruct (Htr (wr (st_buf s) c x) (st_ptr s) (List.length (st_buf s)))
    as (b2' & Hrun2 & Ha2); [lia|lia| |].
  { intros i Hi. symmetry. apply rd_wr_other. lia. }
  pose proof (objValue_loop_local _ _ _ Hrun2) as (_ & F2 & _).
  destruct F2 as (_ & Hlen2 & Hout2 & _).
  cbn [with_buf st_ptr st_buf] in *. rewrite wr_length in Hlen2.
  rewrite Hrun2. do 3 f_equal. apply buffer_ext.
  - rewrite wr_length. congruence.
  - intros i. destruct (Nat.eq_dec i c) as [->|Hne].
    + rewrite Hout2 by lia. apply rd_wr_len. congruence.
    + rewrite rd_wr_other by exact Hne.
      destruct (le_lt_dec (st_ptr s) i) as [Hge|Hlt'].
      * destruct (le_lt_dec (List.length (st_buf s)) i) as [Hbig|Hsmall].
        -- unfold rd. rewrite !nth_overflow; [reflexivity| |]; lia.
        -- symmetry. apply Ha2. lia.
      * rewrite Hout2, Hout by lia. apply rd_wr_other, Hne.
Qed.

Lemma close_turn_behind (s : pstate P) (c e : nat) (x : CHAR_T) :
  c <> e ->
  close_turn (with_buf s (wr (st_buf s) c x)) e
  = match close_turn s e with
    | Continue s1 => Continue (with_buf s1 (wr (st_buf s1) c x))
    | Return (Some f) => Return (Some (with_buf f (wr (st_buf f) c x)))
    | Return None => Return None
    end.
Proof.
  intros Hne. unfold close_turn, with_buf.
  cbn [st_ptr st_obj st_buf st_mem st_pool].
  destruct (sibling (node (st_mem s) (st_obj s)));
    cbn [st_ptr st_obj st_buf st_mem st_pool];
    rewrite (wr_comm _ x NUL c e Hne); reflexivity.
Qed.

End TrailingComma.

Lemma setToNull_separator (b : buffer) (p : nat) :
  isOneOfThem (rd b p) endofblock = false ->
  setToNull b p = (wr b p NUL, S p).
Proof. intros Hs. unfold setToNull. rewrite Hs. reflexivity. Qed.

Lemma primitive_comma_as_blank (b : buffer) (mem : memory) (ptr property : nat)
    (value : list CHAR_T) (ty : jsonType_t) (pe : nat) :
  ~ In NUL value -> consumes b ptr pe value -> rd b pe = T_ "," ->
  primitiveValue b mem ptr property value ty
  = Some (S pe, wr b pe NUL, upd mem property (set_type ty))
  /\ primitiveValue (wr b pe (T_ " ")) mem ptr property value ty
     = Some (S pe, wr b pe NUL, upd mem property (set_type ty)).
Proof.
  intros Hno Hc Hcomma.
  assert (Hin : pe < List.length b).
  { apply rd_nonzero_lt. rewrite Hcomma. discriminate. }
  pose proof (consumes_le _ _ _ _ Hc) as Hle.
  split; apply (primitiveValue_explicit _ mem ptr property value ty _ Hno);
    exists pe.
  - split; [exact Hc|]. split.
    + rewrite Hcomma. left. reflexivity.
    + rewrite setToNull_separator by (rewrite Hcomma; reflexivity). reflexivity.
  - split; [|split].
    + apply (consumes_agree value b); auto.
      intros i Hi. symmetry. apply rd_wr_other. lia.
    + rewrite rd_wr_same by exact Hin. right. left. reflexivity.
    + rewrite setToNull_separator
        by (rewrite rd_wr_same by exact Hin; reflexivity).
      rewrite wr_wr_same. reflexivity.
Qed.

Lemma number_comma_as_blank (b : buffer) (mem : memory) (ptr property pe : nat)
    (ty : jsonType_t) :
  (forall v, u_value (node mem property) = Some v -> v = ptr) ->
  numValue_scan b ptr = Some (pe, ty) -> rd b pe = T_ "," ->
  numValue (wr b pe (T_ " ")) mem ptr property = numValue b mem ptr property.
Proof.
  intros Hval Hscan Hcomma.
  assert (Hin : pe < List.length b).
  { apply rd_nonzero_lt. rewrite Hcomma. discriminate. }
  pose proof (numValue_scan_sound _ _ _ _ Hscan) as (lit & Hprod & Hc & He).
  pose proof (number_production_no_NUL _ _ Hprod) as [Hno Hne].
  pose proof (consumes_le _ _ _ _ Hc) as Hle.
  set (b' := wr b pe (T_ " ")).
  assert (Hsame : rd b' pe = T_ " ") by (apply rd_wr_same, Hin).
  assert (Hc' : consumes b' ptr pe lit).
  { apply (consumes_agree lit b); auto.
    intros i Hi. symmetry. apply rd_wr_other. lia. }
  assert (Hscan' : numValue_scan b' ptr = Some (pe, ty)).
  { eapply numValue_scan_complete; eauto. rewrite Hsame. right. left.
    reflexivity. }
  rewrite (numValue_explicit b mem ptr property pe ty Hscan).
  rewrite (numValue_explicit b' mem ptr property pe ty Hscan').
  rewrite (setToNull_separator b pe) by (rewrite Hcomma; reflexivity).
  rewrite (setToNull_separator b' pe) by (rewrite Hsame; reflexivity).
  unfold b' at 2 3. rewrite wr_wr_same. cbn [fst snd].
  destruct (u_value (node mem property)) as [v|] eqn:Hv; [|reflexivity].
  rewrite (Hval v eq_refl).
  rewrite (int64_check_agree b b' ptr pe lit); auto.
  - rewrite Hcomma. discriminate.
  - rewrite Hsame. discriminate.
Qed.

Section TrailingCommaTheorem.
Context {P : Type} `{jsonPool_t P}.

Lemma with_buf_restore (s1 : pstate P) (c : nat) (x : CHAR_T) :
  with_buf (with_buf s1 (wr (st_buf s1) c x))
           (wr (wr (st_buf s1) c x) c (rd (st_buf s1) c)) = s1.
Proof.
  destruct s1 as [p obj b mem pool]. unfold with_buf.
  cbn [st_ptr st_obj st_buf st_mem st_pool].
  rewrite wr_wr_same, wr_rd_id. reflexivity.
Qed.

Lemma close_turn_buf (s : pstate P) (e c : nat) :
  c <> e ->
  match close_turn s e with
  | Continue s1 => rd (st_buf s1) c = rd (st_buf s) c /\ st_ptr s1 = S e
  | Return (Some f) => rd (st_buf f) c = rd (st_buf s) c /\ st_ptr f = S e
  | Return None => True
  end.
Proof.
  intros Hne. unfold close_turn.
  destruct (sibling (node (st_mem s) (st_obj s)));
    cbn [st_buf st_ptr]; (split; [apply rd_wr_other, Hne|reflexivity]).
Qed.

(** C3: a comma that the loop meets (after blanks) and that is followed,
    after blanks, by the close character of the current container is
    accepted.  The loop skips the comma and its next turn closes the
    container, exactly as the turn does on the same text with a blank in
    the comma's cell: the two checks do not depend on each other.  The
    parse with the comma succeeds if and only if the parse without it does,
    and the two results have the same position, current node, node array
    and pool and the same buffer up to the comma's own cell.  A comma right
    after a keyword or a number is overwritten by the terminator of that
    primitive like a blank would be, with the same result.  Sample
    documents with a trailing comma parse to the tree of the document
    without it. *)
Theorem trailing_comma_accepted (s : pstate P) (c e : nat) :
  goBlank (st_buf s) (st_ptr s) = Some c ->
  rd (st_buf s) c = T_ "," ->
  goBlank (st_buf s) (S c) = Some e ->
  rd (st_buf s) e = endchar_of s ->
  let sb := with_buf s (wr (st_buf s) c (T_ " ")) in
  objValue_turn s = Ret (Continue (with_ptr s (S c)))
  /\ objValue_turn (with_ptr s (S c)) = Ret (close_turn s e)
  /\ objValue_turn sb = Ret (close_turn sb e)
  /\ (forall fuel r,
         objValue_loop fuel sb = Ret (Some r) ->
         objValue_loop (S fuel) s
         = Ret (Some (with_buf r (wr (st_buf r) c (T_ ",")))))
  /\ (forall fuel r,
         objValue_loop (S fuel) s = Ret (Some r) ->
         objValue_loop fuel sb
         = Ret (Some (with_buf r (wr (st_buf r) c (T_ " ")))))
  /\ (forall b mem ptr property value ty pe,
         ~ In NUL value -> consumes b ptr pe value -> rd b pe = T_ "," ->
         primitiveValue b mem ptr property value ty
         = primitiveValue (wr b pe (T_ " ")) mem ptr property value ty
         /\ primitiveValue b mem ptr property value ty
            = Some (S pe, wr b pe NUL, upd mem property (set_type ty)))
  /\ (forall b mem ptr property pe ty,
         (forall v, u_value (node mem property) = Some v -> v = ptr) ->
         numValue_scan b ptr = Some (pe, ty) -> rd b pe = T_ "," ->
         numValue b mem ptr property
         = numValue (wr b pe (T_ " ")) mem ptr property)
  /\ parse_tree "[1,2,]" 3 = parse_tree "[1,2]" 3
  /\ parse_tree "{'a':'x' , }" 2 = parse_tree "{'a':'x'   }" 2
  /\ parse_tree "{'a':'x',}" 2 = parse_tree "{'a':'x'}" 2
  /\ parse_tree "[[true,],]" 3 = parse_tree "[[true]]" 3
  /\ parse_tree "[,]" 1 = parse_tree "[]" 1
  /\ (exists t, parse_tree "{'a':'x',}" 2 = Ret (Some t)).
Proof.
  intros Hg Hcomma Hg2 Hend sb.
  pose proof (goWhile_footprint _ _ _ _ Hg2) as [(Hce & _) He].
  assert (Hne : c <> e) by lia.
  assert (T1 : objValue_turn s = Ret (Continue (with_ptr s (S c)))).
  { unfold objValue_turn, with_ptr. rewrite Hg, Hcomma, Z.eqb_refl.
    reflexivity. }
  assert (T2 : objValue_turn (with_ptr s (S c)) = Ret (close_turn s e)).
  { apply (objValue_turn_close (with_ptr s (S c)) e); assumption. }
  assert (T3 : objValue_turn sb = Ret (close_turn sb e)).
  { apply (objValue_turn_close sb e).
    - unfold sb, with_buf. cbn [st_buf st_ptr].
      apply goBlank_over_blank; assumption.
    - unfold sb, with_buf, endchar_of. cbn [st_buf st_mem st_obj].
      rewrite rd_wr_other by lia. exact Hend. }
  pose proof (close_turn_buf s e c Hne) as Hbuf.
  pose proof (close_turn_behind s c e (T_ " ") Hne) as Hbehind.
  fold sb in Hbehind.
  split; [exact T1|]. split; [exact T2|]. split; [exact T3|].
  split; [|split; [|split; [|split]]].
  - intros fuel r Hrun. destruct fuel as [|fuel]; [discriminate|].
    cbn [objValue_loop] in *. rewrite T3 in Hrun. rewrite T1.
    cbn [obind objValue_loop] in *. rewrite T2. cbn [obind].
    rewrite Hbehind in Hrun.
    destruct (close_turn s e) as [s1|[f|]]; [| |discriminate].
    + destruct Hbuf as [Hrd Hptr].
      pose proof (objValue_loop_behind _ _ _ c (T_ ",") Hrun) as Hback.
      cbn [with_buf st_ptr st_buf] in Hback.
      specialize (Hback ltac:(lia)).
      rewrite <- Hcomma, <- Hrd in Hback at 1.
      pose proof (with_buf_restore s1 c (T_ " ")) as Hres.
      unfold with_buf in Hres, Hback.
      cbn [st_ptr st_obj st_buf st_mem st_pool] in Hres, Hback.
      rewrite Hres in Hback. rewrite Hback. unfold with_buf.
      rewrite <- Hcomma. reflexivity.
    + destruct Hbuf as [Hrd Hptr]. injection Hrun as <-.
      pose proof (with_buf_restore f c (T_ " ")) as Hres.
      rewrite Hrd, Hcomma in Hres.
      cbn [with_buf st_buf]. unfold with_buf in *.
      cbn [st_ptr st_obj st_buf st_mem st_pool] in *.
      rewrite Hres. reflexivity.
  - intros fuel r Hrun. cbn [objValue_loop] in Hrun. rewrite T1 in Hrun.
    cbn [obind] in Hrun. destruct fuel as [|fuel]; [discriminate|].
    cbn [objValue_loop] in *. rewrite T2 in Hrun. rewrite T3, Hbehind.
    destruct (close_turn s e) as [s1|[f|]]; cbn [obind] in *;
      [| |discriminate].
    + destruct Hbuf as [Hrd Hptr].
      apply (objValue_loop_behind _ _ _ c (T_ " ") Hrun). lia.
    + injection Hrun as <-. reflexivity.
  - intros b mem ptr property value ty pe Hno Hc Hco.
    destruct (primitive_comma_as_blank b mem ptr property value ty pe Hno Hc Hco)
      as [H1 H2].
    split; congruence.
  - intros b mem ptr property pe ty Hval Hscan Hco. symmetry.
    apply (number_comma_as_blank b mem ptr property pe ty); assumption.
  - repeat split; try (vm_compute; reflexivity).
    eexists. vm_compute. reflexivity.
Qed.

End TrailingCommaTheorem.

(** The theorem at [[,]], in the state the loop starts from. *)
Lemma trailing_comma_accepted_witness :
  objValue_loop 2 (mk_pstate 1 0 (doc "[,]")
                     (upd (fresh 1) 0 (set_type JSON_ARRAY)) (mk_spool 1 1))
  = Ret (Some (mk_pstate 3 0 (wr (doc "[,]") 2 NUL)
                 (upd (fresh 1) 0 (set_type JSON_ARRAY)) (mk_spool 1 1))).
Proof.
  pose proof (@trailing_comma_accepted jsonStaticPool_t staticPool
                (mk_pstate 1 0 (doc "[,]")
                   (upd (fresh 1) 0 (set_type JSON_ARRAY)) (mk_spool 1 1))
                1 2 eq_refl eq_refl eq_refl eq_refl) as (T1 & T2 & _).
  cbn [objValue_loop]. rewrite T1. cbn [obind]. rewrite T2. reflexivity.
Defined.

(** ** Integer documents *)

Ltac norm_T :=
  repeat match goal with
         | |- context [T_ ?c] =>
             let v := eval vm_compute in (T_ c) in change (T_ c) with v
         end.

Ltac not_char x :=
  repeat match goal with
         | |- context [(x =? ?k)%Z] =>
             destruct (Z.eqb_spec x k) as [?|?]; [exfalso; lia|]
         end.

Section NumberTurn.
Context {P : Type} `{jsonPool_t P}.

Lemma objValue_loop_step (fuel : nat) (s : pstate P) :
  objValue_loop (S fuel) s
  = obind (objValue_turn s) (fun t =>
      match t with
      | Return r => Ret r
      | Continue s' => objValue_loop fuel s'
      end).
Proof. reflexivity. Qed.

(** The turn that meets a number in an array. *)
Lemma objValue_turn_number (s : pstate P) (e property : nat) (pool' : P) :
  goBlank (st_buf s) (st_ptr s) = Some e ->
  (rd (st_buf s) e = T_ "-" \/ 48 <= rd (st_buf s) e <= 57)%Z ->
  type (node (st_mem s) (st_obj s)) = JSON_ARRAY ->
  alloc (st_pool s) = (Some property, pool') ->
  objValue_turn s
  = Ret (scalar_turn (st_obj s) pool'
           (numValue (st_buf s)
              (upd (add (upd (st_mem s) property (set_name None))
                        (st_obj s) property)
                   property (set_u_value (Some e)))
              e property)).
Proof.
  intros Hg Hx Hty Halloc. unfold objValue_turn.
  rewrite Hg, Hty, Halloc.
  change (jsonType_eqb JSON_ARRAY JSON_OBJ) with false.
  change (jsonType_eqb JSON_ARRAY JSON_ARRAY) with true.
  cbn [negb obind]. rewrite objValue_dispatch_eq.
  revert Hx. generalize (rd (st_buf s) e) as x. intros x Hx.
  change (T_ "-") with 45%Z in Hx.
  unfold QUOTE. norm_T. not_char x. reflexivity.
Qed.

End NumberTurn.

Lemma integer_document_parses (sg ip : list CHAR_T) :
  sg = [] \/ sg = [T_ "-"] -> int_part ip ->
  (INT64_MIN <= literal_value sg ip <= INT64_MAX)%Z ->
  exists r,
    json_create (T_ "[" :: (sg ++ ip) ++ [T_ "]"; NUL]) (fresh 2) 2
    = Ret (Some r)
    /\ tree_of r = [JContainer JSON_ARRAY None
                      [JScalar JSON_INTEGER None (sg ++ ip)]].
Proof.
  intros Hsg Hip Hrange.
  pose proof (literal_no_NUL sg ip Hsg Hip) as Hno.
  pose proof (in_range_short sg ip Hsg Hip Hrange) as Hshort.
  remember (T_ "[" :: (sg ++ ip) ++ [T_ "]"; NUL]) as b eqn:Hb.
  set (pe := S (List.length (sg ++ ip))).
  assert (Hlen : @List.length CHAR_T b = S (S (S (List.length (sg ++ ip))))).
  { subst b. cbn [List.length]. rewrite length_app. cbn. lia. }
  assert (Hc : consumes b 1 pe (sg ++ ip)).
  { split; [reflexivity|]. subst b pe.
    change (skipn 1 (T_ "[" :: (sg ++ ip) ++ [T_ "]"; NUL]))
      with ((sg ++ ip) ++ [T_ "]"; NUL]).
    f_equal. cbn [skipn]. symmetry. apply skipn_app_exact. }
  assert (Hpe : rd b pe = T_ "]").
  { rewrite rd_skipn. destruct Hc as [_ Hs]. subst b pe.
    cbn [skipn]. rewrite skipn_app_exact. reflexivity. }
  assert (Hx : (rd b 1 = T_ "-" \/ 48 <= rd b 1 <= 57)%Z).
  { destruct Hsg as [-> | ->].
    - right. destruct Hip as [|d ds Hd _];
        apply consumes_head in Hc as [-> _]; lia.
    - left. apply consumes_head in Hc as [-> _]. reflexivity. }
  assert (Hg0 : goBlank b 0 = Some 0) by (subst b; reflexivity).
  assert (Hr0 : rd b 0 = T_ "[") by (subst b; reflexivity).
  assert (Hg1 : goBlank b 1 = Some 1).
  { apply (goWhile_run b blank _ _ []); auto using consumes_nil;
      revert Hx; generalize (rd b 1) as x; intros x Hx;
      change (T_ "-") with 45%Z in Hx.
    - unfold blank. norm_T. cbn [isOneOfThem]. not_char x. reflexivity.
    - unfold NUL. lia. }
  assert (Hg2 : goBlank b pe = Some pe).
  { apply (goWhile_run b blank _ _ []); auto using consumes_nil;
      rewrite Hpe; [reflexivity|discriminate]. }
  assert (Hnum : forall mem, u_value (node mem 1) = Some 1 ->
             numValue b mem 1 1 = Some (pe, b, upd mem 1 (set_type JSON_INTEGER))).
  { intros mem Hval.
    rewrite (numValue_integer b mem 1 1 pe sg ip Hval Hsg Hip Hc)
      by (rewrite Hpe; do 7 right; reflexivity).
    assert (Hok : int64_check b 1 pe = true).
    { apply (int64_check_literal b 1 pe sg ip Hsg Hip Hc); auto.
      - rewrite Hpe. discriminate.
      - change (2 ^ 32)%Z with 4294967296%Z. lia. }
    rewrite Hok. unfold setToNull. rewrite Hpe. reflexivity. }
  clear Hb.
  eexists. split.
  - unfold json_create, json_createWithPool, json_createWithPool_fuel.
    rewrite Hg0, Hr0.
    change (negb (T_ "[" =? T_ "{")%Z && negb (T_ "[" =? T_ "[")%Z) with false.
    cbv iota. cbn [init staticPool poolInit qty].
    unfold objValue. rewrite Hr0, Hlen.
    change (T_ "[" =? T_ "{")%Z with false. cbv iota.
    match goal with
    | |- context [objValue_loop _ (mk_pstate _ _ _ ?m _)] =>
        let m' := eval vm_compute in m in change m with m'
    end.
    rewrite objValue_loop_step.
    rewrite (objValue_turn_number _ 1 1 (mk_spool 2 2));
      [|exact Hg1|exact Hx|reflexivity|reflexivity].
    cbn [st_buf st_mem st_obj].
    match goal with
    | |- context [numValue _ ?m _ _] =>
        let m' := eval vm_compute in m in change m with m'
    end.
    rewrite Hnum by reflexivity. cbn [scalar_turn obind].
    match goal with
    | |- context [objValue_loop _ (mk_pstate _ _ _ ?m _)] =>
        let m' := eval vm_compute in m in change m with m'
    end.
    rewrite objValue_loop_step.
    rewrite (objValue_turn_close _ pe); [|exact Hg2|exact Hpe].
    cbn. reflexivity.
  - unfold tree_of. cbn [p_mem p_buf p_root List.length].
    with_strategy opaque [cstr] cbn.
    rewrite (cstr_terminated b 1 pe (sg ++ ip) Hc Hno)
      by (rewrite Hpe; discriminate).
    reflexivity.
Qed.

(** C1: an integer literal (sign [sg], digits [ip]) that the caller's node
    points to and whose value lies in the signed 64-bit range is accepted by
    [numValue]: the node is tagged Integer and the cells of the lexeme still
    hold the literal, terminated by the NUL that [setToNull] wrote or
    followed by the closing bracket that the tree builder overwrites next.
    For a literal shorter than 2^32 characters the test fails when the
    literal is longer than the bound literal, decides by [strcmp] against
    the bound when the lengths are equal, and passes when it is shorter;
    that is exactly the range test.  The document that holds the in-range
    literal alone in an array is parsed, to an Integer node whose value
    string is the literal.  The two literals just outside the
    range make the parse fail, the two bounds themselves are parsed. *)
Theorem int64_overflow_check (b : buffer) (mem : memory)
    (ptr property pe : nat) (sg ip : list CHAR_T) :
  u_value (node mem property) = Some ptr ->
  sg = [] \/ sg = [T_ "-"] -> int_part ip ->
  consumes b ptr pe (sg ++ ip) -> ends_primitive (rd b pe) ->
  ((INT64_MIN <= literal_value sg ip <= INT64_MAX)%Z ->
   exists p' b',
     numValue b mem ptr property
     = Some (p', b', upd mem property (set_type JSON_INTEGER))
     /\ consumes b' ptr pe (sg ++ ip)
     /\ (rd b' pe = NUL /\ cstr b' ptr = sg ++ ip /\ p' = S pe
         \/ b' = b /\ p' = pe /\ (rd b pe = T_ "}" \/ rd b pe = T_ "]")))
  /\ ((Z.of_nat (List.length (sg ++ ip)) < 2 ^ 32)%Z ->
      (List.length (bound_literal sg) < List.length (sg ++ ip) ->
       numValue b mem ptr property = None)
      /\ (List.length (sg ++ ip) = List.length (bound_literal sg) ->
          (numValue b mem ptr property = None
           <-> (strcmp (bound_literal sg) (sg ++ ip) < 0)%Z))
      /\ (List.length (sg ++ ip) < List.length (bound_literal sg) ->
          numValue b mem ptr property <> None)
      /\ (numValue b mem ptr property = None
          <-> ~ (INT64_MIN <= literal_value sg ip <= INT64_MAX)%Z))
  /\ ((INT64_MIN <= literal_value sg ip <= INT64_MAX)%Z ->
      exists r,
        json_create (T_ "[" :: (sg ++ ip) ++ [T_ "]"; NUL]) (fresh 2) 2
        = Ret (Some r)
        /\ tree_of r = [JContainer JSON_ARRAY None
                          [JScalar JSON_INTEGER None (sg ++ ip)]])
  /\ parse_tree "[9223372036854775808]" 2 = Ret None
  /\ parse_tree "[-9223372036854775809]" 2 = Ret None
  /\ parse_tree "[9223372036854775807,-9223372036854775808]" 3
     = Ret (Some [JContainer JSON_ARRAY None
                    [JScalar JSON_INTEGER None max_literal;
                     JScalar JSON_INTEGER None min_literal]]).
Proof.
  intros Hval Hsg Hip Hc Hend.
  pose proof (numValue_integer b mem ptr property pe sg ip Hval Hsg Hip Hc Hend)
    as Hnum.
  pose proof (ends_primitive_facts _ Hend) as (_ & Hn & _).
  split; [|split; [|split; [|repeat split; vm_compute; reflexivity]]];
    [| |apply integer_document_parses; assumption].
  - intros Hr.
    pose proof (in_range_short sg ip Hsg Hip Hr) as Hshort.
    assert (Hsmall : (Z.of_nat (List.length (sg ++ ip)) < 2 ^ 32)%Z)
      by (change (2 ^ 32)%Z with 4294967296%Z; lia).
    apply (int64_check_literal b ptr pe sg ip Hsg Hip Hc Hn Hsmall) in Hr.
    rewrite Hr in Hnum.
    destruct (setToNull_keeps b ptr pe (sg ++ ip) Hc Hn) as [Hk Hcase].
    exists (snd (setToNull b pe)), (fst (setToNull b pe)).
    split; [exact Hnum|]. split; [exact Hk|].
    destruct Hcase as [[H0 Hp]|(Hb & Hp & Hbr)].
    + left. split; [exact H0|]. split; [|exact Hp].
      eapply cstr_consumed; eauto using literal_no_NUL.
    + right. auto.
  - intros Hsmall.
    pose proof (int64_check_literal b ptr pe sg ip Hsg Hip Hc Hn Hsmall) as Hlit.
    pose proof (int64_check_mechanism b ptr pe sg ip Hsg Hip Hc Hn Hsmall)
      as Hmech.
    assert (Hnone : numValue b mem ptr property = None
                    <-> int64_check b ptr pe = false).
    { rewrite Hnum. destruct (int64_check b ptr pe); split; congruence. }
    split; [|split; [|split]].
    + intros Hl. apply Hnone. rewrite Hmech.
      apply Nat.ltb_lt in Hl. rewrite Hl. reflexivity.
    + intros Hl. rewrite Hnone, Hmech, Hl, Nat.ltb_irrefl, Nat.eqb_refl.
      rewrite negb_false_iff. apply Z.ltb_lt.
    + intros Hl Hnum0. apply Hnone in Hnum0. rewrite Hmech in Hnum0.
      destruct (Nat.ltb_spec (List.length (bound_literal sg))
                  (List.length (sg ++ ip))); [lia|].
      destruct (Nat.eqb_spec (List.length (sg ++ ip))
                  (List.length (bound_literal sg))); [lia|discriminate].
    + rewrite Hnone, <- Hlit. destruct (int64_check b ptr pe);
        split; congruence.
Qed.

(** The theorem at the literal [-42] of [[-42]], held by node 1. *)
Lemma int64_overflow_check_witness :
  exists p' b',
    numValue (doc "[-42]") [node0; set_u_value (Some 1) node0] 1 1
    = Some (p', b', upd [node0; set_u_value (Some 1) node0] 1
                        (set_type JSON_INTEGER))
    /\ consumes b' 1 4 (T "-42")
    /\ (rd b' 4 = NUL /\ cstr b' 1 = T "-42" /\ p' = 5
        \/ b' = doc "[-42]" /\ p' = 4
           /\ (rd (doc "[-42]") 4 = T_ "}" \/ rd (doc "[-42]") 4 = T_ "]")).
Proof.
  refine (proj1 (int64_overflow_check (doc "[-42]")
                   [node0; set_u_value (Some 1) node0] 1 1 4
                   [T_ "-"] (T "42") eq_refl _ _ _ _) _).
  - right. reflexivity.
  - apply int_nonzero; [vm_compute; split; discriminate|].
    repeat constructor; vm_compute; discriminate.
  - split; reflexivity.
  - vm_compute. do 7 right. reflexivity.
  - vm_compute. split; discriminate.
Defined.

(** * Further properties of the scanners and the tree builder *)

(** ** Skipping a character class *)

Lemma goWhile_from_some (set l : list CHAR_T) :
  forall p q,
    goWhile_from l p set = Some q <->
    p <= q
    /\ (forall i, i < q - p ->
                  rd l i <> NUL /\ isOneOfThem (rd l i) set = true)
    /\ rd l (q - p) <> NUL /\ isOneOfThem (rd l (q - p)) set = false.
Proof.
  induction l as [|x l IH]; intros p q; cbn [goWhile_from].
  - split; [discriminate|]. intros (_ & _ & Hn & _). exfalso. apply Hn.
    unfold rd. destruct (q - p); reflexivity.
  - destruct (Z.eqb_spec x NUL) as [Hx|Hx].
    + split; [discriminate|]. intros (Hle & Hin & Hn & _). exfalso.
      destruct (q - p) as [|k] eqn:Hk; [apply Hn; exact Hx|].
      destruct (Hin 0 ltac:(lia)) as [H0 _]. apply H0. exact Hx.
    + destruct (isOneOfThem x set) eqn:Hs.
      * rewrite IH. split.
        -- intros (Hle & Hin & Hn & Ho).
           replace (q - p) with (S (q - S p)) by lia.
           split; [lia|]. split; [|split; assumption].
           intros [|i] Hi; [split; assumption|]. apply Hin. lia.
        -- intros (Hle & Hin & Hn & Ho).
           assert (Hpq : p <> q).
           { intros ->. rewrite Nat.sub_diag in Ho. cbn in Ho. congruence. }
           replace (q - p) with (S (q - S p)) in * by lia.
           split; [lia|]. split; [|split; assumption].
           intros i Hi. apply (Hin (S i)). lia.
      * split.
        -- intros Hq. injection Hq as <-. rewrite Nat.sub_diag.
           split; [lia|]. split; [intros i Hi; lia|]. split; assumption.
        -- intros (Hle & Hin & Hn & Ho).
           destruct (q - p) as [|k] eqn:Hk; [f_equal; lia|].
           destruct (Hin 0 ltac:(lia)) as [_ H0]. cbn in H0. congruence.
Qed.

Lemma goWhile_from_none (set l : list CHAR_T) :
  forall p,
    goWhile_from l p set = None <->
    exists k, rd l k = NUL
              /\ forall i, i < k ->
                           rd l i <> NUL /\ isOneOfThem (rd l i) set = true.
Proof.
  induction l as [|x l IH]; intros p; cbn [goWhile_from].
  - split; [|reflexivity]. intros _. exists 0. split; [reflexivity|].
    intros i Hi. lia.
  - destruct (Z.eqb_spec x NUL) as [Hx|Hx].
    + split; [|reflexivity]. intros _. exists 0. split; [exact Hx|].
      intros i Hi. lia.
    + destruct (isOneOfThem x set) eqn:Hs.
      * rewrite IH. split.
        -- intros (k & Hk & Hin). exists (S k). split; [exact Hk|].
           intros [|i] Hi; [split; assumption|]. apply Hin. lia.
        -- intros (k & Hk & Hin). destruct k as [|k]; [contradiction|].
           exists k. split; [exact Hk|]. intros i Hi. apply (Hin (S i)). lia.
      * split; [discriminate|]. intros (k & Hk & Hin).
        destruct k as [|k]; [contradiction|].
        destruct (Hin 0 ltac:(lia)) as [_ H0]. cbn in H0. congruence.
Qed.

Lemma rd_skipn_add (b : buffer) (p i : nat) : rd (skipn p b) i = rd b (p + i).
Proof. unfold rd. apply nth_skipn. Qed.

Lemma isdigit_set (c : CHAR_T) : isdigit c = isOneOfThem c (T "0123456789").
Proof.
  unfold isdigit. cbn [T map list_ascii_of_string isOneOfThem]. norm_T.
  repeat match goal with
         | |- context [(c =? ?k)%Z] => destruct (Z.eqb_spec c k); [lia|]
         end.
  lia.
Qed.

Lemma goNum_from_goWhile (l : list CHAR_T) :
  forall p, goNum_from l p = goWhile_from l p (T "0123456789").
Proof.
  induction l as [|x l IH]; intros p; [reflexivity|].
  cbn [goNum_from goWhile_from]. rewrite IH, isdigit_set. reflexivity.
Qed.

Lemma goWhile_cells (b : buffer) (str : nat) (set : list CHAR_T) (q : nat) :
  goWhile b str set = Some q <->
  str <= q
  /\ (forall i, str <= i < q ->
                rd b i <> NUL /\ isOneOfThem (rd b i) set = true)
  /\ rd b q <> NUL /\ isOneOfThem (rd b q) set = false.
Proof.
  unfold goWhile. rewrite goWhile_from_some. split.
  - intros (Hle & Hin & Hn & Ho). rewrite rd_skipn_add in Hn, Ho.
    replace (str + (q - str)) with q in * by lia.
    split; [exact Hle|]. split; [|split; assumption].
    intros i Hi. specialize (Hin (i - str) ltac:(lia)).
    rewrite rd_skipn_add in Hin. replace (str + (i - str)) with i in Hin by lia.
    exact Hin.
  - intros (Hle & Hin & Hn & Ho). rewrite !rd_skipn_add.
    replace (str + (q - str)) with q by lia.
    split; [exact Hle|]. split; [|split; assumption].
    intros i Hi. rewrite rd_skipn_add. apply Hin. lia.
Qed.

(** X1: [goWhile] returns the first position at or after [str] whose
    character is outside [set], all cells before it being members of [set]
    and none a NUL; it returns null exactly when a NUL is met before any
    such character.  [goBlank] is this scan with the five blanks, [goNum]
    with the ten digits. *)
Theorem goWhile_first_outside (b : buffer) (str : nat) (set : list CHAR_T) :
  (forall q,
      goWhile b str set = Some q <->
      str <= q
      /\ (forall i, str <= i < q ->
                    rd b i <> NUL /\ isOneOfThem (rd b i) set = true)
      /\ rd b q <> NUL /\ isOneOfThem (rd b q) set = false)
  /\ (goWhile b str set = None <->
      exists z, str <= z /\ rd b z = NUL
                /\ forall i, str <= i < z ->
                             rd b i <> NUL /\ isOneOfThem (rd b i) set = true)
  /\ goBlank b str = goWhile b str [32; 10; 13; 9; 12]%Z
  /\ goNum b str = goWhile b str (T "0123456789").
Proof.
  split; [|split; [|split]].
  - intros q. apply goWhile_cells.
  - unfold goWhile. rewrite goWhile_from_none. split.
    + intros (k & Hk & Hin). exists (str + k). rewrite rd_skipn_add in Hk.
      split; [lia|]. split; [exact Hk|]. intros i Hi.
      specialize (Hin (i - str) ltac:(lia)). rewrite rd_skipn_add in Hin.
      replace (str + (i - str)) with i in Hin by lia. exact Hin.
    + intros (z & Hle & Hz & Hin). exists (z - str). rewrite rd_skipn_add.
      replace (str + (z - str)) with z by lia. split; [exact Hz|].
      intros i Hi. rewrite rd_skipn_add. apply Hin. lia.
  - reflexivity.
  - unfold goNum, goWhile. apply goNum_from_goWhile.
Qed.

(** The theorem on the blanks before the bracket of [  [1]]. *)
Lemma goWhile_first_outside_witness : goBlank (doc "  [1]") 0 = Some 2.
Proof.
  apply (proj2 (proj1 (goWhile_first_outside (doc "  [1]") 0 blank) 2)).
  split; [apply Nat.le_0_l|]. split; [|split; [discriminate|reflexivity]].
  intros i Hi. assert (Hc : i = 0 \/ i = 1) by lia.
  destruct Hc as [-> | ->]; split; (discriminate || reflexivity).
Defined.

(** ** Numbers *)

(** X2: a Real literal is never range-checked: whatever its length and
    magnitude, [numValue] accepts a literal of the number production with a
    fraction or an exponent that is followed by an end-of-primitive
    character, tags the node Real and terminates the lexeme. *)
Theorem real_never_range_checked (b : buffer) (mem : memory)
    (ptr property pe : nat) (lit : list CHAR_T) :
  number_production lit JSON_REAL -> consumes b ptr pe lit ->
  ends_primitive (rd b pe) ->
  numValue b mem ptr property
  = Some (snd (setToNull b pe), fst (setToNull b pe),
          upd mem property (set_type JSON_REAL)).
Proof.
  intros Hlit Hc He.
  rewrite (numValue_explicit b mem ptr property pe JSON_REAL
             (numValue_scan_complete b ptr pe lit JSON_REAL Hlit Hc He)).
  reflexivity.
Qed.

(** The theorem at a literal of thirty digits and a fraction. *)
Lemma real_never_range_checked_witness :
  numValue (doc "123456789012345678901234567890.5,") (fresh 1) 0 0
  = Some (33, wr (doc "123456789012345678901234567890.5,") 32 NUL,
          upd (fresh 1) 0 (set_type JSON_REAL)).
Proof.
  apply (real_never_range_checked
           (doc "123456789012345678901234567890.5,") (fresh 1) 0 0 32
           (T "123456789012345678901234567890.5")).
  - apply (number_lit [] (T "123456789012345678901234567890") (T ".5") []).
    + left. reflexivity.
    + apply int_nonzero; [vm_compute; split; discriminate|].
      repeat constructor; vm_compute; discriminate.
    + apply frac_some. repeat constructor; vm_compute; discriminate.
    + apply exp_none.
    + right. split; [left; discriminate|reflexivity].
  - split; reflexivity.
  - vm_compute. auto.
Defined.

(** ** What a turn of the loop rejects *)

Section Rejects.
Context {P : Type} `{jsonPool_t P}.

Lemma numValue_not_started (b : buffer) (mem : memory) (ptr property : nat) :
  rd b ptr <> T_ "-" -> isdigit (rd b ptr) = false ->
  numValue b mem ptr property = None.
Proof.
  intros Hm Hd. unfold numValue, numValue_scan.
  destruct (Z.eqb_spec (rd b ptr) (T_ "-")) as [E|_]; [contradiction|].
  rewrite Hd. reflexivity.
Qed.

Lemma objValue_dispatch_not_started (b : buffer) (mem : memory) (pool : P)
    (ptr obj property : nat) :
  starts_value (rd b ptr) = false ->
  objValue_dispatch b mem pool ptr obj property = Ret (Return None).
Proof.
  unfold starts_value. intros Hs.
  apply orb_false_iff in Hs. destruct Hs as [Hs Hd].
  apply orb_false_iff in Hs. destruct Hs as [Hs Hm].
  repeat (apply orb_false_iff in Hs; destruct Hs as [Hs ?]).
  rewrite objValue_dispatch_eq.
  repeat match goal with
         | E : (rd b ptr =? ?y)%Z = false |- context [(rd b ptr =? ?y)%Z] =>
             rewrite E
         end.
  rewrite numValue_not_started; [reflexivity| |exact Hd].
  intros E. rewrite E in Hm. discriminate.
Qed.

(** X3: what may stand where a member or an element is expected.  In an
    Object anything but a comma, the closing brace or a double quote ends
    the parse with a null result, so unquoted names and a closing square
    bracket are refused; in an Array so does every character that is
    neither a comma, the closing square bracket nor the first character of
    a value, a closing brace among them. *)
Theorem objValue_turn_rejects (s : pstate P) (e : nat) :
  goBlank (st_buf s) (st_ptr s) = Some e ->
  rd (st_buf s) e <> T_ "," ->
  rd (st_buf s) e <> endchar_of s ->
  (type (node (st_mem s) (st_obj s)) <> JSON_ARRAY /\ rd (st_buf s) e <> QUOTE
   \/ type (node (st_mem s) (st_obj s)) = JSON_ARRAY
      /\ starts_value (rd (st_buf s) e) = false) ->
  objValue_turn s = Ret (Return None).
Proof.
  intros Hg Hcomma Hend Hcase. unfold objValue_turn. rewrite Hg. cbv zeta.
  apply Z.eqb_neq in Hcomma. rewrite Hcomma.
  unfold endchar_of in Hend. apply Z.eqb_neq in Hend. rewrite Hend.
  destruct (alloc (st_pool s)) as [[property|] pool']; [|reflexivity].
  destruct Hcase as [[Hty Hq] | [Hty Hs]].
  - assert (Hna : jsonType_eqb (type (node (st_mem s) (st_obj s))) JSON_ARRAY
                  = false).
    { destruct (type (node (st_mem s) (st_obj s))); try reflexivity.
      contradiction Hty; reflexivity. }
    rewrite Hna. cbn [negb].
    destruct (Z.eqb_spec (rd (st_buf s) e) QUOTE) as [E|_]; [contradiction|].
    reflexivity.
  - rewrite Hty. cbn [jsonType_eqb jsonType_code Z.eqb Pos.eqb negb obind].
    apply objValue_dispatch_not_started. exact Hs.
Qed.

End Rejects.

(** The theorem at [[}], the position after the bracket, and at [{a:1}]. *)
Lemma objValue_turn_rejects_witness :
  objValue_turn (mk_pstate 1 0 (doc "[}") [set_type JSON_ARRAY node0]
                   (mk_spool 2 1)) = Ret (Return None)
  /\ objValue_turn (mk_pstate 1 0 (doc "{a:1}") [node0] (mk_spool 2 1))
     = Ret (Return None).
Proof.
  split.
  - apply (objValue_turn_rejects
             (mk_pstate 1 0 (doc "[}") [set_type JSON_ARRAY node0]
                (mk_spool 2 1)) 1).
    + reflexivity.
    + discriminate.
    + discriminate.
    + right. split; reflexivity.
  - apply (objValue_turn_rejects
             (mk_pstate 1 0 (doc "{a:1}") [node0] (mk_spool 2 1)) 1).
    + reflexivity.
    + discriminate.
    + discriminate.
    + left. split; discriminate.
Defined.

(** ** The string unescaper *)

Lemma parseString_turn_shift (B l : buffer) (h : nat) :
  (forall i, rd B (h + i) = rd l i) ->
  parseString_turn B h
  = match parseString_turn l 0 with
    | Store c k => Store c (h + k)
    | Closed => Closed
    | Malformed => Malformed
    end.
Proof.
  intros Hrd. unfold parseString_turn, getCharFromUnicode.
  cbn [forallb]. rewrite !andb_true_r.
  replace (rd B h) with (rd l 0) by (rewrite <- Hrd; f_equal; lia).
  replace (rd B (S h)) with (rd l 1) by (rewrite <- Hrd; f_equal; lia).
  replace (rd B (S (S h) + 0)) with (rd l (2 + 0)) by (rewrite <- Hrd; f_equal; lia).
  replace (rd B (S (S h) + 1)) with (rd l (2 + 1)) by (rewrite <- Hrd; f_equal; lia).
  replace (rd B (S (S h) + 2)) with (rd l (2 + 2)) by (rewrite <- Hrd; f_equal; lia).
  replace (rd B (S (S h) + 3)) with (rd l (2 + 3)) by (rewrite <- Hrd; f_equal; lia).
  destruct (rd l 0 =? NUL)%Z; [reflexivity|].
  destruct (rd l 0 =? QUOTE)%Z; [reflexivity|].
  destruct (rd l 0 =? BACKSLASH)%Z; [|f_equal; lia].
  destruct (rd l 1 =? T_ "u")%Z.
  - match goal with
    | |- context [if ?c then T_ "?" else NUL] => destruct c
    end; cbn; [f_equal; lia|reflexivity].
  - destruct (getEscape (rd l 1) =? NUL)%Z; [reflexivity|f_equal; lia].
Qed.

Lemma unescape_turn (seg w : list CHAR_T) :
  unescape seg = Some w ->
  seg = [] /\ w = []
  \/ exists c k w',
       1 <= k <= List.length seg /\ w = c :: w' /\ c <> NUL
       /\ unescape (skipn k seg) = Some w'
       /\ forall rest, parseString_turn (seg ++ rest) 0 = Store c k.
Proof.
  destruct seg as [|c t]; [intros Hu; injection Hu as <-; left; split; reflexivity|].
  intros Hu. right. cbn [unescape] in Hu. unfold parseString_turn.
  cbn [app rd nth].
  destruct (Z.eqb_spec c NUL) as [|Hc0]; [discriminate|].
  destruct (c =? QUOTE)%Z; [discriminate|].
  destruct (c =? BACKSLASH)%Z.
  - destruct t as [|e t']; [discriminate|]. cbn [app nth].
    destruct (e =? T_ "u")%Z.
    + destruct t' as [|h1 [|h2 [|h3 [|h4 t'']]]]; try discriminate.
      destruct (isxdigit h1 && isxdigit h2 && isxdigit h3 && isxdigit h4)
        eqn:Hx; [|discriminate].
      destruct (unescape t'') as [w'|] eqn:Hu'; [|discriminate].
      injection Hu as <-. exists (T_ "?"), 6, w'.
      split; [cbn [List.length]; lia|]. split; [reflexivity|].
      split; [discriminate|]. split; [exact Hu'|].
      intros rest. unfold getCharFromUnicode. cbn [forallb Nat.add rd app nth].
      rewrite andb_true_r, !andb_assoc, Hx. reflexivity.
    + destruct (Z.eqb_spec (getEscape e) NUL) as [|He]; [discriminate|].
      destruct (unescape t') as [w'|] eqn:Hu'; [|discriminate].
      injection Hu as <-. exists (getEscape e), 2, w'.
      split; [cbn [List.length]; lia|]. split; [reflexivity|].
      split; [exact He|]. split; [exact Hu'|]. reflexivity.
  - destruct (unescape t) as [w'|] eqn:Hu'; [|discriminate].
    injection Hu as <-. exists c, 1, w'.
    split; [cbn [List.length]; lia|]. split; [reflexivity|].
    split; [exact Hc0|]. split; [exact Hu'|]. reflexivity.
Qed.

Lemma rd_app_app (A J l : list CHAR_T) (i : nat) :
  rd (A ++ J ++ l) (List.length A + List.length J + i) = rd l i.
Proof.
  rewrite rd_app_r by lia. rewrite rd_app_r by lia. f_equal. lia.
Qed.

Lemma parseString_loop_closes (A J rest : list CHAR_T) (fuel : nat) :
  parseString_loop (S fuel) (A ++ J ++ QUOTE :: rest)
                   (List.length A + List.length J) (List.length A)
  = Ret (Some (List.length A + List.length J + 1,
               A ++ NUL :: skipn 1 (J ++ [QUOTE]) ++ rest)).
Proof.
  rewrite parseString_loop_unfold.
  rewrite (parseString_turn_shift _ (QUOTE :: rest)
             (List.length A + List.length J))
    by (intros i; apply rd_app_app).
  change (parseString_turn (QUOTE :: rest) 0) with Closed. cbv iota.
  replace (wr (A ++ J ++ QUOTE :: rest) (List.length A) NUL)
    with (A ++ wr (J ++ QUOTE :: rest) 0 NUL)
    by (rewrite <- wr_app; f_equal; lia).
  f_equal. f_equal. f_equal; [lia|]. f_equal.
  destruct J as [|x J]; cbn [app wr skipn]; [reflexivity|].
  rewrite <- app_assoc. reflexivity.
Qed.

Lemma parseString_loop_unescapes (n : nat) :
  forall seg, List.length seg <= n ->
  forall w A J rest fuel,
    unescape seg = Some w -> List.length seg < fuel ->
    parseString_loop fuel (A ++ J ++ seg ++ QUOTE :: rest)
                     (List.length A + List.length J) (List.length A)
    = Ret (Some (List.length A + List.length J + List.length seg + 1,
                 A ++ w ++ NUL :: skipn (S (List.length w))
                                        (J ++ seg ++ [QUOTE]) ++ rest)).
Proof.
  induction n as [|n IH]; intros seg Hn w A J rest fuel Hu Hf;
    (destruct fuel as [|fuel]; [lia|]);
    destruct (unescape_turn seg w Hu)
      as [[-> ->] | (c & k & w' & Hk & -> & Hc & Hu' & Ht)].
  1, 3: cbn [app List.length]; rewrite parseString_loop_closes;
        f_equal; f_equal; f_equal; lia.
  - destruct seg; cbn [List.length] in *; lia.
  - rewrite parseString_loop_unfold.
    rewrite (parseString_turn_shift _ (seg ++ QUOTE :: rest)
               (List.length A + List.length J))
      by (intros i; apply rd_app_app).
    rewrite Ht.
    assert (Hsplit : seg = firstn k seg ++ skipn k seg)
      by (symmetry; apply firstn_skipn).
    remember (firstn k seg) as s1 eqn:Es1.
    remember (skipn k seg) as seg' eqn:Eseg'.
    assert (Hs1 : List.length s1 = k)
      by (rewrite Es1; apply firstn_length_le; lia).
    assert (Hseg : List.length seg = k + List.length seg')
      by (rewrite Hsplit, length_app; lia).
    clear Es1 Eseg'. subst seg.
    replace (wr (A ++ J ++ (s1 ++ seg') ++ QUOTE :: rest) (List.length A) c)
      with (A ++ wr (J ++ (s1 ++ seg') ++ QUOTE :: rest) 0 c)
      by (rewrite <- wr_app; f_equal; lia).
    rewrite <- !app_assoc. rewrite !(app_assoc J s1).
    destruct (J ++ s1) as [|x J'] eqn:HJ.
    { apply (f_equal (@List.length CHAR_T)) in HJ. rewrite length_app in HJ.
      cbn in HJ. lia. }
    assert (HJl : List.length J + k = S (List.length J')).
    { apply (f_equal (@List.length CHAR_T)) in HJ. rewrite length_app in HJ.
      cbn in HJ. lia. }
    cbn [app wr].
    replace (A ++ c :: J' ++ seg' ++ QUOTE :: rest)
      with ((A ++ [c]) ++ J' ++ seg' ++ QUOTE :: rest)
      by (rewrite <- app_assoc; reflexivity).
    replace (List.length A + List.length J + k)
      with (List.length (A ++ [c]) + List.length J')
      by (rewrite length_app; cbn [List.length]; lia).
    replace (S (List.length A)) with (List.length (A ++ [c]))
      by (rewrite length_app; cbn [List.length]; lia).
    rewrite (IH seg' ltac:(lia) w' (A ++ [c]) J' rest fuel Hu' ltac:(lia)).
    f_equal. f_equal. f_equal.
    + rewrite length_app. cbn [List.length]. lia.
    + rewrite <- app_assoc. reflexivity.
Qed.

Lemma unescape_facts (n : nat) :
  forall seg w,
    List.length seg <= n -> unescape seg = Some w ->
    List.length w <= List.length seg /\ ~ In NUL w /\ ~ In NUL seg.
Proof.
  induction n as [|n IH]; intros seg w Hn Hu.
  - destruct seg; [|cbn in Hn; lia]. injection Hu as <-.
    split; [apply Nat.le_refl|]. split; intros [].
  - destruct seg as [|c t].
    { injection Hu as <-. split; [apply Nat.le_refl|]. split; intros []. }
    cbn [unescape] in Hu. cbn [List.length] in Hn.
    destruct (Z.eqb_spec c NUL) as [|Hc0]; [discriminate|].
    destruct (c =? QUOTE)%Z; [discriminate|].
    destruct (c =? BACKSLASH)%Z.
    + destruct t as [|e t']; [discriminate|]. cbn [List.length] in Hn.
      destruct (Z.eqb_spec e (T_ "u")) as [Heu|Heu].
      * destruct t' as [|h1 [|h2 [|h3 [|h4 t'']]]]; try discriminate.
        destruct (isxdigit h1 && isxdigit h2 && isxdigit h3 && isxdigit h4)
          eqn:Hx; [|discriminate].
        apply andb_prop in Hx. destruct Hx as [Hx H4].
        apply andb_prop in Hx. destruct Hx as [Hx H3].
        apply andb_prop in Hx. destruct Hx as [H1 H2].
        apply isxdigit_nonzero in H1, H2, H3, H4.
        destruct (unescape t'') as [w'|] eqn:Hu'; [|discriminate].
        injection Hu as <-. cbn [List.length] in Hn.
        destruct (IH t'' w' ltac:(lia) Hu') as (Hl & Hw & Hs).
        split; [cbn [List.length]; lia|]. split.
        -- intros [E|Hin]; [discriminate E|exact (Hw Hin)].
        -- subst e. cbn [In].
           intros [E|[E|[E|[E|[E|[E|Hin]]]]]];
             first [contradiction | discriminate E].
      * destruct (Z.eqb_spec (getEscape e) NUL) as [|He]; [discriminate|].
        destruct (unescape t') as [w'|] eqn:Hu'; [|discriminate].
        injection Hu as <-.
        destruct (IH t' w' ltac:(lia) Hu') as (Hl & Hw & Hs).
        split; [cbn [List.length]; lia|]. split.
        -- intros [E|Hin]; [congruence|exact (Hw Hin)].
        -- cbn [In]. intros [E|[E|Hin]].
           ++ contradiction.
           ++ apply (getEscape_nonzero e He). exact E.
           ++ exact (Hs Hin).
    + destruct (unescape t) as [w'|] eqn:Hu'; [|discriminate].
      injection Hu as <-.
      destruct (IH t w' ltac:(lia) Hu') as (Hl & Hw & Hs).
      split; [cbn [List.length]; lia|]. split.
      * intros [E|Hin]; [congruence|exact (Hw Hin)].
      * intros [E|Hin]; [congruence|exact (Hs Hin)].
Qed.

Lemma unescape_no_backslash (seg : list CHAR_T) :
  forall w, unescape seg = Some w ->
            (forall c, In c seg -> c <> BACKSLASH) -> w = seg.
Proof.
  induction seg as [|c t IH]; intros w Hu Hp; [injection Hu as <-; reflexivity|].
  cbn [unescape] in Hu.
  destruct (c =? NUL)%Z; [discriminate|].
  destruct (c =? QUOTE)%Z; [discriminate|].
  destruct (Z.eqb_spec c BACKSLASH) as [E|_];
    [contradiction (Hp c (or_introl eq_refl) E)|].
  destruct (unescape t) as [w'|] eqn:Hu'; [|discriminate].
  injection Hu as <-. f_equal. apply IH; [reflexivity|].
  intros x Hx. apply Hp. right. exact Hx.
Qed.

(** X4: [parseString] unescapes in place.  When the cells from [str] hold
    a content whose escapes are all well formed, then the closing double
    quote, the function returns the position after that quote; the buffer
    holds, from [str], the unescaped content and a NUL, the cells before
    [str], those between the NUL and the position returned and the ones
    after it being left as they were.  The unescaped content is never
    longer than the escaped one, and it is the C string at [str]; when the
    content holds no backslash it is left as it is, and the NUL replaces
    the closing quote. *)
Theorem parseString_unescapes (pre seg rest w : list CHAR_T) :
  unescape seg = Some w ->
  let b' := pre ++ w ++ NUL :: skipn (S (List.length w)) (seg ++ [QUOTE])
                ++ rest in
  parseString (pre ++ seg ++ QUOTE :: rest) (List.length pre)
  = Ret (Some (List.length pre + List.length seg + 1, b'))
  /\ List.length w <= List.length seg
  /\ cstr b' (List.length pre) = w
  /\ ((forall c, In c seg -> c <> BACKSLASH) ->
      w = seg /\ b' = pre ++ seg ++ NUL :: rest).
Proof.
  intros Hu b'.
  destruct (unescape_facts (List.length seg) seg w (Nat.le_refl _) Hu)
    as (Hl & Hw & Hs).
  split; [|split; [exact Hl|split]].
  - unfold parseString.
    pose proof (parseString_loop_unescapes (List.length seg) seg
                  (Nat.le_refl _) w pre [] rest
                  (S (List.length (pre ++ seg ++ QUOTE :: rest))) Hu) as Hrun.
    cbn [app List.length] in Hrun. rewrite Nat.add_0_r in Hrun.
    apply Hrun. rewrite !length_app. cbn [List.length]. lia.
  - unfold cstr, b'. rewrite skipn_app_exact.
    apply cstr_from_app_NUL. exact Hw.
  - intros Hplain. pose proof (unescape_no_backslash seg w Hu Hplain) as E.
    split; [exact E|]. subst w. unfold b'. f_equal. f_equal. f_equal.
    replace (S (List.length seg)) with (List.length (seg ++ [QUOTE]))
      by (rewrite length_app; cbn [List.length]; lia).
    rewrite <- (app_nil_r (seg ++ [QUOTE])) at 2.
    rewrite skipn_app_exact. reflexivity.
Qed.

(** The theorem at a content of two plain characters, the escape of the
    line feed and a Unicode escape, between two quotes. *)
Lemma parseString_unescapes_witness :
  parseString (QUOTE :: (T "x\ny" ++ BACKSLASH :: T "u00e9z")
                 ++ QUOTE :: T ",1") 1
  = Ret (Some (13, QUOTE :: [120; 10; 121; 63; 122; NUL]%Z
                     ++ T "00e9z" ++ QUOTE :: T ",1")).
Proof.
  exact (proj1 (parseString_unescapes [QUOTE]
                  (T "x\ny" ++ BACKSLASH :: T "u00e9z") (T ",1")
                  [120; 10; 121; 63; 122]%Z eq_refl)).
Defined.

Lemma consumes_cells (b : buffer) (p : nat) :
  forall k, (forall i, i < k -> rd b (p + i) <> NUL) ->
            consumes b p (p + k) (map (fun i => rd b (p + i)) (seq 0 k)).
Proof.
  induction k as [|k IH]; intros Hn.
  - rewrite Nat.add_0_r. apply consumes_nil.
  - rewrite seq_S, map_app. cbn [map Nat.add].
    apply (consumes_app b p (p + k)); [apply IH; intros i Hi; apply Hn; lia|].
    replace (p + S k) with (S (p + k)) by lia.
    apply consumes_one. apply Hn. lia.
Qed.

Lemma parseString_turn_store_seg (b : buffer) (head : nat) (c : CHAR_T)
    (head' : nat) :
  parseString_turn b head = Store c head' ->
  exists s1, consumes b head head' s1
             /\ forall seg' w', unescape seg' = Some w' ->
                                unescape (s1 ++ seg') = Some (c :: w').
Proof.
  unfold parseString_turn.
  destruct (Z.eqb_spec (rd b head) NUL) as [|H0]; [discriminate|].
  destruct (rd b head =? QUOTE)%Z eqn:Hq; [discriminate|].
  destruct (rd b head =? BACKSLASH)%Z eqn:Hb.
  - destruct (rd b (S head) =? T_ "u")%Z eqn:Hu.
    + destruct (Z.eqb_spec (getCharFromUnicode b (S (S head))) NUL) as [|Hx];
        [discriminate|].
      intros Hs. injection Hs as <- <-.
      pose proof (getCharFromUnicode_hex b (S (S head)) Hx) as Hhex.
      assert (H1 : rd b (S head) <> NUL).
      { apply Z.eqb_eq in Hu. rewrite Hu. discriminate. }
      exists (map (fun i => rd b (head + i)) (seq 0 6)).
      split.
      * match goal with
        | |- consumes _ _ ?q _ => replace q with (head + 6) by lia
        end.
        apply consumes_cells. intros i Hi.
        destruct i as [|[|i]].
        -- rewrite Nat.add_0_r. exact H0.
        -- replace (head + 1) with (S head) by lia. exact H1.
        -- apply isxdigit_nonzero. apply Hhex. lia.
      * intros seg' w' Hseg. cbn [map seq app unescape].
        replace (head + 0) with head by lia.
        replace (head + 1) with (S head) by lia.
        replace (head + 2) with (S (S head) + 0) by lia.
        replace (head + 3) with (S (S head) + 1) by lia.
        replace (head + 4) with (S (S head) + 2) by lia.
        replace (head + 5) with (S (S head) + 3) by lia.
        apply Z.eqb_neq in H0. rewrite H0, Hq, Hb, Hu.
        unfold getCharFromUnicode. cbn [forallb].
        rewrite !Hhex by lia. cbn [andb]. rewrite Hseg. reflexivity.
    + destruct (Z.eqb_spec (getEscape (rd b (S head))) NUL) as [|He];
        [discriminate|].
      intros Hs. injection Hs as <- <-.
      exists [rd b head; rd b (S head)]. split.
      * apply (consumes_app b head (S head) _ [rd b head]);
          apply consumes_one; [exact H0|].
        apply getEscape_nonzero. exact He.
      * intros seg' w' Hseg. cbn [app unescape].
        apply Z.eqb_neq in H0, He. rewrite H0, Hq, Hb, Hu, He, Hseg.
        reflexivity.
  - intros Hs. injection Hs as <- <-.
    exists [rd b head]. split; [apply consumes_one; exact H0|].
    intros seg' w' Hseg. cbn [app unescape].
    apply Z.eqb_neq in H0. rewrite H0, Hq, Hb, Hseg. reflexivity.
Qed.

Lemma parseString_loop_sound (fuel : nat) :
  forall b head tail q b',
    tail <= head ->
    parseString_loop fuel b head tail = Ret (Some (q, b')) ->
    exists seg w, unescape seg = Some w /\ consumes b head (q - 1) seg
                  /\ rd b (q - 1) = QUOTE /\ head < q.
Proof.
  induction fuel as [|fuel IH]; intros b head tail q b' Hle Hrun;
    [discriminate|].
  rewrite parseString_loop_unfold in Hrun.
  destruct (parseString_turn b head) as [| |c head'] eqn:Ht.
  - injection Hrun as <- <-. exists [], [].
    replace (S head - 1) with head by lia.
    split; [reflexivity|]. split; [apply consumes_nil|].
    split; [exact (proj1 (parseString_turn_closed b head Ht))|lia].
  - discriminate.
  - destruct (parseString_turn_store b head c head' Ht) as (Hlt & _ & _).
    assert (Hle' : S tail <= head') by lia.
    destruct (IH (wr b tail c) head' (S tail) q b' Hle' Hrun)
      as (seg' & w' & Hu & Hc & Hq & Hhq).
    destruct (parseString_turn_store_seg b head c head' Ht) as (s1 & Hc1 & Hu1).
    destruct (unescape_facts _ seg' w' (Nat.le_refl _) Hu) as (_ & _ & Hn').
    exists (s1 ++ seg'), (c :: w').
    split; [apply Hu1; exact Hu|]. split; [|split; [|lia]].
    + apply (consumes_app b head head'); [exact Hc1|].
      apply (consumes_agree seg' (wr b tail c) b head' (q - 1) Hc Hn').
      intros i Hi. apply rd_wr_other. lia.
    + rewrite <- Hq. symmetry. apply rd_wr_other. lia.
Qed.

Lemma consumes_decompose (b : buffer) (p e : nat) (seg : list CHAR_T) :
  consumes b p e seg -> rd b e <> NUL ->
  b = firstn p b ++ seg ++ rd b e :: skipn (S e) b
  /\ List.length (firstn p b) = p.
Proof.
  intros Hc He. pose proof (rd_nonzero_lt b e He) as Hlt.
  pose proof (consumes_le b p e seg Hc) as Hle.
  destruct Hc as [_ Hs]. rewrite (rd_nonzero_skipn b e He) in Hs.
  split; [|apply firstn_length_le; lia].
  rewrite <- Hs. symmetry. apply firstn_skipn.
Qed.

Lemma parseString_complete (b : buffer) (str e : nat) (seg w : list CHAR_T) :
  unescape seg = Some w -> consumes b str e seg -> rd b e = QUOTE ->
  parseString b str
  = Ret (Some (S e, firstn str b ++ w
                     ++ NUL :: skipn (S (List.length w)) (seg ++ [QUOTE])
                     ++ skipn (S e) b)).
Proof.
  intros Hu Hc Hq.
  assert (He : rd b e <> NUL) by (rewrite Hq; discriminate).
  destruct (consumes_decompose b str e seg Hc He) as [Hb Hl].
  rewrite Hq in Hb. unfold parseString.
  pose proof (parseString_loop_unescapes (List.length seg) seg
                (Nat.le_refl _) w (firstn str b) [] (skipn (S e) b)
                (S (List.length b)) Hu) as Hrun.
  cbn [app List.length] in Hrun. rewrite Nat.add_0_r, Hl, <- Hb in Hrun.
  rewrite Hrun.
  - destruct Hc as [-> _]. f_equal. f_equal. f_equal. lia.
  - apply (f_equal (@List.length CHAR_T)) in Hb.
    rewrite !length_app in Hb. cbn [List.length] in Hb. lia.
Qed.

(** X5: every string [parseString] accepts is an escaped content it
    unescapes: when the function returns a position, the cells from [str]
    up to the one before that position hold a content with well-formed
    escapes, that cell holds the closing double quote, and the buffer
    returned is the one of the unescaping, its other cells unchanged. *)
Theorem parseString_accepts_only (b : buffer) (str q : nat) (b' : buffer) :
  parseString b str = Ret (Some (q, b')) ->
  exists seg w,
    unescape seg = Some w
    /\ consumes b str (q - 1) seg /\ rd b (q - 1) = QUOTE
    /\ q = str + List.length seg + 1
    /\ b' = firstn str b ++ w
            ++ NUL :: skipn (S (List.length w)) (seg ++ [QUOTE])
            ++ skipn q b
    /\ cstr b' str = w.
Proof.
  intros Hrun.
  destruct (parseString_loop_sound _ b str str q b' (Nat.le_refl _) Hrun)
    as (seg & w & Hu & Hc & Hq & Hlt).
  exists seg, w. split; [exact Hu|]. split; [exact Hc|]. split; [exact Hq|].
  pose proof (parseString_complete b str (q - 1) seg w Hu Hc Hq) as Hrun2.
  rewrite Hrun in Hrun2. replace (S (q - 1)) with q in Hrun2 by lia.
  injection Hrun2 as Hb.
  assert (He : rd b (q - 1) <> NUL) by (rewrite Hq; discriminate).
  destruct (consumes_decompose b str (q - 1) seg Hc He) as [_ Hl].
  destruct (unescape_facts _ seg w (Nat.le_refl _) Hu) as (_ & Hw & _).
  split; [destruct Hc as [Hc _]; lia|]. split; [exact Hb|].
  rewrite Hb. unfold cstr. rewrite <- Hl at 1. rewrite skipn_app_exact.
  apply cstr_from_app_NUL. exact Hw.
Qed.

(** The theorem at [say \"hi\"] between quotes, read from cell 1. *)
Lemma parseString_accepts_only_witness :
  exists seg w,
    unescape seg = Some w
    /\ consumes (doc "'say \'hi\''") 1 (12 - 1) seg
    /\ rd (doc "'say \'hi\''") (12 - 1) = QUOTE
    /\ 12 = 1 + List.length seg + 1
    /\ QUOTE :: T "say " ++ QUOTE :: T "hi" ++ [QUOTE; NUL; QUOTE; QUOTE; NUL]
       = firstn 1 (doc "'say \'hi\''") ++ w
         ++ NUL :: skipn (S (List.length w)) (seg ++ [QUOTE])
         ++ skipn 12 (doc "'say \'hi\''")
    /\ cstr (QUOTE :: T "say " ++ QUOTE :: T "hi"
                ++ [QUOTE; NUL; QUOTE; QUOTE; NUL]) 1 = w.
Proof.
  apply (parseString_accepts_only (doc "'say \'hi\''") 1 12
           (QUOTE :: T "say " ++ QUOTE :: T "hi"
              ++ [QUOTE; NUL; QUOTE; QUOTE; NUL])).
  reflexivity.
Defined.

(** X6: [parseString] returns null exactly when the cells from [str] do not
    hold a content with well-formed escapes and then a double quote; so an
    unterminated string, with no double quote at or after [str], is always
    refused. *)
Theorem parseString_rejects (b : buffer) (str : nat) :
  (parseString b str = Ret None <->
   ~ exists seg w e, unescape seg = Some w /\ consumes b str e seg
                     /\ rd b e = QUOTE)
  /\ ((forall i, str <= i -> rd b i <> QUOTE) -> parseString b str = Ret None).
Proof.
  assert (Hiff : parseString b str = Ret None <->
                 ~ exists seg w e, unescape seg = Some w
                                   /\ consumes b str e seg /\ rd b e = QUOTE).
  { split.
    - intros Hnone (seg & w & e & Hu & Hc & Hq).
      rewrite (parseString_complete b str e seg w Hu Hc Hq) in Hnone.
      discriminate.
    - intros Hno. destruct (parseString b str) as [[[q b']|]|] eqn:Hrun.
      + exfalso. apply Hno.
        destruct (parseString_loop_sound _ b str str q b' (Nat.le_refl _) Hrun)
          as (seg & w & Hu & Hc & Hq & _).
        exists seg, w, (q - 1). auto.
      + reflexivity.
      + exfalso. exact (parseString_returns b str Hrun). }
  split; [exact Hiff|].
  intros Hnq. apply Hiff. intros (seg & w & e & _ & Hc & Hq).
  apply (Hnq e); [exact (consumes_le b str e seg Hc)|exact Hq].
Qed.

(** The theorem at ['abc], a string that is never closed. *)
Lemma parseString_rejects_witness : parseString (doc "'abc") 1 = Ret None.
Proof.
  apply (proj2 (parseString_rejects (doc "'abc") 1)).
  intros i Hi. destruct i as [|i]; [lia|].
  do 4 (destruct i as [|i]; [discriminate|]).
  unfold rd. cbn. destruct i; discriminate.
Defined.

(** ** What a turn of the loop does to the node array *)

Lemma upd_length (f : json_t -> json_t) :
  forall (mem : memory) i, List.length (upd mem i f) = List.length mem.
Proof.
  induction mem as [|n mem IH]; intros [|i]; cbn; try reflexivity.
  rewrite IH. reflexivity.
Qed.

Lemma node_upd_other (f : json_t -> json_t) :
  forall (mem : memory) i k, i <> k -> node (upd mem i f) k = node mem k.
Proof.
  unfold node.
  induction mem as [|n mem IH]; intros [|i] [|k] Hik; cbn; try reflexivity;
    try (contradiction Hik; reflexivity).
  apply IH. intros E. apply Hik. f_equal. exact E.
Qed.

Lemma node_upd_in (f : json_t -> json_t) (mem : memory) (i : nat) :
  i < List.length mem -> node (upd mem i f) i = f (node mem i).
Proof.
  intros Hi. rewrite node_upd_same.
  destruct (Nat.ltb_spec i (List.length mem)); [reflexivity|lia].
Qed.

Lemma upd_upd (f g : json_t -> json_t) :
  forall (mem : memory) i,
    upd (upd mem i f) i g = upd mem i (fun n => g (f n)).
Proof.
  induction mem as [|n mem IH]; intros [|i]; cbn; try reflexivity.
  rewrite IH. reflexivity.
Qed.

Lemma propertyName_mem (b : buffer) (mem : memory) (ptr property q : nat)
    (b' : buffer) (mem' : memory) :
  propertyName b mem ptr property = Ret (Some (q, b', mem')) ->
  mem' = upd mem property (set_name (Some (S ptr))).
Proof.
  unfold propertyName.
  destruct (parseString b (S ptr)) as [[[q1 b1]|]|]; cbn [obind];
    try discriminate.
  destruct (goBlank b1 q1) as [q2|]; [|discriminate].
  destruct (negb (rd b1 q2 =? T_ ":")%Z); [discriminate|].
  destruct (goBlank b1 (S q2)); [|discriminate].
  intros Hr. injection Hr as _ _ <-. reflexivity.
Qed.

Lemma textValue_mem (b : buffer) (mem : memory) (ptr property q : nat)
    (b' : buffer) (mem' : memory) :
  textValue b mem ptr property = Ret (Some (q, b', mem')) ->
  mem' = upd mem property
           (fun n => set_type JSON_TEXT
                       (set_u_value (option_map S (u_value n)) n)).
Proof.
  unfold textValue.
  destruct (parseString b (S ptr)) as [[[q1 b1]|]|]; cbn [obind];
    try discriminate.
  intros Hr. injection Hr as _ _ <-. apply upd_upd.
Qed.

Lemma primitiveValue_mem (b : buffer) (mem : memory) (ptr property : nat)
    (value : list CHAR_T) (ty : jsonType_t) (q : nat) (b' : buffer)
    (mem' : memory) :
  primitiveValue b mem ptr property value ty = Some (q, b', mem') ->
  mem' = upd mem property (set_type ty).
Proof.
  unfold primitiveValue. destruct (checkStr b ptr value); [|discriminate].
  destruct (negb (isEndOfPrimitive (rd b n))); [discriminate|].
  destruct (setToNull b n). intros Hr. injection Hr as _ _ <-. reflexivity.
Qed.

Lemma numValue_scan_type (b : buffer) (ptr pe : nat) (ty : jsonType_t) :
  numValue_scan b ptr = Some (pe, ty) -> ty = JSON_INTEGER \/ ty = JSON_REAL.
Proof.
  intros Hs. destruct (numValue_scan_sound b ptr pe ty Hs) as (lit & Hp & _).
  inversion Hp as [sg ip f e ty' _ _ _ _ [(_ & _ & ->) | (_ & ->)]]; auto.
Qed.

Lemma numValue_mem (b : buffer) (mem : memory) (ptr property q : nat)
    (b' : buffer) (mem' : memory) :
  numValue b mem ptr property = Some (q, b', mem') ->
  exists ty, (ty = JSON_INTEGER \/ ty = JSON_REAL)
             /\ mem' = upd mem property (set_type ty).
Proof.
  unfold numValue. destruct (numValue_scan b ptr) as [[pe ty]|] eqn:Hs;
    [|discriminate].
  match goal with |- (if ?c then _ else _) = _ -> _ => destruct c end;
    [|discriminate].
  destruct (setToNull b pe). intros Hr. injection Hr as _ _ <-.
  exists ty. split; [exact (numValue_scan_type b ptr pe ty Hs)|reflexivity].
Qed.

Section TurnShape.
Context {P : Type} `{jsonPool_t P}.

Lemma objValue_dispatch_shape (b : buffer) (mem : memory) (pool : P)
    (ptr obj property : nat) (s' : pstate P) :
  objValue_dispatch b mem pool ptr obj property = Ret (Continue s') ->
  st_pool s' = pool
  /\ exists g2,
       st_mem s' = upd mem property g2
       /\ (forall n, name (g2 n) = name n
                     /\ u_c_last_child (g2 n) = u_c_last_child n)
       /\ (st_obj s' = property
           /\ (forall n, sibling (g2 n) = Some obj /\ u_c_child (g2 n) = None
                         /\ (type (g2 n) = JSON_OBJ \/ type (g2 n) = JSON_ARRAY))
           \/ st_obj s' = obj
              /\ (forall n, sibling (g2 n) = sibling n
                            /\ type (g2 n) <> JSON_OBJ
                            /\ type (g2 n) <> JSON_ARRAY)).
Proof.
  rewrite objValue_dispatch_eq.
  destruct (rd b ptr =? T_ "{")%Z.
  { intros Hr. injection Hr as <-. split; [reflexivity|].
    exists (fun n => set_sibling (Some obj)
                       (set_u_c_child None (set_type JSON_OBJ n))).
    cbn [st_mem st_obj]. rewrite !upd_upd.
    split; [reflexivity|]. split; [intros n; split; reflexivity|].
    left. split; [reflexivity|]. intros n. cbn. auto. }
  destruct (rd b ptr =? T_ "[")%Z.
  { intros Hr. injection Hr as <-. split; [reflexivity|].
    exists (fun n => set_sibling (Some obj)
                       (set_u_c_child None (set_type JSON_ARRAY n))).
    cbn [st_mem st_obj]. rewrite !upd_upd.
    split; [reflexivity|]. split; [intros n; split; reflexivity|].
    left. split; [reflexivity|]. intros n. cbn. auto. }
  assert (Hscalar : forall ty q b' ,
             ty <> JSON_OBJ -> ty <> JSON_ARRAY ->
             Continue (mk_pstate q obj b' (upd mem property (set_type ty)) pool)
             = Continue s' ->
             st_pool s' = pool
             /\ exists g2,
                 st_mem s' = upd mem property g2
                 /\ (forall n, name (g2 n) = name n
                               /\ u_c_last_child (g2 n) = u_c_last_child n)
                 /\ (st_obj s' = property
                     /\ (forall n, sibling (g2 n) = Some obj
                                   /\ u_c_child (g2 n) = None
                                   /\ (type (g2 n) = JSON_OBJ
                                       \/ type (g2 n) = JSON_ARRAY))
                     \/ st_obj s' = obj
                        /\ (forall n, sibling (g2 n) = sibling n
                                      /\ type (g2 n) <> JSON_OBJ
                                      /\ type (g2 n) <> JSON_ARRAY))).
  { intros ty q b' H1 H2 Hr. injection Hr as <-. split; [reflexivity|].
    exists (set_type ty). split; [reflexivity|].
    split; [intros n; split; reflexivity|]. right. split; [reflexivity|].
    intros n. cbn. auto. }
  destruct (rd b ptr =? QUOTE)%Z.
  { destruct (textValue b mem ptr property) as [[[[q b'] mem']|]|] eqn:Ht;
      cbn [obind scalar_turn]; try discriminate.
    intros Hr. injection Hr as <-. split; [reflexivity|].
    rewrite (textValue_mem _ _ _ _ _ _ _ Ht).
    eexists. split; [reflexivity|]. split; [intros n; split; reflexivity|].
    right. split; [reflexivity|]. intros n. cbn.
    split; [reflexivity|split; discriminate]. }
  destruct (rd b ptr =? T_ "t")%Z.
  { destruct (trueValue b mem ptr property) as [[[q b'] mem']|] eqn:Ht;
      cbn [obind scalar_turn]; try discriminate.
    rewrite (primitiveValue_mem _ _ _ _ _ _ _ _ _ Ht).
    intros Hr. injection Hr as Hr. apply (Hscalar JSON_BOOLEAN q b');
      [discriminate|discriminate|f_equal; exact Hr]. }
  destruct (rd b ptr =? T_ "f")%Z.
  { destruct (falseValue b mem ptr property) as [[[q b'] mem']|] eqn:Ht;
      cbn [obind scalar_turn]; try discriminate.
    rewrite (primitiveValue_mem _ _ _ _ _ _ _ _ _ Ht).
    intros Hr. injection Hr as Hr. apply (Hscalar JSON_BOOLEAN q b');
      [discriminate|discriminate|f_equal; exact Hr]. }
  destruct (rd b ptr =? T_ "n")%Z.
  { destruct (nullValue b mem ptr property) as [[[q b'] mem']|] eqn:Ht;
      cbn [obind scalar_turn]; try discriminate.
    rewrite (primitiveValue_mem _ _ _ _ _ _ _ _ _ Ht).
    intros Hr. injection Hr as Hr. apply (Hscalar JSON_NULL q b');
      [discriminate|discriminate|f_equal; exact Hr]. }
  destruct (numValue b mem ptr property) as [[[q b'] mem']|] eqn:Ht;
    cbn [obind scalar_turn]; try discriminate.
  destruct (numValue_mem _ _ _ _ _ _ _ Ht) as (ty & Hty & ->).
  intros Hr. injection Hr as Hr. apply (Hscalar ty q b');
    [destruct Hty as [-> | ->]; discriminate
    |destruct Hty as [-> | ->]; discriminate|f_equal; exact Hr].
Qed.

Lemma objValue_turn_shape (s s' : pstate P) (t : turn P) :
  objValue_turn s = Ret t -> t = Continue s' \/ t = Return (Some s') ->
  (st_mem s' = st_mem s /\ st_obj s' = st_obj s /\ st_pool s' = st_pool s
   /\ (t = Continue s' \/ sibling (node (st_mem s) (st_obj s)) = None))
  \/ (exists p, sibling (node (st_mem s) (st_obj s)) = Some p
                /\ st_mem s' = upd (st_mem s) (st_obj s) (set_sibling None)
                /\ st_obj s' = p /\ st_pool s' = st_pool s /\ t = Continue s')
  \/ (exists property g1 g2,
         alloc (st_pool s) = (Some property, st_pool s') /\ t = Continue s'
         /\ st_mem s'
            = upd (add (upd (st_mem s) property g1) (st_obj s) property)
                  property g2
         /\ (forall n, sibling (g1 n) = sibling n /\ u_value (g1 n) = u_value n
                       /\ u_c_last_child (g1 n) = u_c_last_child n
                       /\ type (g1 n) = type n)
         /\ (forall n, name (g2 n) = name n
                       /\ u_c_last_child (g2 n) = u_c_last_child n)
         /\ (st_obj s' = property
             /\ (forall n, sibling (g2 n) = Some (st_obj s)
                           /\ u_c_child (g2 n) = None
                           /\ (type (g2 n) = JSON_OBJ \/ type (g2 n) = JSON_ARRAY))
             \/ st_obj s' = st_obj s
                /\ (forall n, sibling (g2 n) = sibling n
                              /\ type (g2 n) <> JSON_OBJ
                              /\ type (g2 n) <> JSON_ARRAY))).
Proof.
  destruct s as [p obj b mem pool]. unfold objValue_turn.
  cbn [st_ptr st_obj st_buf st_mem st_pool].
  destruct (goBlank b p) as [e|];
    [|intros Hr; injection Hr as <-; intros [Hs|Hs]; discriminate].
  destruct (rd b e =? T_ ",")%Z.
  { intros Hr. injection Hr as <-. intros [Hs|Hs]; [|discriminate].
    injection Hs as <-. left. cbn. auto. }
  match goal with
  | |- (if ?c then _ else _) = _ -> _ => destruct c
  end.
  { destruct (sibling (node mem obj)) as [parent|] eqn:Hsib;
      intros Hr; injection Hr as <-; intros [Hs|Hs]; try discriminate;
      injection Hs as <-.
    - right. left. exists parent. cbn. auto.
    - left. cbn. auto. }
  destruct (alloc pool) as [[property|] pool'];
    [|intros Hr; injection Hr as <-; intros [Hs|Hs]; discriminate].
  match goal with
  | |- obind ?m _ = _ -> _ => destruct m as [[[[q1 bs] mem0]|]|] eqn:Hname
  end; cbn [obind];
    try (intros Hr; try discriminate Hr; injection Hr as <-;
         intros [Hs|Hs]; discriminate).
  intros Hdisp [Hs|Hs]; subst t;
    [|exfalso; exact (proj2 (objValue_dispatch_outcome _ _ _ _ _ _) s' Hdisp)].
  destruct (objValue_dispatch_shape _ _ _ _ _ _ _ Hdisp)
    as (Hpool & g & Hmem & Hg & Hcase).
  right. right.
  assert (Hm0 : exists g1,
             mem0 = upd mem property g1
             /\ forall n, sibling (g1 n) = sibling n /\ u_value (g1 n) = u_value n
                          /\ u_c_last_child (g1 n) = u_c_last_child n
                          /\ type (g1 n) = type n).
  { destruct (negb (jsonType_eqb (type (node mem obj)) JSON_ARRAY)).
    - destruct (negb (rd b e =? QUOTE)%Z); [discriminate|].
      rewrite (propertyName_mem _ _ _ _ _ _ _ Hname).
      eexists. split; [reflexivity|]. intros n. cbn. auto.
    - injection Hname as _ _ <-.
      eexists. split; [reflexivity|]. intros n. cbn. auto. }
  destruct Hm0 as (g1 & -> & Hg1).
  exists property, g1, (fun n => g (set_u_value (Some q1) n)).
  rewrite Hpool. split; [reflexivity|]. split; [reflexivity|].
  split; [rewrite Hmem; apply upd_upd|]. split; [exact Hg1|].
  split; [intros n; exact (Hg (set_u_value (Some q1) n))|].
  destruct Hcase as [[Ho Hc]|[Ho Hc]]; [left|right];
    (split; [exact Ho|]); intros n; exact (Hc (set_u_value (Some q1) n)).
Qed.

End TurnShape.

(** ** Linking a node into its container *)

Lemma add_node (mem : memory) (obj property : nat) :
  property <> obj -> obj < List.length mem -> property < List.length mem ->
  (forall l, last_linked mem obj = Some l ->
             l < List.length mem /\ l <> obj /\ l <> property) ->
  node (add mem obj property) property = set_sibling None (node mem property)
  /\ node (add mem obj property) obj
     = set_u_c_last_child (Some property)
         (match u_c_child (node mem obj) with
          | None => set_u_c_child (Some property) (node mem obj)
          | Some _ => node mem obj
          end)
  /\ (forall l, last_linked mem obj = Some l ->
                node (add mem obj property) l
                = set_sibling (Some property) (node mem l))
  /\ (forall i, i <> property -> i <> obj -> last_linked mem obj <> Some i ->
                node (add mem obj property) i = node mem i).
Proof.
  intros Hpo Ho Hp Hl. unfold add, last_linked in *.
  rewrite (node_upd_other _ mem property obj Hpo).
  destruct (u_c_child (node mem obj)) as [ch|] eqn:Hch.
  - destruct (u_c_last_child (node mem obj)) as [last|] eqn:Hlast.
    + destruct (Hl last eq_refl) as (Hll & Hlo & Hlp).
      refine (conj _ (conj _ (conj _ _))).
      * rewrite node_upd_other by congruence.
        rewrite node_upd_other by congruence.
        apply node_upd_in. exact Hp.
      * rewrite node_upd_in by (rewrite !upd_length; exact Ho).
        rewrite node_upd_other by congruence.
        rewrite node_upd_other by congruence. reflexivity.
      * intros l E. injection E as <-.
        rewrite node_upd_other by congruence.
        rewrite node_upd_in by (rewrite upd_length; exact Hll).
        rewrite node_upd_other by congruence. reflexivity.
      * intros i Hip Hio Hil.
        rewrite node_upd_other by congruence.
        rewrite node_upd_other by congruence.
        apply node_upd_other. congruence.
    + refine (conj _ (conj _ (conj _ _))).
      * rewrite node_upd_other by congruence. apply node_upd_in. exact Hp.
      * rewrite node_upd_in by (rewrite !upd_length; exact Ho).
        rewrite node_upd_other by congruence. reflexivity.
      * intros l E. discriminate.
      * intros i Hip Hio _. rewrite node_upd_other by congruence.
        apply node_upd_other. congruence.
  - refine (conj _ (conj _ (conj _ _))).
    + rewrite node_upd_other by congruence.
      rewrite node_upd_other by congruence. apply node_upd_in. exact Hp.
    + rewrite node_upd_in by (rewrite !upd_length; exact Ho).
      rewrite node_upd_in by (rewrite !upd_length; exact Ho).
      rewrite node_upd_other by congruence. reflexivity.
    + intros l E. discriminate.
    + intros i Hip Hio _. rewrite node_upd_other by congruence.
      rewrite node_upd_other by congruence.
      apply node_upd_other. congruence.
Qed.

Lemma add_length (mem : memory) (obj property : nat) :
  List.length (add mem obj property) = List.length mem.
Proof.
  unfold add.
  destruct (u_c_child (node (upd mem property (set_sibling None)) obj)).
  - destruct (u_c_last_child (node (upd mem property (set_sibling None)) obj));
      rewrite !upd_length; reflexivity.
  - rewrite !upd_length. reflexivity.
Qed.

(** ** The shape of the tree under construction *)

Lemma open_path_type (mem : memory) (c : nat) (l : list nat) :
  open_path mem c l ->
  type (node mem c) = JSON_OBJ \/ type (node mem c) = JSON_ARRAY.
Proof. destruct 1; assumption. Qed.

Lemma open_path_frame (mem mem' : memory) (c : nat) (l : list nat) :
  open_path mem c l ->
  sibling (node mem' c) = sibling (node mem c) ->
  type (node mem' c) = type (node mem c) ->
  (forall i, i < c -> node mem' i = node mem i) ->
  open_path mem' c l.
Proof.
  induction 1 as [Hs Hty|c p l Hs Hpc Hty Hch Hla Hp IH];
    intros Hsib Htyp Hlow.
  - apply open_root; [rewrite Hsib; exact Hs|rewrite Htyp; exact Hty].
  - apply open_child.
    + rewrite Hsib. exact Hs.
    + exact Hpc.
    + rewrite Htyp. exact Hty.
    + rewrite (Hlow p Hpc). exact Hch.
    + rewrite (Hlow p Hpc). exact Hla.
    + apply IH; [rewrite (Hlow p Hpc); reflexivity
                |rewrite (Hlow p Hpc); reflexivity|].
      intros i Hi. apply Hlow. lia.
Qed.

Lemma forward_link_more (i nf nf' : nat) (l : option nat) :
  forward_link i nf l -> nf <= nf' -> forward_link i nf' l.
Proof. destruct l as [j|]; cbn; [lia|auto]. Qed.

Lemma member_nodes (mem : memory) (obj nf : nat) (g1 g2 : json_t -> json_t) :
  obj < nf -> nf < List.length mem ->
  (forall l, last_linked mem obj = Some l -> obj < l < nf) ->
  let mem' := upd (add (upd mem nf g1) obj nf) nf g2 in
  node mem' nf = g2 (set_sibling None (g1 (node mem nf)))
  /\ node mem' obj
     = set_u_c_last_child (Some nf)
         (match u_c_child (node mem obj) with
          | None => set_u_c_child (Some nf) (node mem obj)
          | Some _ => node mem obj
          end)
  /\ (forall l, last_linked mem obj = Some l ->
                node mem' l = set_sibling (Some nf) (node mem l))
  /\ (forall i, i <> nf -> i <> obj -> last_linked mem obj <> Some i ->
                node mem' i = node mem i)
  /\ List.length mem' = List.length mem.
Proof.
  intros Hon Hnf Hlast mem'.
  assert (Hn1 : forall i, i <> nf -> node (upd mem nf g1) i = node mem i)
    by (intros i Hi; apply node_upd_other; congruence).
  assert (Hll : last_linked (upd mem nf g1) obj = last_linked mem obj).
  { unfold last_linked. rewrite Hn1 by lia. reflexivity. }
  destruct (add_node (upd mem nf g1) obj nf) as (A1 & A2 & A3 & A4).
  - lia.
  - rewrite upd_length. lia.
  - rewrite upd_length. exact Hnf.
  - intros l Hl. rewrite Hll in Hl. specialize (Hlast l Hl).
    rewrite upd_length. lia.
  - unfold mem'. refine (conj _ (conj _ (conj _ (conj _ _)))).
    + rewrite node_upd_in by (rewrite add_length, upd_length; exact Hnf).
      rewrite A1. rewrite node_upd_in by exact Hnf. reflexivity.
    + rewrite node_upd_other by lia. rewrite A2. rewrite Hn1 by lia.
      reflexivity.
    + intros l Hl. specialize (Hlast l Hl).
      rewrite node_upd_other by lia. rewrite A3 by (rewrite Hll; exact Hl).
      rewrite Hn1 by lia. reflexivity.
    + intros i H1 H2 H3. rewrite node_upd_other by congruence.
      rewrite A4 by (try rewrite Hll; assumption). apply Hn1. exact H1.
    + rewrite upd_length, add_length, upd_length. reflexivity.
Qed.

Lemma tree_inv_turn (s s' : pstate jsonStaticPool_t) (path : list nat)
    (t : turn jsonStaticPool_t) :
  tree_inv s path -> objValue_turn s = Ret t ->
  t = Continue s' \/ t = Return (Some s') ->
  (exists path',
      tree_inv s' path'
      /\ (t = Return (Some s') -> st_obj s' = 0 /\ path' = []))
  /\ nextFree (st_pool s) <= nextFree (st_pool s')
  /\ qty (st_pool s') = qty (st_pool s)
  /\ List.length (st_mem s') = List.length (st_mem s)
  /\ (forall i, i < nextFree (st_pool s) ->
                type (node (st_mem s') i) = type (node (st_mem s) i)
                /\ name (node (st_mem s') i) = name (node (st_mem s) i))
  /\ (forall i, nextFree (st_pool s') <= i ->
                node (st_mem s') i = node (st_mem s) i).
Proof.
  intros (Hq & Hlen & Hobj & Hpath & Hlast & Hsib & Hchild) Hrun Ht.
  destruct (objValue_turn_shape s s' t Hrun Ht)
    as [(Hm & Ho & Hp & Hfin)
       | [(p & Hsp & Hm & Ho & Hp & Hcont)
         | (property & g1 & g2 & Hal & Hcont & Hm & Hg1 & Hg2 & Hcase)]].
  - (* a comma, or the close of the root *)
    rewrite Hm, Ho, Hp.
    split; [|repeat split; auto].
    exists path. split.
    + unfold tree_inv. rewrite Hm, Ho, Hp. repeat split; auto.
      * apply Hlast; assumption.
      * apply Hlast; assumption.
    + intros Hret. destruct Hfin as [Hc|Hnone]; [congruence|].
      inversion Hpath as [Hs0 Ht0 E1 E2|c p l Hs Hpc Htc Hch Hla Hpp E1 E2].
      * split; reflexivity.
      * rewrite <- E1 in Hnone. congruence.
  - (* the close of a nested container *)
    inversion Hpath as [Hs0 Ht0 E1 E2|c p' l Hs Hpc Htc Hch Hla Hpp E1 E2].
    { rewrite <- E1 in Hsp. congruence. }
    assert (p' = p) by congruence. subst p' c.
    assert (Hin : st_obj s < List.length (st_mem s)) by lia.
    assert (Hnode : forall i, i <> st_obj s ->
                              node (st_mem s') i = node (st_mem s) i).
    { intros i Hi. rewrite Hm. apply node_upd_other. congruence. }
    assert (Hself : node (st_mem s') (st_obj s)
                    = set_sibling None (node (st_mem s) (st_obj s))).
    { rewrite Hm. apply node_upd_in. exact Hin. }
    split; [|rewrite Hp; split; [lia|split; [reflexivity|split; [|split]]]].
    + exists l. split; [|intros Hret; congruence].
      unfold tree_inv. rewrite Hp, Ho.
      refine (conj Hq (conj _ (conj _ (conj _ (conj _ (conj _ _)))))).
      * rewrite Hm, upd_length. exact Hlen.
      * lia.
      * apply (open_path_frame (st_mem s)); [exact Hpp| | |].
        -- rewrite Hnode by lia. reflexivity.
        -- rewrite Hnode by lia. reflexivity.
        -- intros i Hi. apply Hnode. lia.
      * intros x Hx. unfold last_linked in Hx. rewrite Hnode in Hx by lia.
        destruct (u_c_child (node (st_mem s) p)); [|discriminate].
        rewrite Hla in Hx. injection Hx as <-. lia.
      * intros i Hi Hip Hil.
        destruct (Nat.eq_dec i (st_obj s)) as [->|Hio].
        -- rewrite Hself. exact I.
        -- rewrite Hnode by exact Hio. apply Hsib; [exact Hi|exact Hio|].
           rewrite <- E2. intros [E|Hin']; [congruence|contradiction].
      * intros i Hi Hty.
        destruct (Nat.eq_dec i (st_obj s)) as [->|Hio].
        -- rewrite Hself in Hty |- *. apply Hchild; [exact Hi|exact Hty].
        -- rewrite Hnode in Hty |- * by exact Hio. apply Hchild; assumption.
    + rewrite Hm. apply upd_length.
    + intros i Hi. destruct (Nat.eq_dec i (st_obj s)) as [->|Hio].
      * rewrite Hself. split; reflexivity.
      * rewrite Hnode by exact Hio. split; reflexivity.
    + intros i Hi. apply Hnode. lia.
  - (* a member *)
    cbn [alloc staticPool] in Hal.
    destruct (poolAlloc_spec (st_pool s)) as [_ Hsome].
    destruct (Hsome property (st_pool s') Hal) as (-> & Hfree & Hpool).
    set (nf := nextFree (st_pool s)) in *.
    set (obj := st_obj s) in *. set (mem := st_mem s) in *.
    destruct (member_nodes mem obj nf g1 g2 Hobj ltac:(lia) Hlast)
      as (Nnf & Nobj & Nl & No & Nlen).
    rewrite <- Hm in Nnf, Nobj, Nl, No, Nlen.
    assert (Hsibobj : sibling (node (st_mem s') obj) = sibling (node mem obj)).
    { rewrite Nobj. destruct (u_c_child (node mem obj)); reflexivity. }
    assert (Htyobj : type (node (st_mem s') obj) = type (node mem obj)
                     /\ name (node (st_mem s') obj) = name (node mem obj)).
    { rewrite Nobj. destruct (u_c_child (node mem obj)); split; reflexivity. }
    assert (Hchobj : u_c_child (node (st_mem s') obj) <> None
                     /\ u_c_last_child (node (st_mem s') obj) = Some nf
                     /\ (u_c_child (node (st_mem s') obj) = Some nf
                         \/ u_c_child (node (st_mem s') obj)
                            = u_c_child (node mem obj))).
    { rewrite Nobj. destruct (u_c_child (node mem obj)) as [ch|] eqn:Hch.
      - cbn [set_u_c_last_child u_c_child u_value u_c_last_child].
        fold (u_c_child (node mem obj)). rewrite Hch.
        split; [discriminate|]. split; [reflexivity|]. right. reflexivity.
      - cbn. split; [discriminate|]. split; [reflexivity|]. left. reflexivity. }
    destruct Hchobj as (Hch1 & Hch2 & Hch3).
    assert (Hold : forall i, i < nf -> i <> obj ->
               type (node (st_mem s') i) = type (node mem i)
               /\ name (node (st_mem s') i) = name (node mem i)
               /\ u_c_child (node (st_mem s') i) = u_c_child (node mem i)
               /\ (sibling (node (st_mem s') i) = sibling (node mem i)
                   \/ sibling (node (st_mem s') i) = Some nf)).
    { intros i Hi Hio.
      destruct (last_linked mem obj) as [l|] eqn:Hl.
      - destruct (Nat.eq_dec i l) as [->|Hil].
        + rewrite (Nl l eq_refl). cbn. auto.
        + rewrite No by (try lia; congruence). auto.
      - rewrite No by (try lia; congruence). auto. }
    assert (Hsib' : forall i, i < S nf -> i <> nf -> i <> obj -> ~ In i path ->
                              forward_link i (S nf) (sibling (node (st_mem s') i))).
    { intros i Hi Hin Hio Hip.
      destruct (Hold i ltac:(lia) Hio) as (_ & _ & _ & [E|E]); rewrite E.
      - apply (forward_link_more i nf); [|lia]. apply Hsib; [lia|assumption..].
      - cbn. lia. }
    assert (Hchild' : forall i, i < S nf -> i <> nf ->
               type (node (st_mem s') i) = JSON_OBJ
               \/ type (node (st_mem s') i) = JSON_ARRAY ->
               forward_link i (S nf) (u_c_child (node (st_mem s') i))).
    { intros i Hi Hin Hty.
      destruct (Nat.eq_dec i obj) as [->|Hio].
      - destruct Hch3 as [E|E]; rewrite E; [cbn; lia|].
        apply (forward_link_more obj nf); [|lia]. apply Hchild; [exact Hobj|].
        rewrite <- (proj1 Htyobj). exact Hty.
      - destruct (Hold i ltac:(lia) Hio) as (E1 & _ & E3 & _).
        rewrite E3. apply (forward_link_more i nf); [|lia].
        apply Hchild; [lia|]. rewrite <- E1. exact Hty. }
    assert (Hpath' : open_path (st_mem s') obj path).
    { apply (open_path_frame mem);
        [exact Hpath|exact Hsibobj|exact (proj1 Htyobj)|].
      intros i Hi. apply No; [lia|lia|].
      intros E. specialize (Hlast i E). lia. }
    split; [|rewrite Hpool; cbn [nextFree qty]; split; [lia|split;
               [reflexivity|split; [exact Nlen|split]]]].
    + destruct Hcase as [[Ho Hc]|[Ho Hc]].
      * (* a nested container is opened *)
        exists (obj :: path). split; [|intros Hret; congruence].
        unfold tree_inv. rewrite Hpool, Ho. cbn [nextFree qty].
        refine (conj _ (conj _ (conj _ (conj _ (conj _ (conj _ _)))))).
        -- lia.
        -- rewrite Nlen. exact Hlen.
        -- lia.
        -- apply open_child; try assumption.
           ++ rewrite Nnf. apply Hc.
           ++ rewrite Nnf. apply Hc.
        -- intros l Hl. unfold last_linked in Hl. rewrite Nnf in Hl.
           destruct (Hc (set_sibling None (g1 (node mem nf)))) as (_ & E & _).
           rewrite E in Hl. discriminate.
        -- intros i Hi Hin Hip. apply Hsib'; try assumption.
           ++ intros ->. apply Hip. left. reflexivity.
           ++ intros Hp'. apply Hip. right. exact Hp'.
        -- intros i Hi Hty. destruct (Nat.eq_dec i nf) as [->|Hin].
           ++ rewrite Nnf.
              destruct (Hc (set_sibling None (g1 (node mem nf)))) as (_ & E & _).
              rewrite E. exact I.
           ++ apply Hchild'; assumption.
      * (* a scalar *)
        exists path. split; [|intros Hret; congruence].
        unfold tree_inv. rewrite Hpool, Ho. cbn [nextFree qty].
        refine (conj _ (conj _ (conj _ (conj _ (conj _ (conj _ _)))))).
        -- lia.
        -- rewrite Nlen. exact Hlen.
        -- fold obj. lia.
        -- exact Hpath'.
        -- fold obj. intros l Hl. unfold last_linked in Hl.
           destruct (u_c_child (node (st_mem s') obj)); [|contradiction Hch1; reflexivity].
           rewrite Hch2 in Hl. injection Hl as <-. lia.
        -- fold obj. intros i Hi Hio Hip.
           destruct (Nat.eq_dec i nf) as [->|Hin].
           ++ rewrite Nnf.
              destruct (Hc (set_sibling None (g1 (node mem nf)))) as (E & _).
              rewrite E. exact I.
           ++ apply Hsib'; assumption.
        -- intros i Hi Hty. destruct (Nat.eq_dec i nf) as [->|Hin].
           ++ exfalso. rewrite Nnf in Hty.
              destruct (Hc (set_sibling None (g1 (node mem nf)))) as (_ & T1 & T2).
              destruct Hty; contradiction.
           ++ apply Hchild'; assumption.
    + intros i Hi. destruct (Nat.eq_dec i obj) as [->|Hio]; [exact Htyobj|].
      destruct (Hold i Hi Hio) as (E1 & E2 & _). split; assumption.
    + intros i Hi. apply No; [lia|lia|].
      intros E. specialize (Hlast i E). lia.
Qed.

Lemma tree_inv_loop (fuel : nat) :
  forall (s f : pstate jsonStaticPool_t) (path : list nat),
    tree_inv s path -> objValue_loop fuel s = Ret (Some f) ->
    tree_inv f [] /\ st_obj f = 0
    /\ nextFree (st_pool s) <= nextFree (st_pool f)
    /\ qty (st_pool f) = qty (st_pool s)
    /\ List.length (st_mem f) = List.length (st_mem s)
    /\ (forall i, i < nextFree (st_pool s) ->
                  type (node (st_mem f) i) = type (node (st_mem s) i)
                  /\ name (node (st_mem f) i) = name (node (st_mem s) i))
    /\ (forall i, nextFree (st_pool f) <= i ->
                  node (st_mem f) i = node (st_mem s) i).
Proof.
  induction fuel as [|fuel IH]; intros s f path Hinv Hrun; [discriminate|].
  rewrite objValue_loop_step in Hrun.
  destruct (objValue_turn s) as [[s1|[f1|]]|] eqn:Ht; cbn [obind] in Hrun;
    try discriminate.
  - destruct (tree_inv_turn s s1 path _ Hinv Ht (or_introl eq_refl))
      as ((path' & Hinv' & _) & Hnf & Hq & Hlen & Hkeep & Hrest).
    destruct (IH s1 f path' Hinv' Hrun)
      as (Hf & Ho & Hnf' & Hq' & Hlen' & Hkeep' & Hrest').
    split; [exact Hf|]. split; [exact Ho|]. split; [lia|].
    split; [congruence|]. split; [congruence|]. split.
    + intros i Hi. destruct (Hkeep i Hi) as [E1 E2].
      destruct (Hkeep' i ltac:(lia)) as [E3 E4]. split; congruence.
    + intros i Hi. rewrite Hrest' by exact Hi. apply Hrest. lia.
  - injection Hrun as ->.
    destruct (tree_inv_turn s f path _ Hinv Ht (or_intror eq_refl))
      as ((path' & Hinv' & Hret) & Hnf & Hq & Hlen & Hkeep & Hrest).
    destruct (Hret eq_refl) as [Ho ->].
    split; [exact Hinv'|]. split; [exact Ho|]. auto.
Qed.

Lemma json_create_inv (str : buffer) (mem : memory) (K : nat)
    (r : @parsed jsonStaticPool_t) :
  json_create str mem K = Ret (Some r) -> 1 <= K <= List.length mem ->
  exists p f,
    goBlank str 0 = Some p
    /\ (rd str p = T_ "{" \/ rd str p = T_ "[")
    /\ r = mk_parsed 0 (st_buf f) (st_mem f) (st_pool f)
    /\ tree_inv f [] /\ st_obj f = 0 /\ qty (st_pool f) = K
    /\ List.length (st_mem f) = List.length mem
    /\ type (node (st_mem f) 0)
       = (if (rd str p =? T_ "{")%Z then JSON_OBJ else JSON_ARRAY)
    /\ name (node (st_mem f) 0) = None
    /\ (forall i, nextFree (st_pool f) <= i ->
                  node (st_mem f) i = node mem i).
Proof.
  unfold json_create, json_createWithPool, json_createWithPool_fuel.
  intros Hrun HK.
  destruct (goBlank str 0) as [p|]; [|discriminate].
  destruct (Z.eqb_spec (rd str p) (T_ "{")) as [Ho|Ho];
    destruct (Z.eqb_spec (rd str p) (T_ "[")) as [Ha|Ha];
    cbn [negb andb] in Hrun; try discriminate.
  all: cbn [init staticPool poolInit qty] in Hrun; unfold objValue in Hrun.
  all: match type of Hrun with
       | obind (objValue_loop _ ?s0) _ = _ => set (s := s0) in *
       end.
  all: destruct (objValue_loop (S (List.length str)) s) as [[f|]|] eqn:Hloop;
    cbn [obind] in Hrun; try discriminate.
  all: injection Hrun as <-.
  all: assert (Hinv : tree_inv s []);
    [ unfold tree_inv, s; cbn [st_mem st_pool st_obj nextFree qty];
      rewrite !upd_upd;
      refine (conj (proj1 HK) (conj _ (conj (Nat.lt_0_1)
                (conj _ (conj _ (conj _ _))))));
      [ rewrite upd_length; exact (proj2 HK)
      | apply open_root; rewrite node_upd_in by lia;
        [reflexivity
        |cbn [type set_sibling set_u_c_child set_u_value set_type];
         destruct (rd str p =? T_ "{")%Z; [left|right]; reflexivity]
      | intros l Hl; unfold last_linked in Hl;
        rewrite node_upd_in in Hl by lia; discriminate Hl
      | intros i Hi Hi0; lia
      | intros i Hi _; replace i with 0 by lia;
        rewrite node_upd_in by lia; exact I ]
    | ].
  all: destruct (tree_inv_loop _ s f [] Hinv Hloop)
         as (Hf & Hof & Hnf & Hq & Hlen & Hkeep & Hrest).
  all: exists p, f.
  all: split; [reflexivity|]; split; [auto|]; split; [reflexivity|].
  all: split; [exact Hf|]; split; [exact Hof|]; split; [exact Hq|].
  all: destruct (Hkeep 0 Nat.lt_0_1) as [E1 E2]; rewrite E1, E2.
  all: assert (Hrest' : forall i, nextFree (st_pool f) <= i ->
                                  node (st_mem f) i = node mem i);
    [ intros i Hi; rewrite (Hrest i Hi); unfold s; cbn [st_mem];
      rewrite !upd_upd; apply node_upd_other;
      unfold s in Hnf; cbn [st_pool nextFree] in Hnf; lia
    | ].
  all: unfold s in Hlen |- *; cbn [st_mem] in Hlen |- *.
  all: rewrite !upd_upd in Hlen |- *; rewrite upd_length in Hlen.
  all: rewrite node_upd_in by lia.
  all: split; [exact Hlen|]; split; [reflexivity|];
    split; [reflexivity|exact Hrest'].
Qed.

(** X7: the root of a parsed document.  With the fixed array pool of
    capacity [K], at least one and at most the size of the node array, a
    successful parse returns the node in cell 0; when it returns, that
    node has no name and no sibling, and its type is Object or Array as the
    first character after the leading blanks is an opening brace or an
    opening square bracket.  The pool never hands out more than [K] nodes,
    and the capacity and the size of the array are unchanged. *)
Theorem json_create_root (str : buffer) (mem : memory) (K : nat)
    (r : @parsed jsonStaticPool_t) :
  json_create str mem K = Ret (Some r) -> 1 <= K <= List.length mem ->
  p_root r = 0
  /\ name (node (p_mem r) 0) = None
  /\ sibling (node (p_mem r) 0) = None
  /\ (exists p, goBlank str 0 = Some p
                /\ (rd str p = T_ "{" /\ type (node (p_mem r) 0) = JSON_OBJ
                    \/ rd str p = T_ "["
                       /\ type (node (p_mem r) 0) = JSON_ARRAY))
  /\ nodes_used r <= K /\ qty (p_pool r) = K
  /\ List.length (p_mem r) = List.length mem.
Proof.
  intros Hrun HK.
  destruct (json_create_inv str mem K r Hrun HK)
    as (p & f & Hg & Hbr & -> & Hinv & Ho & Hq & Hlen & Hty & Hname & _).
  unfold nodes_used. cbn [p_root p_mem p_pool].
  destruct Hinv as (Hnf & _ & _ & Hpath & _).
  split; [reflexivity|]. split; [exact Hname|]. split.
  { rewrite Ho in Hpath. inversion Hpath. assumption. }
  split; [|split; [lia|split; assumption]].
  exists p. split; [exact Hg|]. rewrite Hty.
  destruct (Z.eqb_spec (rd str p) (T_ "{")) as [E|E]; [left; auto|].
  right. destruct Hbr as [Hb|Hb]; [contradiction|auto].
Qed.

(** The theorem at [ {'a':[1]}], which takes three nodes of four. *)
Lemma json_create_root_witness :
  exists r, json_create (doc " {'a':[1]}") (fresh 4) 4 = Ret (Some r)
            /\ p_root r = 0 /\ type (node (p_mem r) 0) = JSON_OBJ
            /\ nodes_used r <= 4.
Proof.
  assert (Hrun : exists r, json_create (doc " {'a':[1]}") (fresh 4) 4
                           = Ret (Some r)).
  { eexists. vm_compute. reflexivity. }
  destruct Hrun as (r & Hrun). exists r. split; [exact Hrun|].
  assert (HK : 1 <= 4 <= List.length (fresh 4)) by (vm_compute; lia).
  destruct (json_create_root _ _ _ _ Hrun HK)
    as (H0 & _ & _ & (p & Hg & Hty) & Hn & _).
  split; [exact H0|]. split; [|exact Hn].
  vm_compute in Hg. injection Hg as <-.
  destruct Hty as [[_ Hty]|[Hb _]]; [exact Hty|discriminate Hb].
Defined.

Lemma chain_forward (mem : memory) (nf : nat) :
  (forall i, i < nf -> forward_link i nf (sibling (node mem i))) ->
  forall k j, nf - j <= k -> j < nf ->
    exists l, sibling_chain mem (Some j) l
              /\ StronglySorted lt l
              /\ (forall x, In x l -> j <= x < nf)
              /\ List.length l <= nf - j.
Proof.
  intros Hfw. induction k as [|k IH]; intros j Hk Hj; [lia|].
  pose proof (Hfw j Hj) as Hl.
  destruct (sibling (node mem j)) as [j'|] eqn:Hs.
  - cbn in Hl. destruct (IH j' ltac:(lia) ltac:(lia)) as (l & Hc & Hso & Hin & Hlen).
    exists (j :: l). split; [apply chain_next; rewrite Hs; exact Hc|].
    split; [|split].
    + apply SSorted_cons; [exact Hso|]. apply Forall_forall.
      intros x Hx. specialize (Hin x Hx). lia.
    + intros x [<-|Hx]; [lia|]. specialize (Hin x Hx). lia.
    + cbn [List.length]. lia.
  - exists [j]. split; [apply chain_next; rewrite Hs; apply chain_end|].
    split; [|split].
    + apply SSorted_cons; [apply SSorted_nil|apply Forall_nil].
    + intros x [<-|[]]. lia.
    + cbn [List.length]. lia.
Qed.

Lemma json_getProperty_from_returns (b : buffer) (mem : memory)
    (property : list CHAR_T) (sib : option nat) (l : list nat) :
  sibling_chain mem sib l ->
  forall fuel, List.length l <= fuel ->
               json_getProperty_from fuel b mem sib property <> OutOfFuel.
Proof.
  induction 1 as [|i l Hc IH]; intros fuel Hf; [destruct fuel; discriminate|].
  destruct fuel as [|fuel]; [cbn in Hf; lia|]. cbn [json_getProperty_from].
  match goal with |- (if ?c then _ else _) <> _ => destruct c end;
    [discriminate|]. apply IH. cbn in Hf. lia.
Qed.

(** X8: the children of a parsed container.  After a successful parse with
    the fixed array pool, every container among the nodes in use has its
    children on a finite sibling chain that ends in the null link; the
    children lie further up in the array than the container, in the order
    of the chain, so no node occurs twice, and a lookup with
    [json_getProperty] that may visit as many children as there are nodes
    in use always returns. *)
Theorem parsed_children_chain (str : buffer) (mem : memory) (K : nat)
    (r : @parsed jsonStaticPool_t) (i : nat) :
  json_create str mem K = Ret (Some r) -> 1 <= K <= List.length mem ->
  i < nodes_used r ->
  type (node (p_mem r) i) = JSON_OBJ \/ type (node (p_mem r) i) = JSON_ARRAY ->
  exists l,
    sibling_chain (p_mem r) (u_c_child (node (p_mem r) i)) l
    /\ StronglySorted lt l
    /\ (forall j, In j l -> i < j < nodes_used r)
    /\ forall b property,
         json_getProperty (nodes_used r) b (p_mem r) i property <> OutOfFuel.
Proof.
  intros Hrun HK Hi Hty.
  destruct (json_create_inv str mem K r Hrun HK)
    as (p & f & _ & _ & -> & Hinv & Ho & _).
  unfold nodes_used in *. cbn [p_mem p_pool] in *.
  destruct Hinv as (_ & _ & _ & Hpath & _ & Hsib & Hchild).
  rewrite Ho in *.
  assert (Hfw : forall k, k < nextFree (st_pool f) ->
                  forward_link k (nextFree (st_pool f))
                    (sibling (node (st_mem f) k))).
  { intros k Hk. destruct (Nat.eq_dec k 0) as [->|Hk0].
    - inversion Hpath as [Hs0|]. rewrite Hs0. exact I.
    - apply Hsib; [exact Hk|exact Hk0|intros []]. }
  specialize (Hchild i Hi Hty). unfold json_getProperty.
  destruct (u_c_child (node (st_mem f) i)) as [c|].
  - cbn in Hchild.
    destruct (chain_forward _ _ Hfw (nextFree (st_pool f) - c) c
                (Nat.le_refl _) ltac:(lia)) as (l & Hc & Hso & Hin & Hlen).
    exists l. split; [exact Hc|]. split; [exact Hso|]. split.
    + intros j Hj. specialize (Hin j Hj). lia.
    + intros b property.
      apply (json_getProperty_from_returns b _ property _ l Hc). lia.
  - exists []. split; [apply chain_end|]. split; [apply SSorted_nil|].
    split; [intros j []|]. intros b property.
    apply (json_getProperty_from_returns b _ property _ [] (chain_end _)).
    apply Nat.le_0_l.
Qed.

(** The theorem at the root of [{'a':1,'b':[1,2,3]}]. *)
Lemma parsed_children_chain_witness :
  exists r l,
    json_create (doc "{'a':1,'b':[1,2,3]}") (fresh 6) 6 = Ret (Some r)
    /\ sibling_chain (p_mem r) (u_c_child (node (p_mem r) 0)) l
    /\ StronglySorted lt l.
Proof.
  assert (Hrun : exists r,
             json_create (doc "{'a':1,'b':[1,2,3]}") (fresh 6) 6 = Ret (Some r)
             /\ nodes_used r = 6 /\ type (node (p_mem r) 0) = JSON_OBJ).
  { eexists. split; [vm_compute; reflexivity|]. split; reflexivity. }
  destruct Hrun as (r & Hrun & Hn & Hty). exists r.
  assert (HK : 1 <= 6 <= List.length (fresh 6)) by (vm_compute; lia).
  assert (Hi : 0 < nodes_used r) by (rewrite Hn; lia).
  destruct (parsed_children_chain _ _ _ _ 0 Hrun HK Hi (or_introl Hty))
    as (l & Hc & Hso & _).
  exists l. auto.
Defined.

(** ** Sibling chains *)

Lemma sibling_chain_det (mem : memory) (s : option nat) (l1 : list nat) :
  sibling_chain mem s l1 -> forall l2, sibling_chain mem s l2 -> l1 = l2.
Proof.
  induction 1 as [|i l Hc IH]; intros l2 H2; inversion H2; subst;
    [reflexivity|]. f_equal. apply IH. assumption.
Qed.

Lemma sibling_chain_suffix (mem : memory) (s : option nat) (l : list nat) :
  sibling_chain mem s l ->
  forall i, In i l ->
            exists l1 l2, l = l1 ++ i :: l2
                          /\ sibling_chain mem (Some i) (i :: l2).
Proof.
  induction 1 as [|j l Hc IH]; intros i Hi; [destruct Hi|].
  destruct Hi as [<-|Hi].
  - exists [], l. split; [reflexivity|]. apply chain_next. exact Hc.
  - destruct (IH i Hi) as (l1 & l2 & -> & Hc2).
    exists (j :: l1), l2. split; [reflexivity|exact Hc2].
Qed.

Lemma sibling_chain_NoDup (mem : memory) (s : option nat) (l : list nat) :
  sibling_chain mem s l -> NoDup l.
Proof.
  induction 1 as [|i l Hc IH]; [apply NoDup_nil|].
  apply NoDup_cons; [|exact IH]. intros Hi.
  destruct (sibling_chain_suffix mem _ l Hc i Hi) as (l1 & l2 & E & Hc2).
  pose proof (sibling_chain_det mem _ _ Hc2 (i :: l)
                (chain_next mem i l Hc)) as E2.
  assert (E3 : l2 = l) by congruence. subst l2.
  apply (f_equal (@List.length nat)) in E. rewrite length_app in E.
  cbn [List.length] in E. lia.
Qed.

Lemma sibling_chain_head (mem : memory) (s : option nat) (l : list nat) :
  sibling_chain mem s l -> s = match l with [] => None | c :: _ => Some c end.
Proof. destruct 1; reflexivity. Qed.

Lemma sibling_chain_extend (mem mem' : memory) (property : nat) :
  sibling (node mem' property) = None ->
  forall s l,
    sibling_chain mem s l -> l <> [] ->
    (forall i, In i l -> i <> last l 0 -> node mem' i = node mem i) ->
    sibling (node mem' (last l 0)) = Some property ->
    sibling_chain mem' s (l ++ [property]).
Proof.
  intros Hp s l Hc. pose proof (sibling_chain_NoDup mem s l Hc) as Hnd.
  induction Hc as [|i l Hc IH]; intros Hne Hsame Hlast; [contradiction|].
  cbn [app]. apply chain_next.
  destruct l as [|j l'].
  - cbn [last] in Hlast. rewrite Hlast. cbn [app].
    apply chain_next. rewrite Hp. apply chain_end.
  - assert (Hil : i <> last (j :: l') 0).
    { intros E. inversion Hnd as [|x xs Hni _]. apply Hni. rewrite E.
      clear. revert j. induction l' as [|k l' IH]; intros j; [left; reflexivity|].
      right. apply IH. }
    change (last (i :: j :: l') 0) with (last (j :: l') 0) in *.
    rewrite (Hsame i (or_introl eq_refl) Hil).
    apply IH.
    + inversion Hnd. assumption.
    + discriminate.
    + intros x Hx Hxl. apply Hsame; [right; exact Hx|exact Hxl].
    + exact Hlast.
Qed.

(** X9: [add] appends.  When the children of [obj] are the sibling chain
    [l] and [obj] records the last of them as its last child, [add] makes
    the children of [obj] the chain [l] followed by the new node, records
    the new node as the last child and gives it a null sibling; the only
    other node it writes to is the former last child. *)
Theorem add_appends (mem : memory) (obj property : nat) (l : list nat) :
  property <> obj -> obj < List.length mem -> property < List.length mem ->
  sibling_chain mem (u_c_child (node mem obj)) l ->
  (forall i, In i l -> i < List.length mem /\ i <> obj /\ i <> property) ->
  (l <> [] -> u_c_last_child (node mem obj) = Some (last l 0)) ->
  let mem' := add mem obj property in
  sibling_chain mem' (u_c_child (node mem' obj)) (l ++ [property])
  /\ u_c_last_child (node mem' obj) = Some property
  /\ sibling (node mem' property) = None
  /\ forall i, i <> obj -> i <> property -> (l = [] \/ i <> last l 0) ->
               node mem' i = node mem i.
Proof.
  intros Hpo Ho Hp Hc Hl Hlast mem'.
  assert (Hll : last_linked mem obj
                = match l with [] => None | _ => Some (last l 0) end).
  { unfold last_linked. rewrite (sibling_chain_head _ _ _ Hc).
    destruct l as [|c l']; [reflexivity|]. apply Hlast. discriminate. }
  assert (Hin_last : l <> [] -> In (last l 0) l).
  { clear. induction l as [|x [|y l] IH]; intros Hne;
      [contradiction|left; reflexivity|].
    right. apply IH. discriminate. }
  destruct (add_node mem obj property Hpo Ho Hp) as (A1 & A2 & A3 & A4).
  { intros x Hx. rewrite Hll in Hx. destruct l as [|c l']; [discriminate|].
    injection Hx as <-. apply Hl. apply Hin_last. discriminate. }
  fold mem' in A1, A2, A3, A4.
  assert (Hsp : sibling (node mem' property) = None) by (rewrite A1; reflexivity).
  refine (conj _ (conj _ (conj Hsp _))).
  - rewrite A2. pose proof (sibling_chain_head _ _ _ Hc) as Hh.
    rewrite Hh in Hc |- *. destruct l as [|c l'].
    + cbn. apply chain_next. rewrite Hsp. apply chain_end.
    + change (u_c_child (set_u_c_last_child (Some property) (node mem obj)))
        with (u_c_child (node mem obj)).
      rewrite Hh.
      apply (sibling_chain_extend mem mem' property Hsp _ _ Hc).
      * discriminate.
      * intros i Hi Hil. destruct (Hl i Hi) as (_ & H1 & H2).
        apply A4; [exact H2|exact H1|]. rewrite Hll. congruence.
      * rewrite A3; [reflexivity|]. rewrite Hll. reflexivity.
  - rewrite A2. reflexivity.
  - intros i Hio Hip Hil. apply A4; [exact Hip|exact Hio|].
    rewrite Hll. destruct l as [|c l']; [discriminate|].
    destruct Hil as [E|Hil]; [discriminate|congruence].
Qed.

(** The theorem at the root of [{'a':1,'b':[1,2,3]}], whose children are
    the nodes 1 and 2, and the unused node 5. *)
Lemma add_appends_witness :
  sibling_chain (add sample_mem 0 5)
                (u_c_child (node (add sample_mem 0 5) 0)) [1; 2; 5].
Proof.
  apply (add_appends sample_mem 0 5 [1; 2]).
  - discriminate.
  - vm_compute. lia.
  - vm_compute. lia.
  - apply chain_next, chain_next. exact (chain_end sample_mem).
  - intros i [<-|[<-|[]]]; vm_compute; repeat split; try lia.
  - intros _. reflexivity.
Defined.

(** ** Commas where a member may begin *)

Lemma goWhile_skip (b : buffer) (set : list CHAR_T) (p : nat) :
  forall k, (forall i, p <= i < p + k ->
                       rd b i <> NUL /\ isOneOfThem (rd b i) set = true) ->
            goWhile b p set = goWhile b (p + k) set.
Proof.
  intros k. revert p. induction k as [|k IH]; intros p Hin.
  - rewrite Nat.add_0_r. reflexivity.
  - destruct (Hin p ltac:(lia)) as [H0 Hs].
    replace (p + S k) with (S p + k) by lia.
    rewrite <- IH by (intros i Hi; apply Hin; lia).
    unfold goWhile. rewrite (rd_nonzero_skipn b p H0). cbn [goWhile_from].
    apply Z.eqb_neq in H0. rewrite H0, Hs. reflexivity.
Qed.

Lemma goBlank_blanked (b : buffer) (p c : nat) :
  goBlank b p = Some c ->
  goBlank (wr b c (T_ " ")) p = goBlank (wr b c (T_ " ")) (S c).
Proof.
  intros Hg. apply goWhile_cells in Hg. destruct Hg as (Hle & Hin & Hc & _).
  replace (S c) with (p + (S c - p)) by lia.
  apply goWhile_skip. intros i Hi.
  destruct (Nat.eq_dec i c) as [->|Hic].
  - rewrite rd_wr_same by (apply rd_nonzero_lt; exact Hc).
    split; [discriminate|reflexivity].
  - rewrite rd_wr_other by exact Hic. apply Hin. lia.
Qed.

Section Commas.
Context {P : Type} `{jsonPool_t P}.

Lemma objValue_turn_from (s : pstate P) (p : nat) :
  goBlank (st_buf s) p = goBlank (st_buf s) (st_ptr s) ->
  objValue_turn (with_ptr s p) = objValue_turn s.
Proof.
  intros Hg. unfold objValue_turn, with_ptr.
  cbn [st_ptr st_obj st_buf st_mem st_pool]. rewrite Hg. reflexivity.
Qed.

Lemma objValue_loop_from (fuel : nat) (s : pstate P) (p : nat) :
  goBlank (st_buf s) p = goBlank (st_buf s) (st_ptr s) ->
  objValue_loop fuel (with_ptr s p) = objValue_loop fuel s.
Proof.
  intros Hg. destruct fuel as [|fuel]; [reflexivity|].
  rewrite !objValue_loop_step, objValue_turn_from by exact Hg. reflexivity.
Qed.

(** X10: a comma where a member or an element may begin is skipped like a
    blank.  From a loop state whose next character after the blanks is a
    comma, the parse of what follows succeeds exactly when it does with a
    space in the comma's cell, one turn earlier, and the two results differ
    in that cell only; so the commas between members are optional, and
    they may be repeated. *)
Theorem comma_as_blank (s : pstate P) (c : nat) :
  goBlank (st_buf s) (st_ptr s) = Some c ->
  rd (st_buf s) c = T_ "," ->
  let sb := with_buf s (wr (st_buf s) c (T_ " ")) in
  objValue_turn s = Ret (Continue (with_ptr s (S c)))
  /\ (forall fuel r,
         objValue_loop fuel sb = Ret (Some r) ->
         objValue_loop (S fuel) s
         = Ret (Some (with_buf r (wr (st_buf r) c (T_ ",")))))
  /\ (forall fuel r,
         objValue_loop (S fuel) s = Ret (Some r) ->
         objValue_loop fuel sb
         = Ret (Some (with_buf r (wr (st_buf r) c (T_ " ")))))
  /\ parse_tree "['a' 'b']" 3 = parse_tree "['a','b']" 3
  /\ parse_tree "{'a':'x' 'b':[] 'c':{}}" 4 = parse_tree "{'a':'x','b':[],'c':{}}" 4
  /\ parse_tree "[,,[],,'a',,]" 3 = parse_tree "[[],'a']" 3
  /\ parse_tree "[1 2]" 3 = parse_tree "[1,2]" 3
  /\ (exists t, parse_tree "['a' 'b']" 3 = Ret (Some t)).
Proof.
  intros Hg Hcomma sb.
  assert (T1 : objValue_turn s = Ret (Continue (with_ptr s (S c)))).
  { unfold objValue_turn. rewrite Hg. cbv zeta. rewrite Hcomma.
    reflexivity. }
  assert (Hsb : forall fuel,
             objValue_loop fuel sb
             = objValue_loop fuel
                 (with_buf (with_ptr s (S c)) (wr (st_buf s) c (T_ " ")))).
  { intros fuel. symmetry.
    apply (objValue_loop_from fuel sb (S c)).
    unfold sb, with_buf. cbn [st_buf st_ptr]. symmetry.
    apply goBlank_blanked. exact Hg. }
  split; [exact T1|]. split; [|split].
  - intros fuel r Hrun. rewrite Hsb in Hrun.
    rewrite objValue_loop_step, T1. cbn [obind].
    pose proof (objValue_loop_behind _ _ _ c (T_ ",") Hrun) as Hback.
    cbn [with_buf with_ptr st_ptr st_buf] in Hback.
    specialize (Hback ltac:(lia)).
    rewrite wr_wr_same in Hback. rewrite <- Hcomma in Hback at 1.
    rewrite wr_rd_id in Hback. rewrite <- Hback.
    destruct s; reflexivity.
  - intros fuel r Hrun. rewrite objValue_loop_step, T1 in Hrun.
    cbn [obind] in Hrun. rewrite Hsb.
    apply (objValue_loop_behind _ _ _ c (T_ " ") Hrun).
    cbn [with_ptr st_ptr]. lia.
  - repeat split; try (vm_compute; reflexivity).
    eexists. vm_compute. reflexivity.
Qed.

End Commas.

(** The theorem at [['a','b']], in the state after the first element. *)
Lemma comma_as_blank_witness :
  objValue_turn
    (mk_pstate 4 0 (doc "['a','b']")
       (upd (fresh 3) 0 (set_type JSON_ARRAY)) (mk_spool 3 2))
  = Ret (Continue
           (mk_pstate 5 0 (doc "['a','b']")
              (upd (fresh 3) 0 (set_type JSON_ARRAY)) (mk_spool 3 2))).
Proof.
  exact (proj1 (@comma_as_blank jsonStaticPool_t staticPool
                  (mk_pstate 4 0 (doc "['a','b']")
                     (upd (fresh 3) 0 (set_type JSON_ARRAY)) (mk_spool 3 2))
                  4 eq_refl eq_refl)).
Defined.

(** ** Whole documents *)

Lemma blank_nonzero (x : CHAR_T) : isOneOfThem x blank = true -> x <> NUL.
Proof. intros Hb ->. discriminate Hb. Qed.

Lemma goBlank_app (pre ws : list CHAR_T) (x : CHAR_T) (rest : list CHAR_T) :
  Forall (fun y => isOneOfThem y blank = true) ws ->
  isOneOfThem x blank = false -> x <> NUL ->
  goBlank (pre ++ ws ++ x :: rest) (List.length pre)
  = Some (List.length pre + List.length ws).
Proof.
  intros Hws Hx Hx0. apply goWhile_cells.
  split; [lia|]. split.
  - intros i Hi. rewrite rd_app_r by lia. rewrite rd_app_l by lia.
    assert (Hb : isOneOfThem (rd ws (i - List.length pre)) blank = true).
    { rewrite Forall_forall in Hws. apply Hws. apply nth_In. lia. }
    split; [apply blank_nonzero; exact Hb|exact Hb].
  - rewrite rd_app_r by lia. rewrite rd_app_r by lia.
    replace (List.length pre + List.length ws - List.length pre
             - List.length ws) with 0 by lia.
    split; assumption.
Qed.

(** X11: an empty container parses with any capacity.  A document made of
    blanks, an opening bracket, blanks and the matching closing bracket is
    accepted whatever the capacity of the pool, zero included, and whatever
    follows the closing bracket: it takes the root node only, leaves it
    without children, and overwrites the closing bracket with NUL. *)
Theorem empty_container_parses (ws0 ws1 rest : list CHAR_T) (o c : CHAR_T)
    (mem : memory) (K : nat) :
  Forall (fun y => isOneOfThem y blank = true) ws0 ->
  Forall (fun y => isOneOfThem y blank = true) ws1 ->
  o = T_ "{" /\ c = T_ "}" \/ o = T_ "[" /\ c = T_ "]" ->
  1 <= List.length mem ->
  exists r,
    json_create (ws0 ++ o :: ws1 ++ c :: rest) mem K = Ret (Some r)
    /\ p_root r = 0 /\ nodes_used r = 1
    /\ p_buf r = ws0 ++ o :: ws1 ++ NUL :: rest
    /\ List.length (p_mem r) = List.length mem
    /\ tree_of r
       = [JContainer (if (o =? T_ "{")%Z then JSON_OBJ else JSON_ARRAY)
            None []].
Proof.
  intros H0 H1 Hoc Hmem.
  set (str := ws0 ++ o :: ws1 ++ c :: rest).
  set (ty := if (o =? T_ "{")%Z then JSON_OBJ else JSON_ARRAY).
  assert (Ho : isOneOfThem o blank = false /\ o <> NUL
               /\ (negb (o =? T_ "{") && negb (o =? T_ "["))%Z = false)
    by (destruct Hoc as [[-> _]|[-> _]]; repeat split;
        first [reflexivity | discriminate]).
  assert (Hc : isOneOfThem c blank = false /\ c <> NUL)
    by (destruct Hoc as [[_ ->]|[_ ->]]; split;
        first [reflexivity | discriminate]).
  destruct Ho as (Ho1 & Ho2 & Ho3). destruct Hc as (Hc1 & Hc2).
  assert (Hg0 : goBlank str 0 = Some (List.length ws0)).
  { exact (goBlank_app [] ws0 o (ws1 ++ c :: rest) H0 Ho1 Ho2). }
  assert (Hro : rd str (List.length ws0) = o).
  { unfold str. rewrite rd_app_r by lia. rewrite Nat.sub_diag. reflexivity. }
  set (e := S (List.length ws0) + List.length ws1).
  assert (Hstr : str = (ws0 ++ [o]) ++ ws1 ++ c :: rest)
    by (unfold str; rewrite <- app_assoc; reflexivity).
  assert (Hg1 : goBlank str (S (List.length ws0)) = Some e).
  { rewrite Hstr.
    replace (S (List.length ws0)) with (List.length (ws0 ++ [o]))
      by (rewrite length_app; cbn; lia).
    rewrite (goBlank_app (ws0 ++ [o]) ws1 c rest H1 Hc1 Hc2).
    unfold e. rewrite length_app. cbn [List.length]. f_equal. lia. }
  assert (Hrc : rd str e = c).
  { unfold e. rewrite Hstr.
    rewrite rd_app_r by (rewrite length_app; cbn [List.length]; lia).
    rewrite length_app. cbn [List.length]. rewrite rd_app_r by lia.
    replace (S (List.length ws0) + List.length ws1
             - (List.length ws0 + 1) - List.length ws1) with 0 by lia.
    reflexivity. }
  set (mem2 := upd mem 0
                 (fun n => set_sibling None (set_u_c_child None (set_type ty
                    (set_u_c_child None (set_sibling None
                       (set_name None n))))))).
  assert (Hn0 : node mem2 0 = mk_json None None None
                                (u_c_last_child (node mem 0)) ty).
  { unfold mem2. rewrite node_upd_in by lia. reflexivity. }
  exists (mk_parsed 0 (wr str e NUL) mem2 (mk_spool K 1)).
  split; [|split; [reflexivity|split; [reflexivity|split; [|split]]]].
  - unfold json_create, json_createWithPool, json_createWithPool_fuel.
    fold str. rewrite Hg0, Hro, Ho3.
    cbn [init staticPool poolInit qty]. unfold objValue.
    rewrite Hro. fold ty. rewrite !upd_upd. fold mem2.
    rewrite objValue_loop_step.
    rewrite (objValue_turn_close
               (mk_pstate (S (List.length ws0)) 0 str mem2 (mk_spool K 1)) e).
    + unfold close_turn. cbn [st_mem st_obj st_buf st_pool]. rewrite Hn0.
      reflexivity.
    + exact Hg1.
    + unfold endchar_of. cbn [st_mem st_obj st_buf]. rewrite Hn0, Hrc.
      cbn [type]. unfold ty.
      destruct Hoc as [[-> ->]|[-> ->]]; reflexivity.
  - cbn [p_buf]. rewrite Hstr.
    replace e with (List.length (ws0 ++ [o]) + (List.length ws1 + 0))
      by (unfold e; rewrite length_app; cbn; lia).
    rewrite wr_app.
    replace (List.length ws1 + 0) with (List.length ws1 + 0) by reflexivity.
    rewrite wr_app. cbn [wr]. rewrite <- app_assoc. reflexivity.
  - cbn [p_mem]. unfold mem2. apply upd_length.
  - unfold tree_of. cbn [p_mem p_buf p_root forest_of]. rewrite Hn0.
    cbn [type name u_c_child u_value sibling option_map].
    assert (Hcont : is_container ty = true)
      by (unfold ty; destruct (o =? T_ "{")%Z; reflexivity).
    rewrite Hcont. destruct (List.length mem2); reflexivity.
Qed.

(** The theorem at [ [ ] x], with a pool of no capacity. *)
Lemma empty_container_parses_witness :
  exists r, json_create (doc " [ ] x") (fresh 1) 0 = Ret (Some r)
            /\ nodes_used r = 1
            /\ tree_of r = [JContainer JSON_ARRAY None []].
Proof.
  destruct (empty_container_parses [T_ " "] [T_ " "] (T " x" ++ [NUL])
              (T_ "[") (T_ "]") (fresh 1) 0) as (r & Hr & _ & Hn & _ & _ & Ht).
  - repeat constructor.
  - repeat constructor.
  - right. split; reflexivity.
  - apply le_n.
  - exists r. split; [exact Hr|]. split; [exact Hn|exact Ht].
Defined.

(** ** Nesting *)

Lemma goBlank_here (b : buffer) (p : nat) :
  rd b p <> NUL -> isOneOfThem (rd b p) blank = false -> goBlank b p = Some p.
Proof.
  intros H0 Hb. apply goWhile_cells. split; [lia|].
  split; [intros i Hi; lia|]. split; assumption.
Qed.

Lemma nested_open_turn (b : buffer) (M : memory) (K k : nat) :
  1 <= k -> nest_inv k (k - 1) M -> k < K -> k < List.length M ->
  rd b k = T_ "[" ->
  exists M',
    objValue_turn (mk_pstate k (k - 1) b M (mk_spool K k))
    = Ret (Continue (mk_pstate (S k) k b M' (mk_spool K (S k))))
    /\ nest_inv (S k) k M' /\ List.length M' = List.length M.
Proof.
  intros Hk (Hlen & Hty & Hsib & Hclosed & Hch & Hlastch) HK HM Hrd.
  set (g2 := fun n => set_sibling (Some (k - 1))
                        (set_u_c_child None (set_type JSON_ARRAY
                           (set_u_value (Some k) n)))).
  exists (upd (add (upd M k (set_name None)) (k - 1) k) k g2).
  assert (Hlast : forall l, last_linked M (k - 1) = Some l -> k - 1 < l < k).
  { intros l Hl. unfold last_linked in Hl. rewrite Hlastch in Hl.
    discriminate. }
  destruct (member_nodes M (k - 1) k (set_name None) g2 ltac:(lia) HM Hlast)
    as (Nnf & Nobj & _ & No & Nlen).
  assert (No' : forall i, i <> k -> i <> k - 1 ->
                  node (upd (add (upd M k (set_name None)) (k - 1) k) k g2) i
                  = node M i).
  { intros i H1 H2. apply No; [exact H1|exact H2|].
    unfold last_linked. rewrite Hlastch. discriminate. }
  rewrite Hlastch in Nobj.
  split; [|split; [|exact Nlen]].
  - unfold objValue_turn. cbn [st_ptr st_obj st_buf st_mem st_pool].
    rewrite goBlank_here by (rewrite Hrd; first [discriminate|reflexivity]).
    rewrite Hrd. rewrite (Hty (k - 1)) by lia.
    cbn [alloc staticPool]. unfold poolAlloc. cbn [qty nextFree].
    destruct (Nat.leb_spec K k) as [Hfull|_]; [lia|].
    change (T_ "[" =? T_ ",")%Z with false.
    change (jsonType_eqb JSON_ARRAY JSON_OBJ) with false.
    change (T_ "[" =? T_ "]")%Z with false.
    change (jsonType_eqb JSON_ARRAY JSON_ARRAY) with true.
    cbn [negb obind]. rewrite objValue_dispatch_eq. rewrite Hrd.
    change (T_ "[" =? T_ "{")%Z with false.
    change (T_ "[" =? T_ "[")%Z with true. cbv iota.
    rewrite !upd_upd. reflexivity.
  - refine (conj _ (conj _ (conj _ (conj _ (conj _ _))))).
    + rewrite Nlen. lia.
    + intros j Hj. destruct (Nat.eq_dec j k) as [->|Hjk].
      * rewrite Nnf. reflexivity.
      * destruct (Nat.eq_dec j (k - 1)) as [->|Hjo].
        -- rewrite Nobj. cbn. apply Hty. lia.
        -- rewrite No' by assumption. apply Hty. lia.
    + intros j Hj. destruct (Nat.eq_dec j k) as [->|Hjk].
      * rewrite Nnf. cbn. destruct k; [lia|]. f_equal. lia.
      * destruct (Nat.eq_dec j (k - 1)) as [->|Hjo].
        -- rewrite Nobj. cbn. apply Hsib. lia.
        -- rewrite No' by assumption. apply Hsib. lia.
    + intros j Hj. lia.
    + intros j Hj. destruct (Nat.eq_dec j (k - 1)) as [->|Hjo].
      * rewrite Nobj. cbn. f_equal. lia.
      * rewrite No' by lia. apply Hch. lia.
    + replace (S k - 1) with k by lia. rewrite Nnf. reflexivity.
Qed.

Lemma nested_open_loop (b : buffer) (K n : nat) :
  n <= K ->
  forall d k M,
    1 <= k -> nest_inv k (k - 1) M -> k + d = n -> n <= List.length M ->
    (forall i, k <= i < n -> rd b i = T_ "[") ->
    exists M',
      nest_inv n (n - 1) M' /\ List.length M' = List.length M
      /\ forall fuel,
           objValue_loop (d + fuel) (mk_pstate k (k - 1) b M (mk_spool K k))
           = objValue_loop fuel (mk_pstate n (n - 1) b M' (mk_spool K n)).
Proof.
  intros HK. induction d as [|d IH]; intros k M Hk Hinv Hd HM Hrd.
  - exists M. replace n with k by lia. split; [exact Hinv|].
    split; reflexivity.
  - destruct (nested_open_turn b M K k Hk Hinv ltac:(lia) ltac:(lia)
                (Hrd k ltac:(lia))) as (M1 & Ht & Hinv1 & Hlen1).
    destruct (IH (S k) M1 ltac:(lia)) as (M' & Hinv' & Hlen' & Hloop).
    + replace (S k - 1) with k by lia. exact Hinv1.
    + lia.
    + lia.
    + intros i Hi. apply Hrd. lia.
    + exists M'. split; [exact Hinv'|]. split; [congruence|].
      intros fuel. cbn [Nat.add]. rewrite objValue_loop_step, Ht.
      cbn [obind]. replace (S k - 1) with k in Hloop by lia. apply Hloop.
Qed.

Lemma nested_close_loop (K n : nat) :
  forall c b p M,
    nest_inv n c M -> c < n ->
    (forall i, i <= c -> rd b (p + i) = T_ "]") ->
    exists b' M',
      objValue_loop (S c) (mk_pstate p c b M (mk_spool K n))
      = Ret (Some (mk_pstate (p + S c) 0 b' M' (mk_spool K n)))
      /\ nest_inv n 0 M' /\ List.length M' = List.length M
      /\ List.length b' = List.length b
      /\ (forall i, p <= i <= p + c -> rd b' i = NUL)
      /\ (forall i, i < p \/ p + c < i -> rd b' i = rd b i).
Proof.
  induction c as [|c IH]; intros b p M Hinv Hc Hrd.
  - pose proof Hinv as (Hlen & Hty & Hsib & Hclosed & Hch & Hlastch).
    pose proof (Hrd 0 (Nat.le_refl _)) as Hr. rewrite Nat.add_0_r in Hr.
    assert (Hin : p < List.length b)
      by (apply rd_nonzero_lt; rewrite Hr; discriminate).
    exists (wr b p NUL), M. split; [|split; [exact Hinv|split;
      [reflexivity|split; [apply wr_length|split]]]].
    + rewrite objValue_loop_step.
      rewrite (objValue_turn_close (mk_pstate p 0 b M (mk_spool K n)) p).
      * unfold close_turn. cbn [st_mem st_obj st_buf st_pool st_ptr].
        rewrite (Hsib 0 (Nat.le_refl _)). cbn [obind].
        replace (p + 1) with (S p) by lia. reflexivity.
      * cbn [st_buf st_ptr]. apply goBlank_here; rewrite Hr;
          first [discriminate|reflexivity].
      * unfold endchar_of. cbn [st_buf st_mem st_obj].
        rewrite (Hty 0 Hc). exact Hr.
    + intros i Hi. replace i with p by lia. apply rd_wr_same. exact Hin.
    + intros i Hi. apply rd_wr_other. lia.
  - pose proof Hinv as (Hlen & Hty & Hsib & Hclosed & Hch & Hlastch).
    pose proof (Hrd 0 (Nat.le_0_l _)) as Hr. rewrite Nat.add_0_r in Hr.
    assert (Hin : p < List.length b)
      by (apply rd_nonzero_lt; rewrite Hr; discriminate).
    assert (HinM : S c < List.length M) by lia.
    assert (Hinv1 : nest_inv n c (upd M (S c) (set_sibling None))).
    { refine (conj _ (conj _ (conj _ (conj _ (conj _ _))))).
      - rewrite upd_length. exact Hlen.
      - intros j Hj. destruct (Nat.eq_dec j (S c)) as [->|Hjc].
        + rewrite node_upd_in by exact HinM. cbn. apply Hty. exact Hj.
        + rewrite node_upd_other by congruence. apply Hty. exact Hj.
      - intros j Hj. rewrite node_upd_other by lia. apply Hsib. lia.
      - intros j Hj. destruct (Nat.eq_dec j (S c)) as [->|Hjc].
        + rewrite node_upd_in by exact HinM. reflexivity.
        + rewrite node_upd_other by congruence. apply Hclosed. lia.
      - intros j Hj. destruct (Nat.eq_dec j (S c)) as [->|Hjc].
        + rewrite node_upd_in by exact HinM. cbn. apply Hch. exact Hj.
        + rewrite node_upd_other by congruence. apply Hch. exact Hj.
      - destruct (Nat.eq_dec (n - 1) (S c)) as [E|Hjc].
        + rewrite E. rewrite node_upd_in by exact HinM. cbn.
          rewrite <- E. exact Hlastch.
        + rewrite node_upd_other by congruence. exact Hlastch. }
    destruct (IH (wr b p NUL) (S p) _ Hinv1 ltac:(lia))
      as (b' & M' & Hloop & Hinv' & HlenM & Hlenb & Hnul & Hsame).
    { intros i Hi. rewrite rd_wr_other by lia.
      replace (S p + i) with (p + S i) by lia. apply Hrd. lia. }
    exists b', M'. split; [|split; [exact Hinv'|split;
      [rewrite HlenM; apply upd_length|split;
        [rewrite Hlenb; apply wr_length|split]]]].
    + rewrite objValue_loop_step.
      rewrite (objValue_turn_close (mk_pstate p (S c) b M (mk_spool K n)) p).
      * unfold close_turn. cbn [st_mem st_obj st_buf st_pool st_ptr].
        rewrite (Hsib (S c) (Nat.le_refl _)). cbn [obind].
        rewrite Hloop. replace (p + S (S c)) with (S p + S c) by lia.
        reflexivity.
      * cbn [st_buf st_ptr]. apply goBlank_here; rewrite Hr;
          first [discriminate|reflexivity].
      * unfold endchar_of. cbn [st_buf st_mem st_obj].
        rewrite (Hty (S c) Hc). exact Hr.
    + intros i Hi. destruct (Nat.eq_dec i p) as [->|Hip].
      * rewrite Hsame by lia. apply rd_wr_same. exact Hin.
      * apply Hnul. lia.
    + intros i Hi. rewrite Hsame by lia. apply rd_wr_other. lia.
Qed.

Lemma rd_repeat (x : CHAR_T) : forall n i, i < n -> rd (repeat x n) i = x.
Proof.
  unfold rd. induction n as [|n IH]; intros i Hi; [lia|].
  destruct i as [|i]; cbn; [reflexivity|]. apply IH. lia.
Qed.

(** X12: arrays nested to any depth.  A document of [n] opening square
    brackets followed by [n] closing ones parses whenever the pool and the
    node array hold [n] nodes: there is no limit on the depth but the
    capacity.  The parse takes [n] nodes, each array being the only child
    of the one opened before it, restores every back-link to a null
    sibling, and overwrites the closing brackets with NUL. *)
Theorem nested_arrays_parse (n K : nat) (mem : memory) (rest : list CHAR_T) :
  1 <= n -> n <= K -> n <= List.length mem ->
  exists r,
    json_create (repeat (T_ "[") n ++ repeat (T_ "]") n ++ rest) mem K
    = Ret (Some r)
    /\ p_root r = 0 /\ nodes_used r = n
    /\ p_buf r = repeat (T_ "[") n ++ repeat NUL n ++ rest
    /\ nest_inv n 0 (p_mem r)
    /\ List.length (p_mem r) = List.length mem.
Proof.
  intros Hn HK Hmem.
  set (str := repeat (T_ "[") n ++ repeat (T_ "]") n ++ rest).
  assert (Hopen : forall i, i < n -> rd str i = T_ "[").
  { intros i Hi. unfold str. rewrite rd_app_l by (rewrite repeat_length; lia).
    apply rd_repeat. exact Hi. }
  assert (Hclose : forall i, i <= n - 1 -> rd str (n + i) = T_ "]").
  { intros i Hi. unfold str. rewrite rd_app_r by (rewrite repeat_length; lia).
    rewrite repeat_length. rewrite rd_app_l by (rewrite repeat_length; lia).
    apply rd_repeat. lia. }
  assert (Hlen : List.length str = n + n + List.length rest).
  { unfold str. rewrite !length_app, !repeat_length. lia. }
  set (M1 := upd mem 0
               (fun x => set_sibling None (set_u_c_child None
                  (set_type JSON_ARRAY (set_u_c_child None (set_sibling None
                     (set_name None x))))))).
  assert (Hinv1 : nest_inv 1 (1 - 1) M1).
  { unfold M1. refine (conj _ (conj _ (conj _ (conj _ (conj _ _))))).
    - rewrite upd_length. lia.
    - intros j Hj. replace j with 0 by lia.
      rewrite node_upd_in by lia. reflexivity.
    - intros j Hj. replace j with 0 by lia.
      rewrite node_upd_in by lia. reflexivity.
    - intros j Hj. lia.
    - intros j Hj. lia.
    - cbn [Nat.sub]. rewrite node_upd_in by lia. reflexivity. }
  destruct (nested_open_loop str K n HK (n - 1) 1 M1 (Nat.le_refl _) Hinv1)
    as (M2 & Hinv2 & Hlen2 & Hdown).
  { lia. }
  { unfold M1. rewrite upd_length. exact Hmem. }
  { intros i Hi. apply Hopen. lia. }
  destruct (nested_close_loop K n (n - 1) str n M2 Hinv2 ltac:(lia) Hclose)
    as (b' & M3 & Hup & Hinv3 & Hlen3 & Hlenb & Hnul & Hsame).
  exists (mk_parsed 0 b' M3 (mk_spool K n)).
  split; [|split; [reflexivity|split; [reflexivity|split;
    [|split; [exact Hinv3|]]]]].
  - unfold json_create, json_createWithPool, json_createWithPool_fuel.
    fold str.
    rewrite goBlank_here
      by (rewrite Hopen by lia; first [discriminate|reflexivity]).
    rewrite (Hopen 0) by lia.
    change (negb (T_ "[" =? T_ "{")%Z && negb (T_ "[" =? T_ "[")%Z)
      with false. cbv iota.
    cbn [init staticPool poolInit qty]. unfold objValue.
    rewrite (Hopen 0) by lia. change (T_ "[" =? T_ "{")%Z with false.
    cbv iota. rewrite !upd_upd. fold M1.
    assert (Hrun : objValue_loop (n - 1 + S (n - 1))
                     (mk_pstate 1 0 str M1 (mk_spool K 1))
                   = Ret (Some (mk_pstate (n + S (n - 1)) 0 b' M3
                                  (mk_spool K n)))).
    { specialize (Hdown (S (n - 1))). cbn [Nat.sub] in Hdown.
      rewrite Hdown. exact Hup. }
    rewrite (objValue_loop_more_fuel _ (S (List.length str)) _ _ Hrun)
      by (rewrite Hlen; lia).
    reflexivity.
  - cbn [p_buf]. apply buffer_ext.
    + rewrite Hlenb, Hlen, !length_app, !repeat_length. lia.
    + intros i. destruct (Nat.lt_ge_cases i n) as [Hi|Hi].
      * rewrite Hsame by lia. rewrite Hopen by exact Hi.
        rewrite rd_app_l by (rewrite repeat_length; lia).
        symmetry. apply rd_repeat. exact Hi.
      * rewrite rd_app_r by (rewrite repeat_length; lia).
        rewrite repeat_length.
        destruct (Nat.lt_ge_cases i (n + n)) as [Hi2|Hi2].
        -- rewrite Hnul by lia.
           rewrite rd_app_l by (rewrite repeat_length; lia).
           symmetry. apply rd_repeat. lia.
        -- rewrite Hsame by lia. unfold str.
           rewrite rd_app_r by (rewrite repeat_length; lia).
           rewrite repeat_length.
           rewrite !rd_app_r by (rewrite repeat_length; lia).
           rewrite !repeat_length. reflexivity.
  - cbn [p_mem]. rewrite Hlen3, Hlen2. unfold M1. apply upd_length.
Qed.

(** The theorem at depth three. *)
Lemma nested_arrays_parse_witness :
  exists r, json_create (doc "[[[]]]") (fresh 3) 3 = Ret (Some r)
            /\ nodes_used r = 3.
Proof.
  destruct (nested_arrays_parse 3 3 (fresh 3) [NUL])
    as (r & Hr & _ & Hn & _).
  - apply le_S, le_S, le_n.
  - apply le_n.
  - apply le_n.
  - exists r. split; [exact Hr|exact Hn].
Defined.

(** ** A member with a text value, from the parse to the lookup *)

Lemma parseString_post (b : buffer) (str e : nat) (seg w : list CHAR_T) :
  unescape seg = Some w -> consumes b str e seg -> rd b e = QUOTE ->
  exists b',
    parseString b str = Ret (Some (S e, b'))
    /\ consumes b' str (str + List.length w) w
    /\ rd b' (str + List.length w) = NUL
    /\ str + List.length w <= e
    /\ footprint b str (S e) b' /\ ~ In NUL w.
Proof.
  intros Hu Hc Hq.
  pose proof (parseString_complete b str e seg w Hu Hc Hq) as Hrun.
  destruct (unescape_facts _ seg w (Nat.le_refl _) Hu) as (Hl & Hw & _).
  assert (He : rd b e <> NUL) by (rewrite Hq; discriminate).
  destruct (consumes_decompose b str e seg Hc He) as [_ Hlen].
  eexists. split; [exact Hrun|].
  assert (Hskip : forall X,
             skipn str (firstn str b ++ w ++ NUL :: X) = w ++ NUL :: X).
  { intros X. rewrite <- Hlen at 1. apply skipn_app_exact. }
  assert (Hskip2 : forall X,
             skipn (str + List.length w) (firstn str b ++ w ++ NUL :: X)
             = NUL :: X).
  { intros X. rewrite skipn_add, Hskip. apply skipn_app_exact. }
  split; [|split; [|split; [|split; [|exact Hw]]]].
  - split; [reflexivity|]. rewrite Hskip, Hskip2. reflexivity.
  - rewrite rd_skipn, Hskip2. reflexivity.
  - destruct Hc as [-> _]. lia.
  - exact (proj2 (parseString_footprint _ _ _ _ Hrun)).
Qed.

Lemma consumes_mid (pre seg post : list CHAR_T) :
  consumes (pre ++ seg ++ post) (List.length pre)
           (List.length pre + List.length seg) seg.
Proof.
  split; [reflexivity|]. rewrite skipn_add, skipn_app_exact, skipn_app_exact.
  reflexivity.
Qed.

Lemma cstr_from_id (s : list CHAR_T) : ~ In NUL s -> cstr_from s = s.
Proof.
  induction s as [|x s IH]; intros Hs; [reflexivity|]. cbn [cstr_from].
  destruct (Z.eqb_spec x 0) as [E|_]; [contradiction Hs; left; exact E|].
  rewrite IH; [reflexivity|]. intros Hin. apply Hs. right. exact Hin.
Qed.

Lemma text_member_cells (k v rest : list CHAR_T) :
  let str := T_ "{" :: QUOTE :: k ++ QUOTE :: T_ ":" :: QUOTE :: v
                ++ QUOTE :: T_ "}" :: rest in
  let e1 := 2 + List.length k in
  let vs := S (S (S e1)) in
  let e2 := vs + List.length v in
  consumes str 2 e1 k /\ rd str e1 = QUOTE /\ rd str (S e1) = T_ ":"
  /\ rd str (S (S e1)) = QUOTE
  /\ consumes str vs e2 v /\ rd str e2 = QUOTE /\ rd str (S e2) = T_ "}".
Proof.
  intros str e1 vs e2.
  assert (E1 : str = [T_ "{"; QUOTE] ++ k
                     ++ QUOTE :: T_ ":" :: QUOTE :: v ++ QUOTE :: T_ "}" :: rest)
    by reflexivity.
  assert (E2 : str = ([T_ "{"; QUOTE] ++ k ++ [QUOTE; T_ ":"; QUOTE]) ++ v
                     ++ QUOTE :: T_ "}" :: rest)
    by (unfold str; cbn [app]; rewrite <- app_assoc; reflexivity).
  assert (L2 : List.length ([T_ "{"; QUOTE] ++ k ++ [QUOTE; T_ ":"; QUOTE]) = vs)
    by (rewrite !length_app; cbn [List.length]; unfold vs, e1; lia).
  refine (conj _ (conj _ (conj _ (conj _ (conj _ (conj _ _)))))).
  - rewrite E1. apply (consumes_mid [T_ "{"; QUOTE] k).
  - rewrite E1.
    rewrite rd_app_r by (cbn [List.length]; unfold e1; lia).
    cbn [List.length]. replace (e1 - 2) with (List.length k + 0)
      by (unfold e1; lia).
    rewrite rd_app_r by lia.
    replace (List.length k + 0 - List.length k) with 0 by lia. reflexivity.
  - rewrite E1.
    rewrite rd_app_r by (cbn [List.length]; unfold e1; lia).
    cbn [List.length]. rewrite rd_app_r by (unfold e1; lia).
    replace (S e1 - 2 - List.length k) with 1 by (unfold e1; lia).
    reflexivity.
  - rewrite E1.
    rewrite rd_app_r by (cbn [List.length]; unfold e1; lia).
    cbn [List.length]. rewrite rd_app_r by (unfold e1; lia).
    replace (S (S e1) - 2 - List.length k) with 2 by (unfold e1; lia).
    reflexivity.
  - rewrite E2. rewrite <- L2. unfold e2. rewrite <- L2.
    apply consumes_mid.
  - rewrite E2. rewrite rd_app_r by lia. rewrite L2.
    rewrite rd_app_r by (unfold e2; lia).
    replace (e2 - vs - List.length v) with 0 by (unfold e2; lia). reflexivity.
  - rewrite E2. rewrite rd_app_r by lia. rewrite L2.
    rewrite rd_app_r by (unfold e2; lia).
    replace (S e2 - vs - List.length v) with 1 by (unfold e2; lia).
    reflexivity.
Qed.

Lemma objValue_turn_text_member (b : buffer) (M : memory) (K nf obj ptr : nat)
    (k v kn vn : list CHAR_T) :
  type (node M obj) = JSON_OBJ -> nf < K -> rd b ptr = QUOTE ->
  unescape k = Some kn -> unescape v = Some vn ->
  let e1 := S ptr + List.length k in
  let vs := S (S (S e1)) in
  let e2 := vs + List.length v in
  consumes b (S ptr) e1 k -> rd b e1 = QUOTE -> rd b (S e1) = T_ ":" ->
  rd b (S (S e1)) = QUOTE -> consumes b vs e2 v -> rd b e2 = QUOTE ->
  exists b2,
    objValue_turn (mk_pstate ptr obj b M (mk_spool K nf))
    = Ret (Continue
             (mk_pstate (S e2) obj b2
                (upd (add (upd M nf (set_name (Some (S ptr)))) obj nf) nf
                     (fun n => set_type JSON_TEXT (set_u_value (Some vs) n)))
                (mk_spool K (S nf))))
    /\ consumes b2 (S ptr) (S ptr + List.length kn) kn
    /\ rd b2 (S ptr + List.length kn) = NUL
    /\ consumes b2 vs (vs + List.length vn) vn
    /\ rd b2 (vs + List.length vn) = NUL
    /\ List.length b2 = List.length b
    /\ (forall i, i < S ptr \/ S e2 <= i -> rd b2 i = rd b i).
Proof.
  intros Hty HK Hq Huk Huv e1 vs e2 Ck Re1 Rc Rvq Cv Re2.
  destruct (parseString_post b (S ptr) e1 k kn Huk Ck Re1)
    as (b1 & Hrun1 & Ckn & Rn1 & Hle1 & F1 & Hkn).
  destruct F1 as (_ & Hlen1 & Hout1 & _).
  destruct (unescape_facts _ v vn (Nat.le_refl _) Huv) as (_ & Hvn & Hv).
  assert (Cv1 : consumes b1 vs e2 v).
  { apply (consumes_agree v b b1 vs e2 Cv Hv).
    intros i Hi. symmetry. apply Hout1. right. unfold vs in Hi. lia. }
  assert (Re2' : rd b1 e2 = QUOTE).
  { rewrite Hout1; [exact Re2|]. right. unfold e2, vs. lia. }
  destruct (parseString_post b1 vs e2 v vn Huv Cv1 Re2')
    as (b2 & Hrun2 & Cvn & Rn2 & Hle2 & F2 & _).
  destruct F2 as (_ & Hlen2 & Hout2 & _).
  exists b2.
  split; [|split; [|split; [|split; [exact Cvn|split; [exact Rn2|split]]]]].
  - unfold objValue_turn. cbn [st_ptr st_obj st_buf st_mem st_pool].
    rewrite goBlank_here by (rewrite Hq; first [discriminate|reflexivity]).
    rewrite Hq, Hty.
    change (QUOTE =? T_ ",")%Z with false.
    change (jsonType_eqb JSON_OBJ JSON_OBJ) with true.
    change (QUOTE =? T_ "}")%Z with false.
    change (jsonType_eqb JSON_OBJ JSON_ARRAY) with false.
    change (QUOTE =? QUOTE)%Z with true. cbn [negb].
    cbn [alloc staticPool]. unfold poolAlloc. cbn [qty nextFree].
    destruct (Nat.leb_spec K nf) as [Hfull|_]; [lia|].
    unfold propertyName. rewrite Hrun1. cbn [obind].
    assert (Rc1 : rd b1 (S e1) = T_ ":")
      by (rewrite Hout1; [exact Rc|right; lia]).
    assert (Rvq1 : rd b1 (S (S e1)) = QUOTE)
      by (rewrite Hout1; [exact Rvq|right; lia]).
    rewrite goBlank_here by (rewrite Rc1; first [discriminate|reflexivity]).
    rewrite Rc1. change (T_ ":" =? T_ ":")%Z with true. cbn [negb].
    rewrite goBlank_here by (rewrite Rvq1; first [discriminate|reflexivity]).
    cbn [obind]. rewrite objValue_dispatch_eq. rewrite Rvq1.
    change (QUOTE =? T_ "{")%Z with false.
    change (QUOTE =? T_ "[")%Z with false.
    change (QUOTE =? QUOTE)%Z with true. cbv iota.
    unfold textValue. fold vs. rewrite Hrun2. cbn [obind scalar_turn].
    rewrite !upd_upd. reflexivity.
  - apply (consumes_agree kn b1 b2 _ _ Ckn Hkn).
    intros i Hi. symmetry. apply Hout2. left. unfold vs. lia.
  - rewrite Hout2; [exact Rn1|]. left. unfold vs. lia.
  - congruence.
  - intros i Hi. rewrite Hout2 by (unfold vs, e2 in *; lia).
    apply Hout1. unfold vs, e2 in *. lia.
Qed.

(** X13: from the parse to the lookup.  A document that is an Object with
    one member, a name and a text value whose escapes are well formed,
    parses with two nodes into the tree of that member under its unescaped
    name and with its unescaped value; [json_getPropertyValue] of the root
    and the unescaped name returns a pointer to the unescaped value, and
    returns null for every other name. *)
Theorem text_member_round_trip (k v kn vn rest : list CHAR_T) (mem : memory)
    (K : nat) :
  unescape k = Some kn -> unescape v = Some vn ->
  2 <= K -> 2 <= List.length mem ->
  exists r,
    json_create (T_ "{" :: QUOTE :: k ++ QUOTE :: T_ ":" :: QUOTE :: v
                   ++ QUOTE :: T_ "}" :: rest) mem K = Ret (Some r)
    /\ nodes_used r = 2
    /\ tree_of r = [JContainer JSON_OBJ None [JScalar JSON_TEXT (Some kn) vn]]
    /\ (exists vp,
           json_getPropertyValue 1 (p_buf r) (p_mem r) (p_root r) kn
           = Ret (Some vp)
           /\ cstr (p_buf r) vp = vn)
    /\ (forall other,
           cstr_from other <> kn ->
           json_getPropertyValue 1 (p_buf r) (p_mem r) (p_root r) other
           = Ret None).
Proof.
  intros Huk Huv HK Hmem.
  set (str := T_ "{" :: QUOTE :: k ++ QUOTE :: T_ ":" :: QUOTE :: v
                ++ QUOTE :: T_ "}" :: rest).
  set (e1 := 2 + List.length k). set (vs := S (S (S e1))).
  set (e2 := vs + List.length v).
  destruct (text_member_cells k v rest) as (Ck & Re1 & Rc & Rvq & Cv & Re2 & Rcl).
  fold str e1 vs e2 in Ck, Re1, Rc, Rvq, Cv, Re2, Rcl.
  set (M1 := upd mem 0
               (fun x => set_sibling None (set_u_c_child None
                  (set_type JSON_OBJ (set_u_c_child None (set_sibling None
                     (set_name None x))))))).
  assert (HM1 : List.length M1 = List.length mem) by apply upd_length.
  assert (Hn0 : node M1 0 = mk_json None None None
                              (u_c_last_child (node mem 0)) JSON_OBJ).
  { unfold M1. rewrite node_upd_in by lia. reflexivity. }
  assert (Hty0 : type (node M1 0) = JSON_OBJ) by (rewrite Hn0; reflexivity).
  destruct (objValue_turn_text_member str M1 K 1 0 1 k v kn vn Hty0
              ltac:(lia) eq_refl Huk Huv Ck Re1 Rc Rvq Cv Re2)
    as (b2 & Hturn & Ckn & Rn1 & Cvn & Rn2 & Hlen2 & Hout2).
  fold e1 vs e2 in Hturn, Ckn, Rn1, Cvn, Rn2, Hout2.
  set (g2 := fun n => set_type JSON_TEXT (set_u_value (Some vs) n)) in *.
  set (M3 := upd (add (upd M1 1 (set_name (Some 2))) 0 1) 1 g2) in *.
  assert (Hlast : forall l, last_linked M1 0 = Some l -> 0 < l < 1).
  { intros l Hl. unfold last_linked in Hl. rewrite Hn0 in Hl. discriminate. }
  destruct (member_nodes M1 0 1 (set_name (Some 2)) g2 Nat.lt_0_1
              ltac:(lia) Hlast) as (N1 & N0 & _ & _ & NlenM).
  fold M3 in N1, N0, NlenM. rewrite Hn0 in N0.
  change (node M3 0 = mk_json None None (Some 1) (Some 1) JSON_OBJ) in N0.
  change (node M3 1
          = mk_json None (Some 2) (Some vs)
              (u_c_last_child (node M1 1)) JSON_TEXT) in N1.
  assert (Hk2 : 2 + List.length kn <= e1).
  { destruct (unescape_facts _ k kn (Nat.le_refl _) Huk) as (Hl & _).
    unfold e1. lia. }
  assert (Hv2 : vs + List.length vn <= e2).
  { destruct (unescape_facts _ v vn (Nat.le_refl _) Huv) as (Hl & _).
    unfold e2. lia. }
  destruct (unescape_facts _ k kn (Nat.le_refl _) Huk) as (_ & Hkn & _).
  destruct (unescape_facts _ v vn (Nat.le_refl _) Huv) as (_ & Hvn & _).
  set (bf := wr b2 (S e2) NUL).
  assert (Hbf : forall i, i <= e2 -> rd bf i = rd b2 i)
    by (intros i Hi; apply rd_wr_other; lia).
  assert (Hname : cstr bf 2 = kn).
  { apply (cstr_consumed bf 2 (2 + List.length kn) kn).
    - apply (consumes_agree kn b2 bf _ _ Ckn Hkn).
      intros i Hi. symmetry. apply Hbf. unfold e2, vs. lia.
    - exact Hkn.
    - rewrite Hbf by (unfold e2, vs; lia). exact Rn1. }
  assert (Hvalue : cstr bf vs = vn).
  { apply (cstr_consumed bf vs (vs + List.length vn) vn).
    - apply (consumes_agree vn b2 bf _ _ Cvn Hvn).
      intros i Hi. symmetry. apply Hbf. lia.
    - exact Hvn.
    - rewrite Hbf by lia. exact Rn2. }
  exists (mk_parsed 0 bf M3 (mk_spool K 2)).
  cbn [p_root p_buf p_mem p_pool].
  split; [|split; [reflexivity|split; [|split]]].
  - unfold json_create, json_createWithPool, json_createWithPool_fuel.
    fold str.
    rewrite goBlank_here by first [discriminate|reflexivity].
    change (rd str 0) with (T_ "{").
    change (negb (T_ "{" =? T_ "{")%Z && negb (T_ "{" =? T_ "[")%Z)
      with false. cbv iota.
    cbn [init staticPool poolInit qty]. unfold objValue.
    change (rd str 0) with (T_ "{").
    change (T_ "{" =? T_ "{")%Z with true. cbv iota.
    rewrite !upd_upd. fold M1.
    rewrite objValue_loop_step, Hturn. cbn [obind].
    assert (Hfuel : exists f, List.length str = S f)
      by (unfold str; cbn [List.length]; eexists; reflexivity).
    destruct Hfuel as (f & ->).
    rewrite objValue_loop_step.
    rewrite (objValue_turn_close
               (mk_pstate (S e2) 0 b2 M3 (mk_spool K 2)) (S e2)).
    + unfold close_turn. cbn [st_mem st_obj st_buf st_pool st_ptr].
      rewrite N0. reflexivity.
    + cbn [st_buf st_ptr]. apply goBlank_here;
        (rewrite Hout2 by (right; lia)); rewrite Rcl;
        first [discriminate|reflexivity].
    + unfold endchar_of. cbn [st_buf st_mem st_obj]. rewrite N0.
      rewrite Hout2 by (right; lia). exact Rcl.
  - unfold tree_of. cbn [p_mem p_buf p_root].
    destruct (List.length M3) as [|[|n]] eqn:HlenM3; [lia|lia|].
    cbn [forest_of]. rewrite N0.
    cbn [type name u_c_child u_value sibling option_map forest_of].
    change (is_container JSON_OBJ) with true. cbv iota.
    cbn [forest_of]. rewrite N1.
    cbn [type name u_c_child u_value sibling option_map g2 set_type
         set_u_value set_sibling set_name forest_of].
    change (is_container JSON_TEXT) with false. cbv iota.
    rewrite Hname, Hvalue. destruct n; reflexivity.
  - exists vs. split; [|exact Hvalue].
    unfold json_getPropertyValue, json_getProperty.
    rewrite N0. cbn [u_c_child u_value json_getProperty_from].
    rewrite N1. cbn [name g2 set_type set_u_value set_sibling set_name].
    rewrite Hname, (cstr_from_id kn Hkn).
    rewrite (proj2 (strcmp_eq kn kn Hkn Hkn) eq_refl).
    cbn [Z.eqb obind]. rewrite N1. reflexivity.
  - intros other Hother.
    unfold json_getPropertyValue, json_getProperty.
    rewrite N0. cbn [u_c_child u_value json_getProperty_from].
    rewrite N1. cbn [name sibling g2 set_type set_u_value set_sibling set_name].
    rewrite Hname.
    destruct (Z.eqb_spec (strcmp kn (cstr_from other)) 0) as [E|_];
      [|reflexivity].
    exfalso. apply Hother. symmetry.
    apply (proj1 (strcmp_eq kn (cstr_from other) Hkn
                    (cstr_from_no_NUL other)) E).
Qed.

(** The theorem at a name and a value that hold escapes. *)
Lemma text_member_round_trip_witness :
  exists r vp,
    json_create (doc "{'a\'b':'x\ny'}") (fresh 2) 2 = Ret (Some r)
    /\ json_getPropertyValue 1 (p_buf r) (p_mem r) (p_root r)
         [97; QUOTE; 98]%Z = Ret (Some vp)
    /\ cstr (p_buf r) vp = [120; 10; 121]%Z.
Proof.
  destruct (text_member_round_trip
              [97; BACKSLASH; QUOTE; 98]%Z (T "x\ny")
              [97; QUOTE; 98]%Z [120; 10; 121]%Z [NUL] (fresh 2) 2
              eq_refl eq_refl (le_n 2) (le_n 2))
    as (r & Hr & _ & _ & (vp & Hv & Hc) & _).
  exists r, vp. split; [exact Hr|]. split; [exact Hv|exact Hc].
Defined.

(** ** Nodes the parse does not take *)

(** X14: the parse writes to the nodes it takes from the pool and to no
    other: after a successful parse with the fixed array pool, every cell
    of the node array from the pool's cursor on holds what it held before
    the call. *)
Theorem unused_nodes_untouched (str : buffer) (mem : memory) (K : nat)
    (r : @parsed jsonStaticPool_t) :
  json_create str mem K = Ret (Some r) -> 1 <= K <= List.length mem ->
  forall i, nodes_used r <= i -> node (p_mem r) i = node mem i.
Proof.
  intros Hrun HK.
  destruct (json_create_inv str mem K r Hrun HK)
    as (p & f & _ & _ & -> & _ & _ & _ & _ & _ & _ & Hrest).
  exact Hrest.
Qed.

(** The theorem at [[1,2]], with a fourth node that holds a Real type tag. *)
Lemma unused_nodes_untouched_witness :
  exists r,
    json_create (doc "[1,2]") (fresh 3 ++ [set_type JSON_REAL node0]) 4
    = Ret (Some r)
    /\ node (p_mem r) 3 = set_type JSON_REAL node0.
Proof.
  assert (Hrun : exists r,
             json_create (doc "[1,2]") (fresh 3 ++ [set_type JSON_REAL node0]) 4
             = Ret (Some r) /\ nodes_used r = 3).
  { eexists. split; [vm_compute; reflexivity|reflexivity]. }
  destruct Hrun as (r & Hrun & Hn). exists r. split; [exact Hrun|].
  assert (HK : 1 <= 4 <= List.length (fresh 3 ++ [set_type JSON_REAL node0]))
    by (vm_compute; lia).
  assert (Hi : nodes_used r <= 3) by (rewrite Hn; apply le_n).
  exact (unused_nodes_untouched _ _ _ _ Hrun HK 3 Hi).
Defined.

(** ** Unicode escapes *)

(** X15: a Unicode escape is checked, not decoded.  A backslash, [u] and
    four hexadecimal digits unescape to a question mark, whatever the
    digits, and the digits stay in the buffer behind the terminating NUL;
    when one of the four characters is not a hexadecimal digit the string
    is refused. *)
Theorem unicode_escape_not_decoded (pre rest : list CHAR_T)
    (h1 h2 h3 h4 : CHAR_T) :
  (isxdigit h1 && isxdigit h2 && isxdigit h3 && isxdigit h4 = true ->
   parseString (pre ++ [BACKSLASH; T_ "u"; h1; h2; h3; h4] ++ QUOTE :: rest)
               (List.length pre)
   = Ret (Some (List.length pre + 7,
                pre ++ [T_ "?"; NUL; h1; h2; h3; h4; QUOTE] ++ rest)))
  /\ (isxdigit h1 && isxdigit h2 && isxdigit h3 && isxdigit h4 = false ->
      parseString (pre ++ [BACKSLASH; T_ "u"; h1; h2; h3; h4] ++ rest)
                  (List.length pre)
      = Ret None).
Proof.
  split.
  - intros Hx.
    assert (Hu : unescape [BACKSLASH; T_ "u"; h1; h2; h3; h4] = Some [T_ "?"]).
    { cbn [unescape]. rewrite Hx. reflexivity. }
    pose proof (parseString_loop_unescapes _ _ (Nat.le_refl _) [T_ "?"] pre []
                  rest
                  (S (List.length
                        (pre ++ [BACKSLASH; T_ "u"; h1; h2; h3; h4]
                             ++ QUOTE :: rest))) Hu) as Hrun.
    cbn [app List.length skipn] in Hrun. rewrite Nat.add_0_r in Hrun.
    unfold parseString. cbn [app]. rewrite Hrun.
    + f_equal. f_equal. f_equal. lia.
    + rewrite length_app. cbn [List.length]. lia.
  - intros Hx. unfold parseString. rewrite parseString_loop_unfold.
    rewrite (parseString_turn_shift _
               ([BACKSLASH; T_ "u"; h1; h2; h3; h4] ++ rest)
               (List.length pre)).
    + unfold parseString_turn, getCharFromUnicode.
      cbn [app rd nth forallb Nat.add].
      rewrite andb_true_r, !andb_assoc, Hx. reflexivity.
    + intros i. rewrite rd_app_r by lia. f_equal. lia.
Qed.

(** The theorem at the escapes of [é] and of a non-digit. *)
Lemma unicode_escape_not_decoded_witness :
  parseString ([QUOTE] ++ [BACKSLASH; T_ "u"; 48; 48; 101; 57]%Z
                 ++ QUOTE :: [NUL]) 1
  = Ret (Some (8, [QUOTE] ++ [T_ "?"; NUL; 48; 48; 101; 57; QUOTE]%Z ++ [NUL]))
  /\ parseString ([QUOTE] ++ [BACKSLASH; T_ "u"; 48; 48; 103; 57]%Z
                    ++ [QUOTE; NUL]) 1 = Ret None.
Proof.
  split.
  - exact (proj1 (unicode_escape_not_decoded [QUOTE] [NUL]
                    48%Z 48%Z 101%Z 57%Z) eq_refl).
  - exact (proj2 (unicode_escape_not_decoded [QUOTE] [QUOTE; NUL]
                    48%Z 48%Z 103%Z 57%Z) eq_refl).
Defined.

(** ** The node array need not be initialised *)

Lemma propertyName_any (b : buffer) (M M2 : memory) (ptr property : nat) :
  propertyName b M2 ptr property
  = match propertyName b M ptr property with
    | Ret (Some (q, b', _)) =>
        Ret (Some (q, b', upd M2 property (set_name (Some (S ptr)))))
    | Ret None => Ret None
    | OutOfFuel => OutOfFuel
    end.
Proof.
  unfold propertyName.
  destruct (parseString b (S ptr)) as [[[q1 b1]|]|]; cbn [obind];
    try reflexivity.
  destruct (goBlank b1 q1) as [q2|]; [|reflexivity].
  destruct (negb (rd b1 q2 =? T_ ":")%Z); [reflexivity|].
  destruct (goBlank b1 (S q2)); reflexivity.
Qed.

Lemma numValue_any (b : buffer) (M M2 : memory) (ptr property : nat) :
  u_value (node M2 property) = u_value (node M property) ->
  numValue b M2 ptr property
  = match numValue b M ptr property with
    | Some (q, b', _) =>
        Some (q, b',
              upd M2 property
                (set_type (match numValue_scan b ptr with
                           | Some (_, ty) => ty
                           | None => JSON_INTEGER
                           end)))
    | None => None
    end.
Proof.
  intros Hu. unfold numValue.
  destruct (numValue_scan b ptr) as [[pe ty]|]; [|reflexivity].
  rewrite !u_value_upd_set_type, Hu.
  match goal with |- context [if ?c then _ else None] => destruct c end;
    [|reflexivity].
  destruct (setToNull b pe). reflexivity.
Qed.

Section AnyMemory.
Context {P : Type} `{jsonPool_t P}.

Lemma objValue_dispatch_any (b : buffer) (M M2 : memory) (pool : P)
    (ptr obj property : nat) :
  u_value (node M2 property) = u_value (node M property) ->
  objValue_dispatch b M2 pool ptr obj property
  = match objValue_dispatch b M pool ptr obj property with
    | Ret (Continue s') =>
        Ret (Continue (with_mem s'
                         (upd M2 property (dispatch_update b ptr obj))))
    | Ret (Return r) => Ret (Return None)
    | OutOfFuel => OutOfFuel
    end
  /\ forall s', objValue_dispatch b M pool ptr obj property = Ret (Continue s') ->
                st_mem s' = upd M property (dispatch_update b ptr obj).
Proof.
  intros Hu. rewrite !objValue_dispatch_eq. unfold dispatch_update.
  destruct (rd b ptr =? T_ "{")%Z.
  { rewrite !upd_upd. split; [reflexivity|].
    intros s' Hs. injection Hs as <-. reflexivity. }
  destruct (rd b ptr =? T_ "[")%Z.
  { rewrite !upd_upd. split; [reflexivity|].
    intros s' Hs. injection Hs as <-. reflexivity. }
  destruct (rd b ptr =? QUOTE)%Z.
  { unfold textValue.
    destruct (parseString b (S ptr)) as [[[q1 b1]|]|]; cbn [obind scalar_turn];
      rewrite ?upd_upd; (split; [reflexivity|]); intros s' Hs;
      try discriminate Hs.
    injection Hs as <-. reflexivity. }
  assert (Hprim : forall value ty,
             obind (Ret (primitiveValue b M2 ptr property value ty))
                   (fun r => Ret (scalar_turn obj pool r))
             = match obind (Ret (primitiveValue b M ptr property value ty))
                           (fun r => Ret (scalar_turn obj pool r)) with
               | Ret (Continue s') =>
                   Ret (Continue (with_mem s' (upd M2 property (set_type ty))))
               | Ret (Return r) => Ret (Return None)
               | OutOfFuel => OutOfFuel
               end
             /\ forall s',
                 obind (Ret (primitiveValue b M ptr property value ty))
                       (fun r => Ret (scalar_turn obj pool r))
                 = Ret (Continue s') ->
                 st_mem s' = upd M property (set_type ty)).
  { intros value ty. unfold primitiveValue.
    destruct (checkStr b ptr value) as [pe|];
      [|split; [reflexivity|intros s' Hs; discriminate Hs]].
    destruct (negb (isEndOfPrimitive (rd b pe)));
      [split; [reflexivity|intros s' Hs; discriminate Hs]|].
    destruct (setToNull b pe). cbn [obind scalar_turn].
    split; [reflexivity|]. intros s' Hs. injection Hs as <-. reflexivity. }
  destruct (rd b ptr =? T_ "t")%Z; [apply Hprim|].
  destruct (rd b ptr =? T_ "f")%Z; [apply Hprim|].
  destruct (rd b ptr =? T_ "n")%Z; [apply Hprim|].
  rewrite (numValue_any b M M2 ptr property Hu).
  destruct (numValue b M ptr property) as [[[q b'] M']|] eqn:Hn;
    cbn [obind scalar_turn];
    [|split; [reflexivity|intros s' Hs; discriminate Hs]].
  split; [reflexivity|]. intros s' Hs. injection Hs as <-. cbn [st_mem].
  unfold numValue in Hn.
  destruct (numValue_scan b ptr) as [[pe ty]|]; [|discriminate].
  match type of Hn with (if ?c then _ else _) = _ => destruct c end;
    [|discriminate].
  destruct (setToNull b pe). injection Hn as _ _ <-. reflexivity.
Qed.

End AnyMemory.

Section AnyMemoryTurn.
Context {P : Type} `{jsonPool_t P}.

Lemma objValue_turn_any (s : pstate P) (M2 : memory) (t : turn P) :
  List.length M2 = List.length (st_mem s) ->
  type (node M2 (st_obj s)) = type (node (st_mem s) (st_obj s)) ->
  sibling (node M2 (st_obj s)) = sibling (node (st_mem s) (st_obj s)) ->
  objValue_turn s = Ret t ->
  match t with
  | Return None => objValue_turn (with_mem s M2) = Ret (Return None)
  | Return (Some s') =>
      st_mem s' = st_mem s /\ st_pool s' = st_pool s
      /\ objValue_turn (with_mem s M2) = Ret (Return (Some (with_mem s' M2)))
  | Continue s' =>
      (st_mem s' = st_mem s /\ st_pool s' = st_pool s
       /\ objValue_turn (with_mem s M2) = Ret (Continue (with_mem s' M2)))
      \/ (st_mem s' = upd (st_mem s) (st_obj s) (set_sibling None)
          /\ st_pool s' = st_pool s
          /\ objValue_turn (with_mem s M2)
             = Ret (Continue (with_mem s'
                                (upd M2 (st_obj s) (set_sibling None)))))
      \/ (exists property nm bq q,
             alloc (st_pool s) = (Some property, st_pool s')
             /\ st_mem s'
                = member_update (st_mem s) (st_obj s) property nm bq q
             /\ objValue_turn (with_mem s M2)
                = Ret (Continue
                         (with_mem s'
                            (member_update M2 (st_obj s) property nm bq q))))
  end.
Proof.
  destruct s as [p obj b mem pool]. unfold objValue_turn, with_mem.
  cbn [st_ptr st_obj st_buf st_mem st_pool]. intros Hlen Hty Hsib.
  rewrite Hty, Hsib.
  destruct (goBlank b p) as [e|]; [|intros Hr; injection Hr as <-; reflexivity].
  destruct (rd b e =? T_ ",")%Z.
  { intros Hr. injection Hr as <-. left. repeat split; reflexivity. }
  match goal with
  | |- (if ?c then _ else _) = _ -> _ => destruct c
  end.
  { destruct (sibling (node mem obj)) as [parent|] eqn:Hs;
      intros Hr; injection Hr as <-.
    - right. left. repeat split; reflexivity.
    - repeat split; reflexivity. }
  destruct (alloc pool) as [[property|] pool'];
    [|intros Hr; injection Hr as <-; reflexivity].
  assert (Hnamed : exists nm,
             forall M : memory,
               (if negb (jsonType_eqb (type (node mem obj)) JSON_ARRAY)
                then if negb (rd b e =? QUOTE)%Z then Ret None
                     else propertyName b M e property
                else Ret (Some (e, b, upd M property (set_name None))))
               = match (if negb (jsonType_eqb (type (node mem obj)) JSON_ARRAY)
                        then if negb (rd b e =? QUOTE)%Z then Ret None
                             else propertyName b mem e property
                        else Ret (Some (e, b, upd mem property (set_name None))))
                 with
                 | Ret (Some (q, b', _)) =>
                     Ret (Some (q, b', upd M property (set_name nm)))
                 | Ret None => Ret None
                 | OutOfFuel => OutOfFuel
                 end).
  { destruct (negb (jsonType_eqb (type (node mem obj)) JSON_ARRAY)).
    - exists (Some (S e)). intros M.
      destruct (negb (rd b e =? QUOTE)%Z); [reflexivity|].
      apply propertyName_any.
    - exists None. intros M. reflexivity. }
  destruct Hnamed as (nm & Hnamed).
  rewrite (Hnamed M2). pose proof (Hnamed mem) as Hself.
  match goal with
  | |- obind ?m _ = _ -> _ => destruct m as [[[[q1 bs] mem0]|]|] eqn:Hname
  end; cbn [obind];
    try (intros Hr; try discriminate Hr; injection Hr as <-; reflexivity).
  injection Hself as ->.
  set (Ma := upd (add (upd mem property (set_name nm)) obj property) property
                 (set_u_value (Some q1))).
  set (M2a := upd (add (upd M2 property (set_name nm)) obj property) property
                  (set_u_value (Some q1))).
  assert (Hu : u_value (node M2a property) = u_value (node Ma property)).
  { unfold M2a, Ma. rewrite !node_upd_same.
    rewrite !add_length, !upd_length, Hlen. 
    destruct (property <? List.length mem); reflexivity. }
  destruct (objValue_dispatch_any bs Ma M2a pool' q1 obj property Hu)
    as [Hany Hmem].
  rewrite Hany. intros Hdisp. rewrite Hdisp.
  destruct t as [s'|[s'|]].
  - right. right. exists property, nm, bs, q1.
    pose proof (Hmem s' Hdisp) as Hm.
    assert (Hpool : st_pool s' = pool').
    { destruct (objValue_dispatch_shape _ _ _ _ _ _ _ Hdisp) as [Hp _].
      exact Hp. }
    split; [rewrite Hpool; reflexivity|].
    unfold member_update. split.
    + rewrite Hm. unfold Ma. apply upd_upd.
    + unfold M2a. rewrite upd_upd. reflexivity.
  - exfalso. exact (proj2 (objValue_dispatch_outcome _ _ _ _ _ _) s' Hdisp).
  - reflexivity.
Qed.

End AnyMemoryTurn.

Lemma dispatch_new_node (b : buffer) (q obj : nat) (nm : option nat)
    (n n' : json_t) :
  let G := fun x => dispatch_update b q obj
                      (set_u_value (Some q) (set_sibling None (set_name nm x))) in
  sibling (G n) = sibling (G n') /\ name (G n) = name (G n')
  /\ u_value (G n) = u_value (G n') /\ type (G n) = type (G n')
  /\ (type (G n) = JSON_OBJ \/ type (G n) = JSON_ARRAY ->
      u_c_child (G n) = None).
Proof.
  cbv zeta. unfold dispatch_update.
  repeat match goal with
         | |- context [if ?c then _ else _] => destruct c
         end; cbn; repeat split; try reflexivity;
    try (intros [E|E]; discriminate E).
  all: destruct (numValue_scan b q) as [[pe ty]|] eqn:Hs;
    intros [E|E]; try discriminate E.
  all: destruct (numValue_scan_type b q pe ty Hs) as [-> | ->]; discriminate E.
Qed.

Lemma same_tree_last (nf : nat) (M M2 : memory) (obj : nat) :
  same_tree nf M M2 -> obj < nf ->
  type (node M obj) = JSON_OBJ \/ type (node M obj) = JSON_ARRAY ->
  last_linked M2 obj = last_linked M obj.
Proof.
  intros [_ Hs] Hobj Hty. destruct (Hs obj Hobj) as (_ & _ & Hu & _ & Hl).
  unfold last_linked, u_c_child in *. rewrite <- Hu.
  destruct (u_value (node M obj)) as [c|] eqn:Hc; [|reflexivity].
  symmetry. apply Hl; [exact Hty|discriminate].
Qed.

Lemma same_tree_close (nf : nat) (M M2 : memory) (obj : nat) :
  same_tree nf M M2 -> obj < List.length M ->
  same_tree nf (upd M obj (set_sibling None)) (upd M2 obj (set_sibling None)).
Proof.
  intros [Hlen Hs] Hin. split; [rewrite !upd_length; exact Hlen|].
  intros i Hi. destruct (Nat.eq_dec i obj) as [->|Hio].
  - rewrite !node_upd_in by (try rewrite <- Hlen; exact Hin).
    destruct (Hs obj Hi) as (_ & E2 & E3 & E4 & E5).
    cbn. repeat split; assumption.
  - rewrite !node_upd_other by congruence. apply Hs. exact Hi.
Qed.

Lemma same_tree_member (nf : nat) (M M2 : memory) (obj : nat)
    (nm : option nat) (b : buffer) (q : nat) :
  same_tree nf M M2 -> obj < nf -> nf < List.length M ->
  type (node M obj) = JSON_OBJ \/ type (node M obj) = JSON_ARRAY ->
  (forall l, last_linked M obj = Some l -> obj < l < nf) ->
  same_tree (S nf) (member_update M obj nf nm b q)
            (member_update M2 obj nf nm b q).
Proof.
  intros Hsim Hobj Hnf Hty Hlast.
  pose proof (same_tree_last nf M M2 obj Hsim Hobj Hty) as Hll.
  destruct Hsim as [Hlen Hs].
  set (g2 := fun n => dispatch_update b q obj (set_u_value (Some q) n)).
  destruct (member_nodes M obj nf (set_name nm) g2 Hobj Hnf Hlast)
    as (A1 & A2 & A3 & A4 & A5).
  destruct (member_nodes M2 obj nf (set_name nm) g2 Hobj
              ltac:(rewrite <- Hlen; exact Hnf))
    as (B1 & B2 & B3 & B4 & B5).
  { intros l Hl. rewrite Hll in Hl. apply Hlast. exact Hl. }
  unfold member_update. fold g2.
  split; [rewrite A5, B5; exact Hlen|].
  intros i Hi. destruct (Nat.eq_dec i nf) as [->|Hin].
  - rewrite A1, B1. unfold g2.
    pose proof (dispatch_new_node b q obj nm (node M nf) (node M2 nf)) as D.
    cbv zeta in D. destruct D as (D1 & D2 & D3 & D4 & D5).
    repeat split; try assumption.
    intros T C. exfalso. apply C. apply D5. exact T.
  - destruct (Hs obj Hobj) as (O1 & O2 & O3 & O4 & O5).
    destruct (Nat.eq_dec i obj) as [->|Hio].
    + rewrite A2, B2. unfold u_c_child in *. rewrite <- O3.
      destruct (u_value (node M obj)) as [c|] eqn:Hc; cbn;
        repeat split; try assumption; try reflexivity; congruence.
    + destruct (Hs i ltac:(lia)) as (I1 & I2 & I3 & I4 & I5).
      destruct (last_linked M obj) as [l|] eqn:Hl.
      * destruct (Nat.eq_dec i l) as [->|Hil].
        -- rewrite (A3 l eq_refl), (B3 l Hll). cbn.
           repeat split; assumption.
        -- rewrite A4, B4 by (try rewrite Hll; congruence).
           repeat split; assumption.
      * rewrite A4, B4 by (try rewrite Hll; congruence).
        repeat split; assumption.
Qed.

Lemma tree_sim_turn (s : pstate jsonStaticPool_t) (path : list nat)
    (M2 : memory) (t : turn jsonStaticPool_t) :
  tree_inv s path ->
  same_tree (nextFree (st_pool s)) (st_mem s) M2 ->
  objValue_turn s = Ret t ->
  match t with
  | Return None => objValue_turn (with_mem s M2) = Ret (Return None)
  | Return (Some s') =>
      exists M2',
        objValue_turn (with_mem s M2) = Ret (Return (Some (with_mem s' M2')))
        /\ same_tree (nextFree (st_pool s')) (st_mem s') M2'
  | Continue s' =>
      exists M2',
        objValue_turn (with_mem s M2) = Ret (Continue (with_mem s' M2'))
        /\ same_tree (nextFree (st_pool s')) (st_mem s') M2'
  end.
Proof.
  intros Hinv Hsim Hrun.
  pose proof Hinv as (Hq & Hlen & Hobj & Hpath & Hlast & _).
  pose proof (open_path_type _ _ _ Hpath) as Hty.
  destruct (proj2 Hsim (st_obj s) Hobj) as (S1 & _ & _ & S4 & _).
  pose proof (objValue_turn_any s M2 t (eq_sym (proj1 Hsim)) (eq_sym S4)
                (eq_sym S1) Hrun) as Hany.
  destruct t as [s'|[s'|]].
  - destruct Hany as [(Hm & Hp & Ht) | [(Hm & Hp & Ht)
                      | (property & nm & bq & q & Hal & Hm & Ht)]].
    + exists M2. split; [exact Ht|]. rewrite Hm, Hp. exact Hsim.
    + eexists. split; [exact Ht|]. rewrite Hm, Hp.
      apply same_tree_close; [exact Hsim|lia].
    + eexists. split; [exact Ht|]. rewrite Hm.
      cbn [alloc staticPool] in Hal.
      destruct (poolAlloc_spec (st_pool s)) as [_ Hsome].
      destruct (Hsome property (st_pool s') Hal) as (-> & Hfree & ->).
      cbn [nextFree]. apply same_tree_member; try assumption. lia.
  - destruct Hany as (Hm & Hp & Ht). exists M2. split; [exact Ht|].
    rewrite Hm, Hp. exact Hsim.
  - exact Hany.
Qed.

Lemma tree_sim_loop (fuel : nat) :
  forall (s : pstate jsonStaticPool_t) (path : list nat) (M2 : memory),
    tree_inv s path ->
    same_tree (nextFree (st_pool s)) (st_mem s) M2 ->
    match objValue_loop fuel s with
    | Ret (Some f) =>
        exists M2',
          objValue_loop fuel (with_mem s M2) = Ret (Some (with_mem f M2'))
          /\ same_tree (nextFree (st_pool f)) (st_mem f) M2'
    | Ret None => objValue_loop fuel (with_mem s M2) = Ret None
    | OutOfFuel => True
    end.
Proof.
  induction fuel as [|fuel IH]; intros s path M2 Hinv Hsim; [exact I|].
  rewrite !objValue_loop_step.
  destruct (objValue_turn s) as [t|] eqn:Ht; [|exact I].
  pose proof (tree_sim_turn s path M2 t Hinv Hsim Ht) as Hturn.
  destruct t as [s'|[f|]]; cbn [obind].
  - destruct Hturn as (M2' & Ht2 & Hsim').
    destruct (tree_inv_turn s s' path _ Hinv Ht (or_introl eq_refl))
      as ((path' & Hinv' & _) & _).
    rewrite Ht2. cbn [obind]. exact (IH s' path' M2' Hinv' Hsim').
  - destruct Hturn as (M2' & Ht2 & Hsim').
    exists M2'. rewrite Ht2. split; [reflexivity|exact Hsim'].
  - rewrite Hturn. reflexivity.
Qed.

Lemma forest_of_same (nf : nat) (M M' : memory) (b : buffer) :
  same_tree nf M M' ->
  (forall i, i < nf -> forward_link i nf (sibling (node M i))) ->
  (forall i, i < nf ->
             type (node M i) = JSON_OBJ \/ type (node M i) = JSON_ARRAY ->
             forward_link i nf (u_c_child (node M i))) ->
  forall fuel p,
    (forall i, p = Some i -> i < nf) ->
    forest_of fuel b M' p = forest_of fuel b M p.
Proof.
  intros [_ Hs] Hsib Hchild. induction fuel as [|fuel IH]; intros p Hp;
    [reflexivity|].
  destruct p as [i|]; [|reflexivity].
  pose proof (Hp i eq_refl) as Hi. cbn [forest_of].
  destruct (Hs i Hi) as (E1 & E2 & E3 & E4 & _).
  unfold u_c_child in *. rewrite <- E1, <- E2, <- E3, <- E4.
  assert (Hnext : forest_of fuel b M' (sibling (node M i))
                  = forest_of fuel b M (sibling (node M i))).
  { apply IH. intros j Hj. specialize (Hsib i Hi). rewrite Hj in Hsib.
    cbn in Hsib. lia. }
  rewrite Hnext.
  destruct (is_container (type (node M i))) eqn:Hc; [|reflexivity].
  assert (Hty : type (node M i) = JSON_OBJ \/ type (node M i) = JSON_ARRAY)
    by (destruct (type (node M i)); auto; discriminate Hc).
  rewrite IH; [reflexivity|].
  intros j Hj. specialize (Hchild i Hi Hty). rewrite Hj in Hchild.
  cbn in Hchild. lia.
Qed.

Lemma json_create_any_memory (str : buffer) (mem mem' : memory)
    (K : nat) :
  1 <= K <= List.length mem -> List.length mem' = List.length mem ->
  (json_create str mem K = Ret None -> json_create str mem' K = Ret None)
  /\ forall r,
       json_create str mem K = Ret (Some r) ->
       exists r',
         json_create str mem' K = Ret (Some r')
         /\ p_root r' = p_root r /\ p_buf r' = p_buf r
         /\ p_pool r' = p_pool r
         /\ same_tree (nodes_used r) (p_mem r) (p_mem r')
         /\ tree_of r' = tree_of r.
Proof.
  intros HK Hlen.
  unfold json_create, json_createWithPool, json_createWithPool_fuel.
  destruct (goBlank str 0) as [p|]; [|split; [reflexivity|discriminate]].
  destruct (negb (rd str p =? T_ "{")%Z && negb (rd str p =? T_ "[")%Z);
    [split; [reflexivity|discriminate]|].
  cbn [init staticPool poolInit qty]. unfold objValue. rewrite !upd_upd.
  set (ty := if (rd str p =? T_ "{")%Z then JSON_OBJ else JSON_ARRAY).
  set (g := fun n => set_sibling None (set_u_c_child None (set_type ty
              (set_u_c_child None (set_sibling None (set_name None n)))))).
  set (s := mk_pstate (S p) 0 str (upd mem 0 g) (mk_spool K 1)).
  change (mk_pstate (S p) 0 str (upd mem' 0 g) (mk_spool K 1))
    with (with_mem s (upd mem' 0 g)).
  assert (Hinv : tree_inv s []).
  { unfold tree_inv, s. cbn [st_mem st_pool st_obj nextFree qty].
    refine (conj (proj1 HK) (conj _ (conj (Nat.lt_0_1)
              (conj _ (conj _ (conj _ _)))))).
    - rewrite upd_length. exact (proj2 HK).
    - apply open_root; rewrite node_upd_in by lia; [reflexivity|].
      unfold g, ty. cbn [type set_sibling set_u_c_child set_u_value set_type].
      destruct (rd str p =? T_ "{")%Z; [left|right]; reflexivity.
    - intros l Hl. unfold last_linked in Hl.
      rewrite node_upd_in in Hl by lia. discriminate Hl.
    - intros i Hi Hi0. lia.
    - intros i Hi _. replace i with 0 by lia.
      rewrite node_upd_in by lia. exact I. }
  assert (Hsim : same_tree (nextFree (st_pool s)) (st_mem s) (upd mem' 0 g)).
  { unfold s. cbn [st_mem st_pool nextFree]. split.
    - rewrite !upd_length. symmetry. exact Hlen.
    - intros i Hi. replace i with 0 by lia.
      rewrite !node_upd_in by lia. unfold g. cbn.
      repeat split; try reflexivity. intros _ C. contradiction C. reflexivity. }
  pose proof (tree_sim_loop (S (List.length str)) s [] _ Hinv Hsim) as Hloop.
  destruct (objValue_loop (S (List.length str)) s) as [[f|]|] eqn:Hrun;
    cbn [obind].
  - destruct Hloop as (M2' & Hrun2 & Hsim').
    split; [discriminate|]. intros r Hr. injection Hr as <-.
    rewrite Hrun2. cbn [obind].
    eexists. split; [reflexivity|]. cbn [p_root p_buf p_mem p_pool with_mem
      st_buf st_mem st_pool st_ptr st_obj].
    split; [reflexivity|]. split; [reflexivity|]. split; [reflexivity|].
    split; [exact Hsim'|].
    destruct (tree_inv_loop _ s f [] Hinv Hrun)
      as (Hf & Hof & _).
    destruct Hf as (_ & _ & _ & Hpath & _ & Hsib & Hchild).
    rewrite Hof in *.
    unfold tree_of. cbn [p_root p_buf p_mem].
    rewrite <- (proj1 Hsim').
    apply (forest_of_same (nextFree (st_pool f)) (st_mem f) M2' (st_buf f)
             Hsim').
    + intros k Hk. destruct (Nat.eq_dec k 0) as [->|Hk0].
      * inversion Hpath as [Hs0 Ht0|]. rewrite Hs0. exact I.
      * apply Hsib; [exact Hk|exact Hk0|intros []].
    + exact Hchild.
    + intros i Hi. injection Hi as <-.
      destruct (tree_inv_loop _ s f [] Hinv Hrun) as (_ & _ & Hnf & _).
      unfold s in Hnf. cbn [st_pool nextFree] in Hnf. lia.
  - rewrite Hloop. cbn [obind]. split; [reflexivity|discriminate].
  - split; discriminate.
Qed.


(** X16: the node array need not be initialised.  Two node arrays of the
    same size, whatever they hold, give the same outcome: the parse fails
    with both or succeeds with both, and then with the same root, the same
    buffer, the same pool state and the same tree; the two arrays left
    behind agree, on every node in use, in the links, the name, the value
    and the type. *)
Theorem node_array_contents_irrelevant (str : buffer) (mem mem' : memory)
    (K : nat) :
  1 <= K <= List.length mem -> List.length mem' = List.length mem ->
  (json_create str mem K = Ret None <-> json_create str mem' K = Ret None)
  /\ forall r,
       json_create str mem K = Ret (Some r) ->
       exists r',
         json_create str mem' K = Ret (Some r')
         /\ p_root r' = p_root r /\ p_buf r' = p_buf r
         /\ p_pool r' = p_pool r
         /\ same_tree (nodes_used r) (p_mem r) (p_mem r')
         /\ tree_of r' = tree_of r.
Proof.
  intros HK Hlen.
  destruct (json_create_any_memory str mem mem' K HK Hlen) as [Hfail Hok].
  assert (HK' : 1 <= K <= List.length mem') by (rewrite Hlen; exact HK).
  destruct (json_create_any_memory str mem' mem K HK' (eq_sym Hlen))
    as [Hfail' _].
  split; [split; assumption|exact Hok].
Qed.

(** The theorem at [{'a':[1,null]}], with a blank array and with one whose
    nodes all hold stale links and a Real type tag. *)
Lemma node_array_contents_irrelevant_witness :
  exists r r',
    json_create (doc "{'a':[1,null]}") (fresh 4) 4 = Ret (Some r)
    /\ json_create (doc "{'a':[1,null]}")
         (repeat (mk_json (Some 3) (Some 2) (Some 1) (Some 2) JSON_REAL) 4) 4
       = Ret (Some r')
    /\ tree_of r' = tree_of r.
Proof.
  assert (Hrun : exists r, json_create (doc "{'a':[1,null]}") (fresh 4) 4
                           = Ret (Some r)).
  { eexists. vm_compute. reflexivity. }
  destruct Hrun as (r & Hrun). exists r.
  assert (HK : 1 <= 4 <= List.length (fresh 4)) by (vm_compute; lia).
  destruct (proj2 (node_array_contents_irrelevant (doc "{'a':[1,null]}")
                     (fresh 4)
                     (repeat (mk_json (Some 3) (Some 2) (Some 1) (Some 2)
                                JSON_REAL) 4) 4 HK eq_refl) r Hrun)
    as (r' & Hr' & _ & _ & _ & _ & Ht).
  exists r'. split; [exact Hrun|]. split; [exact Hr'|exact Ht].
Defined.
